(** * The pose ring of the CloudXR ARCore client

    A shallow embedding of the parts of
    [hello_ar_application.cc] (class [HelloArApplication::CloudXRClient])
    that carry logic of their own: the ring of pose matrices
    ([SetPoseMatrix], [GetTrackingState], [DetermineOffset]), the frame latch
    ([Latch], [Release]) and the stream resolution ([SetStreamRes]).

    Floats are IEEE-754 binary32 values, modelled with the parametric
    operations of [SpecFloat] at precision 24 and maximal exponent 128.
    C++ [int] and [uint32_t] are modelled in [Z]; [%] is [Z.rem]. *)

From Stdlib Require Import ZArith List Bool Lia SpecFloat Ascii.
From stdpp Require Import base list gmap.
Import ListNotations.

#[local] Open Scope Z_scope.

(** ** binary32 arithmetic *)

Module Float32.

Definition prec : Z := 24.
Definition emax : Z := 128.

Definition float := spec_float.

Definition zero : float := S754_zero false.

(** [a - b] on [float] operands. *)
Definition sub (a b : float) : float := SFsub prec emax a b.

(** [a * b] on [float] operands. *)
Definition mul (a b : float) : float := SFmul prec emax a b.

(** [fabsf]. *)
Definition fabsf (a : float) : float := SFabs a.

(** [a >= b]; false as soon as one side is a NaN. *)
Definition geb (a b : float) : bool := SFleb b a.

(** [a <= b]. *)
Definition leb (a b : float) : bool := SFleb a b.

(** [(float)n] for an integer [n]: round to nearest, ties to even. *)
Definition of_Z (n : Z) : float := binary_normalize prec emax n 0 false.

(** [round]: the nearest integer, halfway cases away from zero; the
    result is again a binary32 value (an integer below [2^24] is
    representable, and a value with a non-negative exponent is already an
    integer). *)
Definition round (a : float) : float :=
  match a with
  | S754_finite s mx ex =>
      if 0 <=? ex then a
      else
        let n := (Zpos mx + 2 ^ (- ex - 1)) / 2 ^ (- ex) in
        binary_normalize prec emax (cond_Zopp s n) 0 s
  | _ => a
  end.

(** [(uint32_t)a]: truncation towards zero; the conversion has no defined
    behaviour ([None]) when the truncated value is not a [uint32_t], or
    when [a] is an infinity or a NaN. *)
Definition to_uint32 (a : float) : option Z :=
  match a with
  | S754_zero _ => Some 0
  | S754_finite s mx ex =>
      let t :=
        if 0 <=? ex then cond_Zopp s (Zpos mx * 2 ^ ex)
        else Z.quot (cond_Zopp s (Zpos mx)) (2 ^ (- ex)) in
      if (0 <=? t) && (t <? 2 ^ 32) then Some t else None
  | _ => None
  end.

(** The literal [0.0001f]: bit pattern [0x38D1B717]. *)
Definition lit_0_0001 : float := S754_finite false 13743895 (-37).

(** The literal [0.75f]. *)
Definition lit_0_75 : float := S754_finite false 12582912 (-24).

(** The literals [0.5f] and [1.0f]. *)
Definition lit_0_5 : float := S754_finite false 8388608 (-24).
Definition lit_1_0 : float := S754_finite false 8388608 (-23).

End Float32.

Abbreviation float := Float32.float.

(** ** Matrices *)

(** [glm::vec4] and [glm::mat4]: a [mat4] is four columns, [pose_mat[c]] is
    column [c] and [pose_mat[c][r]] its component [r]. *)
Record vec4 := Vec4 { vx : float; vy : float; vz : float; vw : float }.

Record mat4 := Mat4 { col0 : vec4; col1 : vec4; col2 : vec4; col3 : vec4 }.

Definition vec4_at (v : vec4) (r : Z) : float :=
  match r with
  | 0 => vx v | 1 => vy v | 2 => vz v | 3 => vw v
  | _ => Float32.zero
  end.

Definition mat4_col (a : mat4) (c : Z) : vec4 :=
  match c with
  | 0 => col0 a | 1 => col1 a | 2 => col2 a | _ => col3 a
  end.

(** [pose_mat[c][r]]. *)
Definition mat4_at (a : mat4) (c r : Z) : float := vec4_at (mat4_col a c) r.

(** [cxrMatrix34]: [float m[3][4]], row major. *)
Record cxrMatrix34 := CxrMatrix34 {
  m00 : float; m01 : float; m02 : float; m03 : float;
  m10 : float; m11 : float; m12 : float; m13 : float;
  m20 : float; m21 : float; m22 : float; m23 : float
}.

(** [a.m[i][j]]. *)
Definition m (a : cxrMatrix34) (i j : Z) : float :=
  match i, j with
  | 0, 0 => m00 a | 0, 1 => m01 a | 0, 2 => m02 a | 0, 3 => m03 a
  | 1, 0 => m10 a | 1, 1 => m11 a | 1, 2 => m12 a | 1, 3 => m13 a
  | 2, 0 => m20 a | 2, 1 => m21 a | 2, 2 => m22 a | 2, 3 => m23 a
  | _, _ => Float32.zero
  end.

Definition cxrMatrix34_of (f : Z -> Z -> float) : cxrMatrix34 :=
  CxrMatrix34 (f 0 0) (f 0 1) (f 0 2) (f 0 3)
              (f 1 0) (f 1 1) (f 1 2) (f 1 3)
              (f 2 0) (f 2 1) (f 2 2) (f 2 3).

(** [a.m[i][j] = v]. *)
Definition set_m (a : cxrMatrix34) (i j : Z) (v : float) : cxrMatrix34 :=
  cxrMatrix34_of
    (fun i' j' => if (i' =? i) && (j' =? j) then v else m a i' j').

(** A value-initialised ([= {}]) matrix. *)
Definition cxrMatrix34_zero : cxrMatrix34 :=
  let z := Float32.zero in CxrMatrix34 z z z z z z z z z z z z.

(** [cxrFramesLatched]: of the SDK's structure this file reads only
    [poseMatrix]. *)
Record cxrFramesLatched := CxrFramesLatched { poseMatrix : cxrMatrix34 }.

(** [cxrVector3], [cxrQuaternion] and the part of [cxrTrackedDevicePose]
    that [GetTrackingState] sets. *)
Record cxrVector3 := CxrVector3 { v0 : float; v1 : float; v2 : float }.

Record cxrQuaternion := CxrQuaternion {
  qw : float; qx : float; qy : float; qz : float
}.

Inductive cxrTrackingResult :=
| cxrTrackingResult_Uninitialized
| cxrTrackingResult_Running_OK.

Record cxrTrackedDevicePose := CxrTrackedDevicePose {
  position : cxrVector3;
  rotation : cxrQuaternion;
  poseIsValid : bool;
  deviceIsConnected : bool;
  trackingResult : cxrTrackingResult
}.

(** ** The client object *)

Definition cxrReceiverHandle := Z.

Record CloudXRClient := Client {
  cloudxr_receiver_ : option cxrReceiverHandle;
  res_factor_ : float;
  stream_width_ : Z;
  stream_height_ : Z;
  framesLatched_ : cxrFramesLatched;
  latched_ : bool;
  pose_matrix_ : list cxrMatrix34;
  current_idx_ : Z
}.

(** The twelve assignments of [SetPoseMatrix]: the upper three rows of the
    column-major [pose_mat], transposed into the row-major [cxrMatrix34]. *)
Definition pose_of_mat4 (pose_mat : mat4) : cxrMatrix34 :=
  {| m00 := mat4_at pose_mat 0 0;
     m01 := mat4_at pose_mat 1 0;
     m02 := mat4_at pose_mat 2 0;
     m03 := mat4_at pose_mat 3 0;
     m10 := mat4_at pose_mat 0 1;
     m11 := mat4_at pose_mat 1 1;
     m12 := mat4_at pose_mat 2 1;
     m13 := mat4_at pose_mat 3 1;
     m20 := mat4_at pose_mat 0 2;
     m21 := mat4_at pose_mat 1 2;
     m22 := mat4_at pose_mat 2 2;
     m23 := mat4_at pose_mat 3 2 |}.

(** The test of the two inner loops of [DetermineOffset]: [notMatch] counts
    the components [(i, j)] with
    [fabsf(pose_matrix.m[i][j] - target.m[i][j]) >= 0.0001f]. *)
Definition component_differs (a b : cxrMatrix34) (i j : Z) : bool :=
  Float32.geb (Float32.fabsf (Float32.sub (m a i j) (m b i j)))
              Float32.lit_0_0001.

Definition notMatch (a b : cxrMatrix34) : Z :=
  fold_left
    (fun acc i =>
       fold_left
         (fun acc j => if component_differs a b i j then acc + 1 else acc)
         [0; 1; 2; 3] acc)
    [0; 1; 2] 0.

(** [0 == notMatch]: the matrices are close enough to qualify as equal. *)
Definition close_enough (a b : cxrMatrix34) : bool := 0 =? notMatch a b.

Section Ring.

(** [kQueueLen] is [BackgroundRenderer::kQueueLen], a positive [constexpr
    int] declared outside this file. *)
Variable kQueueLen : Z.

(** [pose_matrix_[idx]]; the array has [kQueueLen] elements and an access
    outside it has no defined behaviour, here it reads a zero matrix.
    [slot_index_in_range] below shows that no access of this file leaves
    the array. *)
Definition slot (ring : list cxrMatrix34) (idx : Z) : cxrMatrix34 :=
  if (0 <=? idx) && (idx <? kQueueLen)
  then default cxrMatrix34_zero (ring !! Z.to_nat idx)
  else cxrMatrix34_zero.

(** The member initialisers of the class. *)
Definition initial : CloudXRClient :=
  {| cloudxr_receiver_ := None;
     res_factor_ := Float32.lit_0_75;
     stream_width_ := 720;
     stream_height_ := 1440;
     framesLatched_ := CxrFramesLatched cxrMatrix34_zero;
     latched_ := false;
     pose_matrix_ := replicate (Z.to_nat kQueueLen) cxrMatrix34_zero;
     current_idx_ := 0 |}.

(** [SetPoseMatrix]: write the slot at the cursor, then advance it. *)
Definition SetPoseMatrix (c : CloudXRClient) (pose_mat : mat4)
  : CloudXRClient :=
  {| cloudxr_receiver_ := cloudxr_receiver_ c;
     res_factor_ := res_factor_ c;
     stream_width_ := stream_width_ c;
     stream_height_ := stream_height_ c;
     framesLatched_ := framesLatched_ c;
     latched_ := latched_ c;
     pose_matrix_ :=
       <[Z.to_nat (current_idx_ c) := pose_of_mat4 pose_mat]>
         (pose_matrix_ c);
     current_idx_ := Z.rem (current_idx_ c + 1) kQueueLen |}.

(** The index expression of [DetermineOffset]. *)
Definition offset_index (cur offset : Z) : Z :=
  if cur <? offset
  then kQueueLen + Z.rem (cur - offset) kQueueLen
  else Z.rem (cur - offset) kQueueLen.

(** The [for] loop of [DetermineOffset], entered with [offset] and with
    [n = kQueueLen - offset] iterations left; leaving the loop without a
    match returns 0. *)
Fixpoint DetermineOffset_from (c : CloudXRClient) (n : nat) (offset : Z)
  : Z :=
  match n with
  | O => 0
  | S n' =>
      let idx := offset_index (current_idx_ c) offset in
      if close_enough (slot (pose_matrix_ c) idx)
                      (poseMatrix (framesLatched_ c))
      then offset
      else DetermineOffset_from c n' (offset + 1)
  end.

Definition DetermineOffset (c : CloudXRClient) : Z :=
  DetermineOffset_from c (Z.to_nat kQueueLen) 0.

(** The index expression of [GetTrackingState]. *)
Definition latest_index (cur : Z) : Z :=
  if cur =? 0 then kQueueLen - 1 else Z.rem (cur - 1) kQueueLen.

(** [cxrMatrixToVecQuat] is a helper of the CloudXR SDK
    ([CloudXRMatrixHelpers.h]). *)
Variable cxrMatrixToVecQuat : cxrMatrix34 -> cxrVector3 * cxrQuaternion.

(** [GetTrackingState]: the [hmd.pose] part of the state it fills in;
    everything else in [*state] stays value-initialised. *)
Definition GetTrackingState (c : CloudXRClient) : cxrTrackedDevicePose :=
  let idx := latest_index (current_idx_ c) in
  let '(pos, rot) := cxrMatrixToVecQuat (slot (pose_matrix_ c) idx) in
  {| position := pos;
     rotation := rot;
     poseIsValid := true;
     deviceIsConnected := true;
     trackingResult := cxrTrackingResult_Running_OK |}.

End Ring.

(** A run of pushes, oldest first. *)
Definition push_all (kQueueLen : Z) (c : CloudXRClient) (poses : list mat4)
  : CloudXRClient :=
  fold_left (SetPoseMatrix kQueueLen) poses c.

(** The ring as the class keeps it: [kQueueLen] slots and a cursor inside
    the array. *)
Definition ring_ok (kQueueLen : Z) (c : CloudXRClient) : Prop :=
  length (pose_matrix_ c) = Z.to_nat kQueueLen /\
  0 <= current_idx_ c < kQueueLen.

(** The slot the scan of [DetermineOffset] reads at [offset], and whether
    the scan stops there. *)
Definition scanned (kQueueLen : Z) (c : CloudXRClient) (offset : Z)
  : cxrMatrix34 :=
  slot kQueueLen (pose_matrix_ c)
       (offset_index kQueueLen (current_idx_ c) offset).

Definition hit (kQueueLen : Z) (c : CloudXRClient) (offset : Z) : bool :=
  close_enough (scanned kQueueLen c offset) (poseMatrix (framesLatched_ c)).

(** The sample written [k] pushes ago, [k = 0] being the newest: the cursor
    is one past the newest sample. *)
Definition sample_ago (kQueueLen : Z) (c : CloudXRClient) (k : Z)
  : cxrMatrix34 :=
  slot kQueueLen (pose_matrix_ c) ((current_idx_ c - 1 - k) mod kQueueLen).

(** [findOffset] as the specification words it: scan from the newest sample
    to the oldest and return the ring distance of the first one within
    epsilon of the target, 0 when there is none. *)
Fixpoint findOffset_spec_from (kQueueLen : Z) (c : CloudXRClient) (n : nat)
  (k : Z) : Z :=
  match n with
  | O => 0
  | S n' =>
      if close_enough (sample_ago kQueueLen c k)
                      (poseMatrix (framesLatched_ c))
      then k
      else findOffset_spec_from kQueueLen c n' (k + 1)
  end.

Definition findOffset_spec (kQueueLen : Z) (c : CloudXRClient) : Z :=
  findOffset_spec_from kQueueLen c (Z.to_nat kQueueLen) 0.

(** Poses to run the definitions on: the identity rotation with an integer
    translation, as [glm::translate] builds it. *)
Definition translation (x y z : Z) : mat4 :=
  let o := Float32.zero in
  let i := Float32.lit_1_0 in
  Mat4 (Vec4 i o o o) (Vec4 o i o o) (Vec4 o o i o)
       (Vec4 (Float32.of_Z x) (Float32.of_Z y) (Float32.of_Z z) i).

(** A stand-in for the SDK's [cxrMatrixToVecQuat] to run
    [GetTrackingState] with: it keeps the translation column and reports the
    identity rotation. *)
Definition translation_part (a : cxrMatrix34) : cxrVector3 * cxrQuaternion :=
  (CxrVector3 (m03 a) (m13 a) (m23 a),
   CxrQuaternion Float32.lit_1_0 Float32.zero Float32.zero Float32.zero).

(** ** The frame latch *)

(** The SDK's error codes; this file names three of them. *)
Inductive cxrError :=
| cxrError_Success
| cxrError_Receiver_Not_Running
| cxrError_Frame_Not_Ready
| cxrError_Other (code : Z).

(** The calls into the receiver made by [Latch] and [Release], as a log. *)
Inductive sdk_call :=
| Call_cxrLatchFrame (receiver : cxrReceiverHandle) (timeout_ms : Z)
| Call_cxrReleaseFrame (receiver : option cxrReceiverHandle).

(** The client together with the calls it has made so far. *)
Record Session := MkSession {
  client : CloudXRClient;
  sdk_calls : list sdk_call
}.

Definition with_latch (c : CloudXRClient) (frames : cxrFramesLatched)
  (flag : bool) : CloudXRClient :=
  {| cloudxr_receiver_ := cloudxr_receiver_ c;
     res_factor_ := res_factor_ c;
     stream_width_ := stream_width_ c;
     stream_height_ := stream_height_ c;
     framesLatched_ := frames;
     latched_ := flag;
     pose_matrix_ := pose_matrix_ c;
     current_idx_ := current_idx_ c |}.

Section Latch.

(** [cxrLatchFrame] and [cxrReleaseFrame] belong to the SDK: the status
    and what they leave in [framesLatched_] may depend on everything that
    happened before. *)
Variable cxrLatchFrame :
  list sdk_call -> cxrReceiverHandle -> cxrFramesLatched ->
  cxrError * cxrFramesLatched.
Variable cxrReleaseFrame :
  list sdk_call -> option cxrReceiverHandle -> cxrFramesLatched ->
  cxrFramesLatched.

Definition IsRunning (c : CloudXRClient) : bool :=
  match cloudxr_receiver_ c with Some _ => true | None => false end.

Definition Latch (s : Session) : cxrError * Session :=
  let c := client s in
  if latched_ c then (cxrError_Success, s)
  else
    match cloudxr_receiver_ c with
    | None => (cxrError_Receiver_Not_Running, s)
    | Some receiver =>
        let timeout_ms := 150 in
        let '(status, frames) :=
          cxrLatchFrame (sdk_calls s) receiver (framesLatched_ c) in
        let log := sdk_calls s ++ [Call_cxrLatchFrame receiver timeout_ms] in
        match status with
        | cxrError_Success =>
            (cxrError_Success, MkSession (with_latch c frames true) log)
        | _ =>
            (status, MkSession (with_latch c frames (latched_ c)) log)
        end
    end.

Definition Release (s : Session) : Session :=
  let c := client s in
  if negb (latched_ c) then s
  else
    let frames :=
      cxrReleaseFrame (sdk_calls s) (cloudxr_receiver_ c) (framesLatched_ c)
    in
    MkSession (with_latch c frames false)
              (sdk_calls s ++ [Call_cxrReleaseFrame (cloudxr_receiver_ c)]).

End Latch.

(** The effect of [Connect] and [Teardown] on [cloudxr_receiver_]. *)
Definition with_receiver (c : CloudXRClient)
  (receiver : option cxrReceiverHandle) : CloudXRClient :=
  {| cloudxr_receiver_ := receiver;
     res_factor_ := res_factor_ c;
     stream_width_ := stream_width_ c;
     stream_height_ := stream_height_ c;
     framesLatched_ := framesLatched_ c;
     latched_ := latched_ c;
     pose_matrix_ := pose_matrix_ c;
     current_idx_ := current_idx_ c |}.

(** Stand-ins for the SDK to run [Latch] and [Release] with: a receiver
    that has no frame before its third call, and a release that leaves the
    frame structure alone. *)
Definition frame_on_third_call (log : list sdk_call)
  (receiver : cxrReceiverHandle) (frames : cxrFramesLatched)
  : cxrError * cxrFramesLatched :=
  if (length log <? 2)%nat then (cxrError_Frame_Not_Ready, frames)
  else (cxrError_Success,
        CxrFramesLatched (pose_of_mat4 (translation 1 0 0))).

Definition release_keeps_frame (log : list sdk_call)
  (receiver : option cxrReceiverHandle) (frames : cxrFramesLatched)
  : cxrFramesLatched := frames.

(** ** The stream resolution *)

(** The [res-factor] option handler: a parsed factor is stored only when it
    lies in [[0.5, 1.0]]. *)
Definition set_res_factor (c : CloudXRClient) (factor : float)
  : CloudXRClient :=
  if Float32.geb factor Float32.lit_0_5 && Float32.leb factor Float32.lit_1_0
  then
    {| cloudxr_receiver_ := cloudxr_receiver_ c;
       res_factor_ := factor;
       stream_width_ := stream_width_ c;
       stream_height_ := stream_height_ c;
       framesLatched_ := framesLatched_ c;
       latched_ := latched_ c;
       pose_matrix_ := pose_matrix_ c;
       current_idx_ := current_idx_ c |}
  else c.

(** [~1] is the [int] [-2]; converted to [uint32_t] for the [&]. *)
Definition not_1_u32 : Z := Z.lnot 1 mod 2 ^ 32.

(** [((uint32_t)round((float)d * res_factor_)) & ~1]. *)
Definition stream_dimension (d : Z) (res_factor : float) : option Z :=
  match
    Float32.to_uint32
      (Float32.round (Float32.mul (Float32.of_Z d) res_factor))
  with
  | Some n => Some (Z.land n not_1_u32)
  | None => None
  end.

(** [SetStreamRes]; [w], [h] and [orientation] are [uint32_t]. *)
Definition SetStreamRes (c : CloudXRClient) (w h orientation : Z)
  : option CloudXRClient :=
  let '(w, h) :=
    if (h <? w) && ((orientation =? 0) || (orientation =? 2))
    then (h, w) else (w, h) in
  match stream_dimension w (res_factor_ c),
        stream_dimension h (res_factor_ c) with
  | Some sw, Some sh =>
      Some {| cloudxr_receiver_ := cloudxr_receiver_ c;
              res_factor_ := res_factor_ c;
              stream_width_ := sw;
              stream_height_ := sh;
              framesLatched_ := framesLatched_ c;
              latched_ := latched_ c;
              pose_matrix_ := pose_matrix_ c;
              current_idx_ := current_idx_ c |}
  | _, _ => None
  end.

(** ** Rounding to 24 bits, on integers *)

(** [M / 2^n] rounded to the nearest integer, ties to even. *)
Definition rne (M n : Z) : Z :=
  let q := M / 2 ^ n in
  let r := M mod 2 ^ n in
  let h := 2 ^ (n - 1) in
  if r <? h then q
  else if (r =? h) && Z.even q then q
  else q + 1.

(** [M] rounded to 24 significant bits. *)
Definition rnd24 (M : Z) : Z :=
  let n := Z.log2 M + 1 - 24 in
  if n <=? 0 then M else rne M n * 2 ^ n.

(** The value of [(uint32_t)round(x)] for a normal positive [x]. *)
Definition rounded_value (m : positive) (e : Z) : Z :=
  (Zpos m * 2 ^ (e + 47) + 2 ^ 46) / 2 ^ 47.

(** What the option handler guarantees about [res_factor_]: a binary32
    value in [[0.5, 1.0]]. *)
Definition res_factor_ok (rf : float) : bool :=
  valid_binary Float32.prec Float32.emax rf &&
  Float32.geb rf Float32.lit_0_5 && Float32.leb rf Float32.lit_1_0.

(** [(uint32_t)round((float)d * factor)] on integers, for the factor
    [mr * 2^er]: the value is rounded to 24 bits twice, once for [(float)d]
    and once for the product, then to the nearest integer. *)
Definition scaled_dimension (d : Z) (mr : positive) (er : Z) : Z :=
  (rnd24 (rnd24 (d * 2 ^ 23) * (Zpos mr * 2 ^ (er + 24))) + 2 ^ 46) / 2 ^ 47.

(** ** The threads that touch the ring *)

(** [SetPoseMatrix] and [DetermineOffset] are called from the render thread
    ([OnDrawFrame]), [GetTrackingState] from a callback thread of the
    receiver. *)
Inductive thread := RenderThread | CallbackThread.

Definition other (t : thread) : thread :=
  match t with RenderThread => CallbackThread | CallbackThread => RenderThread
  end.

(** The accesses to the shared members, one atomic step each. *)
Inductive step_kind :=
| lock_mutex                      (* std::lock_guard lock(state_mutex_) *)
| unlock_mutex                    (* the guard goes out of scope *)
| bind_cursor                     (* auto& pose_matrix = pose_matrix_[current_idx_] *)
| bind_latest                     (* idx of GetTrackingState *)
| bind_offset (offset : Z)        (* idx of DetermineOffset at [offset] *)
| store_component (i j : Z) (v : float)   (* pose_matrix.m[i][j] = v *)
| load_component (i j : Z)        (* read pose_matrix_[idx].m[i][j] *)
| advance_cursor.                 (* current_idx_ = (current_idx_ + 1) % kQueueLen *)

(** What a thread keeps to itself: the index it bound and the components it
    has read so far. *)
Record locals := Locals { ref : Z; seen : cxrMatrix34 }.

(** The shared object and the owner of [state_mutex_]. *)
Record shared := Shared {
  object : CloudXRClient;
  state_mutex_ : option thread
}.

Record thread_state := ThreadState { todo : list step_kind; regs : locals }.

Record config := Config {
  render : thread_state;
  callback : thread_state;
  mem : shared
}.

(** [SetPoseMatrix], step by step. *)
Definition SetPoseMatrix_steps (pose_mat : mat4) : list step_kind :=
  [ lock_mutex;
    bind_cursor;
    store_component 0 0 (mat4_at pose_mat 0 0);
    store_component 0 1 (mat4_at pose_mat 1 0);
    store_component 0 2 (mat4_at pose_mat 2 0);
    store_component 0 3 (mat4_at pose_mat 3 0);
    store_component 1 0 (mat4_at pose_mat 0 1);
    store_component 1 1 (mat4_at pose_mat 1 1);
    store_component 1 2 (mat4_at pose_mat 2 1);
    store_component 1 3 (mat4_at pose_mat 3 1);
    store_component 2 0 (mat4_at pose_mat 0 2);
    store_component 2 1 (mat4_at pose_mat 1 2);
    store_component 2 2 (mat4_at pose_mat 2 2);
    store_component 2 3 (mat4_at pose_mat 3 2);
    advance_cursor;
    unlock_mutex ].

(** Reading the twelve components of the bound slot. *)
Definition load_matrix : list step_kind :=
  [ load_component 0 0; load_component 0 1; load_component 0 2;
    load_component 0 3;
    load_component 1 0; load_component 1 1; load_component 1 2;
    load_component 1 3;
    load_component 2 0; load_component 2 1; load_component 2 2;
    load_component 2 3 ].

(** The block of [GetTrackingState] that reads the ring. *)
Definition GetTrackingState_steps : list step_kind :=
  [lock_mutex; bind_latest] ++ load_matrix ++ [unlock_mutex].

(** One iteration of the loop of [DetermineOffset]: no lock is taken. *)
Definition DetermineOffset_iteration_steps (offset : Z) : list step_kind :=
  bind_offset offset :: load_matrix.

(** Whether every access of a step list happens with the mutex held;
    [held] tells whether it is held on entry. *)
Fixpoint guarded (held : bool) (steps : list step_kind) : bool :=
  match steps with
  | [] => true
  | lock_mutex :: rest => guarded true rest
  | unlock_mutex :: rest => guarded false rest
  | _ :: rest => held && guarded held rest
  end.

Definition with_ring (c : CloudXRClient) (ring : list cxrMatrix34) (cur : Z)
  : CloudXRClient :=
  {| cloudxr_receiver_ := cloudxr_receiver_ c;
     res_factor_ := res_factor_ c;
     stream_width_ := stream_width_ c;
     stream_height_ := stream_height_ c;
     framesLatched_ := framesLatched_ c;
     latched_ := latched_ c;
     pose_matrix_ := ring;
     current_idx_ := cur |}.

Section Interleaving.

Variable kQueueLen : Z.

(** The effect of a step other than locking and unlocking. *)
Definition access (k : step_kind) (l : locals) (c : CloudXRClient)
  : locals * CloudXRClient :=
  match k with
  | bind_cursor => (Locals (current_idx_ c) (seen l), c)
  | bind_latest =>
      (Locals (latest_index kQueueLen (current_idx_ c)) (seen l), c)
  | bind_offset offset =>
      (Locals (offset_index kQueueLen (current_idx_ c) offset) (seen l), c)
  | store_component i j v =>
      (l, with_ring c
            (<[Z.to_nat (ref l) :=
                 set_m (slot kQueueLen (pose_matrix_ c) (ref l)) i j v]>
               (pose_matrix_ c))
            (current_idx_ c))
  | load_component i j =>
      (Locals (ref l)
              (set_m (seen l) i j
                     (m (slot kQueueLen (pose_matrix_ c) (ref l)) i j)),
       c)
  | advance_cursor =>
      (l, with_ring c (pose_matrix_ c)
            (Z.rem (current_idx_ c + 1) kQueueLen))
  | lock_mutex | unlock_mutex => (l, c)
  end.

(** One step of thread [t]; [None] when the step cannot be taken: the
    mutex is held when [t] wants to lock it, or is not [t]'s to unlock. *)
Definition exec (t : thread) (k : step_kind) (l : locals) (sh : shared)
  : option (locals * shared) :=
  match k with
  | lock_mutex =>
      match state_mutex_ sh with
      | None => Some (l, Shared (object sh) (Some t))
      | Some _ => None
      end
  | unlock_mutex =>
      match state_mutex_ sh with
      | Some RenderThread =>
          match t with
          | RenderThread => Some (l, Shared (object sh) None)
          | CallbackThread => None
          end
      | Some CallbackThread =>
          match t with
          | CallbackThread => Some (l, Shared (object sh) None)
          | RenderThread => None
          end
      | None => None
      end
  | _ =>
      let '(l', c') := access k l (object sh) in
      Some (l', Shared c' (state_mutex_ sh))
  end.

Definition thread_of (cfg : config) (t : thread) : thread_state :=
  match t with RenderThread => render cfg | CallbackThread => callback cfg
  end.

Definition with_thread (cfg : config) (t : thread) (ts : thread_state)
  (sh : shared) : config :=
  match t with
  | RenderThread => Config ts (callback cfg) sh
  | CallbackThread => Config (render cfg) ts sh
  end.

(** The scheduler lets [t] take its next step. *)
Definition sched_step (t : thread) (cfg : config) : option config :=
  match todo (thread_of cfg t) with
  | [] => None
  | k :: rest =>
      match exec t k (regs (thread_of cfg t)) (mem cfg) with
      | Some (l', sh') => Some (with_thread cfg t (ThreadState rest l') sh')
      | None => None
      end
  end.

(** An interleaving is the list of the threads scheduled, in order. *)
Fixpoint run (sched : list thread) (cfg : config) : option config :=
  match sched with
  | [] => Some cfg
  | t :: sched' =>
      match sched_step t cfg with
      | Some cfg' => run sched' cfg'
      | None => None
      end
  end.

(** A thread running a list of accesses on its own. *)
Fixpoint run_accesses (steps : list step_kind) (l : locals)
  (c : CloudXRClient) : locals * CloudXRClient :=
  match steps with
  | [] => (l, c)
  | k :: rest => let '(l', c') := access k l c in run_accesses rest l' c'
  end.

End Interleaving.

(** The accesses of [SetPoseMatrix] between locking and unlocking, and those
    of [GetTrackingState]. *)
Definition SetPoseMatrix_body (pose_mat : mat4) : list step_kind :=
  removelast (tl (SetPoseMatrix_steps pose_mat)).

Definition GetTrackingState_body : list step_kind := bind_latest :: load_matrix.

(** Steps that read or write the shared members. *)
Definition is_access (k : step_kind) : bool :=
  match k with lock_mutex | unlock_mutex => false | _ => true end.

(** A thread that cannot move while another one holds the mutex: it is done
    or about to lock. *)
Definition waiting (ts : thread_state) : Prop :=
  todo ts = [] \/ exists rest, todo ts = lock_mutex :: rest.

(** Both threads about to start, nobody holding the mutex. *)
Definition start (c : CloudXRClient) (render_steps callback_steps
  : list step_kind) : config :=
  let fresh := Locals 0 cxrMatrix34_zero in
  Config (ThreadState render_steps fresh) (ThreadState callback_steps fresh)
         (Shared c None).

Definition finished (cfg : config) : Prop :=
  todo (render cfg) = [] /\ todo (callback cfg) = [].

(** ** The rest of the client *)

(** Code that has no defined behaviour on some inputs returns [None]
    there. *)
Notation "'let*' x ':=' m 'in' k" :=
  (match m with Some x => k | None => None end)
  (at level 10, x pattern, m at level 100, k at level 200, only parsing).

Definition INT_MIN : Z := - 2 ^ 31.
Definition INT_MAX : Z := 2 ^ 31 - 1.

(** The result of an [int] operation. *)
Definition int_result (n : Z) : option Z :=
  if (INT_MIN <=? n) && (n <=? INT_MAX) then Some n else None.

(** [(int)a]: truncation towards zero. *)
Definition float_to_int (a : float) : option Z :=
  match a with
  | S754_zero _ => Some 0
  | S754_finite s mx ex =>
      int_result
        (if 0 <=? ex then cond_Zopp s (Zpos mx * 2 ^ ex)
         else Z.quot (cond_Zopp s (Zpos mx)) (2 ^ (- ex)))
  | _ => None
  end.

Definition float_div (a b : float) : float :=
  SFdiv Float32.prec Float32.emax a b.
Definition float_add (a b : float) : float :=
  SFadd Float32.prec Float32.emax a b.
Definition float_neg (a : float) : float := SFopp a.

(** [a > b]. *)
Definition float_gtb (a b : float) : bool := SFltb b a.

(** The literals [0.064f] (bit pattern [0x3D83126F]), [0.02f]
    ([0x3CA3D70A]) and [2.f]. *)
Definition lit_0_064 : float := S754_finite false 8589935 (-27).
Definition lit_0_02 : float := S754_finite false 10737418 (-29).
Definition lit_2_0 : float := S754_finite false 8388608 (-22).

(** *** The device description *)

(** The SDK's [cxrDeviceDesc], as far as this file writes it; [proj] is
    [float proj[2][4]]. *)
Record cxrDeviceDesc := CxrDeviceDesc {
  deliveryType : Z;
  width : Z;
  height : Z;
  maxResFactor : float;
  fps : float;
  ipd : float;
  predOffset : float;
  receiveAudio : bool;
  sendAudio : bool;
  disablePosePrediction : bool;
  angularVelocityInDeviceSpace : bool;
  foveatedScaleFactor : Z;
  proj : list (list float)
}.

(** [cxrDeviceDesc device_desc_ = {}]. *)
Definition cxrDeviceDesc_zero : cxrDeviceDesc :=
  let o := Float32.zero in
  CxrDeviceDesc 0 0 0 o o o o false false false false 0
    [[o; o; o; o]; [o; o; o; o]].

(** The SDK's [cxrConnectionStats], as far as [Stats] reads it. *)
Record cxrConnectionStats := CxrConnectionStats {
  framesPerSecond : float;
  bandwidthUtilizationKbps : Z;
  bandwidthAvailableKbps : Z;
  roundTripDelayMs : Z;
  quality : Z;
  qualityReasons : Z;
  totalPacketsLost : Z;
  totalPacketsReceived : Z
}.

Definition cxrConnectionStats_zero : cxrConnectionStats :=
  CxrConnectionStats Float32.zero 0 0 0 0 0 0 0.

(** Streams of the audio library, by the address of the stream object. *)
Definition audio_stream := Z.

Inductive oboe_Result := oboe_OK | oboe_Error (code : Z).

Definition is_OK (r : oboe_Result) : bool :=
  match r with oboe_OK => true | oboe_Error _ => false end.

Inductive oboe_Direction := oboe_Output | oboe_Input.

(** The SDK's [cxrLightProperties]; [v[n]] of a [cxrVector3] is its
    component [n]. *)
Record cxrLightProperties := CxrLightProperties {
  primaryLightColor : cxrVector3;
  primaryLightDirection : cxrVector3;
  ambientLightSh : list cxrVector3
}.

(** What [Stats] prints after the numbers: the five characters of the
    quality bar and the reason. *)
Inductive stats_reason :=
| Reason_none
| Reason_EstimatingQuality
| Reason_HighLatency (roundTripDelayMs : Z)
| Reason_LowBandwidth (bandwidthAvailableKbps : Z)
| Reason_HighPacketLoss_Recoverable
| Reason_HighPacketLoss (totalPacketsLost totalPacketsReceived : Z).

Record stats_line := StatsLine {
  line_fps : float;
  line_bitrate : Z;
  line_latency : Z;
  line_quality : list ascii;
  line_reason : stats_reason
}.

(** The calls out of the client other than [cxrLatchFrame] and
    [cxrReleaseFrame], and the statistics line it logs. *)
Inductive client_call :=
| Call_openStream (d : oboe_Direction)
| Call_setBufferSizeInFrames (stream : audio_stream) (frames : Z)
| Call_start (stream : audio_stream)
| Call_close (stream : audio_stream)
| Call_write (stream : audio_stream) (numFrames timeoutNanoseconds : Z)
| Call_cxrCreateReceiver (deviceDesc : cxrDeviceDesc)
| Call_cxrConnect (receiver : option cxrReceiverHandle)
| Call_cxrDestroyReceiver (receiver : cxrReceiverHandle)
| Call_cxrGetConnectionStats (receiver : option cxrReceiverHandle)
| Call_cxrSendLightProperties (receiver : option cxrReceiverHandle)
    (props : cxrLightProperties)
| Call_cxrSendInputEvent (receiver : cxrReceiverHandle) (x y : float)
| Call_cxrBlitFrame (receiver : cxrReceiverHandle)
    (frames : cxrFramesLatched)
| Call_cxrSendAudio (receiver : option cxrReceiverHandle)
    (streamSizeBytes : Z)
| Log_stats (line : stats_line).

(** The members of [CloudXRClient]: those of the ring, the latch and the
    stream resolution, in [members], and the others.  Of [launch_options_]
    the members this file writes are kept. *)
Record ClientState := MkClientState {
  members : CloudXRClient;
  mReceiveAudio : bool;
  mSendAudio : bool;
  using_env_lighting_ : bool;
  device_desc_ : cxrDeviceDesc;
  fps_ : Z;
  recording_stream_ : option audio_stream;
  playback_stream_ : option audio_stream;
  stats_ : cxrConnectionStats;
  frames_until_stats_ : Z
}.

Definition with_members (s : ClientState) (c : CloudXRClient) : ClientState :=
  MkClientState c (mReceiveAudio s) (mSendAudio s) (using_env_lighting_ s)
    (device_desc_ s) (fps_ s) (recording_stream_ s) (playback_stream_ s)
    (stats_ s) (frames_until_stats_ s).

Definition with_mReceiveAudio (s : ClientState) (b : bool) : ClientState :=
  MkClientState (members s) b (mSendAudio s) (using_env_lighting_ s)
    (device_desc_ s) (fps_ s) (recording_stream_ s) (playback_stream_ s)
    (stats_ s) (frames_until_stats_ s).

Definition with_mSendAudio (s : ClientState) (b : bool) : ClientState :=
  MkClientState (members s) (mReceiveAudio s) b (using_env_lighting_ s)
    (device_desc_ s) (fps_ s) (recording_stream_ s) (playback_stream_ s)
    (stats_ s) (frames_until_stats_ s).

Definition with_env_lighting (s : ClientState) (b : bool) : ClientState :=
  MkClientState (members s) (mReceiveAudio s) (mSendAudio s) b
    (device_desc_ s) (fps_ s) (recording_stream_ s) (playback_stream_ s)
    (stats_ s) (frames_until_stats_ s).

Definition with_device_desc (s : ClientState) (d : cxrDeviceDesc)
  : ClientState :=
  MkClientState (members s) (mReceiveAudio s) (mSendAudio s)
    (using_env_lighting_ s) d (fps_ s) (recording_stream_ s)
    (playback_stream_ s) (stats_ s) (frames_until_stats_ s).

Definition with_recording_stream (s : ClientState)
  (a : option audio_stream) : ClientState :=
  MkClientState (members s) (mReceiveAudio s) (mSendAudio s)
    (using_env_lighting_ s) (device_desc_ s) (fps_ s) a
    (playback_stream_ s) (stats_ s) (frames_until_stats_ s).

Definition with_playback_stream (s : ClientState)
  (a : option audio_stream) : ClientState :=
  MkClientState (members s) (mReceiveAudio s) (mSendAudio s)
    (using_env_lighting_ s) (device_desc_ s) (fps_ s) (recording_stream_ s)
    a (stats_ s) (frames_until_stats_ s).

Definition with_stats (s : ClientState) (st : cxrConnectionStats)
  (frames : Z) : ClientState :=
  MkClientState (members s) (mReceiveAudio s) (mSendAudio s)
    (using_env_lighting_ s) (device_desc_ s) (fps_ s) (recording_stream_ s)
    (playback_stream_ s) st frames.

(** [SetFps]. *)
Definition SetFps (s : ClientState) (fps : Z) : ClientState :=
  MkClientState (members s) (mReceiveAudio s) (mSendAudio s)
    (using_env_lighting_ s) (device_desc_ s) fps (recording_stream_ s)
    (playback_stream_ s) (stats_ s) (frames_until_stats_ s).

(** The [env-lighting] option handler. *)
Definition set_env_lighting (s : ClientState) (tok : list ascii)
  : ClientState :=
  if decide (tok = ["1"%char]) then with_env_lighting s true
  else if decide (tok = ["0"%char]) then with_env_lighting s false
  else s.

(** The client as constructed; the audio options of [ClientOptions] are
    set by its constructor and its parser, outside this file. *)
Definition initial_state (kQueueLen : Z) (mReceiveAudio mSendAudio : bool)
  : ClientState :=
  MkClientState (initial kQueueLen) mReceiveAudio mSendAudio true
    cxrDeviceDesc_zero 60 None None cxrConnectionStats_zero 60.

(** [device_desc_.proj[i][j] = x]. *)
Definition set_proj (d : cxrDeviceDesc) (i j : nat) (x : float)
  : cxrDeviceDesc :=
  CxrDeviceDesc (deliveryType d) (width d) (height d) (maxResFactor d)
    (fps d) (ipd d) (predOffset d) (receiveAudio d) (sendAudio d)
    (disablePosePrediction d) (angularVelocityInDeviceSpace d)
    (foveatedScaleFactor d)
    (alter (fun row => <[j := x]> row) i (proj d)).

(** [device_desc_.proj[i][j]]. *)
Definition get_proj (d : cxrDeviceDesc) (i j : nat) : float :=
  match proj d !! i with
  | Some row => default Float32.zero (row !! j)
  | None => Float32.zero
  end.

(** [SetProjectionMatrix], on [device_desc_]. *)
Definition SetProjectionMatrix (projection : mat4) (d : cxrDeviceDesc)
  : cxrDeviceDesc :=
  let one := Float32.lit_1_0 in
  let d :=
    if float_gtb (Float32.fabsf (mat4_at projection 2 0)) Float32.lit_0_0001
    then
      let oneOver00 := float_div one (mat4_at projection 0 0) in
      let l :=
        Float32.mul (float_neg (Float32.sub one (mat4_at projection 2 0)))
                    oneOver00 in
      let r := float_add (Float32.mul lit_2_0 oneOver00) l in
      let oneOver11 := float_div one (mat4_at projection 1 1) in
      let b :=
        Float32.mul (float_neg (Float32.sub one (mat4_at projection 2 1)))
                    oneOver11 in
      let t := float_add (Float32.mul lit_2_0 oneOver11) b in
      let d := set_proj d 0 0 l in
      let d := set_proj d 0 1 r in
      let d := set_proj d 0 2 (float_neg t) in
      set_proj d 0 3 (float_neg b)
    else
      let d :=
        set_proj d 0 0
          (float_div (float_neg one) (mat4_at projection 0 0)) in
      let d := set_proj d 0 1 (float_neg (get_proj d 0 0)) in
      let d :=
        set_proj d 0 2
          (float_div (float_neg one) (mat4_at projection 1 1)) in
      set_proj d 0 3 (float_neg (get_proj d 0 2)) in
  let d := set_proj d 1 0 (get_proj d 0 0) in
  let d := set_proj d 1 1 (get_proj d 0 1) in
  let d := set_proj d 1 2 Float32.zero in
  set_proj d 1 3 Float32.zero.

(** *** Connecting and tearing down *)

Definition set_receiveAudio (d : cxrDeviceDesc) (b : bool) : cxrDeviceDesc :=
  CxrDeviceDesc (deliveryType d) (width d) (height d) (maxResFactor d)
    (fps d) (ipd d) (predOffset d) b (sendAudio d)
    (disablePosePrediction d) (angularVelocityInDeviceSpace d)
    (foveatedScaleFactor d) (proj d).

Definition set_sendAudio (d : cxrDeviceDesc) (b : bool) : cxrDeviceDesc :=
  CxrDeviceDesc (deliveryType d) (width d) (height d) (maxResFactor d)
    (fps d) (ipd d) (predOffset d) (receiveAudio d) b
    (disablePosePrediction d) (angularVelocityInDeviceSpace d)
    (foveatedScaleFactor d) (proj d).

(** What the audio library and the SDK answer during one [Connect]: each
    of these calls is made at most once.  [openStream] returns a result and
    leaves a stream, or nothing, in the pointer it is given;
    [cxrCreateReceiver] likewise for the receiver handle. *)
Record ConnectOutcomes := MkConnectOutcomes {
  playback_opened : oboe_Result * option audio_stream;
  playback_framesPerBurst : Z;
  playback_buffer_set : oboe_Result;
  playback_started : oboe_Result;
  recording_opened : oboe_Result * option audio_stream;
  recording_started : oboe_Result;
  receiver_created : cxrError * option cxrReceiverHandle;
  connected : cxrError
}.

(** [if (stream) { stream->close(); stream.reset(); }], the calls. *)
Definition close_stream (stream : option audio_stream) : list client_call :=
  match stream with
  | Some a => [Call_close a]
  | None => []
  end.

Definition Teardown (s : ClientState) : ClientState * list client_call :=
  let calls1 := close_stream (playback_stream_ s) in
  let s := with_playback_stream s None in
  let calls2 := close_stream (recording_stream_ s) in
  let s := with_recording_stream s None in
  match cloudxr_receiver_ (members s) with
  | Some receiver =>
      (with_members s (with_receiver (members s) None),
       calls1 ++ calls2 ++ [Call_cxrDestroyReceiver receiver])
  | None => (s, calls1 ++ calls2)
  end.

Section Connect.

(** An enumerator of the SDK. *)
Variable cxrDeliveryType_Mono_RGBA : Z.

Definition GetDeviceDesc (s : ClientState) : ClientState * cxrDeviceDesc :=
  let d :=
    {| deliveryType := cxrDeliveryType_Mono_RGBA;
       width := stream_width_ (members s);
       height := stream_height_ (members s);
       maxResFactor := Float32.lit_1_0;
       fps := Float32.of_Z (fps_ s);
       ipd := lit_0_064;
       predOffset := lit_0_02;
       receiveAudio := mReceiveAudio s;
       sendAudio := mSendAudio s;
       disablePosePrediction := false;
       angularVelocityInDeviceSpace := false;
       foveatedScaleFactor := 0;
       proj := proj (device_desc_ s) |} in
  (with_device_desc s d, d).

Variable o : ConnectOutcomes.

(** Opening, sizing and starting the playback stream: the last result
    [r]. *)
Definition start_playback (s : ClientState)
  : option (oboe_Result * ClientState * list client_call) :=
  let '(r, stream) := playback_opened o in
  let s := with_playback_stream s stream in
  let calls := [Call_openStream oboe_Output] in
  if negb (is_OK r) then Some (r, s, calls)
  else
    let* a := stream in
    let* bufferSizeFrames := int_result (playback_framesPerBurst o * 2) in
    let r := playback_buffer_set o in
    let calls := calls ++ [Call_setBufferSizeInFrames a bufferSizeFrames] in
    if negb (is_OK r) then Some (r, s, calls)
    else Some (playback_started o, s, calls ++ [Call_start a]).

Definition setup_playback (device_desc : cxrDeviceDesc) (s : ClientState)
  : option (cxrDeviceDesc * ClientState * list client_call) :=
  if receiveAudio device_desc then
    let* (r, s, calls) := start_playback s in
    if negb (is_OK r) then
      Some (set_receiveAudio device_desc false,
            with_playback_stream (with_mReceiveAudio s false) None,
            calls ++ close_stream (playback_stream_ s))
    else Some (device_desc, s, calls)
  else Some (device_desc, s, []).

Definition start_recording (s : ClientState)
  : option (oboe_Result * ClientState * list client_call) :=
  let '(r, stream) := recording_opened o in
  let s := with_recording_stream s stream in
  let calls := [Call_openStream oboe_Input] in
  if negb (is_OK r) then Some (r, s, calls)
  else
    let* a := stream in
    Some (recording_started o, s, calls ++ [Call_start a]).

Definition setup_recording (device_desc : cxrDeviceDesc) (s : ClientState)
  : option (cxrDeviceDesc * ClientState * list client_call) :=
  if sendAudio device_desc then
    let* (r, s, calls) := start_recording s in
    if negb (is_OK r) then
      Some (set_sendAudio device_desc false,
            with_recording_stream (with_mSendAudio s false) None,
            calls ++ close_stream (recording_stream_ s))
    else Some (device_desc, s, calls)
  else Some (device_desc, s, []).

Definition Connect (s : ClientState)
  : option (cxrError * ClientState * list client_call) :=
  match cloudxr_receiver_ (members s) with
  | Some _ => Some (cxrError_Success, s, [])
  | None =>
      let '(s, device_desc) := GetDeviceDesc s in
      let* (device_desc, s, calls1) := setup_playback device_desc s in
      let* (device_desc, s, calls2) := setup_recording device_desc s in
      let '(err, receiver) := receiver_created o in
      let s := with_members s (with_receiver (members s) receiver) in
      let calls := calls1 ++ calls2 ++ [Call_cxrCreateReceiver device_desc] in
      match err with
      | cxrError_Success =>
          let calls := calls ++ [Call_cxrConnect receiver] in
          match connected o with
          | cxrError_Success => Some (cxrError_Success, s, calls)
          | err =>
              let '(s, calls') := Teardown s in
              Some (err, s, calls ++ calls')
          end
      | _ => Some (err, s, calls)
      end
  end.

End Connect.

(** *** Touches, blits and audio *)

Definition HandleTouch (x y : float) (c : CloudXRClient) : list client_call :=
  match cloudxr_receiver_ c with
  | None => []
  | Some receiver => [Call_cxrSendInputEvent receiver x y]
  end.

Definition Render (c : CloudXRClient) : list client_call :=
  match cloudxr_receiver_ c with
  | None => []
  | Some receiver =>
      if negb (latched_ c) then []
      else [Call_cxrBlitFrame receiver (framesLatched_ c)]
  end.

(** [RenderAudio] and [onAudioReady], which the SDK and the audio library
    call on threads of their own; [exiting_] is the static member of the
    application.  The frame count and the timeout passed to [write] are
    computed from constants of the SDK and given here as they come out. *)
Definition RenderAudio (exiting_ : bool) (numFrames timeout_ns : Z)
  (s : ClientState) : bool * list client_call :=
  match playback_stream_ s with
  | None => (false, [])
  | Some stream =>
      if exiting_ then (false, [])
      else (true, [Call_write stream numFrames timeout_ns])
  end.

Inductive DataCallbackResult := Continue | Stop.

Definition onAudioReady (exiting_ : bool) (streamSizeBytes : Z)
  (s : ClientState) : DataCallbackResult * list client_call :=
  match recording_stream_ s with
  | None => (Stop, [])
  | Some _ =>
      if exiting_ then (Stop, [])
      else (Continue,
            [Call_cxrSendAudio (cloudxr_receiver_ (members s))
                               streamSizeBytes])
  end.

(** *** Light properties *)

Definition set_v (a : cxrVector3) (n : nat) (x : float) : option cxrVector3 :=
  match n with
  | 0%nat => Some (CxrVector3 x (v1 a) (v2 a))
  | 1%nat => Some (CxrVector3 (v0 a) x (v2 a))
  | 2%nat => Some (CxrVector3 (v0 a) (v1 a) x)
  | _ => None
  end.

(** The components [v[0]], [v[1]], [v[2]] in order. *)
Definition components (a : cxrVector3) : list float := [v0 a; v1 a; v2 a].

Definition get_v (a : cxrVector3) (n : nat) : option float :=
  match n with
  | 0%nat => Some (v0 a)
  | 1%nat => Some (v1 a)
  | 2%nat => Some (v2 a)
  | _ => None
  end.

(** A [for (uint32_t n = first; n < first + count; n++)] loop over a state
    whose body may leave defined behaviour. *)
Fixpoint for_loop {A : Type} (body : A -> nat -> option A) (first : nat)
  (count : nat) (a : A) : option A :=
  match count with
  | O => Some a
  | S count' =>
      let* a := body a first in
      for_loop body (S first) count' a
  end.

Section LightProps.

(** The SDK's constant of that name; [ambientLightSh] has that many
    entries. *)
Variable CXR_MAX_AMBIENT_LIGHT_SH : nat.

Definition primary_step (primaryDirection primaryIntensity : list float)
  (lp : cxrLightProperties) (n : nat) : option cxrLightProperties :=
  let* x := primaryIntensity !! n in
  let* color := set_v (primaryLightColor lp) n x in
  let* y := primaryDirection !! n in
  let* direction := set_v (primaryLightDirection lp) n y in
  Some (CxrLightProperties color direction (ambientLightSh lp)).

Definition ambient_step (ambient_spherical_harmonics : list float)
  (lp : cxrLightProperties) (n : nat) : option cxrLightProperties :=
  let* x := ambient_spherical_harmonics !! n in
  let* entry := ambientLightSh lp !! (n / 3)%nat in
  let* entry := set_v entry (n mod 3)%nat x in
  Some (CxrLightProperties (primaryLightColor lp) (primaryLightDirection lp)
          (<[(n / 3)%nat := entry]> (ambientLightSh lp))).

(** [UpdateLightProps]; [uninitialised] is what the local
    [lightProperties] holds before the loops.  Reading an argument or
    writing [ambientLightSh] out of bounds has no defined behaviour. *)
Definition UpdateLightProps (uninitialised : cxrLightProperties)
  (primaryDirection primaryIntensity ambient_spherical_harmonics : list float)
  (c : CloudXRClient) : option (list client_call) :=
  let lightProperties := uninitialised in
  let* lightProperties :=
    for_loop (primary_step primaryDirection primaryIntensity) 0 3
             lightProperties in
  let* lightProperties :=
    for_loop (ambient_step ambient_spherical_harmonics) 0
             (CXR_MAX_AMBIENT_LIGHT_SH * 3) lightProperties in
  Some [Call_cxrSendLightProperties (cloudxr_receiver_ c) lightProperties].

End LightProps.

(** The loop over the harmonics after [k] rounds: the entries written so
    far hold the arguments. *)
Definition written (N : nat) (sh : list float) (k : nat)
  (lp : cxrLightProperties) : Prop :=
  length (ambientLightSh lp) = N /\
  forall n, (n < k)%nat ->
    exists e, ambientLightSh lp !! (n / 3)%nat = Some e /\
              get_v e (n mod 3)%nat = sh !! n.

(** *** Statistics *)

Section Stats.

(** Enumerators of the SDK. *)
Variables cxrConnectionQuality_Bad cxrConnectionQuality_Poor
  cxrConnectionQuality_Fair cxrConnectionQuality_Good
  cxrConnectionQuality_Excellent : Z.
Variables cxrConnectionQualityReason_EstimatingQuality
  cxrConnectionQualityReason_HighLatency
  cxrConnectionQualityReason_LowBandwidth
  cxrConnectionQualityReason_HighPacketLoss : Z.

Definition mark (b : bool) : ascii := if b then "#"%char else "_"%char.

Definition qualityString (st : cxrConnectionStats) : list ascii :=
  [mark (cxrConnectionQuality_Bad <=? quality st);
   mark (cxrConnectionQuality_Poor <=? quality st);
   mark (cxrConnectionQuality_Fair <=? quality st);
   mark (cxrConnectionQuality_Good <=? quality st);
   mark (quality st =? cxrConnectionQuality_Excellent)].

(** [a & b], as a condition. *)
Definition has_bits (a b : Z) : bool := negb (Z.land a b =? 0).

Definition reasonString (st : cxrConnectionStats) : stats_reason :=
  if quality st <=? cxrConnectionQuality_Fair then
    if qualityReasons st =? cxrConnectionQualityReason_EstimatingQuality
    then Reason_EstimatingQuality
    else if has_bits (qualityReasons st) cxrConnectionQualityReason_HighLatency
    then Reason_HighLatency (roundTripDelayMs st)
    else if has_bits (qualityReasons st)
                     cxrConnectionQualityReason_LowBandwidth
    then Reason_LowBandwidth (bandwidthAvailableKbps st)
    else if has_bits (qualityReasons st)
                     cxrConnectionQualityReason_HighPacketLoss
    then
      if totalPacketsLost st =? 0 then Reason_HighPacketLoss_Recoverable
      else Reason_HighPacketLoss (totalPacketsLost st)
                                 (totalPacketsReceived st)
    else Reason_none
  else Reason_none.

Definition STATS_INTERVAL_SEC : Z := 3.

(** [Stats]; [answer] is what [cxrGetConnectionStats] would return, and
    leave in [stats_], if it is called. *)
Definition Stats (answer : cxrError * cxrConnectionStats) (s : ClientState)
  : option (ClientState * list client_call) :=
  let* frames := int_result (frames_until_stats_ s - 1) in
  let s := with_stats s (stats_ s) frames in
  if frames <=? 0 then
    let query := Call_cxrGetConnectionStats (cloudxr_receiver_ (members s)) in
    let '(status, st) := answer in
    let s := with_stats s st frames in
    match status with
    | cxrError_Success =>
        let line :=
          StatsLine (framesPerSecond st) (bandwidthUtilizationKbps st)
                    (roundTripDelayMs st) (qualityString st)
                    (reasonString st) in
        let* n := float_to_int (framesPerSecond st) in
        let* frames := int_result (n * STATS_INTERVAL_SEC) in
        Some (with_stats s st frames, [query; Log_stats line])
    | _ => Some (s, [query])
    end
  else Some (s, []).

(** [Stats] once per frame, with the SDK's answer for each frame. *)
Fixpoint Stats_frames (answers : list (cxrError * cxrConnectionStats))
  (s : ClientState) : option (ClientState * list client_call) :=
  match answers with
  | [] => Some (s, [])
  | answer :: answers =>
      let* (s, calls) := Stats answer s in
      let* (s, calls') := Stats_frames answers s in
      Some (s, calls ++ calls')
  end.

End Stats.

(** *** Answers of the audio library *)

(** The calls that go to the audio library. *)
Definition is_audio_call (call : client_call) : bool :=
  match call with
  | Call_openStream _ | Call_setBufferSizeInFrames _ _ | Call_start _
  | Call_close _ | Call_write _ _ _ => true
  | _ => false
  end.

(** The playback stream, and the recording stream, came up. *)
Definition playback_ok (o : ConnectOutcomes) : bool :=
  is_OK (fst (playback_opened o)) && is_OK (playback_buffer_set o)
  && is_OK (playback_started o).

Definition recording_ok (o : ConnectOutcomes) : bool :=
  is_OK (fst (recording_opened o)) && is_OK (recording_started o).

(** What [Connect] relies on: [openStream] returning [OK] has left a
    stream, and twice the burst size is an [int]. *)
Definition audio_answers_ok (o : ConnectOutcomes) : Prop :=
  (is_OK (fst (playback_opened o)) = true ->
   is_Some (snd (playback_opened o)) /\
   INT_MIN <= playback_framesPerBurst o * 2 <= INT_MAX) /\
  (is_OK (fst (recording_opened o)) = true ->
   is_Some (snd (recording_opened o))).

(** The device description and the client after the two audio blocks of
    [Connect], by cases on how the streams came up. *)
Definition after_playback (o : ConnectOutcomes) (d : cxrDeviceDesc)
  (s : ClientState) : cxrDeviceDesc * ClientState :=
  if receiveAudio d then
    if playback_ok o
    then (d, with_playback_stream s (snd (playback_opened o)))
    else (set_receiveAudio d false,
          with_playback_stream (with_mReceiveAudio s false) None)
  else (d, s).

Definition after_recording (o : ConnectOutcomes) (d : cxrDeviceDesc)
  (s : ClientState) : cxrDeviceDesc * ClientState :=
  if sendAudio d then
    if recording_ok o
    then (d, with_recording_stream s (snd (recording_opened o)))
    else (set_sendAudio d false,
          with_recording_stream (with_mSendAudio s false) None)
  else (d, s).

(** Answers to run [Connect] with: a server that refuses the connection
    after the playback stream came up, and a playback stream that does not
    start. *)
Definition connect_failing : ConnectOutcomes :=
  MkConnectOutcomes (oboe_OK, Some 7) 96 oboe_OK oboe_OK
    (oboe_Error (-1), None) oboe_OK
    (cxrError_Success, Some 1) (cxrError_Other 5).



(** ** The application *)

(** Objects of the AR library, by address. *)
Definition ArAnchor := Z.
Definition ArAugmentedImage := Z.
Definition ArHitResult := Z.

Inductive ArStatus := AR_SUCCESS | AR_ERROR (code : Z).

Inductive ArTrackingState :=
| AR_TRACKING_STATE_TRACKING
| AR_TRACKING_STATE_PAUSED
| AR_TRACKING_STATE_STOPPED.

Inductive ArTrackableType :=
| AR_TRACKABLE_PLANE
| AR_TRACKABLE_POINT
| AR_TRACKABLE_NOT_VALID
| AR_TRACKABLE_other (code : Z).

(** The calls of the application that this development follows: releases
    and acquisitions of anchors and images, the draw of the cached camera
    frame with its offset, and the calls of the client. *)
Inductive app_call :=
| Call_ArSession_pause
| Call_ArTrackable_acquireNewAnchor (image_index : Z)
| Call_ArTrackable_release (image : option ArAugmentedImage)
| Call_ArAnchor_release (anchor : option ArAnchor)
| Call_ArHitResult_acquireNewAnchor (hit : ArHitResult)
| Call_Draw (pose_offset : Z)
| Call_client (call : client_call).

(** The members of [HelloArApplication] that decide what the client is
    asked to do, the client itself, and the calls the client has made to
    [cxrLatchFrame] and [cxrReleaseFrame].  A pointer member is kept as far
    as it is tested: [ar_session_] and [ar_frame_] as "not null". *)
Record HelloArApplication := MkApp {
  exiting_ : bool;
  ar_session_ : bool;
  ar_frame_ : bool;
  using_image_anchors_ : bool;
  using_dynamic_base_frame_ : bool;
  base_frame_calibrated_ : bool;
  base_frame_ : mat4;
  anchor_ : option ArAnchor;
  augmented_image_map : gmap Z (option ArAugmentedImage * option ArAnchor);
  plane_count_ : Z;
  display_rotation_ : Z;
  display_width_ : Z;
  display_height_ : Z;
  cloudxr_client_ : ClientState;
  latch_calls : list sdk_call
}.

Definition with_client (app : HelloArApplication) (s : ClientState)
  : HelloArApplication :=
  MkApp (exiting_ app) (ar_session_ app) (ar_frame_ app)
    (using_image_anchors_ app) (using_dynamic_base_frame_ app)
    (base_frame_calibrated_ app) (base_frame_ app) (anchor_ app)
    (augmented_image_map app) (plane_count_ app) (display_rotation_ app)
    (display_width_ app) (display_height_ app) s (latch_calls app).

Definition with_session (app : HelloArApplication) (s : Session)
  : HelloArApplication :=
  MkApp (exiting_ app) (ar_session_ app) (ar_frame_ app)
    (using_image_anchors_ app) (using_dynamic_base_frame_ app)
    (base_frame_calibrated_ app) (base_frame_ app) (anchor_ app)
    (augmented_image_map app) (plane_count_ app) (display_rotation_ app)
    (display_width_ app) (display_height_ app)
    (with_members (cloudxr_client_ app) (client s)) (sdk_calls s).

Definition session_of (app : HelloArApplication) : Session :=
  MkSession (members (cloudxr_client_ app)) (latch_calls app).

Definition with_exiting (app : HelloArApplication) (b : bool)
  : HelloArApplication :=
  MkApp b (ar_session_ app) (ar_frame_ app)
    (using_image_anchors_ app) (using_dynamic_base_frame_ app)
    (base_frame_calibrated_ app) (base_frame_ app) (anchor_ app)
    (augmented_image_map app) (plane_count_ app) (display_rotation_ app)
    (display_width_ app) (display_height_ app) (cloudxr_client_ app)
    (latch_calls app).

(** [base_frame_calibrated_], [base_frame_] and [anchor_]. *)
Definition with_calibration (app : HelloArApplication) (calibrated : bool)
  (base_frame : mat4) (anchor : option ArAnchor) : HelloArApplication :=
  MkApp (exiting_ app) (ar_session_ app) (ar_frame_ app)
    (using_image_anchors_ app) (using_dynamic_base_frame_ app)
    calibrated base_frame anchor
    (augmented_image_map app) (plane_count_ app) (display_rotation_ app)
    (display_width_ app) (display_height_ app) (cloudxr_client_ app)
    (latch_calls app).

Definition with_image_map (app : HelloArApplication)
  (map : gmap Z (option ArAugmentedImage * option ArAnchor))
  : HelloArApplication :=
  MkApp (exiting_ app) (ar_session_ app) (ar_frame_ app)
    (using_image_anchors_ app) (using_dynamic_base_frame_ app)
    (base_frame_calibrated_ app) (base_frame_ app) (anchor_ app)
    map (plane_count_ app) (display_rotation_ app)
    (display_width_ app) (display_height_ app) (cloudxr_client_ app)
    (latch_calls app).

Definition with_plane_count (app : HelloArApplication) (n : Z)
  : HelloArApplication :=
  MkApp (exiting_ app) (ar_session_ app) (ar_frame_ app)
    (using_image_anchors_ app) (using_dynamic_base_frame_ app)
    (base_frame_calibrated_ app) (base_frame_ app) (anchor_ app)
    (augmented_image_map app) n (display_rotation_ app)
    (display_width_ app) (display_height_ app) (cloudxr_client_ app)
    (latch_calls app).

Definition with_display (app : HelloArApplication)
  (rotation w h : Z) : HelloArApplication :=
  MkApp (exiting_ app) (ar_session_ app) (ar_frame_ app)
    (using_image_anchors_ app) (using_dynamic_base_frame_ app)
    (base_frame_calibrated_ app) (base_frame_ app) (anchor_ app)
    (augmented_image_map app) (plane_count_ app) rotation w h
    (cloudxr_client_ app) (latch_calls app).

(** [OnPause]. *)
Definition OnPause (app : HelloArApplication)
  : HelloArApplication * list app_call :=
  let calls := if ar_session_ app then [Call_ArSession_pause] else [] in
  let '(s, calls') := Teardown (cloudxr_client_ app) in
  (with_client app s, calls ++ map Call_client calls').

(** An [int] argument passed for a [uint32_t] parameter. *)
Definition to_uint32_t (n : Z) : Z := n mod 2 ^ 32.

(** [OnDisplayGeometryChanged]; the arguments are [int]. *)
Definition OnDisplayGeometryChanged (display_rotation width height : Z)
  (app : HelloArApplication) : option HelloArApplication :=
  let app := with_display app display_rotation width height in
  let* c :=
    SetStreamRes (members (cloudxr_client_ app))
      (to_uint32_t (display_width_ app)) (to_uint32_t (display_height_ app))
      (to_uint32_t display_rotation) in
  Some (with_client app (with_members (cloudxr_client_ app) c)).

(** *** Image anchors *)

(** One entry of the list of updated trackables, with what the AR library
    answers about it. *)
Record image_update := ImageUpdate {
  update_image : option ArAugmentedImage;
  update_tracking_state : ArTrackingState;
  update_image_index : Z;
  update_new_anchor : ArStatus * option ArAnchor
}.

(** The body of the loop of [UpdateImageAnchors]; [None] when
    [CHECK_NOTIFY_STATUS] aborts the process. *)
Definition update_image_anchor
  (st : gmap Z (option ArAugmentedImage * option ArAnchor) * list app_call)
  (u : image_update)
  : option (gmap Z (option ArAugmentedImage * option ArAnchor)
            * list app_call) :=
  let '(map, calls) := st in
  let image_index := update_image_index u in
  match update_tracking_state u with
  | AR_TRACKING_STATE_PAUSED => Some (map, calls)
  | AR_TRACKING_STATE_TRACKING =>
      match map !! image_index with
      | Some _ => Some (map, calls)
      | None =>
          let '(status, image_anchor) := update_new_anchor u in
          let calls :=
            calls ++ [Call_ArTrackable_acquireNewAnchor image_index] in
          match status with
          | AR_SUCCESS =>
              Some (<[image_index := (update_image u, image_anchor)]> map,
                    calls)
          | AR_ERROR _ => None
          end
      end
  | AR_TRACKING_STATE_STOPPED =>
      let record := default (None, None) (map !! image_index) in
      Some (delete image_index map,
            calls ++ [Call_ArTrackable_release (fst record);
                      Call_ArAnchor_release (snd record)])
  end.

Fixpoint update_image_anchors
  (st : gmap Z (option ArAugmentedImage * option ArAnchor) * list app_call)
  (updates : list image_update)
  : option (gmap Z (option ArAugmentedImage * option ArAnchor)
            * list app_call) :=
  match updates with
  | [] => Some st
  | u :: updates =>
      let* st := update_image_anchor st u in
      update_image_anchors st updates
  end.

(** [UpdateImageAnchors]; [begin] is the entry [augmented_image_map.begin()]
    points to, and [updated_image_list] the list of updated trackables, or
    [None] when [ArTrackableList_create] has left the pointer null:
    [CHECK(updated_image_list != nullptr)] then aborts the process. *)
Definition UpdateImageAnchors
  (begin : gmap Z (option ArAugmentedImage * option ArAnchor) ->
           option (Z * (option ArAugmentedImage * option ArAnchor)))
  (updated_image_list : option (list image_update))
  (app : HelloArApplication)
  : option (HelloArApplication * list app_call) :=
  if negb (using_image_anchors_ app) then Some (app, [])
  else
    let* updates := updated_image_list in
    let* (map, calls) :=
      update_image_anchors (augmented_image_map app, []) updates in
    let app := with_image_map app map in
    if negb (base_frame_calibrated_ app)
       && negb (bool_decide (map = empty))
    then
      let* (_, record) := begin map in
      Some (with_calibration app true (base_frame_ app) (snd record), calls)
    else Some (app, calls).

(** *** Touches *)

(** One entry of the hit test, with what the AR library answers about
    it. *)
Record hit_result := HitResult {
  ar_hit : option ArHitResult;
  ar_trackable_type : ArTrackableType;
  in_polygon : Z;
  normal_distance_to_plane : float;
  estimated_surface_normal : bool;
  hit_new_anchor : ArStatus * option ArAnchor;
  hit_anchor_tracking_state : ArTrackingState
}.

(** What the loop over the hit results ends with. *)
Inductive hit_choice :=
| Hit_error
| Hit_none
| Hit_chosen (hit : ArHitResult) (h : hit_result).

Fixpoint choose_hit (hits : list hit_result) : hit_choice :=
  match hits with
  | [] => Hit_none
  | h :: hits =>
      match ar_hit h with
      | None => Hit_error
      | Some hit =>
          match ar_trackable_type h with
          | AR_TRACKABLE_PLANE =>
              if (in_polygon h =? 0)
                 || SFltb (normal_distance_to_plane h) Float32.zero
              then choose_hit hits
              else Hit_chosen hit h
          | AR_TRACKABLE_POINT =>
              if estimated_surface_normal h then Hit_chosen hit h
              else choose_hit hits
          | _ => choose_hit hits
          end
      end
  end.

(** [OnTouched]; [hit_result_list] is the result of the hit test, if one
    is made, or [None] when [ArHitResultList_create] has left the pointer
    null: [CHECK(hit_result_list)] then aborts the process, and the result
    is [None]. *)
Definition OnTouched (x y : float) (longPress : bool)
  (hit_result_list : option (list hit_result)) (app : HelloArApplication)
  : option (HelloArApplication * list app_call) :=
  if base_frame_calibrated_ app && negb longPress then
    if IsRunning (members (cloudxr_client_ app))
    then Some (app, map Call_client
                        (HandleTouch x y (members (cloudxr_client_ app))))
    else Some (app, [])
  else if longPress then
    Some (with_calibration app false (base_frame_ app) None,
          match anchor_ app with
          | Some a => [Call_ArAnchor_release (Some a)]
          | None => []
          end)
  else if ar_frame_ app && ar_session_ app then
    let* hits := hit_result_list in
    match choose_hit hits with
    | Hit_chosen hit h =>
        let '(status, anchor) := hit_new_anchor h in
        let calls := [Call_ArHitResult_acquireNewAnchor hit] in
        match status with
        | AR_ERROR _ => Some (app, calls)
        | AR_SUCCESS =>
            match hit_anchor_tracking_state h with
            | AR_TRACKING_STATE_TRACKING =>
                Some (with_calibration app (base_frame_calibrated_ app)
                        (base_frame_ app) anchor,
                      calls ++
                      match anchor_ app with
                      | Some a => [Call_ArAnchor_release (Some a)]
                      | None => []
                      end)
            | _ => Some (app, calls ++ [Call_ArAnchor_release anchor])
            end
        end
    | _ => Some (app, [])
    end
  else Some (app, []).

(** *** One frame *)

(** What the AR library, the audio library and the SDK answer during one
    [OnDrawFrame], as far as the calls followed here depend on it.
    [image_updates] and [plane_list_size] are [None] when
    [ArTrackableList_create] leaves the pointer to the list null. *)
Record frame_inputs := FrameInputs {
  camera_tracking_state : ArTrackingState;
  view_mat : mat4;
  projection_mat : mat4;
  image_updates : option (list image_update);
  image_map_begin :
    gmap Z (option ArAugmentedImage * option ArAnchor) ->
    option (Z * (option ArAugmentedImage * option ArAnchor));
  anchor_tracking_state : ArAnchor -> ArTrackingState;
  anchor_pose_mat : ArAnchor -> mat4;
  connect_outcomes : ConnectOutcomes;
  light_estimate_valid : bool;
  light_direction : list float;
  light_intensity : list float;
  light_harmonics : list float;
  light_uninitialised : cxrLightProperties;
  stats_answer : cxrError * cxrConnectionStats;
  plane_list_size : option Z
}.

Definition is_Success (e : cxrError) : bool :=
  match e with cxrError_Success => true | _ => false end.

Definition is_TRACKING (t : ArTrackingState) : bool :=
  match t with AR_TRACKING_STATE_TRACKING => true | _ => false end.

Section Frame.

Variable kQueueLen : Z.
Variable cxrLatchFrame :
  list sdk_call -> cxrReceiverHandle -> cxrFramesLatched ->
  cxrError * cxrFramesLatched.
Variable cxrReleaseFrame :
  list sdk_call -> option cxrReceiverHandle -> cxrFramesLatched ->
  cxrFramesLatched.
Variable cxrDeliveryType_Mono_RGBA : Z.
Variable CXR_MAX_AMBIENT_LIGHT_SH : nat.
Variables cxrConnectionQuality_Bad cxrConnectionQuality_Poor
  cxrConnectionQuality_Fair cxrConnectionQuality_Good
  cxrConnectionQuality_Excellent : Z.
Variables cxrConnectionQualityReason_EstimatingQuality
  cxrConnectionQualityReason_HighLatency
  cxrConnectionQualityReason_LowBandwidth
  cxrConnectionQualityReason_HighPacketLoss : Z.

(** [glm::inverse] and the matrix product, which this development does not
    compute. *)
Variable glm_inverse : mat4 -> mat4.
Variable glm_mul : mat4 -> mat4 -> mat4.

Variable i : frame_inputs.

(** "We need to (re)calibrate but CloudXR client is running": pull a frame
    and drop it. *)
Definition pull_frame (app : HelloArApplication) : HelloArApplication :=
  if negb (base_frame_calibrated_ app)
     && IsRunning (members (cloudxr_client_ app))
  then
    let '(status, session) := Latch cxrLatchFrame (session_of app) in
    if is_Success status
    then with_session app (Release cxrReleaseFrame session)
    else with_session app session
  else app.

(** "Try fetch base frame". *)
Definition fetch_base_frame (app : HelloArApplication) : HelloArApplication :=
  match anchor_ app with
  | Some a =>
      if using_dynamic_base_frame_ app
         && is_TRACKING (anchor_tracking_state i a)
      then with_calibration app (base_frame_calibrated_ app)
             (glm_inverse (anchor_pose_mat i a)) (anchor_ app)
      else app
  | None => app
  end.

(** The light estimate. *)
Definition send_light (app : HelloArApplication)
  : option (list client_call) :=
  if light_estimate_valid i && using_env_lighting_ (cloudxr_client_ app)
  then
    UpdateLightProps CXR_MAX_AMBIENT_LIGHT_SH (light_uninitialised i)
      (light_direction i) (light_intensity i) (light_harmonics i)
      (members (cloudxr_client_ app))
  else Some [].

(** From [Latch] on: the frame of a calibrated application whose client is
    connected.  The result is the value returned, if the function returns
    here. *)
Definition stream_frame (app : HelloArApplication)
  : option (option cxrError * HelloArApplication * list app_call) :=
  let '(status, session) := Latch cxrLatchFrame (session_of app) in
  let app := with_session app session in
  match status with
  | cxrError_Receiver_Not_Running =>
      Some (Some status, with_exiting app true, [])
  | _ =>
      let have_frame := is_Success status in
      let pose_offset :=
        if have_frame
        then DetermineOffset kQueueLen (members (cloudxr_client_ app))
        else 0 in
      let cloudxr_pose_mat :=
        glm_mul (base_frame_ app) (glm_inverse (view_mat i)) in
      let app :=
        with_client app
          (with_members (cloudxr_client_ app)
             (SetPoseMatrix kQueueLen (members (cloudxr_client_ app))
                cloudxr_pose_mat)) in
      let* light := send_light app in
      let calls := Call_Draw pose_offset :: map Call_client light in
      if have_frame then
        let blit := Render (members (cloudxr_client_ app)) in
        let app :=
          with_session app (Release cxrReleaseFrame (session_of app)) in
        let* (s, stats) :=
          Stats cxrConnectionQuality_Bad cxrConnectionQuality_Poor
            cxrConnectionQuality_Fair cxrConnectionQuality_Good
            cxrConnectionQuality_Excellent
            cxrConnectionQualityReason_EstimatingQuality
            cxrConnectionQualityReason_HighLatency
            cxrConnectionQualityReason_LowBandwidth
            cxrConnectionQualityReason_HighPacketLoss
            (stats_answer i) (cloudxr_client_ app) in
        Some (None, with_client app s,
              calls ++ map Call_client (blit ++ stats))
      else Some (None, app, calls)
  end.

(** The frame of a calibrated application. *)
Definition calibrated_frame (app : HelloArApplication)
  : option (option cxrError * HelloArApplication * list app_call) :=
  let app := fetch_base_frame app in
  if negb (IsRunning (members (cloudxr_client_ app))) then
    let s := cloudxr_client_ app in
    let s :=
      with_device_desc s
        (SetProjectionMatrix (projection_mat i) (device_desc_ s)) in
    let* (status, s, calls) :=
      Connect cxrDeliveryType_Mono_RGBA (connect_outcomes i) s in
    let app := with_client app s in
    if negb (is_Success status)
    then Some (Some status, with_exiting app true, map Call_client calls)
    else
      let* (result, app, calls') := stream_frame app in
      Some (result, app, map Call_client calls ++ calls')
  else stream_frame app.

(** "Try fetch zero basis", and the count of the planes; [None] when
    [CHECK(plane_list != nullptr)] aborts the process. *)
Definition calibrate (app : HelloArApplication)
  : option HelloArApplication :=
  let app :=
    match anchor_ app with
    | Some a =>
        if is_TRACKING (anchor_tracking_state i a)
        then with_calibration app true (glm_inverse (anchor_pose_mat i a))
               (anchor_ app)
        else app
    | None => app
    end in
  let* plane_list_size := plane_list_size i in
  Some (with_plane_count app plane_list_size).

(** [OnDrawFrame]: the value returned ([None] for 0, otherwise the status
    converted to [int]), the application and the calls.  The whole result
    is [None] when the process aborts or leaves defined behaviour. *)
Definition OnDrawFrame (app : HelloArApplication)
  : option (option cxrError * HelloArApplication * list app_call) :=
  if exiting_ app then Some (None, app, [])
  else if negb (ar_session_ app) then Some (None, app, [])
  else
    let calls0 :=
      if negb (IsRunning (members (cloudxr_client_ app)))
         || negb (base_frame_calibrated_ app)
      then [Call_Draw 0] else [] in
    if negb (is_TRACKING (camera_tracking_state i))
    then Some (None, app, calls0)
    else
      let app := pull_frame app in
      let* (app, calls1) :=
        UpdateImageAnchors (image_map_begin i) (image_updates i) app in
      let* (result, app, calls2) :=
        if base_frame_calibrated_ app then calibrated_frame app
        else Some (None, app, []) in
      let calls := calls0 ++ calls1 ++ calls2 in
      match result with
      | Some status => Some (Some status, app, calls)
      | None =>
          if base_frame_calibrated_ app || using_image_anchors_ app
          then Some (None, app, calls)
          else
            let* app := calibrate app in
            Some (None, app, calls)
      end.

End Frame.

(** A hit that ends the loop of [OnTouched]: a plane hit inside the
    polygon and not from behind, or a point with an estimated surface
    normal. *)
Definition hit_accepted (h : hit_result) : bool :=
  match ar_trackable_type h with
  | AR_TRACKABLE_PLANE =>
      negb (in_polygon h =? 0)
      && negb (SFltb (normal_distance_to_plane h) Float32.zero)
  | AR_TRACKABLE_POINT => estimated_surface_normal h
  | _ => false
  end.

(** A hit the loop steps over. *)
Definition hit_skipped (h : hit_result) : Prop :=
  is_Some (ar_hit h) /\ hit_accepted h = false.

(** A plane hit and an application to run the definitions on: a session
    and a frame, nothing calibrated, no image anchors. *)
Definition plane_hit (hit : ArHitResult) (inside : Z) (distance : Z)
  (anchor : ArAnchor) (tracking : ArTrackingState) : hit_result :=
  HitResult (Some hit) AR_TRACKABLE_PLANE inside (Float32.of_Z distance)
    false (AR_SUCCESS, Some anchor) tracking.

Definition app_initial (kQueueLen : Z) : HelloArApplication :=
  MkApp false true true false false false (translation 0 0 0) None empty 0
    0 1080 1920 (initial_state kQueueLen true true) [].


(** [begin] for a map kept in key order. *)
Definition first_entry
  (m : gmap Z (option ArAugmentedImage * option ArAnchor))
  : option (Z * (option ArAugmentedImage * option ArAnchor)) :=
  head (map_to_list m).


(** The calls one attempt to latch a frame adds to the log: the latch,
    followed by the release of the same receiver if a frame came. *)
Definition latch_block (block : list sdk_call) : Prop :=
  exists receiver timeout_ms,
    block = [Call_cxrLatchFrame receiver timeout_ms] \/
    block = [Call_cxrLatchFrame receiver timeout_ms;
             Call_cxrReleaseFrame (Some receiver)].

(** What one frame does to the latch: the flag is down again, and the log
    has grown by at most [n] blocks. *)
Definition latch_paired (n : nat) (app app' : HelloArApplication) : Prop :=
  latched_ (members (cloudxr_client_ app')) = false /\
  exists blocks,
    latch_calls app' = latch_calls app ++ concat blocks /\
    Forall latch_block blocks /\ (length blocks <= n)%nat.

(** Two states of the client with the same ring and cursor. *)
Definition same_ring (c c' : CloudXRClient) : Prop :=
  pose_matrix_ c' = pose_matrix_ c /\ current_idx_ c' = current_idx_ c.

(** What a part of the frame does to the ring of a client that was [c]
    when the frame began: nothing, or one push if it returns 0; and the
    offsets it draws with. *)
Definition ring_step (kQueueLen : Z) (c : CloudXRClient) (result : option cxrError)
  (c' : CloudXRClient) (calls : list app_call) : Prop :=
  (same_ring c c' \/
   result = None /\ exists pose, same_ring (SetPoseMatrix kQueueLen c pose) c')
  /\
  forall off, In (Call_Draw off) calls ->
    off = 0 \/
    exists frames, off = DetermineOffset kQueueLen (with_latch c frames true).

(** A part of the frame either goes on, leaving [exiting_] alone, or
    returns a status that is not [cxrError_Success] with [exiting_] set. *)
Definition exit_step (app : HelloArApplication) (result : option cxrError)
  (app' : HelloArApplication) (calls : list app_call) : Prop :=
  match result with
  | None => exiting_ app' = exiting_ app
  | Some status =>
      status <> cxrError_Success /\ exiting_ app' = true /\
      (status = cxrError_Receiver_Not_Running \/
       exists d, In (Call_client (Call_cxrCreateReceiver d)) calls)
  end.

(** Stand-ins to run [OnDrawFrame] with: a receiver that always has a
    frame, a frame in which the AR library reports nothing new, and a
    calibrated application before and after connecting. *)
Definition frame_always_ready (log : list sdk_call)
  (receiver : cxrReceiverHandle) (frames : cxrFramesLatched)
  : cxrError * cxrFramesLatched :=
  (cxrError_Success, CxrFramesLatched (pose_of_mat4 (translation 1 0 0))).

Definition quiet_frame : frame_inputs :=
  let o := Float32.zero in
  FrameInputs AR_TRACKING_STATE_TRACKING (translation 0 0 0)
    (translation 0 0 0) (Some []) first_entry
    (fun _ => AR_TRACKING_STATE_TRACKING) (fun _ => translation 0 0 0)
    connect_failing false [] [] []
    (CxrLightProperties (CxrVector3 o o o) (CxrVector3 o o o) [])
    (cxrError_Success, cxrConnectionStats_zero) (Some 0).

Definition app_calibrated (kQueueLen : Z) : HelloArApplication :=
  with_calibration (app_initial kQueueLen) true (translation 0 0 0) None.

Definition app_streaming (kQueueLen : Z) : HelloArApplication :=
  let s := cloudxr_client_ (app_calibrated kQueueLen) in
  with_client (app_calibrated kQueueLen)
    (with_members s (with_receiver (members s) (Some 1))).

(** Answers under which [OnDrawFrame] neither aborts nor leaves defined
    behaviour: the list of updated images is created, acquisitions of image
    anchors succeed and [begin] points into a non-empty map; the list of
    planes is created, where the frame comes to it; the audio library is as
    [Connect] expects; the light estimate fills its arrays; the statistics
    counter can be decremented and a reported frame rate, times three, is an
    [int]. *)
Definition frame_inputs_ok (CXR_MAX_AMBIENT_LIGHT_SH : nat)
  (i : frame_inputs) (app : HelloArApplication) : Prop :=
  (using_image_anchors_ app = true ->
   (exists updates,
      image_updates i = Some updates /\
      Forall (fun u => fst (update_new_anchor u) = AR_SUCCESS) updates)
   /\ forall m, m <> empty ->
        exists k v, image_map_begin i m = Some (k, v) /\ m !! k = Some v) /\
  (using_image_anchors_ app = false -> base_frame_calibrated_ app = false ->
   is_Some (plane_list_size i)) /\
  audio_answers_ok (connect_outcomes i) /\
  (light_estimate_valid i = true ->
   using_env_lighting_ (cloudxr_client_ app) = true ->
   (3 <= length (light_direction i))%nat /\
   (3 <= length (light_intensity i))%nat /\
   (CXR_MAX_AMBIENT_LIGHT_SH * 3 <= length (light_harmonics i))%nat /\
   length (ambientLightSh (light_uninitialised i)) =
     CXR_MAX_AMBIENT_LIGHT_SH) /\
  INT_MIN < frames_until_stats_ (cloudxr_client_ app) <= INT_MAX /\
  (fst (stats_answer i) = cxrError_Success ->
   exists n, float_to_int (framesPerSecond (snd (stats_answer i))) = Some n /\
             INT_MIN <= n * 3 <= INT_MAX).

(** The part of the client's state [frame_inputs_ok] speaks of. *)
Definition same_options (s s' : ClientState) : Prop :=
  frames_until_stats_ s' = frames_until_stats_ s /\
  using_env_lighting_ s' = using_env_lighting_ s.

(** [stream_width_] and [stream_height_]. *)
Definition with_stream_res (c : CloudXRClient) (sw sh : Z) : CloudXRClient :=
  {| cloudxr_receiver_ := cloudxr_receiver_ c;
     res_factor_ := res_factor_ c;
     stream_width_ := sw;
     stream_height_ := sh;
     framesLatched_ := framesLatched_ c;
     latched_ := latched_ c;
     pose_matrix_ := pose_matrix_ c;
     current_idx_ := current_idx_ c |}.

(** [device_desc_.proj]. *)
Definition with_proj (d : cxrDeviceDesc) (p : list (list float))
  : cxrDeviceDesc :=
  CxrDeviceDesc (deliveryType d) (width d) (height d) (maxResFactor d)
    (fps d) (ipd d) (predOffset d) (receiveAudio d) (sendAudio d)
    (disablePosePrediction d) (angularVelocityInDeviceSpace d)
    (foveatedScaleFactor d) p.

(** The tokens the [env-lighting] handler acts on. *)
Definition env_lighting_token (tok : list ascii) : option bool :=
  if decide (tok = ["1"%char]) then Some true
  else if decide (tok = ["0"%char]) then Some false
  else None.

(** What a frame does to the statistics of a client that was [s]: nothing,
    unless a video frame was blitted. *)
Definition counted_or_blitted (s s' : ClientState) (calls : list app_call)
  : Prop :=
  (frames_until_stats_ s' = frames_until_stats_ s /\ stats_ s' = stats_ s) \/
  exists receiver frames,
    In (Call_client (Call_cxrBlitFrame receiver frames)) calls.

(** * Properties *)

(** ** Index arithmetic *)

Section IndexFacts.

Variable kQueueLen : Z.
Hypothesis kQueueLen_pos : 0 < kQueueLen.

Lemma advance_mod cur :
  0 <= cur < kQueueLen ->
  Z.rem (cur + 1) kQueueLen = (cur + 1) mod kQueueLen.
Proof. intros H. apply Z.rem_mod_nonneg; lia. Qed.

Lemma offset_index_mod cur offset :
  0 <= cur < kQueueLen -> 0 <= offset < kQueueLen ->
  offset_index kQueueLen cur offset = (cur - offset) mod kQueueLen.
Proof.
  intros Hc Ho. unfold offset_index.
  destruct (Z.ltb_spec cur offset) as [Hlt | Hge].
  - replace (cur - offset) with (- (offset - cur)) by lia.
    rewrite Z.rem_opp_l by lia.
    rewrite Z.rem_small by lia.
    apply Z.mod_unique with (q := -1); lia.
  - rewrite Z.rem_small by lia. symmetry. apply Z.mod_small. lia.
Qed.

Lemma latest_index_mod cur :
  0 <= cur < kQueueLen ->
  latest_index kQueueLen cur = (cur - 1) mod kQueueLen.
Proof.
  intros Hc. unfold latest_index.
  destruct (Z.eqb_spec cur 0) as [-> | Hne].
  - apply Z.mod_unique with (q := -1); lia.
  - rewrite Z.rem_small by lia. symmetry. apply Z.mod_small. lia.
Qed.

(** Every index this file computes stays inside the array. *)
Lemma slot_index_in_range cur offset :
  0 <= cur < kQueueLen -> 0 <= offset < kQueueLen ->
  0 <= offset_index kQueueLen cur offset < kQueueLen /\
  0 <= latest_index kQueueLen cur < kQueueLen /\
  0 <= Z.rem (cur + 1) kQueueLen < kQueueLen.
Proof.
  intros Hc Ho.
  rewrite offset_index_mod, latest_index_mod, advance_mod by assumption.
  repeat split; apply Z.mod_pos_bound; lia.
Qed.

End IndexFacts.

(** ** One push *)

Section PushFacts.

Variable kQueueLen : Z.
Hypothesis kQueueLen_pos : 0 < kQueueLen.

Lemma ring_ok_initial : ring_ok kQueueLen (initial kQueueLen).
Proof.
  split; simpl; [apply length_replicate | lia].
Qed.

Lemma ring_ok_SetPoseMatrix c pose_mat :
  ring_ok kQueueLen c -> ring_ok kQueueLen (SetPoseMatrix kQueueLen c pose_mat).
Proof.
  intros [Hlen Hcur]. split; simpl.
  - now rewrite length_insert.
  - rewrite advance_mod by assumption. apply Z.mod_pos_bound. lia.
Qed.

Lemma ring_ok_with_latch c frames flag :
  ring_ok kQueueLen c -> ring_ok kQueueLen (with_latch c frames flag).
Proof. intros H. exact H. Qed.

Lemma ring_ok_push_all poses : forall c,
  ring_ok kQueueLen c -> ring_ok kQueueLen (push_all kQueueLen c poses).
Proof.
  induction poses as [| p poses IH]; intros c Hok; simpl; [assumption |].
  apply IH, ring_ok_SetPoseMatrix, Hok.
Qed.

(** Reading a slot after one push. *)
Lemma slot_SetPoseMatrix c pose_mat idx :
  ring_ok kQueueLen c ->
  slot kQueueLen (pose_matrix_ (SetPoseMatrix kQueueLen c pose_mat)) idx =
  if idx =? current_idx_ c then pose_of_mat4 pose_mat
  else slot kQueueLen (pose_matrix_ c) idx.
Proof.
  intros [Hlen Hcur]. unfold slot. simpl.
  destruct (Z.eqb_spec idx (current_idx_ c)) as [-> | Hne].
  - replace ((0 <=? current_idx_ c) && (current_idx_ c <? kQueueLen))
      with true by (symmetry; apply andb_true_iff; split; lia).
    rewrite list_lookup_insert_eq by lia. reflexivity.
  - destruct ((0 <=? idx) && (idx <? kQueueLen)) eqn:Hin; [| reflexivity].
    apply andb_true_iff in Hin as [H0 H1].
    rewrite list_lookup_insert_ne by lia. reflexivity.
Qed.

(** One past the slot just written. *)
Lemma cursor_after_push c pose_mat :
  ring_ok kQueueLen c ->
  let c' := SetPoseMatrix kQueueLen c pose_mat in
  current_idx_ c' = (current_idx_ c + 1) mod kQueueLen /\
  (current_idx_ c' - 1) mod kQueueLen = current_idx_ c.
Proof.
  intros [_ Hcur]. simpl. rewrite advance_mod by assumption.
  split; [reflexivity |].
  rewrite Zminus_mod_idemp_l.
  replace (current_idx_ c + 1 - 1) with (current_idx_ c) by lia.
  apply Z.mod_small. assumption.
Qed.

Lemma latest_after_push c pose_mat :
  ring_ok kQueueLen c ->
  let c' := SetPoseMatrix kQueueLen c pose_mat in
  latest_index kQueueLen (current_idx_ c') = current_idx_ c /\
  slot kQueueLen (pose_matrix_ c') (latest_index kQueueLen (current_idx_ c'))
    = pose_of_mat4 pose_mat.
Proof.
  intros Hok c'.
  assert (latest_index kQueueLen (current_idx_ c') = current_idx_ c) as Hidx.
  { rewrite latest_index_mod
      by (assumption || apply ring_ok_SetPoseMatrix, Hok).
    apply cursor_after_push, Hok. }
  split; [exact Hidx |].
  rewrite Hidx. unfold c'. rewrite slot_SetPoseMatrix by assumption.
  now rewrite Z.eqb_refl.
Qed.

Lemma push_all_snoc c poses p :
  push_all kQueueLen c (poses ++ [p]) =
  SetPoseMatrix kQueueLen (push_all kQueueLen c poses) p.
Proof. unfold push_all. now rewrite fold_left_app. Qed.

(** The cursor after [n] pushes. *)
Lemma current_idx_push_all poses : forall c,
  ring_ok kQueueLen c ->
  current_idx_ (push_all kQueueLen c poses) =
  (current_idx_ c + Z.of_nat (length poses)) mod kQueueLen.
Proof.
  induction poses as [| p poses IH] using rev_ind; intros c Hok.
  - simpl. rewrite Z.add_0_r. symmetry. apply Z.mod_small, Hok.
  - rewrite push_all_snoc. simpl.
    pose proof (ring_ok_push_all poses c Hok) as [_ Hcur].
    rewrite advance_mod by assumption.
    rewrite IH by assumption.
    rewrite length_app, Nat2Z.inj_add. simpl.
    rewrite Z.add_mod_idemp_l by lia. f_equal. lia.
Qed.

(** A push leaves everything but the ring and its cursor alone. *)
Lemma SetPoseMatrix_frame c pose_mat :
  let c' := SetPoseMatrix kQueueLen c pose_mat in
  cloudxr_receiver_ c' = cloudxr_receiver_ c /\
  res_factor_ c' = res_factor_ c /\
  stream_width_ c' = stream_width_ c /\
  stream_height_ c' = stream_height_ c /\
  framesLatched_ c' = framesLatched_ c /\
  latched_ c' = latched_ c.
Proof. simpl. repeat split. Qed.

Lemma framesLatched_push_all poses : forall c,
  framesLatched_ (push_all kQueueLen c poses) = framesLatched_ c.
Proof.
  induction poses as [| p poses IH]; intros c; simpl; [reflexivity |].
  now rewrite IH.
Qed.

End PushFacts.

(** ** The float literals *)

(** The literals are binary32 values, and the right ones: [m * 2^e] is the
    float nearest to [1/10000] (within half a unit of the last place), and
    exactly [3/4], [1/2] and [1]. *)
Lemma literals_binary32 :
  Forall (fun x => valid_binary Float32.prec Float32.emax x = true)
         [Float32.lit_0_0001; Float32.lit_0_75; Float32.lit_0_5;
          Float32.lit_1_0] /\
  2 * Z.abs (13743895 * 10000 - 2 ^ 37) <= 10000 /\
  12582912 * 4 = 3 * 2 ^ 24 /\
  8388608 * 2 = 2 ^ 24 /\
  8388608 = 2 ^ 23.
Proof.
  split; [repeat constructor |].
  repeat split; vm_compute; congruence.
Qed.

(** ** The comparison of two poses *)

(** A counting loop never decreases its counter, and leaves it as it was
    exactly when no element counted. *)
Lemma counting_fold {A} (g : Z -> A -> Z) (P : A -> Prop) :
  (forall acc x, acc <= g acc x /\ (g acc x = acc <-> P x)) ->
  forall l acc,
    acc <= fold_left g l acc /\
    (fold_left g l acc = acc <-> Forall P l).
Proof.
  intros Hg. induction l as [| x l IH]; intros acc; simpl.
  - split; [lia |]. split; [constructor | reflexivity].
  - destruct (Hg acc x) as [Hle Hiff].
    destruct (IH (g acc x)) as [Hle' Hiff'].
    split; [lia |]. split.
    + intros Heq. assert (g acc x = acc) as Hx by lia.
      constructor; [now apply Hiff |].
      apply Hiff'. lia.
    + intros Hall. inversion Hall as [| ? ? Hx Hl]; subst.
      apply Hiff in Hx. apply Hiff' in Hl. lia.
Qed.

Lemma notMatch_zero_iff a b :
  notMatch a b = 0 <->
  Forall (fun i => Forall (fun j => component_differs a b i j = false)
                          [0; 1; 2; 3]) [0; 1; 2].
Proof.
  unfold notMatch.
  apply (counting_fold
           (fun acc i =>
              fold_left
                (fun acc j =>
                   if component_differs a b i j then acc + 1 else acc)
                [0; 1; 2; 3] acc)).
  intros acc i.
  apply (counting_fold
           (fun acc j => if component_differs a b i j then acc + 1 else acc)).
  intros acc' j. destruct (component_differs a b i j); split; lia.
Qed.

(** [close_enough] holds exactly when none of the 3x4 components differs by
    [0.0001f] or more. *)
Lemma close_enough_iff a b :
  close_enough a b = true <->
  forall i j, 0 <= i < 3 -> 0 <= j < 4 -> component_differs a b i j = false.
Proof.
  unfold close_enough. rewrite Z.eqb_eq.
  split.
  - intros H. symmetry in H. apply notMatch_zero_iff in H.
    intros i j Hi Hj.
    assert (i = 0 \/ i = 1 \/ i = 2) as Hi' by lia.
    assert (j = 0 \/ j = 1 \/ j = 2 \/ j = 3) as Hj' by lia.
    rewrite !Forall_cons in H.
    destruct Hi' as [-> | [-> | ->]];
      destruct Hj' as [-> | [-> | [-> | ->]]]; tauto.
  - intros H. symmetry. apply notMatch_zero_iff.
    repeat (constructor; [repeat (constructor; [apply H; lia |]); constructor |]).
    constructor.
Qed.

(** A float never differs from itself: the difference is a zero, or a NaN
    for which [>=] is false. *)
Lemma sub_self_not_ge (x : float) :
  Float32.geb (Float32.fabsf (Float32.sub x x)) Float32.lit_0_0001 = false.
Proof.
  destruct x as [s | s | | s mx ex];
    [destruct s; reflexivity | destruct s; reflexivity | reflexivity |].
  unfold Float32.sub, SFsub. cbv zeta.
  set (v := cond_Zopp _ _).
  replace (IntDef.Z.sub v v) with 0 by (symmetry; apply Z.sub_diag).
  reflexivity.
Qed.

Lemma close_enough_refl a : close_enough a a = true.
Proof.
  apply close_enough_iff. intros i j _ _. apply sub_self_not_ge.
Qed.

(** ** The scan *)

Section ScanFacts.

Variable kQueueLen : Z.
Hypothesis kQueueLen_pos : 0 < kQueueLen.

Lemma mod_sub_cases a b :
  0 <= a < kQueueLen -> 0 <= b < kQueueLen ->
  (a - b) mod kQueueLen = if a <? b then a - b + kQueueLen else a - b.
Proof.
  intros Ha Hb. destruct (Z.ltb_spec a b).
  - symmetry. apply Z.mod_unique with (q := -1); lia.
  - apply Z.mod_small. lia.
Qed.

(** Distinct offsets read distinct slots. *)
Lemma offset_slot_inj cur o o' :
  0 <= cur < kQueueLen -> 0 <= o < kQueueLen -> 0 <= o' < kQueueLen ->
  (cur - o) mod kQueueLen = (cur - o') mod kQueueLen -> o = o'.
Proof.
  intros Hc Ho Ho'. rewrite !mod_sub_cases by assumption.
  destruct (Z.ltb_spec cur o), (Z.ltb_spec cur o'); lia.
Qed.

(** Offset 0 reads the slot at the cursor, offset [o >= 1] the sample
    written [o - 1] pushes ago. *)
Lemma scanned_sample_ago c o :
  ring_ok kQueueLen c -> 0 <= o < kQueueLen ->
  scanned kQueueLen c o =
  if o =? 0 then slot kQueueLen (pose_matrix_ c) (current_idx_ c)
  else sample_ago kQueueLen c (o - 1).
Proof.
  intros [_ Hcur] Ho. unfold scanned, sample_ago.
  rewrite offset_index_mod by assumption.
  destruct (Z.eqb_spec o 0) as [-> | Hne].
  - rewrite Z.sub_0_r, Z.mod_small by lia. reflexivity.
  - f_equal. f_equal. lia.
Qed.

(** What the loop returns when entered at [offset] with [n] iterations
    left: the first offset that hits, or 0. *)
Lemma DetermineOffset_from_spec c n : forall offset,
  let r := DetermineOffset_from kQueueLen c n offset in
  (offset <= r < offset + Z.of_nat n /\ hit kQueueLen c r = true /\
   forall o, offset <= o < r -> hit kQueueLen c o = false) \/
  (r = 0 /\
   forall o, offset <= o < offset + Z.of_nat n -> hit kQueueLen c o = false).
Proof.
  induction n as [| n IH]; intros offset; cbn zeta.
  - right. split; [reflexivity | intros o Ho; lia].
  - cbn [DetermineOffset_from].
    fold (scanned kQueueLen c offset). fold (hit kQueueLen c offset).
    destruct (hit kQueueLen c offset) eqn:Hhit.
    + left. split; [lia |]. split; [assumption |]. intros o Ho; lia.
    + destruct (IH (offset + 1)) as [(Hr & Hh & Hfirst) | (Hr & Hnone)].
      * left. split; [lia |]. split; [assumption |].
        intros o Ho. destruct (Z.eq_dec o offset) as [-> | Hne];
          [assumption | apply Hfirst; lia].
      * right. split; [assumption |].
        intros o Ho. destruct (Z.eq_dec o offset) as [-> | Hne];
          [assumption | apply Hnone; lia].
Qed.

Lemma DetermineOffset_spec c :
  let r := DetermineOffset kQueueLen c in
  (0 <= r < kQueueLen /\ hit kQueueLen c r = true /\
   forall o, 0 <= o < r -> hit kQueueLen c o = false) \/
  (r = 0 /\ forall o, 0 <= o < kQueueLen -> hit kQueueLen c o = false).
Proof.
  pose proof (DetermineOffset_from_spec c (Z.to_nat kQueueLen) 0) as H.
  rewrite Z2Nat.id in H by lia. exact H.
Qed.

(** The scan stops at an offset that hits when no earlier offset does. *)
Lemma DetermineOffset_first_hit c o :
  0 <= o < kQueueLen ->
  hit kQueueLen c o = true ->
  (forall o', 0 <= o' < o -> hit kQueueLen c o' = false) ->
  DetermineOffset kQueueLen c = o.
Proof.
  intros Ho Hhit Hbefore.
  destruct (DetermineOffset_spec c) as [(Hr & Hh & Hfirst) | (Hr & Hnone)].
  - destruct (Z.lt_trichotomy (DetermineOffset kQueueLen c) o)
      as [Hlt | [Heq | Hgt]]; [| assumption |].
    + rewrite Hbefore in Hh by lia. discriminate.
    + rewrite Hfirst in Hhit by lia. discriminate.
  - rewrite Hnone in Hhit by lia. discriminate.
Qed.

End ScanFacts.

(** ** The history kept by the ring *)

Section HistoryFacts.

Variable kQueueLen : Z.
Hypothesis kQueueLen_pos : 0 < kQueueLen.

(** After any run of pushes, the pose pushed [k] steps ago, for [k] below
    the capacity, is the sample [k] behind the newest. *)
Lemma sample_ago_push_all (poses : list mat4) : forall c (k : nat) p,
  ring_ok kQueueLen c ->
  rev poses !! k = Some p ->
  Z.of_nat k < kQueueLen ->
  sample_ago kQueueLen (push_all kQueueLen c poses) (Z.of_nat k) =
  pose_of_mat4 p.
Proof.
  induction poses as [| q poses IH] using rev_ind; intros c k p Hok Hk HkK.
  - discriminate.
  - rewrite rev_app_distr in Hk. simpl in Hk.
    rewrite push_all_snoc. unfold sample_ago.
    pose proof (ring_ok_push_all kQueueLen kQueueLen_pos poses c Hok)
      as Hok'.
    rewrite slot_SetPoseMatrix by assumption.
    destruct Hok' as [Hlen Hcur].
    set (c' := push_all kQueueLen c poses) in *.
    cbn [current_idx_ SetPoseMatrix].
    rewrite advance_mod by assumption.
    replace (((current_idx_ c' + 1) mod kQueueLen - 1 - Z.of_nat k)
               mod kQueueLen)
      with ((current_idx_ c' - Z.of_nat k) mod kQueueLen).
    2:{ rewrite <- Z.sub_add_distr, Zminus_mod_idemp_l. f_equal. lia. }
    rewrite mod_sub_cases by (assumption || lia).
    destruct k as [| k'].
    + simpl in Hk. injection Hk as ->.
      replace (current_idx_ c' <? Z.of_nat 0) with false
        by (symmetry; apply Z.ltb_ge; simpl; lia).
      simpl. rewrite Z.sub_0_r, Z.eqb_refl. reflexivity.
    + simpl in Hk.
      specialize (IH c k' p Hok Hk ltac:(lia)).
      unfold sample_ago in IH. fold c' in IH.
      replace ((current_idx_ c' - 1 - Z.of_nat k') mod kQueueLen)
        with ((current_idx_ c' - Z.of_nat (S k')) mod kQueueLen) in IH
        by (f_equal; lia).
      rewrite mod_sub_cases in IH by (assumption || lia).
      destruct (Z.ltb_spec (current_idx_ c') (Z.of_nat (S k')));
        (match goal with
         | |- context [?a =? ?b] => destruct (Z.eqb_spec a b)
         end; [lia | exact IH]).
Qed.

(** Slots that a run of fewer than [kQueueLen] pushes does not reach keep
    their contents. *)
Lemma untouched_push_all (poses : list mat4) : forall c j,
  ring_ok kQueueLen c ->
  Z.of_nat (length poses) <= j < kQueueLen ->
  slot kQueueLen (pose_matrix_ (push_all kQueueLen c poses))
       ((current_idx_ c + j) mod kQueueLen) =
  slot kQueueLen (pose_matrix_ c) ((current_idx_ c + j) mod kQueueLen).
Proof.
  induction poses as [| q poses IH] using rev_ind; intros c j Hok Hj.
  - reflexivity.
  - rewrite length_app, Nat2Z.inj_add in Hj. simpl in Hj.
    rewrite push_all_snoc.
    pose proof (ring_ok_push_all kQueueLen kQueueLen_pos poses c Hok)
      as Hok'.
    rewrite slot_SetPoseMatrix by assumption.
    rewrite current_idx_push_all by assumption.
    destruct (Z.eqb_spec ((current_idx_ c + j) mod kQueueLen)
                ((current_idx_ c + Z.of_nat (length poses)) mod kQueueLen))
      as [Heq | Hne].
    + exfalso. destruct Hok as [_ Hcur].
      assert ((j - Z.of_nat (length poses)) mod kQueueLen = 0) as H0.
      { replace (j - Z.of_nat (length poses))
          with ((current_idx_ c + j) -
                (current_idx_ c + Z.of_nat (length poses))) by lia.
        rewrite Zminus_mod, Heq, Z.sub_diag. apply Z.mod_0_l. lia. }
      rewrite Z.mod_small in H0 by lia. lia.
    + apply IH; [assumption | lia].
Qed.

End HistoryFacts.

(** ** The ring: what a push writes and what the reads return *)

(** The twelve assignments of [SetPoseMatrix], component by component:
    [pose_matrix.m[i][j] = pose_mat[j][i]]. *)
Lemma pose_of_mat4_components (pose_mat : mat4) (i j : Z) :
  0 <= i < 3 -> 0 <= j < 4 ->
  m (pose_of_mat4 pose_mat) i j = mat4_at pose_mat j i.
Proof.
  intros Hi Hj.
  assert (i = 0 \/ i = 1 \/ i = 2) as [-> | [-> | ->]] by lia;
    assert (j = 0 \/ j = 1 \/ j = 2 \/ j = 3) as [-> | [-> | [-> | ->]]]
      by lia;
    reflexivity.
Qed.

(** C3. A push writes the new pose into the slot at the write cursor:
    afterwards every component [m[i][j]] of that slot, for the three rows
    and four columns of a [cxrMatrix34], is the component [pose_mat[j][i]]
    of the pose pushed.  That slot is the one of the oldest retained sample
    once the ring has wrapped, and the push advances the cursor by one modulo
    [kQueueLen], so that the cursor ends one past the slot just written. *)
Theorem SetPoseMatrix_overwrites_oldest
  (kQueueLen : Z) (c0 : CloudXRClient) (poses : list mat4) (pose_mat : mat4) :
  0 < kQueueLen ->
  ring_ok kQueueLen c0 ->
  let c := push_all kQueueLen c0 poses in
  let c' := SetPoseMatrix kQueueLen c pose_mat in
  (forall q, rev poses !! Z.to_nat (kQueueLen - 1) = Some q ->
             slot kQueueLen (pose_matrix_ c) (current_idx_ c) =
             pose_of_mat4 q) /\
  slot kQueueLen (pose_matrix_ c') (current_idx_ c) = pose_of_mat4 pose_mat /\
  (forall i j, 0 <= i < 3 -> 0 <= j < 4 ->
     m (slot kQueueLen (pose_matrix_ c') (current_idx_ c)) i j =
     mat4_at pose_mat j i) /\
  (forall q i j, rev poses !! Z.to_nat (kQueueLen - 1) = Some q ->
     0 <= i < 3 -> 0 <= j < 4 ->
     m (slot kQueueLen (pose_matrix_ c) (current_idx_ c)) i j =
     mat4_at q j i) /\
  current_idx_ c' = (current_idx_ c + 1) mod kQueueLen /\
  (current_idx_ c' - 1) mod kQueueLen = current_idx_ c.
Proof.
  intros HK Hok c c'.
  pose proof (ring_ok_push_all kQueueLen HK poses c0 Hok) as Hokc.
  fold c in Hokc. pose proof Hokc as [Hlen Hcur].
  assert (forall q, rev poses !! Z.to_nat (kQueueLen - 1) = Some q ->
                    slot kQueueLen (pose_matrix_ c) (current_idx_ c) =
                    pose_of_mat4 q) as Hold;
    [| split; [exact Hold | split; [| split; [| split; [| split]]]]].
  - intros q Hq.
    pose proof (sample_ago_push_all kQueueLen HK poses c0
                  (Z.to_nat (kQueueLen - 1)) q Hok Hq ltac:(lia)) as H.
    fold c in H. unfold sample_ago in H.
    rewrite Z2Nat.id in H by lia.
    replace (current_idx_ c - 1 - (kQueueLen - 1))
      with (current_idx_ c + (-1) * kQueueLen) in H by lia.
    rewrite Z.mod_add, Z.mod_small in H by lia. exact H.
  - unfold c'. rewrite slot_SetPoseMatrix by assumption.
    now rewrite Z.eqb_refl.
  - intros i j Hi Hj. unfold c'.
    rewrite slot_SetPoseMatrix by assumption. rewrite Z.eqb_refl.
    now apply pose_of_mat4_components.
  - intros q i j Hq Hi Hj. rewrite (Hold q Hq).
    now apply pose_of_mat4_components.
  - apply cursor_after_push; assumption.
  - apply cursor_after_push; assumption.
Qed.

Lemma SetPoseMatrix_overwrites_oldest_witness :
  let c := push_all 2 (initial 2) [translation 1 0 0; translation 2 0 0] in
  let c' := SetPoseMatrix 2 c (translation 3 5 7) in
  slot 2 (pose_matrix_ c) (current_idx_ c) = pose_of_mat4 (translation 1 0 0)
  /\ m (slot 2 (pose_matrix_ c) (current_idx_ c)) 0 3 = Float32.of_Z 1
  /\ slot 2 (pose_matrix_ c') (current_idx_ c) =
     pose_of_mat4 (translation 3 5 7)
  /\ m (slot 2 (pose_matrix_ c') (current_idx_ c)) 0 3 = Float32.of_Z 3
  /\ m (slot 2 (pose_matrix_ c') (current_idx_ c)) 1 3 = Float32.of_Z 5
  /\ m (slot 2 (pose_matrix_ c') (current_idx_ c)) 2 3 = Float32.of_Z 7
  /\ m (slot 2 (pose_matrix_ c') (current_idx_ c)) 1 1 = Float32.lit_1_0
  /\ current_idx_ c' = 1.
Proof.
  pose proof (SetPoseMatrix_overwrites_oldest 2 (initial 2)
                [translation 1 0 0; translation 2 0 0] (translation 3 5 7)
                ltac:(lia) (ring_ok_initial 2 ltac:(lia)))
    as (Hold & Hnew & Hcomp & Holdcomp & Hcur & _).
  split; [apply Hold; reflexivity |].
  split; [exact (Holdcomp _ 0 3 eq_refl ltac:(lia) ltac:(lia)) |].
  split; [exact Hnew |].
  split; [exact (Hcomp 0 3 ltac:(lia) ltac:(lia)) |].
  split; [exact (Hcomp 1 3 ltac:(lia) ltac:(lia)) |].
  split; [exact (Hcomp 2 3 ltac:(lia) ltac:(lia)) |].
  split; [exact (Hcomp 1 1 ltac:(lia) ltac:(lia)) | exact Hcur].
Defined.

(** C4. After a push, [GetTrackingState] converts exactly the pose that
    push wrote: it reads the slot at [current_idx_ - 1] modulo
    [kQueueLen]. *)
Theorem GetTrackingState_latest
  (kQueueLen : Z)
  (cxrMatrixToVecQuat : cxrMatrix34 -> cxrVector3 * cxrQuaternion)
  (c : CloudXRClient) (pose_mat : mat4) :
  0 < kQueueLen ->
  ring_ok kQueueLen c ->
  let c' := SetPoseMatrix kQueueLen c pose_mat in
  let st := GetTrackingState kQueueLen cxrMatrixToVecQuat c' in
  latest_index kQueueLen (current_idx_ c') =
    (current_idx_ c' - 1) mod kQueueLen /\
  slot kQueueLen (pose_matrix_ c') (latest_index kQueueLen (current_idx_ c'))
    = pose_of_mat4 pose_mat /\
  (position st, rotation st) = cxrMatrixToVecQuat (pose_of_mat4 pose_mat) /\
  poseIsValid st = true /\ deviceIsConnected st = true /\
  trackingResult st = cxrTrackingResult_Running_OK.
Proof.
  intros HK Hok c' st.
  pose proof (ring_ok_SetPoseMatrix kQueueLen HK c pose_mat Hok) as [_ Hcur'].
  fold c' in Hcur'.
  pose proof (latest_after_push kQueueLen HK c pose_mat Hok) as [_ Hslot].
  fold c' in Hslot.
  split; [apply latest_index_mod; assumption |].
  split; [exact Hslot |].
  unfold st, GetTrackingState. rewrite Hslot.
  destruct (cxrMatrixToVecQuat (pose_of_mat4 pose_mat)) as [pos rot].
  simpl. repeat split.
Qed.

Lemma GetTrackingState_latest_witness :
  position
    (GetTrackingState 3 translation_part
       (SetPoseMatrix 3 (initial 3) (translation 4 5 6))) =
  CxrVector3 (Float32.of_Z 4) (Float32.of_Z 5) (Float32.of_Z 6).
Proof.
  pose proof (GetTrackingState_latest 3 translation_part (initial 3)
                (translation 4 5 6) ltac:(lia)
                (ring_ok_initial 3 ltac:(lia)))
    as (_ & _ & Hpose & _).
  exact (f_equal fst Hpose).
Defined.

Lemma close_enough_false a b i j :
  0 <= i < 3 -> 0 <= j < 4 ->
  component_differs a b i j = true -> close_enough a b = false.
Proof.
  intros Hi Hj Hdiff. destruct (close_enough a b) eqn:Hclose; [| reflexivity].
  rewrite (proj1 (close_enough_iff a b) Hclose i j Hi Hj) in Hdiff.
  discriminate.
Qed.

(** C5. When every slot of the ring has a component that differs from the
    latched pose by [0.0001f] or more, [DetermineOffset] returns the default
    0. *)
Theorem DetermineOffset_no_match (kQueueLen : Z) (c : CloudXRClient) :
  0 < kQueueLen ->
  ring_ok kQueueLen c ->
  (forall idx, 0 <= idx < kQueueLen ->
     exists i j, 0 <= i < 3 /\ 0 <= j < 4 /\
       component_differs (slot kQueueLen (pose_matrix_ c) idx)
                         (poseMatrix (framesLatched_ c)) i j = true) ->
  DetermineOffset kQueueLen c = 0.
Proof.
  intros HK [_ Hcur] Hnone.
  destruct (DetermineOffset_spec kQueueLen HK c) as [(Hr & Hh & _) | (Hr & _)];
    [| exact Hr].
  unfold hit, scanned in Hh.
  destruct (Hnone (offset_index kQueueLen (current_idx_ c)
                     (DetermineOffset kQueueLen c)))
    as (i & j & Hi & Hj & Hdiff).
  { apply slot_index_in_range; assumption. }
  rewrite (close_enough_false _ _ i j Hi Hj Hdiff) in Hh. discriminate.
Qed.

Lemma DetermineOffset_no_match_witness :
  DetermineOffset 2
    (with_latch (push_all 2 (initial 2) [translation 1 0 0])
                (CxrFramesLatched (pose_of_mat4 (translation 5 0 0))) true)
  = 0.
Proof.
  apply DetermineOffset_no_match.
  - lia.
  - exact (ring_ok_push_all 2 ltac:(lia) [translation 1 0 0] _
             (ring_ok_initial 2 ltac:(lia))).
  - intros idx Hidx. exists 0, 3.
    assert (idx = 0 \/ idx = 1) as [-> | ->] by lia;
      (split; [lia | split; [lia | vm_compute; reflexivity]]).
Defined.

(** ** The offset of a known sample *)

Section OffsetFacts.

Variable kQueueLen : Z.
Hypothesis kQueueLen_pos : 0 < kQueueLen.

(** The scan reads, at offset [o], the sample written [(o - 1) mod
    kQueueLen] pushes ago. *)
Lemma scanned_age c o :
  ring_ok kQueueLen c -> 0 <= o < kQueueLen ->
  scanned kQueueLen c o = sample_ago kQueueLen c ((o - 1) mod kQueueLen).
Proof.
  intros [_ Hcur] Ho. unfold scanned, sample_ago.
  rewrite offset_index_mod by assumption.
  f_equal.
  destruct (Z.eq_dec o 0) as [-> | Hne].
  - replace ((0 - 1) mod kQueueLen) with (kQueueLen - 1)
      by (apply Z.mod_unique with (q := -1); lia).
    replace (current_idx_ c - 1 - (kQueueLen - 1))
      with (current_idx_ c - 0 + (-1) * kQueueLen) by lia.
    now rewrite Z.mod_add by lia.
  - rewrite (Z.mod_small (o - 1)) by lia. f_equal. lia.
Qed.

(** The sample written [k] pushes ago is read at offset [(k + 1) mod
    kQueueLen]. *)
Lemma sample_ago_scanned c k :
  ring_ok kQueueLen c -> 0 <= k < kQueueLen ->
  sample_ago kQueueLen c k = scanned kQueueLen c ((k + 1) mod kQueueLen).
Proof.
  intros Hok Hk.
  rewrite scanned_age by (assumption || (apply Z.mod_pos_bound; lia)).
  rewrite Zminus_mod_idemp_l. f_equal.
  replace (k + 1 - 1) with k by lia. symmetry. apply Z.mod_small. lia.
Qed.

(** Every slot is the sample of some age below the capacity. *)
Lemma slot_sample_ago c idx :
  ring_ok kQueueLen c -> 0 <= idx < kQueueLen ->
  slot kQueueLen (pose_matrix_ c) idx =
  sample_ago kQueueLen c ((current_idx_ c - 1 - idx) mod kQueueLen).
Proof.
  intros [_ Hcur] Hidx. unfold sample_ago. f_equal.
  rewrite Zminus_mod_idemp_r.
  replace (current_idx_ c - 1 - (current_idx_ c - 1 - idx)) with idx by lia.
  symmetry. apply Z.mod_small. assumption.
Qed.

(** If the target is within tolerance of the sample written [k] pushes ago
    and of no other slot, the scan stops at offset [(k + 1) mod
    kQueueLen]. *)
Lemma DetermineOffset_unique_sample c k :
  ring_ok kQueueLen c -> 0 <= k < kQueueLen ->
  close_enough (sample_ago kQueueLen c k) (poseMatrix (framesLatched_ c))
    = true ->
  (forall idx, 0 <= idx < kQueueLen ->
     idx <> (current_idx_ c - 1 - k) mod kQueueLen ->
     close_enough (slot kQueueLen (pose_matrix_ c) idx)
                  (poseMatrix (framesLatched_ c)) = false) ->
  DetermineOffset kQueueLen c = (k + 1) mod kQueueLen.
Proof.
  intros Hok Hk Hclose Hothers.
  pose proof Hok as [_ Hcur].
  assert (0 <= (k + 1) mod kQueueLen < kQueueLen) as Ho
    by (apply Z.mod_pos_bound; lia).
  apply DetermineOffset_first_hit; [assumption | assumption | |].
  - unfold hit. now rewrite <- sample_ago_scanned by assumption.
  - intros o' Ho'. unfold hit, scanned.
    apply Hothers.
    + apply slot_index_in_range; (assumption || lia).
    + rewrite offset_index_mod by (assumption || lia).
      intros Heq.
      replace (current_idx_ c - 1 - k) with (current_idx_ c - (k + 1)) in Heq
        by lia.
      rewrite <- (Zminus_mod_idemp_r _ (k + 1)) in Heq.
      apply offset_slot_inj in Heq; (assumption || lia).
Qed.

End OffsetFacts.

(** C1, as the code has it. When the latched pose equals the sample written
    [k] pushes ago and no other slot is within the tolerance of it,
    [DetermineOffset] returns [(k + 1) mod kQueueLen]: offsets count back
    from the write cursor, so the newest sample is at offset 1 and only the
    slot at the cursor, the oldest one, is at offset 0. *)
Theorem DetermineOffset_sample_written_k_ago
  (kQueueLen : Z) (c : CloudXRClient) (poses : list mat4) (k : nat)
  (p : mat4) :
  0 < kQueueLen ->
  ring_ok kQueueLen c ->
  Z.of_nat (length poses) <= kQueueLen ->
  rev poses !! k = Some p ->
  poseMatrix (framesLatched_ c) = pose_of_mat4 p ->
  let c' := push_all kQueueLen c poses in
  (forall idx, 0 <= idx < kQueueLen ->
     idx <> (current_idx_ c' - 1 - Z.of_nat k) mod kQueueLen ->
     close_enough (slot kQueueLen (pose_matrix_ c') idx) (pose_of_mat4 p)
       = false) ->
  DetermineOffset kQueueLen c' = (Z.of_nat k + 1) mod kQueueLen.
Proof.
  intros HK Hok HN Hk Htarget c' Hothers.
  assert (Z.of_nat k < kQueueLen) as HkK.
  { apply lookup_lt_Some in Hk. rewrite length_rev in Hk. lia. }
  assert (poseMatrix (framesLatched_ c') = pose_of_mat4 p) as Htarget'.
  { unfold c'. now rewrite framesLatched_push_all. }
  apply DetermineOffset_unique_sample.
  - assumption.
  - apply ring_ok_push_all; assumption.
  - lia.
  - rewrite Htarget'. unfold c'.
    rewrite (sample_ago_push_all kQueueLen HK poses c k p) by assumption.
    apply close_enough_refl.
  - rewrite Htarget'. exact Hothers.
Qed.

Lemma DetermineOffset_sample_written_k_ago_witness :
  DetermineOffset 3
    (push_all 3
       (with_latch (initial 3)
          (CxrFramesLatched (pose_of_mat4 (translation 1 0 0))) true)
       [translation 1 0 0; translation 2 0 0]) = 2.
Proof.
  apply (DetermineOffset_sample_written_k_ago 3
           (with_latch (initial 3)
              (CxrFramesLatched (pose_of_mat4 (translation 1 0 0))) true)
           [translation 1 0 0; translation 2 0 0] 1 (translation 1 0 0)).
  - lia.
  - exact (ring_ok_initial 3 ltac:(lia)).
  - simpl. lia.
  - reflexivity.
  - reflexivity.
  - intros idx Hidx Hne.
    assert (idx = 0 \/ idx = 1 \/ idx = 2) as [-> | [-> | ->]] by lia.
    + exfalso. apply Hne. reflexivity.
    + vm_compute. reflexivity.
    + vm_compute. reflexivity.
Defined.

(** C1 as stated fails: with capacity 2 and one pushed pose, the latched
    pose equals the newest sample ([k = 0]) and the only other slot is not
    within tolerance, yet the offset returned is 1. *)
Lemma DetermineOffset_newest_is_not_offset_0 :
  let c :=
    push_all 2
      (with_latch (initial 2)
         (CxrFramesLatched (pose_of_mat4 (translation 1 0 0))) true)
      [translation 1 0 0] in
  poseMatrix (framesLatched_ c) = sample_ago 2 c 0 /\
  (current_idx_ c - 1 - 0) mod 2 = 0 /\
  close_enough (slot 2 (pose_matrix_ c) 1) (poseMatrix (framesLatched_ c))
    = false /\
  DetermineOffset 2 c = 1 /\
  DetermineOffset 2 c <> 0.
Proof.
  vm_compute. repeat split; discriminate.
Qed.

(** C2, as the code has it. The scan visits the offsets [0 .. kQueueLen - 1]
    in increasing order; offset [o] reads the slot at [current_idx_ - o]
    modulo [kQueueLen], which holds the sample written [(o - 1) mod
    kQueueLen] pushes ago: first the slot at the write cursor (the oldest
    sample), then the newest sample, the one before it, and so on.  An
    offset hits when none of the 3x4 components differs from the latched
    pose by [0.0001f] or more.  The result is the first offset that hits,
    and 0 when none does. *)
Theorem DetermineOffset_first_hit_from_cursor
  (kQueueLen : Z) (c : CloudXRClient) :
  0 < kQueueLen ->
  ring_ok kQueueLen c ->
  let r := DetermineOffset kQueueLen c in
  (forall o, 0 <= o < kQueueLen ->
     scanned kQueueLen c o =
       slot kQueueLen (pose_matrix_ c)
            ((current_idx_ c - o) mod kQueueLen) /\
     scanned kQueueLen c o = sample_ago kQueueLen c ((o - 1) mod kQueueLen) /\
     (hit kQueueLen c o = true <->
      forall i j, 0 <= i < 3 -> 0 <= j < 4 ->
        component_differs (scanned kQueueLen c o)
                          (poseMatrix (framesLatched_ c)) i j = false)) /\
  ((0 <= r < kQueueLen /\ hit kQueueLen c r = true /\
    forall o, 0 <= o < r -> hit kQueueLen c o = false) \/
   (r = 0 /\ forall o, 0 <= o < kQueueLen -> hit kQueueLen c o = false)).
Proof.
  intros HK Hok r. split.
  - intros o Ho. split; [| split].
    + unfold scanned. rewrite offset_index_mod by (assumption || apply Hok).
      reflexivity.
    + apply scanned_age; assumption.
    + apply close_enough_iff.
  - apply DetermineOffset_spec. assumption.
Qed.

Lemma DetermineOffset_first_hit_from_cursor_witness :
  let c :=
    push_all 3
      (with_latch (initial 3)
         (CxrFramesLatched (pose_of_mat4 (translation 2 0 0))) true)
      [translation 1 0 0; translation 2 0 0; translation 3 0 0] in
  DetermineOffset 3 c = 2 /\ hit 3 c 0 = false /\ hit 3 c 1 = false /\
  scanned 3 c 2 = sample_ago 3 c 1.
Proof.
  intros c.
  destruct (DetermineOffset_first_hit_from_cursor 3 c ltac:(lia)
              (ring_ok_push_all 3 ltac:(lia) _ _
                 (ring_ok_with_latch 3 _ _ _
                    (ring_ok_initial 3 ltac:(lia)))))
    as [Hscan _].
  destruct (Hscan 2 ltac:(lia)) as (_ & Hage & _).
  split; [reflexivity | split; [reflexivity | split; [reflexivity |]]].
  exact Hage.
Defined.

(** C2 as stated fails: with capacity 3 and the pushes A, A, C, a latched
    pose equal to A is first met, going from the newest sample to the
    oldest, at ring distance 1; the scan of the code starts at the cursor
    slot, which holds the oldest sample, and returns 0. *)
Lemma DetermineOffset_not_newest_first :
  let c :=
    push_all 3
      (with_latch (initial 3)
         (CxrFramesLatched (pose_of_mat4 (translation 1 0 0))) true)
      [translation 1 0 0; translation 1 0 0; translation 3 0 0] in
  close_enough (sample_ago 3 c 0) (poseMatrix (framesLatched_ c)) = false /\
  close_enough (sample_ago 3 c 1) (poseMatrix (framesLatched_ c)) = true /\
  findOffset_spec 3 c = 1 /\
  DetermineOffset 3 c = 0 /\
  DetermineOffset 3 c <> findOffset_spec 3 c.
Proof.
  vm_compute. repeat split; discriminate.
Qed.

(** ** Overwriting *)

(** C6. After [kQueueLen + 1] pushes the ring holds exactly the last
    [kQueueLen] poses, the one pushed [k] steps ago in the slot [k] behind
    the newest; the first pose is gone: if no later pose is within tolerance
    of it, no slot is within tolerance of it, none equals it, and a scan for
    it finds nothing. *)
Theorem first_pose_overwritten
  (kQueueLen : Z) (c : CloudXRClient) (first : mat4) (rest : list mat4) :
  0 < kQueueLen ->
  ring_ok kQueueLen c ->
  Z.of_nat (length rest) = kQueueLen ->
  let c' := push_all kQueueLen c (first :: rest) in
  (forall (k : nat) p, rev rest !! k = Some p ->
     sample_ago kQueueLen c' (Z.of_nat k) = pose_of_mat4 p) /\
  (forall idx, 0 <= idx < kQueueLen ->
     exists p, p ∈ rest /\
               slot kQueueLen (pose_matrix_ c') idx = pose_of_mat4 p) /\
  ((forall p, p ∈ rest ->
      close_enough (pose_of_mat4 p) (pose_of_mat4 first) = false) ->
   (forall idx, 0 <= idx < kQueueLen ->
      close_enough (slot kQueueLen (pose_matrix_ c') idx)
                   (pose_of_mat4 first) = false /\
      slot kQueueLen (pose_matrix_ c') idx <> pose_of_mat4 first) /\
   (poseMatrix (framesLatched_ c) = pose_of_mat4 first ->
    forall o, 0 <= o < kQueueLen -> hit kQueueLen c' o = false)).
Proof.
  intros HK Hok Hlen c'.
  assert (ring_ok kQueueLen c') as Hok'
    by (apply ring_ok_push_all; assumption).
  assert (forall (k : nat) p, rev rest !! k = Some p ->
            sample_ago kQueueLen c' (Z.of_nat k) = pose_of_mat4 p) as Hago.
  { intros k p Hk.
    assert (k < length rest)%nat as Hlt
      by (apply lookup_lt_Some in Hk; now rewrite length_rev in Hk).
    apply (sample_ago_push_all kQueueLen HK (first :: rest) c k p Hok);
      [| lia].
    simpl. rewrite lookup_app_l by (rewrite length_rev; exact Hlt).
    exact Hk. }
  assert (forall idx, 0 <= idx < kQueueLen ->
            exists p, p ∈ rest /\
              slot kQueueLen (pose_matrix_ c') idx = pose_of_mat4 p) as Hall.
  { intros idx Hidx.
    rewrite slot_sample_ago by assumption.
    set (k := (current_idx_ c' - 1 - idx) mod kQueueLen).
    assert (0 <= k < kQueueLen) as Hk by (apply Z.mod_pos_bound; lia).
    destruct (lookup_lt_is_Some_2 (rev rest) (Z.to_nat k)) as [p Hp];
      [rewrite length_rev; lia |].
    exists p. split.
    - apply list_elem_of_lookup_2 in Hp.
      apply list_elem_of_In. apply list_elem_of_In in Hp.
      now apply in_rev.
    - rewrite <- (Z2Nat.id k) by lia. apply Hago. exact Hp. }
  split; [exact Hago | split; [exact Hall |]].
  intros Hfar.
  assert (forall idx, 0 <= idx < kQueueLen ->
            close_enough (slot kQueueLen (pose_matrix_ c') idx)
                         (pose_of_mat4 first) = false) as Hnone.
  { intros idx Hidx. destruct (Hall idx Hidx) as (p & Hin & ->).
    apply Hfar, Hin. }
  split.
  - intros idx Hidx. split; [apply Hnone, Hidx |].
    intros Heq. specialize (Hnone idx Hidx).
    rewrite Heq, close_enough_refl in Hnone. discriminate.
  - intros Htarget o Ho. unfold hit, scanned, c'.
    rewrite framesLatched_push_all, Htarget. apply Hnone.
    apply slot_index_in_range; (assumption || apply Hok').
Qed.

Lemma first_pose_overwritten_witness :
  let c' :=
    push_all 2 (initial 2)
      [translation 1 0 0; translation 2 0 0; translation 3 0 0] in
  sample_ago 2 c' 0 = pose_of_mat4 (translation 3 0 0) /\
  sample_ago 2 c' 1 = pose_of_mat4 (translation 2 0 0) /\
  slot 2 (pose_matrix_ c') 0 <> pose_of_mat4 (translation 1 0 0) /\
  slot 2 (pose_matrix_ c') 1 <> pose_of_mat4 (translation 1 0 0).
Proof.
  intros c'.
  destruct (first_pose_overwritten 2 (initial 2) (translation 1 0 0)
              [translation 2 0 0; translation 3 0 0] ltac:(lia)
              (ring_ok_initial 2 ltac:(lia)) eq_refl)
    as (Hago & _ & Hgone).
  assert (forall p, p ∈ [translation 2 0 0; translation 3 0 0] ->
            close_enough (pose_of_mat4 p) (pose_of_mat4 (translation 1 0 0))
            = false) as Hfar.
  { intros p Hp. apply list_elem_of_In in Hp.
    destruct Hp as [<- | [<- | []]]; vm_compute; reflexivity. }
  destruct (Hgone Hfar) as [Hslots _].
  split; [exact (Hago 0%nat _ eq_refl) |].
  split; [exact (Hago 1%nat _ eq_refl) |].
  split; [apply (Hslots 0); lia | apply (Hslots 1); lia].
Defined.

(** C7. A push changes the slot at the write cursor and the cursor, and
    nothing else: every other slot and every other member keeps its value.
    The slot it wrote keeps the pose through the next [kQueueLen - 1] pushes
    and is written again by the [kQueueLen]-th. *)
Theorem SetPoseMatrix_writes_one_slot
  (kQueueLen : Z) (c : CloudXRClient) (pose_mat : mat4)
  (further : list mat4) :
  0 < kQueueLen ->
  ring_ok kQueueLen c ->
  let c' := SetPoseMatrix kQueueLen c pose_mat in
  length (pose_matrix_ c') = length (pose_matrix_ c) /\
  (forall i : nat, i <> Z.to_nat (current_idx_ c) ->
     pose_matrix_ c' !! i = pose_matrix_ c !! i) /\
  (cloudxr_receiver_ c' = cloudxr_receiver_ c /\
   res_factor_ c' = res_factor_ c /\
   stream_width_ c' = stream_width_ c /\
   stream_height_ c' = stream_height_ c /\
   framesLatched_ c' = framesLatched_ c /\
   latched_ c' = latched_ c) /\
  (Z.of_nat (length further) < kQueueLen ->
   slot kQueueLen (pose_matrix_ (push_all kQueueLen c' further))
        (current_idx_ c) = pose_of_mat4 pose_mat) /\
  (forall q, Z.of_nat (length further) = kQueueLen - 1 ->
     slot kQueueLen (pose_matrix_ (push_all kQueueLen c' (further ++ [q])))
          (current_idx_ c) = pose_of_mat4 q).
Proof.
  intros HK Hok c'.
  pose proof Hok as [Hlen Hcur].
  assert (ring_ok kQueueLen c') as Hok'
    by (apply ring_ok_SetPoseMatrix; assumption).
  assert (current_idx_ c' = (current_idx_ c + 1) mod kQueueLen) as Hcur'
    by (apply advance_mod; assumption).
  assert ((current_idx_ c' + (kQueueLen - 1)) mod kQueueLen = current_idx_ c)
    as Hback.
  { rewrite Hcur', Z.add_mod_idemp_l by lia.
    replace (current_idx_ c + 1 + (kQueueLen - 1))
      with (current_idx_ c + 1 * kQueueLen) by lia.
    rewrite Z.mod_add by lia. apply Z.mod_small. assumption. }
  split; [apply length_insert |].
  split; [intros i Hi; apply list_lookup_insert_ne; congruence |].
  split; [apply SetPoseMatrix_frame |].
  split.
  - intros Hfew.
    pose proof (untouched_push_all kQueueLen HK further c' (kQueueLen - 1)
                  Hok' ltac:(lia)) as H.
    rewrite Hback in H. rewrite H.
    unfold c'. rewrite slot_SetPoseMatrix by assumption.
    now rewrite Z.eqb_refl.
  - intros q Hexact.
    rewrite push_all_snoc.
    rewrite slot_SetPoseMatrix
      by (assumption || (apply ring_ok_push_all; assumption)).
    rewrite current_idx_push_all by assumption.
    rewrite Hexact, Hback. now rewrite Z.eqb_refl.
Qed.

Lemma SetPoseMatrix_writes_one_slot_witness :
  let c := push_all 3 (initial 3) [translation 1 0 0] in
  let c' := SetPoseMatrix 3 c (translation 2 0 0) in
  pose_matrix_ c' !! 0%nat = pose_matrix_ c !! 0%nat /\
  pose_matrix_ c' !! 2%nat = pose_matrix_ c !! 2%nat /\
  slot 3 (pose_matrix_
            (push_all 3 c' [translation 3 0 0; translation 4 0 0])) 1
    = pose_of_mat4 (translation 2 0 0) /\
  slot 3 (pose_matrix_
            (push_all 3 c'
               ([translation 3 0 0; translation 4 0 0]
                  ++ [translation 5 0 0]))) 1
    = pose_of_mat4 (translation 5 0 0).
Proof.
  intros c c'.
  destruct (SetPoseMatrix_writes_one_slot 3 c (translation 2 0 0)
              [translation 3 0 0; translation 4 0 0] ltac:(lia)
              (ring_ok_push_all 3 ltac:(lia) _ _
                 (ring_ok_initial 3 ltac:(lia))))
    as (_ & Hothers & _ & Hkeeps & Hwraps).
  split; [apply Hothers; discriminate |].
  split; [apply Hothers; discriminate |].
  split; [apply Hkeeps; simpl; lia | apply Hwraps; reflexivity].
Defined.

(** ** The frame latch *)

(** C9. [Latch] and [Release] keep the latch flag as a two-state machine:
    latching an already latched frame succeeds without a call to the SDK;
    without a receiver [Latch] reports [cxrError_Receiver_Not_Running] and
    changes nothing; otherwise [cxrLatchFrame] is called once and the flag
    is set exactly when it succeeds; [Release] calls [cxrReleaseFrame] and
    clears the flag when it is set, and does nothing when it is not. *)
Theorem Latch_Release_flag
  (cxrLatchFrame :
     list sdk_call -> cxrReceiverHandle -> cxrFramesLatched ->
     cxrError * cxrFramesLatched)
  (cxrReleaseFrame :
     list sdk_call -> option cxrReceiverHandle -> cxrFramesLatched ->
     cxrFramesLatched)
  (s : Session) :
  let c := client s in
  let '(status, s') := Latch cxrLatchFrame s in
  (latched_ c = true -> status = cxrError_Success /\ s' = s) /\
  (latched_ c = false -> cloudxr_receiver_ c = None ->
   status = cxrError_Receiver_Not_Running /\ s' = s) /\
  (latched_ c = false ->
   forall receiver, cloudxr_receiver_ c = Some receiver ->
     status = fst (cxrLatchFrame (sdk_calls s) receiver (framesLatched_ c)) /\
     sdk_calls s' = sdk_calls s ++ [Call_cxrLatchFrame receiver 150] /\
     (latched_ (client s') = true <-> status = cxrError_Success)) /\
  (latched_ (client s') = true <-> status = cxrError_Success) /\
  (latched_ c = true ->
   latched_ (client (Release cxrReleaseFrame s)) = false /\
   sdk_calls (Release cxrReleaseFrame s) =
     sdk_calls s ++ [Call_cxrReleaseFrame (cloudxr_receiver_ c)]) /\
  (latched_ c = false -> Release cxrReleaseFrame s = s).
Proof.
  unfold Latch, Release. cbn zeta.
  destruct (latched_ (client s)) eqn:Hl.
  - repeat split; try discriminate; auto.
  - destruct (cloudxr_receiver_ (client s)) as [receiver |] eqn:Hr.
    + destruct (cxrLatchFrame (sdk_calls s) receiver
                  (framesLatched_ (client s))) as [status frames] eqn:Hcall.
      destruct status; simpl;
        repeat split; try discriminate; try congruence;
        intros; simplify_eq; try rewrite Hcall; simpl; auto; discriminate.
    + simpl. repeat split; try discriminate; auto; congruence.
Qed.

Lemma Latch_Release_flag_witness :
  let s0 := MkSession (with_receiver (initial 2) (Some 7)) [] in
  let s1 := snd (Latch frame_on_third_call s0) in
  let s2 := snd (Latch frame_on_third_call s1) in
  let s3 := snd (Latch frame_on_third_call s2) in
  fst (Latch frame_on_third_call s0) = cxrError_Frame_Not_Ready /\
  latched_ (client s2) = false /\
  fst (Latch frame_on_third_call s2) = cxrError_Success /\
  latched_ (client s3) = true /\
  Latch frame_on_third_call s3 = (cxrError_Success, s3) /\
  latched_ (client (Release release_keeps_frame s3)) = false /\
  Release release_keeps_frame (Release release_keeps_frame s3) =
    Release release_keeps_frame s3.
Proof.
  intros s0 s1 s2 s3.
  pose proof (Latch_Release_flag frame_on_third_call release_keeps_frame s3)
    as H3.
  pose proof (Latch_Release_flag frame_on_third_call release_keeps_frame
                (Release release_keeps_frame s3)) as H4.
  cbv zeta in H3, H4.
  destruct (Latch frame_on_third_call s3) as [st3 s3'] eqn:E3.
  destruct (Latch frame_on_third_call (Release release_keeps_frame s3))
    as [st4 s4'] eqn:E4.
  destruct H3 as (Hagain & _ & _ & _ & Hrel & _).
  destruct H4 as (_ & _ & _ & _ & _ & Hnoop).
  destruct (Hagain eq_refl) as [-> ->].
  destruct (Hrel eq_refl) as [Hcleared _].
  do 5 (split; [reflexivity |]).
  split; [exact Hcleared | apply Hnoop; exact Hcleared].
Defined.

(** ** Interleavings of a push with a read *)

Section InterleavingFacts.

Variable kQueueLen : Z.
Hypothesis kQueueLen_pos : 0 < kQueueLen.

Lemma thread_of_with_thread cfg t ts sh :
  thread_of (with_thread cfg t ts sh) t = ts /\
  thread_of (with_thread cfg t ts sh) (other t) = thread_of cfg (other t) /\
  mem (with_thread cfg t ts sh) = sh.
Proof. destruct t; repeat split. Qed.

Lemma with_thread_twice cfg t ts sh ts' sh' :
  with_thread (with_thread cfg t ts sh) t ts' sh' = with_thread cfg t ts' sh'.
Proof. destruct t; reflexivity. Qed.

(** A waiting thread cannot be scheduled while the other one holds the
    mutex. *)
Lemma waiting_blocked cfg t :
  state_mutex_ (mem cfg) = Some t ->
  waiting (thread_of cfg (other t)) ->
  sched_step kQueueLen (other t) cfg = None.
Proof.
  intros Hm [Hdone | [rest Hlock]]; unfold sched_step.
  - now rewrite Hdone.
  - rewrite Hlock. simpl. now rewrite Hm.
Qed.

Lemma exec_access t k l sh :
  is_access k = true ->
  exec kQueueLen t k l sh =
  Some (fst (access kQueueLen k l (object sh)),
        Shared (snd (access kQueueLen k l (object sh))) (state_mutex_ sh)).
Proof. destruct k; intros H; try discriminate; reflexivity. Qed.

Lemma exec_unlock t l sh :
  state_mutex_ sh = Some t ->
  exec kQueueLen t unlock_mutex l sh = Some (l, Shared (object sh) None).
Proof. intros H. unfold exec. rewrite H. destruct t; reflexivity. Qed.

Lemma run_nil cfg final : run kQueueLen [] cfg = Some final -> final = cfg.
Proof. simpl. congruence. Qed.

(** Once both threads are done, nothing more can be scheduled. *)
Lemma run_finished sched cfg final :
  finished cfg -> run kQueueLen sched cfg = Some final -> final = cfg.
Proof.
  intros [Hr Hc] Hrun. destruct sched as [| t sched].
  - simpl in Hrun. congruence.
  - simpl in Hrun. unfold sched_step in Hrun.
    destruct t; simpl in Hrun; [rewrite Hr in Hrun | rewrite Hc in Hrun];
      discriminate.
Qed.

(** The thread holding the mutex runs the rest of its critical section
    without the other thread moving. *)
Lemma critical_section_alone t body : forall cfg sched final rest l,
  forallb is_access body = true ->
  thread_of cfg t = ThreadState (body ++ unlock_mutex :: rest) l ->
  state_mutex_ (mem cfg) = Some t ->
  waiting (thread_of cfg (other t)) ->
  run kQueueLen sched cfg = Some final ->
  todo (thread_of final t) = [] ->
  exists sched',
    let r := run_accesses kQueueLen body l (object (mem cfg)) in
    run kQueueLen sched'
        (with_thread cfg t (ThreadState rest (fst r)) (Shared (snd r) None))
    = Some final.
Proof.
  induction body as [| k body IH];
    intros cfg sched final rest l Hacc Ht Hm Hw Hrun Hdone.
  - destruct sched as [| u sched].
    + simpl in Hrun. injection Hrun as <-. rewrite Ht in Hdone.
      discriminate.
    + cbn [run] in Hrun.
      assert (u = t \/ u = other t) as [-> | ->]
        by (destruct u, t; auto).
      * unfold sched_step in Hrun. rewrite Ht in Hrun.
        cbn [todo regs app] in Hrun.
        rewrite exec_unlock in Hrun by assumption.
        exists sched. exact Hrun.
      * rewrite waiting_blocked in Hrun by assumption. discriminate.
  - simpl in Hacc. apply andb_true_iff in Hacc as [Hk Hacc].
    destruct sched as [| u sched].
    + simpl in Hrun. injection Hrun as <-. rewrite Ht in Hdone.
      discriminate.
    + cbn [run] in Hrun.
      assert (u = t \/ u = other t) as [-> | ->]
        by (destruct u, t; auto).
      * unfold sched_step in Hrun. rewrite Ht in Hrun.
        cbn [todo regs app] in Hrun.
        rewrite exec_access in Hrun by assumption.
        destruct (thread_of_with_thread cfg t
                    (ThreadState (body ++ unlock_mutex :: rest)
                       (fst (access kQueueLen k l (object (mem cfg)))))
                    (Shared (snd (access kQueueLen k l (object (mem cfg))))
                            (state_mutex_ (mem cfg))))
          as (Hsame & Hother & Hmem).
        eapply IH in Hrun; [| assumption | exact Hsame | | | assumption].
        -- destruct Hrun as [sched' Hrun]. exists sched'.
           cbv zeta in Hrun |- *.
           rewrite with_thread_twice, Hmem in Hrun.
           cbn [object run_accesses] in Hrun |- *.
           destruct (access kQueueLen k l (object (mem cfg))) as [l' c'].
           exact Hrun.
        -- rewrite Hmem. simpl. assumption.
        -- rewrite Hother. assumption.
      * rewrite waiting_blocked in Hrun by assumption. discriminate.
Qed.

(** A whole critical section, from taking the lock to giving it back. *)
Lemma section_alone t body cfg sched final l :
  forallb is_access body = true ->
  thread_of cfg t = ThreadState (lock_mutex :: body ++ [unlock_mutex]) l ->
  state_mutex_ (mem cfg) = None ->
  waiting (thread_of cfg (other t)) ->
  run kQueueLen (t :: sched) cfg = Some final ->
  todo (thread_of final t) = [] ->
  exists sched',
    let r := run_accesses kQueueLen body l (object (mem cfg)) in
    run kQueueLen sched'
        (with_thread cfg t (ThreadState [] (fst r)) (Shared (snd r) None))
    = Some final.
Proof.
  intros Hacc Ht Hm Hw Hrun Hdone.
  cbn [run] in Hrun. unfold sched_step in Hrun. rewrite Ht in Hrun.
  cbn [todo regs exec] in Hrun. rewrite Hm in Hrun.
  destruct (thread_of_with_thread cfg t
              (ThreadState (body ++ [unlock_mutex]) l)
              (Shared (object (mem cfg)) (Some t)))
    as (Hsame & Hother & Hmem).
  eapply critical_section_alone in Hrun;
    [| exact Hacc | exact Hsame | | | assumption].
  - destruct Hrun as [sched' Hrun]. exists sched'.
    cbv zeta in Hrun |- *.
    rewrite with_thread_twice, Hmem in Hrun. exact Hrun.
  - now rewrite Hmem.
  - now rewrite Hother.
Qed.

End InterleavingFacts.

Section SoloFacts.

Variable kQueueLen : Z.
Hypothesis kQueueLen_pos : 0 < kQueueLen.

Lemma run_accesses_app steps steps' l c :
  run_accesses kQueueLen (steps ++ steps') l c =
  run_accesses kQueueLen steps'
    (fst (run_accesses kQueueLen steps l c))
    (snd (run_accesses kQueueLen steps l c)).
Proof.
  revert l c. induction steps as [| k steps IH]; intros l c; simpl.
  - reflexivity.
  - destruct (access kQueueLen k l c) as [l' c']. apply IH.
Qed.

(** Component stores into the bound slot accumulate in that slot. *)
Lemma run_stores (stores : list (Z * Z * float)) : forall c cur s,
  ring_ok kQueueLen c -> 0 <= cur < kQueueLen ->
  run_accesses kQueueLen
    (map (fun x => store_component (fst (fst x)) (snd (fst x)) (snd x))
         stores)
    (Locals cur s) c =
  (Locals cur s,
   with_ring c
     (<[Z.to_nat cur :=
          fold_left (fun a x => set_m a (fst (fst x)) (snd (fst x)) (snd x))
                    stores (slot kQueueLen (pose_matrix_ c) cur)]>
        (pose_matrix_ c))
     (current_idx_ c)).
Proof.
  induction stores as [| [[i j] v] stores IH]; intros c cur s Hok Hcur.
  - simpl. f_equal. destruct Hok as [Hlen _].
    unfold slot.
    replace ((0 <=? cur) && (cur <? kQueueLen)) with true
      by (symmetry; apply andb_true_iff; split; lia).
    destruct (lookup_lt_is_Some_2 (pose_matrix_ c) (Z.to_nat cur)
                ltac:(lia)) as [a Ha].
    rewrite Ha. simpl. rewrite list_insert_id by assumption.
    destruct c; reflexivity.
  - cbn [map run_accesses access ref seen fst snd].
    set (c1 := with_ring c _ _).
    assert (ring_ok kQueueLen c1) as Hok1.
    { destruct Hok as [Hlen Hc]. split; simpl; [| assumption].
      now rewrite length_insert. }
    rewrite (IH c1 cur s Hok1 Hcur).
    f_equal. unfold c1. cbn [with_ring pose_matrix_ current_idx_
      cloudxr_receiver_ res_factor_ stream_width_ stream_height_
      framesLatched_ latched_].
    unfold with_ring. f_equal.
    rewrite list_insert_insert_eq. f_equal.
    cbn [fold_left fst snd]. f_equal.
    unfold slot at 1.
    replace ((0 <=? cur) && (cur <? kQueueLen)) with true
      by (symmetry; apply andb_true_iff; split; lia).
    rewrite list_lookup_insert_eq by (destruct Hok; lia). reflexivity.
Qed.

(** The critical section of [SetPoseMatrix], run on its own, is
    [SetPoseMatrix]. *)
Lemma run_SetPoseMatrix_body c pose_mat l :
  ring_ok kQueueLen c ->
  snd (run_accesses kQueueLen (SetPoseMatrix_body pose_mat) l c) =
  SetPoseMatrix kQueueLen c pose_mat.
Proof.
  intros Hok.
  change (SetPoseMatrix_body pose_mat) with
    ([bind_cursor] ++
     map (fun x => store_component (fst (fst x)) (snd (fst x)) (snd x))
       [ (0, 0, mat4_at pose_mat 0 0); (0, 1, mat4_at pose_mat 1 0);
         (0, 2, mat4_at pose_mat 2 0); (0, 3, mat4_at pose_mat 3 0);
         (1, 0, mat4_at pose_mat 0 1); (1, 1, mat4_at pose_mat 1 1);
         (1, 2, mat4_at pose_mat 2 1); (1, 3, mat4_at pose_mat 3 1);
         (2, 0, mat4_at pose_mat 0 2); (2, 1, mat4_at pose_mat 1 2);
         (2, 2, mat4_at pose_mat 2 2); (2, 3, mat4_at pose_mat 3 2) ] ++
     [advance_cursor]).
  rewrite run_accesses_app. cbn [run_accesses access fst snd].
  rewrite run_accesses_app.
  rewrite run_stores by (assumption || apply Hok).
  cbn [run_accesses access fst snd].
  unfold SetPoseMatrix, with_ring.
  cbn [pose_matrix_ current_idx_ cloudxr_receiver_ res_factor_
       stream_width_ stream_height_ framesLatched_ latched_].
  replace (fold_left _ _ _) with (pose_of_mat4 pose_mat); [reflexivity |].
  destruct (slot kQueueLen (pose_matrix_ c) (current_idx_ c)).
  reflexivity.
Qed.

(** The critical section of [GetTrackingState], run on its own, reads the
    whole latest slot and changes nothing. *)
Lemma run_GetTrackingState_body c l :
  run_accesses kQueueLen GetTrackingState_body l c =
  (Locals (latest_index kQueueLen (current_idx_ c))
          (slot kQueueLen (pose_matrix_ c)
                (latest_index kQueueLen (current_idx_ c))),
   c).
Proof.
  unfold GetTrackingState_body, load_matrix.
  cbn [run_accesses access ref seen].
  f_equal. f_equal.
  destruct (slot kQueueLen (pose_matrix_ c)
              (latest_index kQueueLen (current_idx_ c))).
  reflexivity.
Qed.

End SoloFacts.

Section SerialFacts.

Variable kQueueLen : Z.

Lemma run_app sched sched' cfg :
  run kQueueLen (sched ++ sched') cfg =
  match run kQueueLen sched cfg with
  | Some cfg' => run kQueueLen sched' cfg'
  | None => None
  end.
Proof.
  revert cfg. induction sched as [| t sched IH]; intros cfg; simpl.
  - reflexivity.
  - destruct (sched_step kQueueLen t cfg); [apply IH | reflexivity].
Qed.

(** A thread scheduled alone runs through its accesses. *)
Lemma run_accesses_alone t body : forall cfg rest l,
  forallb is_access body = true ->
  thread_of cfg t = ThreadState (body ++ rest) l ->
  run kQueueLen (replicate (length body) t) cfg =
  Some (with_thread cfg t
          (ThreadState rest
             (fst (run_accesses kQueueLen body l (object (mem cfg)))))
          (Shared (snd (run_accesses kQueueLen body l (object (mem cfg))))
                  (state_mutex_ (mem cfg)))).
Proof.
  induction body as [| k body IH]; intros cfg rest l Hacc Ht.
  - simpl. f_equal. destruct t, cfg as [r cb [o mu]]; simpl in *;
      rewrite Ht; reflexivity.
  - simpl in Hacc. apply andb_true_iff in Hacc as [Hk Hacc].
    cbn [length replicate run]. unfold sched_step. rewrite Ht.
    cbn [todo regs app]. rewrite exec_access by assumption.
    destruct (thread_of_with_thread cfg t
                (ThreadState (body ++ rest)
                   (fst (access kQueueLen k l (object (mem cfg)))))
                (Shared (snd (access kQueueLen k l (object (mem cfg))))
                        (state_mutex_ (mem cfg))))
      as (Hsame & _ & Hmem).
    rewrite (IH _ rest _ Hacc Hsame).
    rewrite with_thread_twice, Hmem. cbn [object state_mutex_ run_accesses].
    destruct (access kQueueLen k l (object (mem cfg))) as [l' c'].
    reflexivity.
Qed.

(** A thread that finds the mutex free runs its whole critical section. *)
Lemma run_section_alone t body cfg l :
  forallb is_access body = true ->
  thread_of cfg t = ThreadState (lock_mutex :: body ++ [unlock_mutex]) l ->
  state_mutex_ (mem cfg) = None ->
  run kQueueLen (replicate (S (length body + 1)) t) cfg =
  Some (with_thread cfg t
          (ThreadState []
             (fst (run_accesses kQueueLen body l (object (mem cfg)))))
          (Shared (snd (run_accesses kQueueLen body l (object (mem cfg))))
                  None)).
Proof.
  intros Hacc Ht Hm.
  cbn [replicate run]. unfold sched_step. rewrite Ht.
  cbn [todo regs exec]. rewrite Hm.
  destruct (thread_of_with_thread cfg t
              (ThreadState (body ++ [unlock_mutex]) l)
              (Shared (object (mem cfg)) (Some t)))
    as (Hsame & _ & Hmem).
  rewrite replicate_add, run_app.
  rewrite (run_accesses_alone t body _ [unlock_mutex] l Hacc Hsame).
  rewrite with_thread_twice, Hmem. cbn [object state_mutex_].
  cbn [replicate run]. unfold sched_step.
  destruct (thread_of_with_thread cfg t
              (ThreadState [unlock_mutex]
                 (fst (run_accesses kQueueLen body l (object (mem cfg)))))
              (Shared (snd (run_accesses kQueueLen body l (object (mem cfg))))
                      (Some t)))
    as (Hsame' & _ & Hmem').
  rewrite Hsame', Hmem'. cbn [todo regs].
  rewrite exec_unlock by reflexivity.
  rewrite with_thread_twice. reflexivity.
Qed.

(** Interleavings that run to the end exist: each thread may go first. *)
Lemma serial_schedules_complete c pose_mat :
  (exists final,
     run kQueueLen (replicate 16 RenderThread ++ replicate 15 CallbackThread)
         (start c (SetPoseMatrix_steps pose_mat) GetTrackingState_steps)
       = Some final /\ finished final) /\
  (exists final,
     run kQueueLen (replicate 15 CallbackThread ++ replicate 16 RenderThread)
         (start c (SetPoseMatrix_steps pose_mat) GetTrackingState_steps)
       = Some final /\ finished final).
Proof.
  split; eexists; rewrite run_app;
    change (replicate 16 RenderThread)
      with (replicate (S (length (SetPoseMatrix_body pose_mat) + 1))
                      RenderThread);
    change (replicate 15 CallbackThread)
      with (replicate (S (length GetTrackingState_body + 1)) CallbackThread).
  - rewrite (run_section_alone RenderThread (SetPoseMatrix_body pose_mat)
               (start c (SetPoseMatrix_steps pose_mat) GetTrackingState_steps)
               (Locals 0 cxrMatrix34_zero) eq_refl eq_refl eq_refl).
    erewrite (run_section_alone CallbackThread GetTrackingState_body);
      [| reflexivity | reflexivity | reflexivity].
    split; [reflexivity | split; reflexivity].
  - rewrite (run_section_alone CallbackThread GetTrackingState_body
               (start c (SetPoseMatrix_steps pose_mat) GetTrackingState_steps)
               (Locals 0 cxrMatrix34_zero) eq_refl eq_refl eq_refl).
    erewrite (run_section_alone RenderThread (SetPoseMatrix_body pose_mat));
      [| reflexivity | reflexivity | reflexivity].
    split; [reflexivity | split; reflexivity].
Qed.

End SerialFacts.

(** C8, as the code has it. [SetPoseMatrix] and [GetTrackingState] touch
    the ring only while they hold [state_mutex_]; in every interleaving of a
    push on the render thread with a read by [GetTrackingState] on the
    callback thread, the push takes effect as a whole and the pose read is a
    whole pose: the latest one before the push or the one pushed. *)
Theorem push_and_tracking_read_not_torn
  (kQueueLen : Z) (c : CloudXRClient) (pose_mat : mat4)
  (sched : list thread) (final : config) :
  0 < kQueueLen ->
  ring_ok kQueueLen c ->
  run kQueueLen sched
      (start c (SetPoseMatrix_steps pose_mat) GetTrackingState_steps)
    = Some final ->
  finished final ->
  guarded false (SetPoseMatrix_steps pose_mat) = true /\
  guarded false GetTrackingState_steps = true /\
  object (mem final) = SetPoseMatrix kQueueLen c pose_mat /\
  state_mutex_ (mem final) = None /\
  (seen (regs (callback final)) =
     slot kQueueLen (pose_matrix_ c)
          (latest_index kQueueLen (current_idx_ c)) \/
   seen (regs (callback final)) = pose_of_mat4 pose_mat).
Proof.
  intros HK Hok Hrun [Hfr Hfc].
  split; [reflexivity | split; [reflexivity |]].
  set (fresh := Locals 0 cxrMatrix34_zero).
  destruct sched as [| t sched].
  { apply run_nil in Hrun. subst final. discriminate Hfr. }
  destruct t.
  - (* the push locks first *)
    eapply (section_alone kQueueLen RenderThread
              (SetPoseMatrix_body pose_mat)) in Hrun;
      [| reflexivity | reflexivity | reflexivity
       | right; eexists; reflexivity | exact Hfr].
    destruct Hrun as [sched1 Hrun]. cbv zeta in Hrun.
    cbn [start mem object with_thread callback] in Hrun.
    rewrite run_SetPoseMatrix_body in Hrun by assumption.
    destruct sched1 as [| t sched1];
      [apply run_nil in Hrun; subst final;
       cbn [callback todo] in Hfc; discriminate Hfc |].
    destruct t; [discriminate |].
    eapply (section_alone kQueueLen CallbackThread GetTrackingState_body)
      in Hrun;
      [| reflexivity | reflexivity | reflexivity | left; reflexivity
       | exact Hfc].
    destruct Hrun as [sched2 Hrun]. cbv zeta in Hrun.
    cbn [mem object with_thread render] in Hrun.
    rewrite run_GetTrackingState_body in Hrun.
    apply run_finished in Hrun; [| split; reflexivity].
    subst final. cbn [mem object state_mutex_ callback regs seen fst snd].
    split; [reflexivity | split; [reflexivity | right]].
    apply latest_after_push; assumption.
  - (* the read locks first *)
    eapply (section_alone kQueueLen CallbackThread GetTrackingState_body)
      in Hrun;
      [| reflexivity | reflexivity | reflexivity
       | right; eexists; reflexivity | exact Hfc].
    destruct Hrun as [sched1 Hrun]. cbv zeta in Hrun.
    cbn [start mem object with_thread render] in Hrun.
    rewrite run_GetTrackingState_body in Hrun.
    cbn [fst snd] in Hrun.
    destruct sched1 as [| t sched1];
      [apply run_nil in Hrun; subst final;
       cbn [render todo] in Hfr; discriminate Hfr |].
    destruct t; [| discriminate].
    eapply (section_alone kQueueLen RenderThread
              (SetPoseMatrix_body pose_mat)) in Hrun;
      [| reflexivity | reflexivity | reflexivity | left; reflexivity
       | exact Hfr].
    destruct Hrun as [sched2 Hrun]. cbv zeta in Hrun.
    cbn [mem object with_thread callback] in Hrun.
    rewrite run_SetPoseMatrix_body in Hrun by assumption.
    apply run_finished in Hrun; [| split; reflexivity].
    subst final. cbn [mem object state_mutex_ callback regs seen fst snd].
    split; [reflexivity | split; [reflexivity | left; reflexivity]].
Qed.

Lemma push_and_tracking_read_not_torn_witness :
  let c := push_all 2 (initial 2) [translation 1 0 0] in
  let sched := replicate 15 CallbackThread ++ replicate 16 RenderThread in
  match
    run 2 sched
        (start c (SetPoseMatrix_steps (translation 2 0 0))
               GetTrackingState_steps)
  with
  | Some final =>
      object (mem final) = SetPoseMatrix 2 c (translation 2 0 0) /\
      (seen (regs (callback final)) =
         slot 2 (pose_matrix_ c) (latest_index 2 (current_idx_ c)) \/
       seen (regs (callback final)) = pose_of_mat4 (translation 2 0 0))
  | None => False
  end.
Proof.
  intros c sched.
  destruct (run 2 sched
              (start c (SetPoseMatrix_steps (translation 2 0 0))
                     GetTrackingState_steps)) as [final |] eqn:Hrun.
  - assert (finished final) as Hfin.
    { vm_compute in Hrun. injection Hrun as <-. split; reflexivity. }
    destruct (push_and_tracking_read_not_torn 2 c (translation 2 0 0) sched
                final ltac:(lia)
                (ring_ok_push_all 2 ltac:(lia) _ _
                   (ring_ok_initial 2 ltac:(lia)))
                Hrun Hfin) as (_ & _ & Hobj & _ & Hseen).
    split; assumption.
  - vm_compute in Hrun. discriminate.
Defined.

(** C8 as stated fails: the loop of [DetermineOffset] reads the ring without
    taking the mutex, and offset 0 reads the very slot [SetPoseMatrix]
    writes.  Scheduled after the first row of a push has been stored, the
    scan reads a pose that is neither the old nor the new content of the
    slot. *)
Lemma DetermineOffset_scan_not_guarded :
  guarded false (DetermineOffset_iteration_steps 0) = false /\
  let c := initial 2 in
  let sched :=
    replicate 6 RenderThread ++ replicate 13 CallbackThread ++
    replicate 10 RenderThread in
  match
    run 2 sched
        (start c (SetPoseMatrix_steps (translation 1 2 3))
               (DetermineOffset_iteration_steps 0))
  with
  | Some final =>
      finished final /\
      object (mem final) = SetPoseMatrix 2 c (translation 1 2 3) /\
      ref (regs (callback final)) = current_idx_ c /\
      seen (regs (callback final)) <> slot 2 (pose_matrix_ c) 0 /\
      seen (regs (callback final)) <>
        slot 2 (pose_matrix_ (SetPoseMatrix 2 c (translation 1 2 3))) 0
  | None => False
  end.
Proof.
  split; [reflexivity |].
  vm_compute. repeat split; discriminate.
Qed.

(** ** binary32 rounding *)

Lemma digits2_pos_log2 p : Zpos (digits2_pos p) = Z.log2 (Zpos p) + 1.
Proof.
  assert (forall q, digits2_pos q = Pos.size q) as Hsize.
  { induction q as [q IH | q IH |]; simpl; congruence. }
  rewrite Hsize. destruct p as [p | p |]; simpl; try reflexivity; lia.
Qed.

Lemma iter_pos_nat {A} (f : A -> A) p : forall x,
  SpecFloat.iter_pos f p x = Nat.iter (Pos.to_nat p) f x.
Proof.
  induction p as [p IH | p IH |]; intros x; cbn [SpecFloat.iter_pos].
  - rewrite !IH, Pos2Nat.inj_xI.
    replace (S (2 * Pos.to_nat p)) with (Pos.to_nat p + S (Pos.to_nat p))%nat
      by lia.
    now rewrite Nat.iter_add, Nat.iter_succ_r.
  - rewrite !IH, Pos2Nat.inj_xO.
    replace (2 * Pos.to_nat p)%nat with (Pos.to_nat p + Pos.to_nat p)%nat
      by lia.
    now rewrite Nat.iter_add.
  - reflexivity.
Qed.

Lemma shr_1_spec mm r s :
  0 <= mm ->
  shr_1 (Build_shr_record mm r s) =
  Build_shr_record (mm / 2) (Z.odd mm) (r || s).
Proof.
  intros Hm. rewrite <- Z.div2_div.
  destruct mm as [| [p | p |] |]; try reflexivity; lia.
Qed.

Lemma mod_double M Q :
  0 < Q ->
  (M mod (2 * Q) = M mod Q /\ (M / Q) mod 2 = 0) \/
  (M mod (2 * Q) = Q + M mod Q /\ (M / Q) mod 2 = 1).
Proof.
  intros HQ. rewrite (Z.mul_comm 2 Q), Z.rem_mul_r by lia.
  pose proof (Z.mod_pos_bound (M / Q) 2 ltac:(lia)) as Hb.
  assert ((M / Q) mod 2 = 0 \/ (M / Q) mod 2 = 1) as [-> | ->] by lia;
    [left | right]; split; lia.
Qed.

(** The state after [k >= 1] one-bit shifts. *)
Lemma iter_shr_1 (k : nat) M :
  0 <= M ->
  Nat.iter (S k) shr_1 (Build_shr_record M false false) =
  Build_shr_record (M / 2 ^ Z.of_nat (S k))
    (2 ^ Z.of_nat k <=? M mod 2 ^ Z.of_nat (S k))
    (negb (M mod 2 ^ Z.of_nat k =? 0)).
Proof.
  intros HM. induction k as [| k IH].
  - rewrite Nat.iter_succ. unfold Nat.iter. cbn [nat_rect].
    rewrite shr_1_spec by assumption.
    change (Z.of_nat 1) with 1. change (Z.of_nat 0) with 0.
    rewrite Z.pow_1_r, Z.pow_0_r, Z.mod_1_r. simpl negb. f_equal.
    rewrite Zodd_mod.
    pose proof (Z.mod_pos_bound M 2 ltac:(lia)).
    destruct (Z.eqb_spec (M mod 2) 1) as [He | He]; symmetry;
      [apply Z.leb_le | apply Z.leb_gt]; lia.
  - rewrite Nat.iter_succ, IH.
    assert (0 < 2 ^ Z.of_nat k) as Hk by (apply Z.pow_pos_nonneg; lia).
    assert (2 ^ Z.of_nat (S k) = 2 * 2 ^ Z.of_nat k) as E1.
    { rewrite Nat2Z.inj_succ, Z.pow_succ_r by lia. reflexivity. }
    assert (2 ^ Z.of_nat (S (S k)) = 2 * 2 ^ Z.of_nat (S k)) as E2.
    { rewrite (Nat2Z.inj_succ (S k)), Z.pow_succ_r by lia. reflexivity. }
    rewrite shr_1_spec by (apply Z.div_pos; lia).
    assert (M / 2 ^ Z.of_nat (S k) / 2 = M / 2 ^ Z.of_nat (S (S k))) as Hq.
    { rewrite Z.div_div by lia. f_equal. lia. }
    rewrite Hq, E2, Zodd_mod.
    set (P := 2 ^ Z.of_nat (S k)) in *.
    set (Q := 2 ^ Z.of_nat k) in *.
    pose proof (Z.mod_pos_bound M P ltac:(lia)) as HbP.
    pose proof (Z.mod_pos_bound M Q ltac:(lia)) as HbQ.
    f_equal.
    + destruct (mod_double M P ltac:(lia)) as [[-> ->] | [-> ->]]; simpl;
        symmetry; [apply Z.leb_gt | apply Z.leb_le]; lia.
    + rewrite E1.
      destruct (mod_double M Q ltac:(lia)) as [[-> _] | [-> _]].
      * replace (Q <=? M mod Q) with false by (symmetry; apply Z.leb_gt; lia).
        reflexivity.
      * replace (Q <=? Q + M mod Q) with true by (symmetry; apply Z.leb_le; lia).
        replace (Q + M mod Q =? 0) with false
          by (symmetry; apply Z.eqb_neq; lia).
        reflexivity.
Qed.

Lemma shr_spec M E n :
  0 <= M -> 0 < n ->
  shr (Build_shr_record M false false) E n =
  (Build_shr_record (M / 2 ^ n) (2 ^ (n - 1) <=? M mod 2 ^ n)
                    (negb (M mod 2 ^ (n - 1) =? 0)),
   E + n).
Proof.
  intros HM Hn. destruct n as [| p |]; try lia.
  unfold shr. rewrite iter_pos_nat.
  destruct (Pos2Nat.is_succ p) as [k Hk]. rewrite Hk.
  rewrite iter_shr_1 by assumption.
  assert (Z.of_nat (S k) = Z.pos p) as Hp by lia.
  rewrite Hp. replace (Z.of_nat k) with (Z.pos p - 1) by lia.
  reflexivity.
Qed.

(** Rounding the shifted record is rounding to nearest, ties to even. *)
Lemma round_shr_rne M n :
  0 <= M -> 0 < n ->
  round_nearest_even (M / 2 ^ n)
    (loc_of_shr_record
       (Build_shr_record (M / 2 ^ n) (2 ^ (n - 1) <=? M mod 2 ^ n)
                         (negb (M mod 2 ^ (n - 1) =? 0)))) =
  rne M n.
Proof.
  intros HM Hn. unfold rne. cbv zeta.
  assert (0 < 2 ^ (n - 1)) as Hh by (apply Z.pow_pos_nonneg; lia).
  assert (2 ^ n = 2 * 2 ^ (n - 1)) as E.
  { rewrite <- Z.pow_succ_r by lia. f_equal. lia. }
  rewrite E.
  set (h := 2 ^ (n - 1)) in *.
  pose proof (Z.mod_pos_bound M h ltac:(lia)) as Hb.
  destruct (mod_double M h Hh) as [[-> _] | [-> _]].
  - replace (h <=? M mod h) with false by (symmetry; apply Z.leb_gt; lia).
    replace (M mod h <? h) with true by (symmetry; apply Z.ltb_lt; lia).
    destruct (M mod h =? 0); reflexivity.
  - replace (h <=? h + M mod h) with true by (symmetry; apply Z.leb_le; lia).
    replace (h + M mod h <? h) with false by (symmetry; apply Z.ltb_ge; lia).
    destruct (Z.eqb_spec (M mod h) 0) as [Hz | Hnz]; simpl.
    + rewrite Hz, Z.add_0_r, Z.eqb_refl. simpl.
      destruct (Z.even (M / (2 * h))); reflexivity.
    + replace (h + M mod h =? h) with false
        by (symmetry; apply Z.eqb_neq; lia).
      reflexivity.
Qed.

Lemma rne_bounds M n :
  0 <= M -> 0 < n ->
  M / 2 ^ n <= rne M n <= M / 2 ^ n + 1.
Proof.
  intros. unfold rne. cbv zeta.
  destruct (_ <? _); [lia |]. destruct (_ && _); lia.
Qed.

Lemma log2_digits M d :
  0 < M -> (Z.log2 M + 1 = d <-> 2 ^ (d - 1) <= M < 2 ^ d).
Proof.
  intros HM. split.
  - intros <-. pose proof (Z.log2_spec M HM) as H.
    replace (Z.log2 M + 1 - 1) with (Z.log2 M) by lia.
    exact H.
  - intros H. assert (0 <= d - 1).
    { destruct (Z.lt_ge_cases (d - 1) 0) as [Hlt |]; [| assumption].
      assert (d <= 0) as Hd by lia.
      destruct H as [_ H2].
      pose proof (Z.pow_le_mono_r 2 d 0 ltac:(lia) Hd) as H3.
      simpl in H3. lia. }
    rewrite (Z.log2_unique M (d - 1)); [lia | assumption |].
    replace (Z.succ (d - 1)) with d by lia. exact H.
Qed.

Lemma pow2_split a b : 0 <= a -> 0 <= b -> 2 ^ (a + b) = 2 ^ a * 2 ^ b.
Proof. intros. apply Z.pow_add_r; assumption. Qed.

(** Rounding a mantissa of more than 24 bits leaves 24 bits, or the next
    power of two. *)
Lemma rne_range M :
  0 < M -> 24 < Z.log2 M + 1 ->
  2 ^ 23 <= rne M (Z.log2 M + 1 - 24) <= 2 ^ 24.
Proof.
  intros HM Hd. set (n := Z.log2 M + 1 - 24).
  pose proof (rne_bounds M n ltac:(lia) ltac:(lia)) as Hr.
  pose proof (Z.log2_spec M HM) as [Hlo Hhi].
  assert (0 < 2 ^ n) as Hn by (apply Z.pow_pos_nonneg; lia).
  assert (2 ^ Z.log2 M = 2 ^ 23 * 2 ^ n) as E1.
  { rewrite <- pow2_split by lia. f_equal. lia. }
  assert (2 ^ Z.succ (Z.log2 M) = 2 ^ 24 * 2 ^ n) as E2.
  { rewrite <- pow2_split by lia. f_equal. lia. }
  assert (2 ^ 23 <= M / 2 ^ n).
  { apply Z.div_le_lower_bound; lia. }
  assert (M / 2 ^ n < 2 ^ 24).
  { apply Z.div_lt_upper_bound; lia. }
  lia.
Qed.

Lemma Zdigits2_log2 q : 0 < q -> Zdigits2 q = Z.log2 q + 1.
Proof.
  destruct q as [| p | p]; try lia. intros _. apply digits2_pos_log2.
Qed.

Lemma shr_nonpos r E n : n <= 0 -> shr r E n = (r, E).
Proof. destruct n; try reflexivity; lia. Qed.

Lemma fexp_normal e : -149 <= e - 24 -> fexp 24 128 e = e - 24.
Proof.
  intros H. unfold fexp, emin. change (3 - 128 - 24) with (-149). lia.
Qed.

(** The second pass of [binary_round_aux]: a rounded mantissa that reached
    [2^24] is brought back to 24 bits. *)
Lemma renormalize q e :
  2 ^ 23 <= q <= 2 ^ 24 -> -149 <= e ->
  exists m e2,
    shr_fexp 24 128 q e loc_Exact =
      (Build_shr_record (Zpos m)
         (shr_r (fst (shr_fexp 24 128 q e loc_Exact)))
         (shr_s (fst (shr_fexp 24 128 q e loc_Exact))), e2) /\
    e <= e2 <= e + 1 /\
    Zpos m * 2 ^ (e2 - e) = q /\
    Z.log2 (Zpos m) + 1 = 24.
Proof.
  intros Hq He. unfold shr_fexp. cbn [shr_record_of_loc].
  assert (0 < q) as Hq0 by lia.
  rewrite Zdigits2_log2 by assumption.
  destruct (Z.eq_dec q (2 ^ 24)) as [-> | Hne].
  - change (Z.log2 (2 ^ 24)) with 24.
    rewrite fexp_normal by lia.
    replace (24 + 1 + e - 24 - e) with 1 by lia.
    rewrite shr_spec by lia.
    exists (8388608%positive), (e + 1). cbn [fst shr_r shr_s].
    split; [reflexivity |].
    split; [lia |].
    split; [| reflexivity].
    replace (e + 1 - e) with 1 by lia. reflexivity.
  - assert (Z.log2 q + 1 = 24) as Hd by (apply log2_digits; lia).
    rewrite Hd. rewrite fexp_normal by lia.
    replace (24 + e - 24 - e) with 0 by lia.
    rewrite shr_nonpos by lia.
    destruct q as [| m |]; try lia.
    exists m, e. cbn [fst shr_r shr_s].
    split; [reflexivity |].
    split; [lia |].
    split; [| assumption].
    rewrite Z.sub_diag. lia.
Qed.

Lemma shr_fexp_exact M E :
  0 < M ->
  -149 <= Z.log2 M + 1 + E - 24 ->
  shr_fexp 24 128 M E loc_Exact =
  shr (Build_shr_record M false false) E (Z.log2 M + 1 - 24).
Proof.
  intros HM Hlo. unfold shr_fexp. cbn [shr_record_of_loc].
  rewrite Zdigits2_log2 by assumption.
  rewrite fexp_normal by lia. f_equal. lia.
Qed.

(** Rounding an exact positive mantissa in the normal range. *)
Lemma binary_round_aux_exact s M E :
  let d := Z.log2 (Zpos M) + 1 in
  -149 <= d + E - 24 ->
  E + Z.max (d - 24) 0 < 104 ->
  exists m e,
    binary_round_aux 24 128 s (Zpos M) E loc_Exact = S754_finite s m e /\
    E <= e /\
    Zpos m * 2 ^ (e - E) = rnd24 (Zpos M) /\
    (24 <= d -> Z.log2 (Zpos m) + 1 = 24) /\
    (d <= 24 -> m = M /\ e = E).
Proof.
  intros d Hlo Hhi.
  unfold binary_round_aux.
  rewrite (shr_fexp_exact (Zpos M) E) by (fold d; lia). fold d.
  destruct (Z.le_gt_cases (d - 24) 0) as [Hn | Hn].
  - (* at most 24 bits: nothing to round *)
    rewrite shr_nonpos by assumption.
    cbn [shr_m loc_of_shr_record round_nearest_even].
    rewrite (shr_fexp_exact (Zpos M) E) by (fold d; lia). fold d.
    rewrite shr_nonpos by assumption. cbn [shr_m].
    replace (E <=? 128 - 24) with true by (symmetry; apply Z.leb_le; lia).
    exists M, E. split; [reflexivity |]. split; [lia |].
    split; [| split; [intros; lia | intros; split; reflexivity]].
    rewrite Z.sub_diag. unfold rnd24. fold d.
    replace (d - 24 <=? 0) with true by (symmetry; apply Z.leb_le; lia).
    simpl. lia.
  - (* more than 24 bits *)
    rewrite shr_spec by lia. cbn [shr_m].
    rewrite round_shr_rne by lia.
    pose proof (rne_range (Zpos M) ltac:(lia) ltac:(fold d; lia)) as Hr.
    fold d in Hr.
    destruct (renormalize (rne (Z.pos M) (d - 24)) (E + (d - 24)) Hr
                ltac:(lia)) as (m & e2 & Hsh & He2 & Hval & Hlog).
    rewrite Hsh. cbn [shr_m].
    replace (e2 <=? 128 - 24) with true by (symmetry; apply Z.leb_le; lia).
    exists m, e2. split; [reflexivity |]. split; [lia |].
    split; [| split; [intros; assumption | intros; lia]].
    unfold rnd24. fold d.
    replace (d - 24 <=? 0) with false by (symmetry; apply Z.leb_gt; lia).
    rewrite <- Hval.
    replace (e2 - E) with ((e2 - (E + (d - 24))) + (d - 24)) by lia.
    rewrite pow2_split by lia. lia.
Qed.

(** ** Properties of the rounding to 24 bits *)

Lemma rne_double a n :
  0 <= a -> 0 < n -> rne (2 * a) (n + 1) = rne a n.
Proof.
  intros Ha Hn. unfold rne. cbv zeta.
  assert (0 < 2 ^ n) as Hp by (apply Z.pow_pos_nonneg; lia).
  assert (0 < 2 ^ (n - 1)) as Hh by (apply Z.pow_pos_nonneg; lia).
  replace (n + 1 - 1) with (Z.succ (n - 1)) by lia.
  replace (n + 1) with (Z.succ n) by lia.
  rewrite !Z.pow_succ_r by lia.
  rewrite Z.div_mul_cancel_l by lia.
  rewrite Z.mul_mod_distr_l by lia.
  replace (Z.succ (n - 1)) with n by lia.
  replace (2 ^ n) with (2 * 2 ^ (n - 1))
    by (rewrite <- Z.pow_succ_r by lia; f_equal; lia).
  set (h := 2 ^ (n - 1)) in *. set (r := a mod (2 * h)).
  destruct (Z.ltb_spec (2 * r) (2 * h)), (Z.ltb_spec r h); try lia;
    try reflexivity.
  destruct (Z.eqb_spec (2 * r) (2 * h)), (Z.eqb_spec r h); try lia;
    reflexivity.
Qed.

Lemma rnd24_double a : 0 < a -> rnd24 (2 * a) = 2 * rnd24 a.
Proof.
  intros Ha. unfold rnd24. rewrite Z.log2_double by assumption.
  set (n := Z.log2 a + 1 - 24).
  replace (Z.succ (Z.log2 a) + 1 - 24) with (n + 1) by (unfold n; lia).
  destruct (Z.leb_spec (n + 1) 0) as [H1 | H1];
    destruct (Z.leb_spec n 0) as [H0 | H0]; try lia.
  - assert (n = 0) as -> by lia. simpl (0 + 1).
    unfold rne. cbv zeta. change (2 ^ 1) with 2. change (2 ^ (1 - 1)) with 1.
    rewrite (Z.mul_comm 2 a), Z.div_mul, Z.mod_mul by lia. simpl. lia.
  - rewrite rne_double by lia.
    replace (2 ^ (n + 1)) with (2 * 2 ^ n)
      by (rewrite <- Z.pow_succ_r by lia; f_equal; lia).
    lia.
Qed.

Lemma rnd24_shift a k : 0 < a -> 0 <= k -> rnd24 (a * 2 ^ k) = rnd24 a * 2 ^ k.
Proof.
  intros Ha Hk. revert k Hk. apply natlike_ind.
  - rewrite Z.pow_0_r, !Z.mul_1_r. reflexivity.
  - intros k Hk IH. rewrite Z.pow_succ_r by assumption.
    replace (a * (2 * 2 ^ k)) with (2 * (a * 2 ^ k)) by lia.
    assert (0 < 2 ^ k) by (apply Z.pow_pos_nonneg; lia).
    rewrite rnd24_double by lia. rewrite IH. lia.
Qed.

Lemma rnd24_small a : 0 < a -> a < 2 ^ 24 -> rnd24 a = a.
Proof.
  intros Ha Hlt. unfold rnd24.
  assert (Z.log2 a < 24) by (apply Z.log2_lt_pow2; assumption).
  replace (Z.log2 a + 1 - 24 <=? 0) with true
    by (symmetry; apply Z.leb_le; lia).
  reflexivity.
Qed.

(** The value rounded to stays within the binade of the argument. *)
Lemma rnd24_bounds a :
  0 < a ->
  2 ^ Z.log2 a <= rnd24 a <= 2 ^ (Z.log2 a + 1).
Proof.
  intros Ha. pose proof (Z.log2_spec a Ha) as [Hlo Hhi].
  unfold rnd24. destruct (Z.leb_spec (Z.log2 a + 1 - 24) 0) as [Hn | Hn].
  - replace (Z.succ (Z.log2 a)) with (Z.log2 a + 1) in Hhi by lia. lia.
  - pose proof (rne_range a Ha ltac:(lia)) as Hr.
    set (n := Z.log2 a + 1 - 24) in *.
    assert (0 < 2 ^ n) by (apply Z.pow_pos_nonneg; lia).
    assert (2 ^ Z.log2 a = 2 ^ 23 * 2 ^ n) as ->.
    { rewrite <- pow2_split by lia. f_equal. lia. }
    assert (2 ^ (Z.log2 a + 1) = 2 ^ 24 * 2 ^ n) as ->.
    { rewrite <- pow2_split by lia. f_equal. lia. }
    nia.
Qed.

Lemma rne_mono a b n :
  0 <= a -> a <= b -> 0 < n -> rne a n <= rne b n.
Proof.
  intros Ha Hab Hn.
  assert (0 < 2 ^ n) as Hp by (apply Z.pow_pos_nonneg; lia).
  pose proof (Z.div_le_mono a b (2 ^ n) Hp Hab) as Hq.
  pose proof (rne_bounds a n Ha Hn) as Hra.
  pose proof (rne_bounds b n ltac:(lia) Hn) as Hrb.
  destruct (Z.eq_dec (a / 2 ^ n) (b / 2 ^ n)) as [Heq | Hne]; [| lia].
  pose proof (Z.div_mod a (2 ^ n) ltac:(lia)) as Da.
  pose proof (Z.div_mod b (2 ^ n) ltac:(lia)) as Db.
  assert (a mod 2 ^ n <= b mod 2 ^ n) as Hr by (rewrite Heq in Da; lia).
  unfold rne. cbv zeta. rewrite Heq.
  set (h := 2 ^ (n - 1)). set (ra := a mod 2 ^ n) in *.
  set (rb := b mod 2 ^ n) in *.
  destruct (Z.ltb_spec ra h), (Z.ltb_spec rb h); try lia.
  - destruct (_ && _); lia.
  - destruct (Z.eqb_spec ra h), (Z.eqb_spec rb h); simpl;
      try destruct (Z.even _); lia.
Qed.

Lemma rnd24_mono a b : 0 < a -> a <= b -> rnd24 a <= rnd24 b.
Proof.
  intros Ha Hab.
  pose proof (Z.log2_le_mono a b Hab) as Hlog.
  pose proof (Z.log2_nonneg a) as Hla.
  destruct (Z.eq_dec (Z.log2 a) (Z.log2 b)) as [Heq | Hne].
  - unfold rnd24. rewrite <- Heq.
    destruct (Z.leb_spec (Z.log2 a + 1 - 24) 0) as [Hn | Hn]; [assumption |].
    assert (0 < 2 ^ (Z.log2 a + 1 - 24)) by (apply Z.pow_pos_nonneg; lia).
    apply Z.mul_le_mono_nonneg_r; [lia |].
    apply rne_mono; lia.
  - pose proof (rnd24_bounds a Ha) as [_ Hua].
    pose proof (rnd24_bounds b ltac:(lia)) as [Hlb _].
    pose proof (Z.pow_le_mono_r 2 (Z.log2 a + 1) (Z.log2 b) ltac:(lia)
                  ltac:(lia)).
    lia.
Qed.

Lemma rnd24_idem a : 0 < a -> rnd24 (rnd24 a) = rnd24 a.
Proof.
  intros Ha. unfold rnd24 at 2 3.
  destruct (Z.leb_spec (Z.log2 a + 1 - 24) 0) as [Hn | Hn].
  { unfold rnd24.
    destruct (Z.leb_spec (Z.log2 a + 1 - 24) 0); [reflexivity | lia]. }
  pose proof (rne_range a Ha ltac:(lia)) as Hr.
  set (q := rne a (Z.log2 a + 1 - 24)) in *.
  rewrite rnd24_shift by lia. f_equal.
  destruct (Z.eq_dec q (2 ^ 24)) as [-> | Hne]; [reflexivity |].
  apply rnd24_small; lia.
Qed.

Lemma rnd24_0 : rnd24 0 = 0.
Proof. reflexivity. Qed.

Lemma rnd24_nonneg a : 0 <= a -> 0 <= rnd24 a.
Proof.
  intros Ha. destruct (Z.eq_dec a 0) as [-> | Hne]; [rewrite rnd24_0; lia |].
  pose proof (rnd24_bounds a ltac:(lia)) as [H _].
  pose proof (Z.pow_pos_nonneg 2 (Z.log2 a) ltac:(lia) (Z.log2_nonneg a)).
  lia.
Qed.

Lemma rnd24_mono0 a b : 0 <= a -> a <= b -> rnd24 a <= rnd24 b.
Proof.
  intros Ha Hab. destruct (Z.eq_dec a 0) as [-> | Hne].
  - rewrite rnd24_0. apply rnd24_nonneg. lia.
  - apply rnd24_mono; lia.
Qed.

(** ** binary32 operations in terms of integer rounding *)

Lemma iter_xO p d : Zpos (Pos.iter xO p d) = Zpos p * 2 ^ Zpos d.
Proof.
  rewrite Pos2Nat.inj_iter.
  rewrite <- (positive_nat_Z d).
  induction (Pos.to_nat d) as [| k IH].
  - simpl. lia.
  - rewrite Nat2Z.inj_succ, Z.pow_succ_r by lia.
    cbn [Nat.iter nat_rect]. rewrite Pos2Z.inj_xO.
    unfold Nat.iter in IH. rewrite IH. lia.
Qed.

(** [(float)w] for a positive [uint32_t]. *)
Lemma of_Z_spec w :
  0 < w < 2 ^ 32 ->
  exists m e,
    Float32.of_Z w = S754_finite false m e /\
    Z.log2 (Zpos m) + 1 = 24 /\
    -23 <= e <= 9 /\
    Zpos m * 2 ^ (e + 23) = rnd24 (w * 2 ^ 23).
Proof.
  intros Hw. destruct w as [| p |]; try lia.
  unfold Float32.of_Z, binary_normalize, binary_round.
  rewrite digits2_pos_log2, Z.add_0_r.
  set (d := Z.log2 (Zpos p) + 1).
  assert (1 <= d <= 32) as Hd.
  { pose proof (Z.log2_nonneg (Zpos p)).
    assert (Z.log2 (Zpos p) < 32) by (apply Z.log2_lt_pow2; lia).
    unfold d. lia. }
  rewrite fexp_normal by lia.
  unfold shl_align. rewrite Z.sub_0_r.
  destruct (d - 24) as [| n | n] eqn:Hn.
  - (* exactly 24 bits *)
    destruct (binary_round_aux_exact false p 0 ltac:(fold d; lia)
                ltac:(fold d; lia)) as (m & e & Hr & He & Hv & _ & Hsame).
    destruct (Hsame ltac:(fold d; lia)) as [-> ->].
    exists p, 0. unfold Float32.prec, Float32.emax.
    split; [exact Hr |]. split; [fold d; lia |]. split; [lia |].
    rewrite rnd24_shift by lia. rewrite rnd24_small; [reflexivity | lia |].
    apply Z.log2_lt_pow2; [lia | fold d; lia].
  - (* more than 24 bits: rounding *)
    destruct (binary_round_aux_exact false p 0 ltac:(fold d; lia)
                ltac:(fold d; lia)) as (m & e & Hr & He & Hv & Hlog & _).
    specialize (Hlog ltac:(fold d; lia)).
    exists m, e. unfold Float32.prec, Float32.emax.
    split; [exact Hr |]. split; [exact Hlog |].
    rewrite Z.sub_0_r in Hv.
    assert (e <= 9) as He9.
    { pose proof (rnd24_bounds (Zpos p) ltac:(lia)) as [_ Hu]. fold d in Hu.
      assert (2 ^ 23 <= Zpos m) by (apply log2_digits in Hlog; lia).
      destruct (Z.le_gt_cases e 9) as [|Hgt]; [assumption | exfalso].
      pose proof (Z.pow_le_mono_r 2 10 e ltac:(lia) ltac:(lia)).
      pose proof (Z.pow_le_mono_r 2 d 32 ltac:(lia) ltac:(lia)).
      nia. }
    split; [lia |].
    rewrite rnd24_shift by lia. rewrite <- Hv.
    rewrite pow2_split by lia. lia.
  - (* fewer than 24 bits: aligned to 24 *)
    assert (Zpos n = 24 - d) as En by lia.
    set (mz := Pos.iter xO p n).
    assert (Zpos mz = Zpos p * 2 ^ (24 - d)) as Emz
      by (unfold mz; rewrite iter_xO, En; reflexivity).
    assert (Z.log2 (Zpos mz) + 1 = 24) as Hlz.
    { rewrite Emz, Z.log2_mul_pow2 by lia. fold d. lia. }
    destruct (binary_round_aux_exact false mz (Z.neg n) ltac:(lia)
                ltac:(lia)) as (m & e & Hr & He & Hv & _ & Hsame).
    destruct (Hsame ltac:(lia)) as [-> ->].
    exists mz, (Z.neg n). unfold Float32.prec, Float32.emax.
    split; [exact Hr |]. split; [exact Hlz |]. split; [lia |].
    rewrite rnd24_shift by lia.
    rewrite rnd24_small; [| lia |].
    + rewrite Emz. replace (Z.neg n + 23) with (d - 1) by lia.
      rewrite <- Z.mul_assoc, <- pow2_split by lia. f_equal. f_equal. lia.
    + apply Z.log2_lt_pow2; [lia | fold d; lia].
Qed.

(** The product of two normal numbers, in the range met by
    [SetStreamRes]. *)
Lemma mul_spec m1 e1 mr er :
  Z.log2 (Zpos m1) + 1 = 24 -> Z.log2 (Zpos mr) + 1 = 24 ->
  -23 <= e1 <= 9 -> -24 <= er <= -23 ->
  exists m e,
    Float32.mul (S754_finite false m1 e1) (S754_finite false mr er) =
      S754_finite false m e /\
    Z.log2 (Zpos m) + 1 = 24 /\
    -47 <= e /\
    Zpos m * 2 ^ (e + 47) =
      rnd24 (Zpos m1 * 2 ^ (e1 + 23) * (Zpos mr * 2 ^ (er + 24))).
Proof.
  intros H1 Hr He1 Her.
  unfold Float32.mul, SFmul. cbn [xorb].
  rewrite Pos2Z.inj_mul.
  apply log2_digits in H1; [| lia]. apply log2_digits in Hr; [| lia].
  assert (2 ^ 46 <= Zpos m1 * Zpos mr < 2 ^ 48) as Hprod.
  { change (2 ^ 46) with (2 ^ 23 * 2 ^ 23).
    change (2 ^ 48) with (2 ^ 24 * 2 ^ 24).
    change (24 - 1) with 23 in *. split; nia. }
  assert (47 <= Z.log2 (Zpos m1 * Zpos mr) + 1 <= 48) as Hd.
  { assert (46 <= Z.log2 (Zpos m1 * Zpos mr))
      by (apply Z.log2_le_pow2; lia).
    assert (Z.log2 (Zpos m1 * Zpos mr) < 48)
      by (apply Z.log2_lt_pow2; lia).
    lia. }
  rewrite <- Pos2Z.inj_mul in *.
  destruct (binary_round_aux_exact false (m1 * mr) (e1 + er) ltac:(lia)
              ltac:(lia)) as (m & e & Hround & He & Hv & Hlog & _).
  exists m, e. unfold Float32.prec, Float32.emax.
  split; [exact Hround |]. split; [apply Hlog; lia |]. split; [lia |].
  replace (Zpos m1 * 2 ^ (e1 + 23) * (Zpos mr * 2 ^ (er + 24)))
    with (Zpos (m1 * mr) * 2 ^ (e1 + er + 47)).
  - rewrite rnd24_shift by lia. rewrite <- Hv.
    rewrite <- Z.mul_assoc, <- pow2_split by lia. f_equal. f_equal. lia.
  - rewrite Pos2Z.inj_mul.
    replace (e1 + er + 47) with ((e1 + 23) + (er + 24)) by lia.
    rewrite pow2_split by lia. lia.
Qed.

(** An integer below [2^24] survives the round trip through [float]. *)
Lemma to_uint32_of_Z_small n :
  0 <= n < 2 ^ 24 -> Float32.to_uint32 (Float32.of_Z n) = Some n.
Proof.
  intros Hn. destruct (Z.eq_dec n 0) as [-> | Hne]; [reflexivity |].
  destruct (of_Z_spec n ltac:(lia)) as (m & e & -> & Hlog & He & Hv).
  rewrite rnd24_shift, rnd24_small in Hv by lia.
  unfold Float32.to_uint32. cbn [cond_Zopp].
  assert (0 < 2 ^ 23) by lia.
  destruct (Z.leb_spec 0 e) as [Hpos | Hneg].
  - rewrite pow2_split in Hv by lia.
    assert (Zpos m * 2 ^ e = n) as -> by nia.
    replace ((0 <=? n) && (n <? 2 ^ 32)) with true; [reflexivity |].
    symmetry. apply andb_true_iff. split; [apply Z.leb_le | apply Z.ltb_lt];
      lia.
  - assert (0 < 2 ^ (- e)) by (apply Z.pow_pos_nonneg; lia).
    assert (Zpos m = n * 2 ^ (- e)) as Em.
    { assert (2 ^ 23 = 2 ^ (e + 23) * 2 ^ (- e)) as E23.
      { rewrite <- pow2_split by lia. f_equal. lia. }
      assert (0 < 2 ^ (e + 23)) by (apply Z.pow_pos_nonneg; lia).
      rewrite E23 in Hv. nia. }
    rewrite Z.quot_div_nonneg by lia.
    rewrite Em, Z.div_mul by lia.
    replace ((0 <=? n) && (n <? 2 ^ 32)) with true; [reflexivity |].
    symmetry. apply andb_true_iff. split; [apply Z.leb_le | apply Z.ltb_lt];
      lia.
Qed.

Lemma round_to_uint32 m e :
  Z.log2 (Zpos m) + 1 = 24 -> -47 <= e ->
  Float32.to_uint32 (Float32.round (S754_finite false m e)) =
  if rounded_value m e <? 2 ^ 32 then Some (rounded_value m e) else None.
Proof.
  intros Hlog He. apply log2_digits in Hlog; [| lia].
  change (24 - 1) with 23 in Hlog.
  unfold Float32.round, rounded_value.
  assert (0 < 2 ^ 47) by lia.
  destruct (Z.leb_spec 0 e) as [Hpos | Hneg].
  - unfold Float32.to_uint32. cbn [cond_Zopp].
    replace (0 <=? e) with true by (symmetry; apply Z.leb_le; lia).
    assert (0 < 2 ^ e) by (apply Z.pow_pos_nonneg; lia).
    rewrite pow2_split by lia.
    replace (Zpos m * (2 ^ e * 2 ^ 47) + 2 ^ 46)
      with (2 ^ 46 + (Zpos m * 2 ^ e) * 2 ^ 47) by lia.
    rewrite Z.div_add by lia.
    change (2 ^ 46 / 2 ^ 47) with 0. rewrite Z.add_0_l.
    replace (0 <=? Zpos m * 2 ^ e) with true
      by (symmetry; apply Z.leb_le; nia).
    reflexivity.
  - cbn [cond_Zopp].
    assert (0 < 2 ^ (- e)) by (apply Z.pow_pos_nonneg; lia).
    assert (0 < 2 ^ (e + 47)) by (apply Z.pow_pos_nonneg; lia).
    assert (0 < 2 ^ (- e - 1)) by (apply Z.pow_pos_nonneg; lia).
    assert (2 ^ 47 = 2 ^ (- e) * 2 ^ (e + 47)) as E47.
    { rewrite <- pow2_split by lia. f_equal. lia. }
    assert (2 ^ 46 = 2 ^ (- e - 1) * 2 ^ (e + 47)) as E46.
    { rewrite <- pow2_split by lia. f_equal. lia. }
    assert (2 ^ (- e) = 2 * 2 ^ (- e - 1)) as Ee.
    { rewrite <- Z.pow_succ_r by lia. f_equal. lia. }
    replace ((Zpos m * 2 ^ (e + 47) + 2 ^ 46) / 2 ^ 47)
      with ((Zpos m + 2 ^ (- e - 1)) / 2 ^ (- e)).
    2:{ rewrite E47, E46, <- Z.mul_add_distr_r.
        rewrite Z.div_mul_cancel_r by lia. reflexivity. }
    set (n := (Zpos m + 2 ^ (- e - 1)) / 2 ^ (- e)).
    assert (0 <= n < 2 ^ 24) as Hn.
    { unfold n. split; [apply Z.div_pos; lia |].
      apply Z.div_lt_upper_bound; [lia |]. nia. }
    change (binary_normalize Float32.prec Float32.emax n 0 false)
      with (Float32.of_Z n).
    rewrite to_uint32_of_Z_small by assumption.
    replace (n <? 2 ^ 32) with true by (symmetry; apply Z.ltb_lt; lia).
    reflexivity.
Qed.

(** A valid factor in [[0.5, 1.0]] is a normal number with exponent -24, or
    it is 1.0. *)
Lemma pos_compare_le_Z (a b : positive) :
  match Pos.compare_cont Eq a b with Gt => false | _ => true end = true ->
  Zpos a <= Zpos b.
Proof.
  intros H. destruct (Pos.compare_cont Eq a b) eqn:Hc; [| | discriminate].
  - assert ((Zpos a ?= Zpos b) = Eq) as Hz by exact Hc.
    apply Z.compare_eq in Hz. rewrite Hz. apply Z.le_refl.
  - assert ((Zpos a ?= Zpos b) = Lt) as Hz by exact Hc.
    apply Z.lt_le_incl. exact Hz.
Qed.

Lemma res_factor_shape rf :
  res_factor_ok rf = true ->
  exists mr er,
    rf = S754_finite false mr er /\
    Z.log2 (Zpos mr) + 1 = 24 /\
    -24 <= er <= -23 /\
    Zpos mr * 2 ^ (er + 24) <= 2 ^ 24.
Proof.
  unfold res_factor_ok. intros H.
  apply andb_true_iff in H as [H Hle]. apply andb_true_iff in H as [Hv Hge].
  destruct rf as [s | s | | s mr er];
    try (destruct s; discriminate); try discriminate.
  destruct s; [discriminate |].
  unfold valid_binary, bounded, canonical_mantissa in Hv.
  apply andb_true_iff in Hv as [Hcanon _]. apply Z.eqb_eq in Hcanon.
  rewrite digits2_pos_log2 in Hcanon.
  unfold fexp, emin, Float32.prec, Float32.emax in Hcanon.
  change (3 - 128 - 24) with (-149) in Hcanon.
  assert (-24 <= er) as Hlo.
  { unfold Float32.geb, Float32.lit_0_5, SFleb, SFcompare in Hge.
    destruct (Z.compare_spec (-24) er); try discriminate; lia. }
  assert (er < -23 \/ (er = -23 /\ Zpos mr <= 2 ^ 23)) as Hhi.
  { unfold Float32.leb, Float32.lit_1_0, SFleb, SFcompare in Hle.
    destruct (Z.compare_spec er (-23)) as [E | L | G]; try discriminate.
    - right. split; [exact E |]. apply pos_compare_le_Z in Hle. exact Hle.
    - left. exact L. }
  clear Hge Hle.
  assert (Z.log2 (Zpos mr) + 1 = 24) as Hlog by lia.
  exists mr, er.
  split; [reflexivity |]. split; [exact Hlog |]. split; [lia |].
  destruct Hhi as [Hlt | [-> Hm]].
  - assert (er = -24) as -> by lia.
    apply log2_digits in Hlog; [| lia].
    change (-24 + 24) with 0. change (2 ^ 0) with 1. lia.
  - change (-23 + 24) with 1. change (2 ^ 1) with 2. lia.
Qed.

Lemma to_uint32_scaled d mr er :
  0 <= d < 2 ^ 32 ->
  Z.log2 (Zpos mr) + 1 = 24 -> -24 <= er <= -23 ->
  Float32.to_uint32
    (Float32.round
       (Float32.mul (Float32.of_Z d) (S754_finite false mr er))) =
  if scaled_dimension d mr er <? 2 ^ 32
  then Some (scaled_dimension d mr er) else None.
Proof.
  intros Hd Hlog Her. unfold scaled_dimension.
  destruct (Z.eq_dec d 0) as [-> | Hne]; [reflexivity |].
  destruct (of_Z_spec d ltac:(lia)) as (m1 & e1 & -> & Hl1 & He1 & Hv1).
  destruct (mul_spec m1 e1 mr er Hl1 Hlog He1 Her)
    as (m & e & -> & Hl & He & Hv).
  rewrite round_to_uint32 by assumption.
  unfold rounded_value. rewrite Hv, Hv1. reflexivity.
Qed.

Lemma stream_dimension_spec d mr er :
  0 <= d < 2 ^ 32 ->
  Z.log2 (Zpos mr) + 1 = 24 -> -24 <= er <= -23 ->
  stream_dimension d (S754_finite false mr er) =
  if scaled_dimension d mr er <? 2 ^ 32
  then Some (Z.land (scaled_dimension d mr er) not_1_u32) else None.
Proof.
  intros Hd Hlog Her. unfold stream_dimension.
  rewrite to_uint32_scaled by assumption.
  destruct (_ <? _); reflexivity.
Qed.

Lemma scaled_dimension_mono d d' mr er :
  0 <= d -> d <= d' -> -24 <= er ->
  scaled_dimension d mr er <= scaled_dimension d' mr er.
Proof.
  intros Hd Hdd Her. unfold scaled_dimension.
  assert (0 < 2 ^ (er + 24)) by (apply Z.pow_pos_nonneg; lia).
  apply Z.div_le_mono; [lia |].
  apply Z.add_le_mono_r.
  assert (rnd24 (d * 2 ^ 23) <= rnd24 (d' * 2 ^ 23))
    by (apply rnd24_mono0; lia).
  pose proof (rnd24_nonneg (d * 2 ^ 23) ltac:(lia)).
  assert (0 < Zpos mr * 2 ^ (er + 24)) by (apply Z.mul_pos_pos; lia).
  apply rnd24_mono0.
  - apply Z.mul_nonneg_nonneg; lia.
  - apply Z.mul_le_mono_nonneg_r; lia.
Qed.

(** With a factor of at most 1 the result does not exceed [(float)d]. *)
Lemma scaled_dimension_le d mr er :
  0 <= d -> -24 <= er -> Zpos mr * 2 ^ (er + 24) <= 2 ^ 24 ->
  scaled_dimension d mr er <= rnd24 d.
Proof.
  intros Hd Her Hone. unfold scaled_dimension.
  destruct (Z.eq_dec d 0) as [-> | Hne]; [reflexivity |].
  assert (0 < 2 ^ (er + 24)) by (apply Z.pow_pos_nonneg; lia).
  pose proof (rnd24_bounds d ltac:(lia)) as [Hlo _].
  pose proof (Z.pow_pos_nonneg 2 (Z.log2 d) ltac:(lia) (Z.log2_nonneg d)).
  assert (rnd24 (rnd24 (d * 2 ^ 23) * (Zpos mr * 2 ^ (er + 24))) <=
          rnd24 d * 2 ^ 47) as Hle.
  { rewrite rnd24_shift by lia.
    assert (0 < rnd24 d * 2 ^ 23) by lia.
    assert (0 < Zpos mr * 2 ^ (er + 24)) by (apply Z.mul_pos_pos; lia).
    replace (rnd24 d * 2 ^ 47) with (rnd24 (rnd24 d * 2 ^ 23 * 2 ^ 24)).
    - apply rnd24_mono0.
      + apply Z.mul_nonneg_nonneg; lia.
      + apply Z.mul_le_mono_nonneg_l; lia.
    - rewrite <- Z.mul_assoc. change (2 ^ 23 * 2 ^ 24) with (2 ^ 47).
      rewrite rnd24_shift, rnd24_idem by lia. reflexivity. }
  apply Z.le_trans with ((2 ^ 46 + rnd24 d * 2 ^ 47) / 2 ^ 47).
  - apply Z.div_le_mono; lia.
  - rewrite Z.div_add by lia. change (2 ^ 46 / 2 ^ 47) with 0. lia.
Qed.

Lemma not_1_u32_value : not_1_u32 = 2 ^ 32 - 2.
Proof. reflexivity. Qed.

(** Clearing the low bit: the result is even and not above the argument,
    and the operation is monotone. *)
Lemma clear_low_bit v :
  0 <= v < 2 ^ 32 -> Z.land v not_1_u32 = 2 * (v / 2).
Proof.
  intros Hv. apply Z.bits_inj'. intros i Hi.
  rewrite Z.land_spec.
  destruct (Z.eq_dec i 0) as [-> | Hne].
  - rewrite (Z.bit0_odd (2 * _)), Z.odd_mul. simpl. apply andb_false_r.
  - replace i with (Z.succ (i - 1)) at 3 by lia.
    rewrite Z.double_bits_succ, <- Z.div2_div, Z.div2_spec, Z.shiftr_spec by lia.
    replace (i - 1 + 1) with i by lia.
    destruct (Z.lt_ge_cases i 32) as [Hlt | Hge].
    + replace (Z.testbit not_1_u32 i) with true; [apply andb_true_r |].
      assert (i = 1 \/ i = 2 \/ i = 3 \/ i = 4 \/ i = 5 \/ i = 6 \/ i = 7 \/
              i = 8 \/ i = 9 \/ i = 10 \/ i = 11 \/ i = 12 \/ i = 13 \/
              i = 14 \/ i = 15 \/ i = 16 \/ i = 17 \/ i = 18 \/ i = 19 \/
              i = 20 \/ i = 21 \/ i = 22 \/ i = 23 \/ i = 24 \/ i = 25 \/
              i = 26 \/ i = 27 \/ i = 28 \/ i = 29 \/ i = 30 \/ i = 31)
        as Hcases by lia.
      repeat (destruct Hcases as [-> | Hcases]; [reflexivity |]).
      subst i. reflexivity.
    + replace (Z.testbit v i) with false; [reflexivity |].
      symmetry. destruct (Z.eq_dec v 0) as [-> | Hv0];
        [apply Z.bits_0 |].
      apply Z.bits_above_log2; [lia |].
      assert (Z.log2 v < 32) by (apply Z.log2_lt_pow2; lia). lia.
Qed.

(** ** The stream resolution *)

Lemma res_factor_ok_initial kQueueLen :
  res_factor_ok (res_factor_ (initial kQueueLen)) = true.
Proof. reflexivity. Qed.

(** The option handler keeps the factor a valid number of [[0.5, 1.0]],
    whatever finite or non-finite value was parsed. *)
Lemma res_factor_ok_set c factor :
  valid_binary Float32.prec Float32.emax factor = true ->
  res_factor_ok (res_factor_ c) = true ->
  res_factor_ok (res_factor_ (set_res_factor c factor)) = true.
Proof.
  intros Hvalid Hok. unfold set_res_factor.
  destruct (Float32.geb factor Float32.lit_0_5 &&
            Float32.leb factor Float32.lit_1_0) eqn:Hrange; [| exact Hok].
  apply andb_true_iff in Hrange as [Hge Hle].
  unfold res_factor_ok. cbn [res_factor_]. now rewrite Hvalid, Hge, Hle.
Qed.

Lemma stream_dimension_even d rf n :
  stream_dimension d rf = Some n -> Z.even n = true.
Proof.
  unfold stream_dimension.
  destruct (Float32.to_uint32 _) as [v |]; [| discriminate].
  intros [= <-].
  rewrite <- Z.negb_odd, <- Z.bit0_odd, Z.land_spec.
  rewrite andb_false_r. reflexivity.
Qed.

Lemma to_uint32_range a t :
  Float32.to_uint32 a = Some t -> 0 <= t < 2 ^ 32.
Proof.
  destruct a as [s | s | | s mx ex]; try discriminate.
  - intros [= <-]. lia.
  - unfold Float32.to_uint32.
    set (v := if 0 <=? ex then _ else _).
    destruct ((0 <=? v) && (v <? 2 ^ 32)) eqn:Hrange; [| discriminate].
    intros [= <-]. apply andb_true_iff in Hrange as [H0 H1].
    apply Z.leb_le in H0. apply Z.ltb_lt in H1. lia.
Qed.

Lemma stream_dimension_cleared d rf n :
  stream_dimension d rf = Some n ->
  exists v,
    Float32.to_uint32 (Float32.round (Float32.mul (Float32.of_Z d) rf))
      = Some v /\
    n = Z.land v not_1_u32 /\ n = 2 * (v / 2).
Proof.
  unfold stream_dimension.
  destruct (Float32.to_uint32 _) as [v |] eqn:Hv; [| discriminate].
  intros [= <-]. exists v. split; [reflexivity |]. split; [reflexivity |].
  apply clear_low_bit. eapply to_uint32_range. exact Hv.
Qed.

(** C10. The defaults 720x1440 are even, with the width the smaller one.
    After every call of [SetStreamRes] each stored dimension is
    [(uint32_t)round((float)dimension * res_factor_)] with the low bit
    cleared, hence even.  With a factor as the option handler leaves it, a
    binary32 value in [[0.5, 1.0]], the width is at most the height in the
    portrait orientations 0 and 2, and the call is defined whenever both
    dimensions are below [2^32 - 128], so that the conversion back to
    [uint32_t] cannot overflow. *)
Theorem SetStreamRes_even
  (kQueueLen : Z) (c : CloudXRClient) (w h orientation : Z) :
  (Z.even (stream_width_ (initial kQueueLen)) = true /\
   Z.even (stream_height_ (initial kQueueLen)) = true /\
   stream_width_ (initial kQueueLen) <= stream_height_ (initial kQueueLen)) /\
  (forall c', SetStreamRes c w h orientation = Some c' ->
     let '(w', h') :=
       if (h <? w) && ((orientation =? 0) || (orientation =? 2))
       then (h, w) else (w, h) in
     (exists vw vh,
        Float32.to_uint32
          (Float32.round (Float32.mul (Float32.of_Z w') (res_factor_ c)))
          = Some vw /\
        Float32.to_uint32
          (Float32.round (Float32.mul (Float32.of_Z h') (res_factor_ c)))
          = Some vh /\
        stream_width_ c' = Z.land vw not_1_u32 /\
        stream_width_ c' = 2 * (vw / 2) /\
        stream_height_ c' = Z.land vh not_1_u32 /\
        stream_height_ c' = 2 * (vh / 2)) /\
     Z.even (stream_width_ c') = true /\
     Z.even (stream_height_ c') = true) /\
  (res_factor_ok (res_factor_ c) = true ->
   0 <= w < 2 ^ 32 -> 0 <= h < 2 ^ 32 ->
   (forall c', SetStreamRes c w h orientation = Some c' ->
      orientation = 0 \/ orientation = 2 ->
      stream_width_ c' <= stream_height_ c') /\
   (w < 2 ^ 32 - 128 -> h < 2 ^ 32 - 128 ->
    exists c', SetStreamRes c w h orientation = Some c')).
Proof.
  split; [repeat split; discriminate |].
  split.
  { (* whatever the factor *)
    intros c'. unfold SetStreamRes.
    destruct ((h <? w) && ((orientation =? 0) || (orientation =? 2))).
    - destruct (stream_dimension h (res_factor_ c)) as [sw |] eqn:Ha;
        [| discriminate].
      destruct (stream_dimension w (res_factor_ c)) as [sh |] eqn:Hb;
        [| discriminate].
      intros [= <-]. cbn [stream_width_ stream_height_].
      destruct (stream_dimension_cleared _ _ _ Ha) as (va & Hva & Ea & Ea').
      destruct (stream_dimension_cleared _ _ _ Hb) as (vb & Hvb & Eb & Eb').
      split; [exists va, vb; repeat split; assumption |].
      split; eapply stream_dimension_even; eassumption.
    - destruct (stream_dimension w (res_factor_ c)) as [sw |] eqn:Ha;
        [| discriminate].
      destruct (stream_dimension h (res_factor_ c)) as [sh |] eqn:Hb;
        [| discriminate].
      intros [= <-]. cbn [stream_width_ stream_height_].
      destruct (stream_dimension_cleared _ _ _ Ha) as (va & Hva & Ea & Ea').
      destruct (stream_dimension_cleared _ _ _ Hb) as (vb & Hvb & Eb & Eb').
      split; [exists va, vb; repeat split; assumption |].
      split; eapply stream_dimension_even; eassumption. }
  intros Hok Hw Hh.
  destruct (res_factor_shape _ Hok) as (mr & er & Hrf & Hlog & Her & Hone).
  unfold SetStreamRes. rewrite Hrf.
  set (swap := (h <? w) && ((orientation =? 0) || (orientation =? 2))).
  assert (exists w' h',
            (if swap then (h, w) else (w, h)) = (w', h') /\
            0 <= w' < 2 ^ 32 /\ 0 <= h' < 2 ^ 32 /\
            (orientation = 0 \/ orientation = 2 -> w' <= h') /\
            (w < 2 ^ 32 - 128 -> h < 2 ^ 32 - 128 ->
             w' < 2 ^ 32 - 128 /\ h' < 2 ^ 32 - 128))
    as (w' & h' & -> & Hw' & Hh' & Hportrait & Hsmall).
  { destruct swap eqn:Hswap.
    - exists h, w. apply andb_true_iff in Hswap as [Hlt _].
      apply Z.ltb_lt in Hlt. repeat split; lia.
    - exists w, h. repeat split; try lia.
      intros Ho. apply andb_false_iff in Hswap as [Hge | Hno].
      + apply Z.ltb_ge in Hge. exact Hge.
      + apply orb_false_iff in Hno as [H0 H2].
        apply Z.eqb_neq in H0. apply Z.eqb_neq in H2. lia. }
  rewrite !stream_dimension_spec by assumption.
  set (vw := scaled_dimension w' mr er). set (vh := scaled_dimension h' mr er).
  assert (0 <= vw /\ 0 <= vh) as [Hvw0 Hvh0].
  { unfold vw, vh, scaled_dimension.
    assert (0 < Zpos mr * 2 ^ (er + 24))
      by (apply Z.mul_pos_pos; [lia | apply Z.pow_pos_nonneg; lia]).
    split; apply Z.div_pos; try lia;
      (apply Z.add_nonneg_nonneg; [| lia]);
      apply rnd24_nonneg, Z.mul_nonneg_nonneg; try lia;
      apply rnd24_nonneg; lia. }
  split.
  - intros c' Hset Ho.
    destruct (Z.ltb_spec vw (2 ^ 32)) as [Hvw |]; [| discriminate].
    destruct (Z.ltb_spec vh (2 ^ 32)) as [Hvh |]; [| discriminate].
    injection Hset as <-. cbn [stream_width_ stream_height_].
    rewrite !clear_low_bit by lia.
    assert (vw <= vh) as Hle
      by (apply scaled_dimension_mono; [lia | apply Hportrait, Ho | lia]).
    pose proof (Z.div_le_mono vw vh 2 ltac:(lia) Hle). lia.
  - intros Hws Hhs. destruct (Hsmall Hws Hhs) as [Hw's Hh's].
    assert (rnd24 (2 ^ 32 - 129) = 2 ^ 32 - 256) as Hmax
      by (vm_compute; reflexivity).
    assert (vw < 2 ^ 32) as Hvw.
    { pose proof (scaled_dimension_le w' mr er ltac:(lia) ltac:(lia) Hone).
      pose proof (rnd24_mono0 w' (2 ^ 32 - 129) ltac:(lia) ltac:(lia)).
      fold vw in H. lia. }
    assert (vh < 2 ^ 32) as Hvh.
    { pose proof (scaled_dimension_le h' mr er ltac:(lia) ltac:(lia) Hone).
      pose proof (rnd24_mono0 h' (2 ^ 32 - 129) ltac:(lia) ltac:(lia)).
      fold vh in H. lia. }
    replace (vw <? 2 ^ 32) with true by (symmetry; apply Z.ltb_lt; lia).
    replace (vh <? 2 ^ 32) with true by (symmetry; apply Z.ltb_lt; lia).
    eexists. reflexivity.
Qed.

Lemma SetStreamRes_even_witness :
  exists c',
    SetStreamRes (initial 4) 1920 1080 0 = Some c' /\
    stream_width_ c' = 810 /\ stream_height_ c' = 1440 /\
    Z.even (stream_width_ c') = true /\
    Z.even (stream_height_ c') = true /\
    stream_width_ c' <= stream_height_ c'.
Proof.
  destruct (SetStreamRes_even 4 (initial 4) 1920 1080 0)
    as (_ & Heven & Hordered).
  destruct (Hordered eq_refl ltac:(lia) ltac:(lia)) as [Hle Hdef].
  destruct (Hdef ltac:(lia) ltac:(lia)) as [c' Hc'].
  exists c'. split; [exact Hc' |].
  specialize (Heven c' Hc').
  cbv beta iota zeta delta
    [Z.ltb Z.eqb Z.compare Pos.compare Pos.compare_cont andb orb] in Heven.
  destruct Heven as (_ & Hew & Heh).
  specialize (Hle c' Hc' (or_introl eq_refl)).
  vm_compute in Hc'. injection Hc' as <-.
  split; [reflexivity |]. split; [reflexivity |].
  split; [exact Hew |]. split; [exact Heh | exact Hle].
Defined.

(** * Further properties of the client *)

(** ** The ring stays inside its array *)

(** X1. The ring invariant, [kQueueLen] slots and a cursor inside them,
    holds initially and is kept by every operation on the client; in a
    state that satisfies it, every slot index the client computes for a
    read or a write lies inside [pose_matrix_]. *)
Theorem ring_accesses_in_bounds
  (kQueueLen : Z)
  (cxrLatchFrame :
     list sdk_call -> cxrReceiverHandle -> cxrFramesLatched ->
     cxrError * cxrFramesLatched)
  (cxrReleaseFrame :
     list sdk_call -> option cxrReceiverHandle -> cxrFramesLatched ->
     cxrFramesLatched)
  (c : CloudXRClient) :
  0 < kQueueLen ->
  ring_ok kQueueLen (initial kQueueLen) /\
  (ring_ok kQueueLen c ->
   (forall pose_mat, ring_ok kQueueLen (SetPoseMatrix kQueueLen c pose_mat)) /\
   (forall log,
      ring_ok kQueueLen
        (client (snd (Latch cxrLatchFrame (MkSession c log)))) /\
      ring_ok kQueueLen
        (client (Release cxrReleaseFrame (MkSession c log)))) /\
   (forall factor, ring_ok kQueueLen (set_res_factor c factor)) /\
   (forall w h orientation c',
      SetStreamRes c w h orientation = Some c' -> ring_ok kQueueLen c') /\
   (forall idx,
      idx = current_idx_ c \/
      idx = latest_index kQueueLen (current_idx_ c) \/
      (exists offset, 0 <= offset < kQueueLen /\
                      idx = offset_index kQueueLen (current_idx_ c) offset) ->
      0 <= idx < kQueueLen /\
      is_Some (pose_matrix_ c !! Z.to_nat idx))).
Proof.
  intros HK. split; [apply ring_ok_initial; assumption |].
  intros Hok. pose proof Hok as [Hlen Hcur].
  split; [intros p; apply ring_ok_SetPoseMatrix; assumption |].
  split.
  { intros log. split.
    - unfold Latch. cbn [client sdk_calls].
      destruct (latched_ c); [exact Hok |].
      destruct (cloudxr_receiver_ c) as [receiver |]; [| exact Hok].
      destruct (cxrLatchFrame log receiver (framesLatched_ c))
        as [status frames].
      destruct status; exact Hok.
    - unfold Release. cbn [client sdk_calls].
      destruct (latched_ c); exact Hok. }
  split.
  { intros factor. unfold set_res_factor.
    destruct (_ && _); exact Hok. }
  split.
  { intros w h orientation c' Hset. unfold SetStreamRes in Hset.
    destruct ((h <? w) && ((orientation =? 0) || (orientation =? 2)));
      destruct (stream_dimension _ _); try discriminate;
      destruct (stream_dimension _ _); try discriminate;
      injection Hset as <-; exact Hok. }
  intros idx Hidx.
  assert (0 <= idx < kQueueLen) as Hrange.
  { destruct Hidx as [-> | [-> | (offset & Ho & ->)]].
    - exact Hcur.
    - apply (slot_index_in_range kQueueLen HK (current_idx_ c) 0); lia.
    - apply slot_index_in_range; assumption. }
  split; [exact Hrange |].
  apply lookup_lt_is_Some_2. lia.
Qed.

Lemma ring_accesses_in_bounds_witness :
  ring_ok 4 (SetPoseMatrix 4 (initial 4) (translation 1 2 3)) /\
  0 <= offset_index 4 (current_idx_ (initial 4)) 3 < 4.
Proof.
  destruct (ring_accesses_in_bounds 4 frame_on_third_call release_keeps_frame
              (initial 4) ltac:(lia)) as [Hinit Hkept].
  destruct (Hkept Hinit) as (Hpush & _ & _ & _ & Hidx).
  split; [apply Hpush |].
  apply (Hidx (offset_index 4 (current_idx_ (initial 4)) 3)).
  right. right. exists 3. split; [lia | reflexivity].
Defined.

(** X2. [DetermineOffset] always returns an offset inside the queue, and a
    non-zero offset always designates a slot all of whose components are
    within the tolerance of the latched pose: a mismatching frame is never
    reported, other than by the default 0. *)
Theorem DetermineOffset_valid_offset (kQueueLen : Z) (c : CloudXRClient) :
  0 < kQueueLen ->
  0 <= DetermineOffset kQueueLen c < kQueueLen /\
  (DetermineOffset kQueueLen c <> 0 ->
   forall i j, 0 <= i < 3 -> 0 <= j < 4 ->
     component_differs
       (slot kQueueLen (pose_matrix_ c)
          (offset_index kQueueLen (current_idx_ c)
             (DetermineOffset kQueueLen c)))
       (poseMatrix (framesLatched_ c)) i j = false).
Proof.
  intros HK.
  destruct (DetermineOffset_spec kQueueLen HK c)
    as [(Hr & Hh & _) | (Hr & _)].
  - split; [exact Hr |]. intros _. apply close_enough_iff. exact Hh.
  - split; [lia |]. intros Hne. contradiction.
Qed.

Lemma DetermineOffset_valid_offset_witness :
  0 <= DetermineOffset 3
         (push_all 3
            (with_latch (initial 3)
               (CxrFramesLatched (pose_of_mat4 (translation 1 0 0))) true)
            [translation 1 0 0; translation 2 0 0]) < 3.
Proof.
  apply (DetermineOffset_valid_offset 3). lia.
Defined.

(** ** The comparison of poses as a relation *)

Lemma SFabs_binary_round_aux s s' mx ex lx :
  SFabs (binary_round_aux Float32.prec Float32.emax s mx ex lx) =
  SFabs (binary_round_aux Float32.prec Float32.emax s' mx ex lx).
Proof.
  unfold binary_round_aux.
  destruct (shr_fexp _ _ mx ex lx) as [mrs' e'].
  destruct (shr_fexp _ _ _ e' loc_Exact) as [mrs'' e''].
  destruct (shr_m mrs''); [reflexivity | | reflexivity].
  destruct (_ <=? _); reflexivity.
Qed.

Lemma SFabs_binary_normalize_opp z e :
  SFabs (binary_normalize Float32.prec Float32.emax (- z) e false) =
  SFabs (binary_normalize Float32.prec Float32.emax z e false).
Proof.
  destruct z as [| p | p]; [reflexivity | |].
  - change (- Z.pos p) with (Z.neg p). unfold binary_normalize, binary_round.
    destruct (shl_align _ _ _) as [mz ez]. apply SFabs_binary_round_aux.
  - change (- Z.neg p) with (Z.pos p). unfold binary_normalize, binary_round.
    destruct (shl_align _ _ _) as [mz ez]. apply SFabs_binary_round_aux.
Qed.

(** [fabsf(a - b)] and [fabsf(b - a)] are the same float. *)
Lemma fabsf_sub_comm (a b : float) :
  Float32.fabsf (Float32.sub a b) = Float32.fabsf (Float32.sub b a).
Proof.
  unfold Float32.fabsf, Float32.sub.
  destruct a as [sa | sa | | sa ma ea], b as [sb | sb | | sb mb eb];
    try reflexivity;
    try (destruct sa, sb; reflexivity);
    try (destruct sa; reflexivity);
    try (destruct sb; reflexivity).
  unfold SFsub. cbv zeta. rewrite (Z.min_comm eb ea).
  set (x := cond_Zopp sa _). set (y := cond_Zopp sb _).
  replace (y - x) with (- (x - y)) by lia.
  symmetry. apply SFabs_binary_normalize_opp.
Qed.

Lemma component_differs_comm a b i j :
  component_differs a b i j = component_differs b a i j.
Proof. unfold component_differs. now rewrite fabsf_sub_comm. Qed.

(** X3. The comparison of two poses in [DetermineOffset] is reflexive and
    symmetric: a pose is within tolerance of itself whatever its components
    are (infinities and NaNs included), and which of the two matrices is the
    ring slot and which the latched pose makes no difference. *)
Theorem close_enough_refl_sym (a b : cxrMatrix34) :
  close_enough a a = true /\
  notMatch a b = notMatch b a /\
  close_enough a b = close_enough b a.
Proof.
  split; [apply close_enough_refl |].
  assert (notMatch a b = notMatch b a) as Hn.
  { unfold notMatch. cbn [fold_left].
    now rewrite !(component_differs_comm a b). }
  split; [exact Hn |]. unfold close_enough. now rewrite Hn.
Qed.

(** X4. A component that is a NaN on either side never counts as a
    mismatch, because [>=] is false on a NaN; so a latched pose whose twelve
    components are NaNs is within tolerance of every slot, and
    [DetermineOffset] returns 0 for it whatever the ring holds. *)
Theorem nan_never_differs
  (kQueueLen : Z) (c : CloudXRClient) (a b : cxrMatrix34) (i j : Z) :
  (m a i j = S754_nan \/ m b i j = S754_nan ->
   component_differs a b i j = false) /\
  (0 < kQueueLen ->
   (forall i j, 0 <= i < 3 -> 0 <= j < 4 ->
      m (poseMatrix (framesLatched_ c)) i j = S754_nan) ->
   DetermineOffset kQueueLen c = 0).
Proof.
  split.
  - unfold component_differs.
    intros [-> | ->]; [reflexivity |].
    destruct (m a i j) as [s | s | | s mx ex]; reflexivity.
  - intros HK Hnan.
    apply DetermineOffset_first_hit; [assumption | lia | | intros o' Ho'; lia].
    unfold hit. apply close_enough_iff. intros i' j' Hi Hj.
    unfold component_differs. rewrite (Hnan i' j' Hi Hj).
    destruct (m _ i' j') as [s | s | | s mx ex]; reflexivity.
Qed.

Lemma nan_never_differs_witness :
  let nan := S754_nan in
  let target := CxrMatrix34 nan nan nan nan nan nan nan nan nan nan nan nan in
  DetermineOffset 3
    (push_all 3 (with_latch (initial 3) (CxrFramesLatched target) true)
       [translation 1 0 0; translation 2 0 0]) = 0.
Proof.
  intros nan target.
  apply (nan_never_differs 3 _ target target 0 0); [lia |].
  intros i j Hi Hj.
  assert (i = 0 \/ i = 1 \/ i = 2) as [-> | [-> | ->]] by lia;
    assert (j = 0 \/ j = 1 \/ j = 2 \/ j = 3) as [-> | [-> | [-> | ->]]]
      by lia; reflexivity.
Defined.

(** ** The resolution factor *)

(** X5. Whatever sequence of values the [res-factor] option handler is
    given, NaN, infinities and out-of-range numbers included, the stored
    factor stays a finite positive binary32 number [mr * 2^er] with
    [1/2 <= mr * 2^er <= 1]; a value outside [[0.5, 1.0]] leaves the client
    as it was, and a value inside replaces the factor and nothing else. *)
Theorem res_factor_stays_in_range (c : CloudXRClient) (factors : list float) :
  res_factor_ok (res_factor_ c) = true ->
  Forall (fun f => valid_binary Float32.prec Float32.emax f = true) factors ->
  (exists mr er,
     res_factor_ (fold_left set_res_factor factors c) =
       S754_finite false mr er /\
     2 ^ 23 <= Zpos mr * 2 ^ (er + 24) <= 2 ^ 24) /\
  (forall f,
     Float32.geb f Float32.lit_0_5 && Float32.leb f Float32.lit_1_0 = false ->
     set_res_factor c f = c) /\
  (forall f,
     Float32.geb f Float32.lit_0_5 && Float32.leb f Float32.lit_1_0 = true ->
     res_factor_ (set_res_factor c f) = f /\
     with_ring (with_latch (with_receiver (set_res_factor c f)
                              (cloudxr_receiver_ c))
                           (framesLatched_ c) (latched_ c))
               (pose_matrix_ c) (current_idx_ c) =
     set_res_factor c f /\
     stream_width_ (set_res_factor c f) = stream_width_ c /\
     stream_height_ (set_res_factor c f) = stream_height_ c).
Proof.
  intros Hok Hvalid.
  split; [| split].
  - assert (res_factor_ok (res_factor_ (fold_left set_res_factor factors c))
            = true) as Hkept.
    { revert c Hok. induction Hvalid as [| f fs Hf _ IH]; intros c Hok.
      - exact Hok.
      - cbn [fold_left]. apply IH. apply res_factor_ok_set; assumption. }
    destruct (res_factor_shape _ Hkept) as (mr & er & -> & Hlog & Her & Hone).
    exists mr, er. split; [reflexivity |]. split; [| exact Hone].
    apply log2_digits in Hlog; [| lia].
    assert (1 <= 2 ^ (er + 24)) by
      (pose proof (Z.pow_pos_nonneg 2 (er + 24) ltac:(lia) ltac:(lia)); lia).
    change (24 - 1) with 23 in Hlog. nia.
  - intros f Hout. unfold set_res_factor. now rewrite Hout.
  - intros f Hin. unfold set_res_factor. rewrite Hin.
    repeat split.
Qed.

Lemma res_factor_stays_in_range_witness :
  exists mr er,
    res_factor_
      (fold_left set_res_factor
         [S754_nan; Float32.lit_0_5; S754_infinity false; Float32.of_Z 2]
         (initial 4)) = S754_finite false mr er /\
    2 ^ 23 <= Zpos mr * 2 ^ (er + 24) <= 2 ^ 24.
Proof.
  apply (res_factor_stays_in_range (initial 4)
           [S754_nan; Float32.lit_0_5; S754_infinity false; Float32.of_Z 2]).
  - reflexivity.
  - repeat constructor.
Defined.

(** ** Light properties *)

Lemma get_set_v_eq (a b : cxrVector3) (n : nat) (x : float) :
  set_v a n x = Some b -> get_v b n = Some x.
Proof.
  destruct n as [| [| [| n]]]; cbn; intros H; inversion H; reflexivity.
Qed.

Lemma get_set_v_ne (a b : cxrVector3) (n k : nat) (x : float) :
  set_v a n x = Some b -> k <> n -> get_v b k = get_v a k.
Proof.
  destruct n as [| [| [| n]]]; cbn; intros H; inversion H; subst;
    destruct k as [| [| [| k]]]; cbn; intros Hk; congruence.
Qed.

Lemma set_v_defined (a : cxrVector3) (n : nat) (x : float) :
  (n < 3)%nat -> is_Some (set_v a n x).
Proof.
  destruct n as [| [| [| n]]]; cbn; intros Hn; eauto; lia.
Qed.

Lemma lookup_components (l : list cxrVector3) (n : nat) :
  flat_map components l !! n =
  match l !! (n / 3)%nat with
  | Some e => get_v e (n mod 3)%nat
  | None => None
  end.
Proof.
  revert n. induction l as [| e l IH]; intros n.
  - reflexivity.
  - destruct n as [| [| [| n]]]; try reflexivity.
    change (flat_map components (e :: l) !! S (S (S n)))
      with (flat_map components l !! n).
    replace (S (S (S n))) with (n + 1 * 3)%nat by lia.
    rewrite Nat.div_add, Nat.Div0.mod_add by lia.
    replace (n / 3 + 1)%nat with (S (n / 3)) by lia.
    apply IH.
Qed.

Section LightFacts.

Variable N : nat.
Variable sh : list float.
Hypothesis Hsh : (N * 3 <= length sh)%nat.

#[local] Abbreviation written := (written N sh).

Lemma ambient_step_written (k : nat) (lp : cxrLightProperties) :
  (k < N * 3)%nat -> written k lp ->
  exists lp', ambient_step sh lp k = Some lp' /\ written (S k) lp' /\
              primaryLightColor lp' = primaryLightColor lp /\
              primaryLightDirection lp' = primaryLightDirection lp.
Proof.
  intros Hk [Hlen Hw]. unfold ambient_step.
  destruct (lookup_lt_is_Some_2 sh k ltac:(lia)) as [x Hx]. rewrite Hx.
  assert (k / 3 < N)%nat as Hq by (apply Nat.Div0.div_lt_upper_bound; lia).
  destruct (lookup_lt_is_Some_2 (ambientLightSh lp) (k / 3)%nat
              ltac:(lia)) as [e He].
  rewrite He.
  destruct (set_v_defined e (k mod 3)%nat x
              ltac:(apply Nat.mod_upper_bound; lia)) as [e' He'].
  rewrite He'. eexists. split; [reflexivity |].
  split; [| split; reflexivity].
  split; cbn [ambientLightSh].
  - now rewrite length_insert.
  - intros n Hn. destruct (decide (n / 3 = k / 3)%nat) as [Heq | Hne].
    + rewrite Heq, list_lookup_insert_eq by lia.
      exists e'. split; [reflexivity |].
      destruct (decide (n = k)) as [-> | Hnk].
      * rewrite Hx. eapply get_set_v_eq; eassumption.
      * rewrite (get_set_v_ne e e' (k mod 3)%nat (n mod 3)%nat x He').
        -- destruct (Hw n ltac:(lia)) as (e0 & He0 & Hget).
           rewrite Heq, He in He0. now inversion He0; subst.
        -- intros Hmod. apply Hnk.
           rewrite (Nat.div_mod_eq n 3), (Nat.div_mod_eq k 3). lia.
    + rewrite list_lookup_insert_ne by lia.
      apply Hw. destruct (decide (n = k)) as [-> | Hnk]; [congruence | lia].
Qed.

Lemma ambient_loop_written (count k : nat) (lp : cxrLightProperties) :
  (k + count = N * 3)%nat -> written k lp ->
  exists lp', for_loop (ambient_step sh) k count lp = Some lp' /\
              written (N * 3) lp' /\
              primaryLightColor lp' = primaryLightColor lp /\
              primaryLightDirection lp' = primaryLightDirection lp.
Proof.
  revert k lp. induction count as [| count IH]; intros k lp Hk Hw.
  - exists lp. replace (N * 3)%nat with k by lia.
    split; [reflexivity | split; [exact Hw | split; reflexivity]].
  - destruct (ambient_step_written k lp ltac:(lia) Hw)
      as (lp1 & Hstep & Hw1 & Hc1 & Hd1).
    destruct (IH (S k) lp1 ltac:(lia) Hw1) as (lp2 & Hloop & Hw2 & Hc2 & Hd2).
    exists lp2. cbn [for_loop]. rewrite Hstep.
    repeat split; try assumption; try apply Hw2; congruence.
Qed.

Lemma written_all (lp : cxrLightProperties) :
  written (N * 3) lp ->
  flat_map components (ambientLightSh lp) = take (N * 3) sh.
Proof.
  intros [Hlen Hw]. apply list_eq. intros n.
  rewrite lookup_components.
  destruct (decide (n < N * 3)%nat) as [Hn | Hn].
  - destruct (Hw n Hn) as (e & -> & ->). now rewrite lookup_take_lt.
  - rewrite lookup_take_ge by lia.
    rewrite (lookup_ge_None_2 (ambientLightSh lp) (n / 3)%nat); [reflexivity |].
    rewrite Hlen. apply Nat.div_le_lower_bound; lia.
Qed.

End LightFacts.

Lemma primary_loop (dir int : list float) (lp : cxrLightProperties) :
  (3 <= length dir)%nat -> (3 <= length int)%nat ->
  exists lp', for_loop (primary_step dir int) 0 3 lp = Some lp' /\
              components (primaryLightColor lp') = take 3 int /\
              components (primaryLightDirection lp') = take 3 dir /\
              ambientLightSh lp' = ambientLightSh lp.
Proof.
  destruct dir as [| d0 [| d1 [| d2 dir]]]; cbn [length]; try lia.
  destruct int as [| i0 [| i1 [| i2 int]]]; cbn [length]; try lia.
  intros _ _. eexists. split; [reflexivity |]. now repeat split.
Qed.

Lemma components_inj (a b : cxrVector3) :
  components a = components b -> a = b.
Proof.
  destruct a, b. unfold components. cbn. intros H. now inversion H.
Qed.

Lemma flat_map_components_inj (l l' : list cxrVector3) :
  flat_map components l = flat_map components l' -> l = l'.
Proof.
  revert l'. induction l as [| e l IH]; intros [| e' l'] H;
    try reflexivity; try discriminate H.
  cbn [flat_map] in H. unfold components at 1 3 in H. cbn in H.
  inversion H as [[H0 H1 H2 Hrest]].
  f_equal; [| now apply IH].
  apply components_inj. unfold components. congruence.
Qed.

(** X6. Given three readable floats of direction and of intensity and
    [CXR_MAX_AMBIENT_LIGHT_SH * 3] of spherical harmonics,
    [UpdateLightProps] makes exactly one call, [cxrSendLightProperties] with
    the client's receiver handle (null or not), and the structure it sends
    holds the arguments in order: the colour is the intensity, the
    direction the direction, and the components of [ambientLightSh] read
    row by row are the harmonics.  No float of the structure is left
    uninitialised: what the local variable held before does not show. *)
Theorem UpdateLightProps_sends_arguments (CXR_MAX_AMBIENT_LIGHT_SH : nat)
  (uninitialised : cxrLightProperties)
  (primaryDirection primaryIntensity ambient_spherical_harmonics : list float)
  (c : CloudXRClient) :
  (3 <= length primaryDirection)%nat ->
  (3 <= length primaryIntensity)%nat ->
  (CXR_MAX_AMBIENT_LIGHT_SH * 3 <= length ambient_spherical_harmonics)%nat ->
  length (ambientLightSh uninitialised) = CXR_MAX_AMBIENT_LIGHT_SH ->
  exists sent,
    UpdateLightProps CXR_MAX_AMBIENT_LIGHT_SH uninitialised primaryDirection
      primaryIntensity ambient_spherical_harmonics c =
      Some [Call_cxrSendLightProperties (cloudxr_receiver_ c) sent] /\
    components (primaryLightColor sent) = take 3 primaryIntensity /\
    components (primaryLightDirection sent) = take 3 primaryDirection /\
    flat_map components (ambientLightSh sent) =
      take (CXR_MAX_AMBIENT_LIGHT_SH * 3) ambient_spherical_harmonics /\
    forall other,
      length (ambientLightSh other) = CXR_MAX_AMBIENT_LIGHT_SH ->
      UpdateLightProps CXR_MAX_AMBIENT_LIGHT_SH other primaryDirection
        primaryIntensity ambient_spherical_harmonics c =
      Some [Call_cxrSendLightProperties (cloudxr_receiver_ c) sent].
Proof.
  intros Hdir Hint Hsh Hjunk.
  assert (forall junk,
            length (ambientLightSh junk) = CXR_MAX_AMBIENT_LIGHT_SH ->
            exists sent,
              UpdateLightProps CXR_MAX_AMBIENT_LIGHT_SH junk primaryDirection
                primaryIntensity ambient_spherical_harmonics c =
                Some [Call_cxrSendLightProperties (cloudxr_receiver_ c) sent]
              /\ components (primaryLightColor sent) = take 3 primaryIntensity
              /\ components (primaryLightDirection sent) =
                   take 3 primaryDirection
              /\ flat_map components (ambientLightSh sent) =
                   take (CXR_MAX_AMBIENT_LIGHT_SH * 3)
                        ambient_spherical_harmonics) as Hrun.
  { intros junk Hlen.
    destruct (primary_loop primaryDirection primaryIntensity junk Hdir Hint)
      as (lp1 & Hloop1 & Hc & Hd & Ha).
    destruct (ambient_loop_written CXR_MAX_AMBIENT_LIGHT_SH
                ambient_spherical_harmonics Hsh
                (CXR_MAX_AMBIENT_LIGHT_SH * 3) 0 lp1 ltac:(lia))
      as (lp2 & Hloop2 & Hw & Hc2 & Hd2).
    { split; [cbn; congruence | intros n Hn; lia]. }
    exists lp2. unfold UpdateLightProps. rewrite Hloop1, Hloop2.
    split; [reflexivity |]. rewrite Hc2, Hd2.
    repeat split; try assumption.
    now apply written_all. }
  destruct (Hrun uninitialised Hjunk) as (sent & Hsent & Hc & Hd & Ha).
  exists sent. repeat split; try assumption.
  intros other Hother.
  destruct (Hrun other Hother) as (sent' & Hsent' & Hc' & Hd' & Ha').
  rewrite Hsent'. do 3 f_equal.
  destruct sent as [c1 d1 a1], sent' as [c2 d2 a2]. cbn in *.
  f_equal.
  - apply components_inj. congruence.
  - apply components_inj. congruence.
  - apply flat_map_components_inj. congruence.
Qed.

Lemma UpdateLightProps_sends_arguments_witness :
  let o := Float32.zero in
  let f := Float32.of_Z in
  exists sent,
    UpdateLightProps 2
      (CxrLightProperties (CxrVector3 (f 9) (f 9) (f 9))
         (CxrVector3 (f 9) (f 9) (f 9))
         [CxrVector3 (f 9) (f 9) (f 9); CxrVector3 (f 9) (f 9) (f 9)])
      [f 1; f 2; f 3] [f 4; f 5; f 6] [f 10; f 11; f 12; f 13; f 14; f 15]
      (initial 4) =
      Some [Call_cxrSendLightProperties None sent] /\
    ambientLightSh sent =
      [CxrVector3 (f 10) (f 11) (f 12); CxrVector3 (f 13) (f 14) (f 15)].
Proof.
  intros o f.
  destruct (UpdateLightProps_sends_arguments 2
    (CxrLightProperties (CxrVector3 (f 9) (f 9) (f 9))
       (CxrVector3 (f 9) (f 9) (f 9))
       [CxrVector3 (f 9) (f 9) (f 9); CxrVector3 (f 9) (f 9) (f 9)])
    [f 1; f 2; f 3] [f 4; f 5; f 6] [f 10; f 11; f 12; f 13; f 14; f 15]
    (initial 4)) as (sent & Hsent & _ & _ & Ha & _);
    [cbn; lia | cbn; lia | cbn; lia | reflexivity |].
  exists sent. split; [exact Hsent |].
  apply flat_map_components_inj. exact Ha.
Defined.

(** ** Statistics *)

Section StatsFacts.

Variables Bad Poor Fair Good Excellent : Z.
Variables EstimatingQuality HighLatency LowBandwidth HighPacketLoss : Z.

#[local] Abbreviation Stats :=
  (Stats Bad Poor Fair Good Excellent EstimatingQuality HighLatency
         LowBandwidth HighPacketLoss).
#[local] Abbreviation Stats_frames :=
  (Stats_frames Bad Poor Fair Good Excellent EstimatingQuality HighLatency
                LowBandwidth HighPacketLoss).

Lemma int_result_in_range (n : Z) :
  INT_MIN <= n <= INT_MAX -> int_result n = Some n.
Proof.
  intros Hn. unfold int_result.
  destruct (Z.leb_spec INT_MIN n), (Z.leb_spec n INT_MAX); try lia.
  reflexivity.
Qed.

Lemma with_stats_with_stats (s : ClientState) (st st' : cxrConnectionStats)
  (n n' : Z) :
  with_stats (with_stats s st n) st' n' = with_stats s st' n'.
Proof. reflexivity. Qed.

Lemma last_cons_default {A : Type} (x d : A) (l : list A) :
  List.last (x :: l) d = List.last l x.
Proof.
  revert x d. induction l as [| y l IH]; intros x d; [reflexivity |].
  change (List.last (x :: y :: l) d) with (List.last (y :: l) d).
  rewrite IH. symmetry. apply IH.
Qed.

Lemma Stats_not_due (answer : cxrError * cxrConnectionStats)
  (s : ClientState) :
  1 < frames_until_stats_ s <= INT_MAX ->
  Stats answer s = Some (with_stats s (stats_ s) (frames_until_stats_ s - 1), []).
Proof.
  intros Hf. unfold Stats.
  rewrite int_result_in_range by (unfold INT_MIN, INT_MAX in *; lia).
  destruct (Z.leb_spec (frames_until_stats_ s - 1) 0); [lia | reflexivity].
Qed.

Lemma Stats_frames_app (xs ys : list (cxrError * cxrConnectionStats))
  (s s1 : ClientState) (calls : list client_call) :
  Stats_frames xs s = Some (s1, calls) ->
  Stats_frames (xs ++ ys) s =
  match Stats_frames ys s1 with
  | Some (s2, calls') => Some (s2, calls ++ calls')
  | None => None
  end.
Proof.
  revert s s1 calls. induction xs as [| x xs IH]; intros s s1 calls H.
  - cbn in H. inversion H; subst. cbn [app Stats_frames].
    destruct (Stats_frames ys s1) as [[s2 calls'] |]; reflexivity.
  - cbn [app Stats_frames] in *.
    destruct (Stats x s) as [[sa ca] |]; [| discriminate H].
    destruct (Stats_frames xs sa) as [[sb cb] |] eqn:Hxs; [| discriminate H].
    inversion H; subst.
    rewrite (IH _ _ _ Hxs).
    destruct (Stats_frames ys s1) as [[s2 calls'] |]; [| reflexivity].
    now rewrite app_assoc.
Qed.

Lemma Stats_frames_not_due (answers : list (cxrError * cxrConnectionStats))
  (s : ClientState) :
  Z.of_nat (length answers) < frames_until_stats_ s <= INT_MAX ->
  Stats_frames answers s =
  Some (with_stats s (stats_ s)
          (frames_until_stats_ s - Z.of_nat (length answers)), []).
Proof.
  revert s. induction answers as [| a answers IH]; intros s Hf.
  - cbn [Stats_frames length Z.of_nat]. rewrite Z.sub_0_r.
    now destruct s.
  - cbn [Stats_frames]. cbn [length] in Hf. rewrite Stats_not_due by lia.
    rewrite IH by (cbn; lia). cbn.
    do 3 f_equal. lia.
Qed.

(** X7. Counting down from [frames_until_stats_ = f >= 1] (60 in a new
    client), the first [f - 1] calls of [Stats] neither query the SDK nor
    log, whatever the SDK would have answered; the call after them queries,
    and if the query succeeds it logs one line and restarts the countdown at
    three times the frame rate truncated to an [int].  Nothing else in the
    client changes. *)
Theorem Stats_report_after_countdown (s : ClientState)
  (quiet : list (cxrError * cxrConnectionStats)) (st : cxrConnectionStats)
  (n : Z) :
  1 <= frames_until_stats_ s <= INT_MAX ->
  Z.of_nat (length quiet) = frames_until_stats_ s - 1 ->
  float_to_int (framesPerSecond st) = Some n ->
  INT_MIN <= n * 3 <= INT_MAX ->
  Stats_frames quiet s = Some (with_stats s (stats_ s) 1, []) /\
  Stats_frames (quiet ++ [(cxrError_Success, st)]) s =
  Some (with_stats s st (n * 3),
        [Call_cxrGetConnectionStats (cloudxr_receiver_ (members s));
         Log_stats
           (StatsLine (framesPerSecond st) (bandwidthUtilizationKbps st)
              (roundTripDelayMs st)
              (qualityString Bad Poor Fair Good Excellent st)
              (reasonString Fair EstimatingQuality HighLatency LowBandwidth
                 HighPacketLoss st))]).
Proof.
  intros Hf Hlen Hfps Hn.
  assert (Stats_frames quiet s = Some (with_stats s (stats_ s) 1, []))
    as Hquiet.
  { rewrite Stats_frames_not_due by lia. do 3 f_equal. lia. }
  split; [exact Hquiet |].
  rewrite (Stats_frames_app _ _ _ _ _ Hquiet).
  cbn [Stats_frames]. unfold Stats.
  cbn [frames_until_stats_ with_stats].
  change (int_result (1 - 1)) with (Some 0).
  cbn [Z.leb Z.compare]. rewrite Hfps.
  unfold STATS_INTERVAL_SEC. rewrite int_result_in_range by exact Hn.
  reflexivity.
Qed.

(** X8. Once the countdown has run out ([frames_until_stats_ <= 1]),
    every call of [Stats] whose query fails queries again on the next call:
    [k] failing calls make [k] queries, log nothing, keep in [stats_] what
    the last query left there and leave the counter [k] lower. *)
Theorem Stats_failed_query_retried (s : ClientState)
  (failing : list (cxrError * cxrConnectionStats)) :
  frames_until_stats_ s <= 1 ->
  INT_MIN <= frames_until_stats_ s - Z.of_nat (length failing) ->
  Forall (fun answer => fst answer <> cxrError_Success) failing ->
  Stats_frames failing s =
  Some (with_stats s (List.last (map snd failing) (stats_ s))
          (frames_until_stats_ s - Z.of_nat (length failing)),
        replicate (length failing)
          (Call_cxrGetConnectionStats (cloudxr_receiver_ (members s)))).
Proof.
  intros Hdue Hmin Hfail. revert s Hdue Hmin.
  induction failing as [| [status st] failing IH]; intros s Hdue Hmin.
  - cbn [Stats_frames length map List.last replicate Z.of_nat].
    rewrite Z.sub_0_r. now destruct s.
  - apply Forall_cons in Hfail as [Hstatus Hfail].
    specialize (IH Hfail).
    cbn [length] in Hmin. cbn [fst] in Hstatus.
    cbn [Stats_frames]. unfold Stats at 1.
    rewrite int_result_in_range by (unfold INT_MIN, INT_MAX in *; lia).
    destruct (Z.leb_spec (frames_until_stats_ s - 1) 0) as [_ | ?]; [| lia].
    assert (forall s1,
              match status with
              | cxrError_Success =>
                  let* n := float_to_int (framesPerSecond st) in
                  let* frames := int_result (n * STATS_INTERVAL_SEC) in
                  Some (with_stats s1 st frames,
                        [Call_cxrGetConnectionStats
                           (cloudxr_receiver_ (members s));
                         Log_stats
                           (StatsLine (framesPerSecond st)
                              (bandwidthUtilizationKbps st)
                              (roundTripDelayMs st)
                              (qualityString Bad Poor Fair Good Excellent st)
                              (reasonString Fair EstimatingQuality HighLatency
                                 LowBandwidth HighPacketLoss st))])
              | _ => Some (s1, [Call_cxrGetConnectionStats
                                  (cloudxr_receiver_ (members s))])
              end =
              Some (s1, [Call_cxrGetConnectionStats
                           (cloudxr_receiver_ (members s))])) as Hq
      by (intros s1; destruct status; congruence).
    cbn [with_stats members]. rewrite Hq.
    rewrite IH by (cbn; lia).
    cbn [with_stats members stats_ frames_until_stats_ length map replicate
         app].
    do 2 f_equal.
    + f_equal.
      * symmetry. apply last_cons_default.
      * lia.
Qed.

(** X9. When the five quality levels are numbered in increasing order,
    the quality bar is a run of [#] followed by a run of [_], five
    characters in all; it is full only for the quality [Excellent] (a
    value above it shows four), and a reason is printed only under a bar of
    at most three. *)
Theorem qualityString_is_a_bar (st : cxrConnectionStats) :
  Bad < Poor < Fair -> Fair < Good < Excellent ->
  exists k : nat,
    (k <= 5)%nat /\
    qualityString Bad Poor Fair Good Excellent st =
      replicate k "#"%char ++ replicate (5 - k) "_"%char /\
    (k = 5%nat <-> quality st = Excellent) /\
    (Good <= quality st -> (4 <= k)%nat) /\
    (reasonString Fair EstimatingQuality HighLatency LowBandwidth
       HighPacketLoss st <> Reason_none -> (k <= 3)%nat).
Proof.
  intros H1 H2. unfold qualityString, reasonString.
  destruct (Z.leb_spec Bad (quality st)), (Z.leb_spec Poor (quality st)),
    (Z.leb_spec Fair (quality st)), (Z.leb_spec Good (quality st)),
    (Z.eqb_spec (quality st) Excellent),
    (Z.leb_spec (quality st) Fair); try lia;
    [exists 5%nat | exists 4%nat | exists 3%nat | exists 3%nat | exists 2%nat
     | exists 1%nat | exists 0%nat];
    (split; [lia |]); (split; [reflexivity |]);
    (split; [split; (lia || discriminate) |]);
    (split; [intros; lia |]); intros Hr; (lia || congruence).
Qed.

End StatsFacts.

Lemma Stats_report_after_countdown_witness :
  let st := CxrConnectionStats (Float32.of_Z 30) 5000 9000 12 4 0 0 100 in
  exists line,
    Stats_frames 1 2 3 4 5 1 2 4 8
      (replicate 59 (cxrError_Frame_Not_Ready, cxrConnectionStats_zero)
       ++ [(cxrError_Success, st)])
      (initial_state 4 true true) =
    Some (with_stats (initial_state 4 true true) st 90,
          [Call_cxrGetConnectionStats None; Log_stats line]).
Proof.
  intros st. eexists.
  refine (proj2 (Stats_report_after_countdown 1 2 3 4 5 1 2 4 8
                   (initial_state 4 true true)
                   (replicate 59
                      (cxrError_Frame_Not_Ready, cxrConnectionStats_zero))
                   st 30 _ _ _ _)).
  - cbn. unfold INT_MAX. lia.
  - reflexivity.
  - reflexivity.
  - unfold INT_MIN, INT_MAX. lia.
Defined.

Lemma Stats_failed_query_retried_witness :
  Stats_frames 1 2 3 4 5 1 2 4 8
    (replicate 3 (cxrError_Frame_Not_Ready, cxrConnectionStats_zero))
    (with_stats (initial_state 4 true true) cxrConnectionStats_zero 1) =
  Some (with_stats (initial_state 4 true true) cxrConnectionStats_zero (-2),
        replicate 3 (Call_cxrGetConnectionStats None)).
Proof.
  apply (Stats_failed_query_retried 1 2 3 4 5 1 2 4 8
           (with_stats (initial_state 4 true true) cxrConnectionStats_zero 1)
           (replicate 3 (cxrError_Frame_Not_Ready, cxrConnectionStats_zero))).
  - cbn. lia.
  - cbn. unfold INT_MIN. lia.
  - repeat constructor; discriminate.
Defined.

Lemma qualityString_is_a_bar_witness :
  exists k : nat,
    qualityString 1 2 3 4 5 (CxrConnectionStats Float32.zero 0 0 0 3 0 0 0) =
    replicate k "#"%char ++ replicate (5 - k) "_"%char.
Proof.
  destruct (qualityString_is_a_bar 1 2 3 4 5 1 2 4 8
              (CxrConnectionStats Float32.zero 0 0 0 3 0 0 0))
    as (k & _ & Hbar & _); [lia | lia |].
  exists k. exact Hbar.
Defined.

(** ** Connecting and tearing down *)

(** X10. [Teardown] closes each open stream and destroys the receiver, once
    each, and leaves every other member as it was, the latch flag included.
    Afterwards the client is inert: a second [Teardown] makes no call,
    [RenderAudio] refuses, [onAudioReady] stops the stream, [HandleTouch]
    and [Render] make no call, and [Latch] calls nothing, reporting
    [cxrError_Receiver_Not_Running] unless a frame was still latched.  Only
    [Release] still reaches the SDK in that case, with a null handle. *)
Theorem Teardown_leaves_client_inert
  (cxrLatchFrame :
     list sdk_call -> cxrReceiverHandle -> cxrFramesLatched ->
     cxrError * cxrFramesLatched)
  (cxrReleaseFrame :
     list sdk_call -> option cxrReceiverHandle -> cxrFramesLatched ->
     cxrFramesLatched)
  (s : ClientState) (log : list sdk_call) :
  let s' := fst (Teardown s) in
  let c' := members s' in
  s' = with_recording_stream
         (with_playback_stream
            (with_members s (with_receiver (members s) None)) None) None /\
  snd (Teardown s) =
    close_stream (playback_stream_ s) ++ close_stream (recording_stream_ s)
    ++ match cloudxr_receiver_ (members s) with
       | Some receiver => [Call_cxrDestroyReceiver receiver]
       | None => []
       end /\
  Teardown s' = (s', []) /\
  (forall exiting_ numFrames timeout_ns,
     RenderAudio exiting_ numFrames timeout_ns s' = (false, [])) /\
  (forall exiting_ streamSizeBytes,
     onAudioReady exiting_ streamSizeBytes s' = (Stop, [])) /\
  (forall x y, HandleTouch x y c' = []) /\
  Render c' = [] /\
  Latch cxrLatchFrame (MkSession c' log) =
    (if latched_ (members s) then cxrError_Success
     else cxrError_Receiver_Not_Running, MkSession c' log) /\
  Release cxrReleaseFrame (MkSession c' log) =
    if latched_ (members s)
    then MkSession
           (with_latch c' (cxrReleaseFrame log None (framesLatched_ c')) false)
           (log ++ [Call_cxrReleaseFrame None])
    else MkSession c' log.
Proof.
  destruct s as [c ra sa el d f rec play st n].
  destruct c as [receiver rf sw sh fl latched ring cur].
  unfold Teardown. cbn.
  destruct receiver as [receiver |], latched; cbn;
    repeat split; try reflexivity; now rewrite app_nil_r.
Qed.

Section ConnectFacts.

Variable cxrDeliveryType_Mono_RGBA : Z.
Variable o : ConnectOutcomes.
Hypothesis Hanswers : audio_answers_ok o.

#[local] Abbreviation GetDeviceDesc := (GetDeviceDesc cxrDeliveryType_Mono_RGBA).
#[local] Abbreviation Connect := (Connect cxrDeliveryType_Mono_RGBA o).

Lemma setup_playback_spec (d : cxrDeviceDesc) (s : ClientState) :
  exists calls,
    setup_playback o d s =
      Some (after_playback o d s, calls) /\
    Forall (fun call => is_audio_call call = true) calls /\
    (receiveAudio d = true -> playback_ok o = false ->
     forall a, snd (playback_opened o) = Some a -> In (Call_close a) calls) /\
    (receiveAudio d = true -> playback_ok o = true ->
     exists a, snd (playback_opened o) = Some a /\ In (Call_start a) calls /\
               ~ In (Call_close a) calls).
Proof.
  destruct Hanswers as [Hplay _].
  unfold setup_playback, start_playback, after_playback, playback_ok.
  destruct (receiveAudio d).
  2: { exists []. repeat split; (constructor || discriminate). }
  destruct (playback_opened o) as [r stream] eqn:Hopen. cbn [fst snd] in *.
  destruct r as [| code]; cbn [is_OK negb andb].
  - destruct (Hplay eq_refl) as [[a ->] Hburst].
    rewrite int_result_in_range by exact Hburst.
    destruct (playback_buffer_set o); cbn [is_OK negb andb].
    + destruct (playback_started o); cbn [is_OK negb andb].
      * eexists. split; [reflexivity |]. split; [repeat constructor |].
        split; [discriminate |]. intros _ _. exists a.
        split; [reflexivity |]. cbn. split; [tauto |].
        intros [H | [H | [H | []]]]; discriminate H.
      * eexists. split; [reflexivity |]. split; [repeat constructor |].
        split; [| discriminate]. intros _ _ ? [= <-]. cbn. tauto.
    + eexists. split; [reflexivity |]. split; [repeat constructor |].
      split; [| discriminate]. intros _ _ ? [= <-]. cbn. tauto.
  - eexists. split; [reflexivity |].
    split; [destruct stream; repeat constructor |].
    split; [| discriminate]. intros _ _ ? ->. cbn. tauto.
Qed.

Lemma setup_recording_spec (d : cxrDeviceDesc) (s : ClientState) :
  exists calls,
    setup_recording o d s =
      Some (after_recording o d s, calls) /\
    Forall (fun call => is_audio_call call = true) calls /\
    (sendAudio d = true -> recording_ok o = false ->
     forall a, snd (recording_opened o) = Some a -> In (Call_close a) calls) /\
    (sendAudio d = true -> recording_ok o = true ->
     exists a, snd (recording_opened o) = Some a /\ In (Call_start a) calls /\
               ~ In (Call_close a) calls).
Proof.
  destruct Hanswers as [_ Hrec].
  unfold setup_recording, start_recording, after_recording, recording_ok.
  destruct (sendAudio d).
  2: { exists []. repeat split; (constructor || discriminate). }
  destruct (recording_opened o) as [r stream] eqn:Hopen. cbn [fst snd] in *.
  destruct r as [| code]; cbn [is_OK negb andb].
  - destruct (Hrec eq_refl) as [a ->].
    destruct (recording_started o); cbn [is_OK negb andb].
    + eexists. split; [reflexivity |]. split; [repeat constructor |].
      split; [discriminate |]. intros _ _. exists a.
      split; [reflexivity |]. cbn. split; [tauto |].
      intros [H | [H | []]]; discriminate H.
    + eexists. split; [reflexivity |]. split; [repeat constructor |].
      split; [| discriminate]. intros _ _ ? [= <-]. cbn. tauto.
  - eexists. split; [reflexivity |].
    split; [destruct stream; repeat constructor |].
    split; [| discriminate]. intros _ _ ? ->. cbn. tauto.
Qed.

Lemma Connect_shape (s : ClientState) :
  cloudxr_receiver_ (members s) = None ->
  let p1 := after_playback o (snd (GetDeviceDesc s)) (fst (GetDeviceDesc s)) in
  let p2 := after_recording o (fst p1) (snd p1) in
  let s3 :=
    with_members (snd p2)
      (with_receiver (members (snd p2)) (snd (receiver_created o))) in
  exists calls1 calls2,
    let calls :=
      calls1 ++ calls2 ++ [Call_cxrCreateReceiver (fst p2)] in
    Connect s =
      Some (match fst (receiver_created o) with
            | cxrError_Success =>
                match connected o with
                | cxrError_Success =>
                    (cxrError_Success, s3,
                     calls ++ [Call_cxrConnect (snd (receiver_created o))])
                | err =>
                    (err, fst (Teardown s3),
                     (calls ++ [Call_cxrConnect (snd (receiver_created o))])
                     ++ snd (Teardown s3))
                end
            | err => (err, s3, calls)
            end) /\
    Forall (fun call => is_audio_call call = true) (calls1 ++ calls2) /\
    (mReceiveAudio s = true -> playback_ok o = false ->
     forall a, snd (playback_opened o) = Some a -> In (Call_close a) calls1) /\
    (mReceiveAudio s = true -> playback_ok o = true ->
     exists a, snd (playback_opened o) = Some a /\ In (Call_start a) calls1
               /\ ~ In (Call_close a) calls1) /\
    (mSendAudio s = true -> recording_ok o = false ->
     forall a, snd (recording_opened o) = Some a -> In (Call_close a) calls2) /\
    (mSendAudio s = true -> recording_ok o = true ->
     exists a, snd (recording_opened o) = Some a /\ In (Call_start a) calls2
               /\ ~ In (Call_close a) calls2).
Proof.
  intros Hnone p1 p2 s3.
  destruct (setup_playback_spec (snd (GetDeviceDesc s)) (fst (GetDeviceDesc s)))
    as (calls1 & Hp & Ha1 & Hclose1 & Hstart1).
  destruct (setup_recording_spec (fst p1) (snd p1))
    as (calls2 & Hr & Ha2 & Hclose2 & Hstart2).
  exists calls1, calls2. cbv zeta.
  split; [| split; [now apply Forall_app | split; [| split; [| split]]]].
  - unfold Connect. rewrite Hnone.
    destruct (GetDeviceDesc s) as [s0 d0] eqn:Hdesc. cbn [fst snd] in *.
    rewrite Hp. fold p1. destruct p1 as [d1 s1] eqn:Hp1.
    cbn [fst snd] in *. rewrite Hr. fold p2. destruct p2 as [d2 s2] eqn:Hp2.
    cbn [fst snd] in *. subst s3.
    destruct (receiver_created o) as [err receiver]. cbn [fst snd].
    destruct err; try reflexivity.
    destruct (connected o); try reflexivity;
      destruct (Teardown _); reflexivity.
  - exact Hclose1.
  - exact Hstart1.
  - assert (sendAudio (fst p1) = mSendAudio s) as Hsend.
    { subst p1. unfold after_playback. cbn.
      destruct (mReceiveAudio s), (playback_ok o); reflexivity. }
    rewrite <- Hsend. exact Hclose2.
  - assert (sendAudio (fst p1) = mSendAudio s) as Hsend.
    { subst p1. unfold after_playback. cbn.
      destruct (mReceiveAudio s), (playback_ok o); reflexivity. }
    rewrite <- Hsend. exact Hstart2.
Qed.

End ConnectFacts.

Lemma Teardown_result (s : ClientState) :
  Teardown s =
  (with_recording_stream
     (with_playback_stream
        (with_members s (with_receiver (members s) None)) None) None,
   close_stream (playback_stream_ s) ++ close_stream (recording_stream_ s)
   ++ match cloudxr_receiver_ (members s) with
      | Some receiver => [Call_cxrDestroyReceiver receiver]
      | None => []
      end).
Proof.
  destruct s as [c ra sa el d f rec play st n].
  destruct c as [receiver rf sw sh fl latched ring cur].
  unfold Teardown. cbn.
  destruct receiver; cbn; [reflexivity | now rewrite app_nil_r].
Qed.


Lemma audio_answers_ok_connect_failing : audio_answers_ok connect_failing.
Proof.
  split; cbn; [intros _; split; [eauto | unfold INT_MIN, INT_MAX; lia] |].
  discriminate.
Qed.






(** ** Touches *)

(** X13. [OnTouched] aborts in one case only: an uncalibrated short press
    with a session and a frame for which no list of hit results is created.
    Whenever it returns, it has changed nothing but [anchor_] and
    [base_frame_calibrated_], and never sets the latter: afterwards the
    application is calibrated exactly when it was and the press was not a
    long one.  A touch is sent to the server exactly when the application
    is calibrated, the press is short and the client is running, and then
    nothing else happens; a long press always drops the anchor, releasing it
    once if there was one, and sends nothing; and without a session or a
    frame an uncalibrated short press does nothing at all. *)
Theorem OnTouched_dispatch (x y : float) (longPress : bool)
  (hit_result_list : option (list hit_result)) (app : HelloArApplication) :
  (OnTouched x y longPress hit_result_list app = None <->
   base_frame_calibrated_ app = false /\ longPress = false /\
   ar_frame_ app && ar_session_ app = true /\ hit_result_list = None) /\
  forall app' calls,
    OnTouched x y longPress hit_result_list app = Some (app', calls) ->
    app' = with_calibration app (base_frame_calibrated_ app && negb longPress)
             (base_frame_ app) (anchor_ app') /\
    (forall receiver x' y',
       In (Call_client (Call_cxrSendInputEvent receiver x' y')) calls <->
       base_frame_calibrated_ app = true /\ longPress = false /\
       cloudxr_receiver_ (members (cloudxr_client_ app)) = Some receiver /\
       x' = x /\ y' = y) /\
    (base_frame_calibrated_ app = true -> longPress = false ->
     anchor_ app' = anchor_ app /\
     calls =
       map Call_client (HandleTouch x y (members (cloudxr_client_ app)))) /\
    (longPress = true ->
     anchor_ app' = None /\
     calls = match anchor_ app with
             | Some a => [Call_ArAnchor_release (Some a)]
             | None => []
             end) /\
    (base_frame_calibrated_ app = false -> longPress = false ->
     ar_frame_ app && ar_session_ app = false ->
     app' = app /\ calls = []).
Proof.
  destruct app as [ex ses fr uia udb cal bf an im pc dr dw dh cl lc].
  unfold OnTouched, HandleTouch, IsRunning.
  cbn [base_frame_calibrated_ anchor_ ar_frame_ ar_session_ cloudxr_client_
       base_frame_].
  destruct cal, longPress; cbn [andb negb];
    try destruct (cloudxr_receiver_ (members cl)) as [receiver |] eqn:Hr;
    try destruct (fr && ses) eqn:Hfs;
    try destruct hit_result_list as [hits |];
    try destruct (choose_hit hits) as [| | hit h];
    try destruct (hit_new_anchor h) as [[| code] anchor];
    try destruct (hit_anchor_tracking_state h);
    try destruct an as [a |];
    (split;
     [split;
      [intros H; first [discriminate H | now repeat split]
      | intros (H1 & H2 & H3 & H4);
        first [discriminate H1 | discriminate H2 | discriminate H3
              | discriminate H4 | reflexivity]]
     | intros app' calls H; try discriminate H;
       injection H as <- <-;
       cbn [fst snd map app with_calibration base_frame_calibrated_ anchor_
            base_frame_];
       (split; [reflexivity |]);
       (split;
        [intros r x' y'; split;
         [intros Hin; cbn in Hin;
          repeat (destruct Hin as [Hin | Hin];
                  [try discriminate Hin; inversion Hin; subst; tauto |]);
          destruct Hin
         | intros (H1 & H2 & H3 & H4 & H5); try discriminate H1;
           try discriminate H2; try discriminate H3;
           inversion H3; subst; now left] |]);
       repeat split; intros; try discriminate; try reflexivity]).
Qed.

Lemma choose_hit_skip (pre rest : list hit_result) :
  Forall hit_skipped pre -> choose_hit (pre ++ rest) = choose_hit rest.
Proof.
  induction 1 as [| h pre [[hit Hhit] Hacc] _ IH]; [reflexivity |].
  cbn [app choose_hit]. rewrite Hhit. unfold hit_accepted in Hacc.
  destruct (ar_trackable_type h); try exact IH.
  - destruct (in_polygon h =? 0); cbn in Hacc |- *; [exact IH |].
    destruct (SFltb _ _); [exact IH | discriminate Hacc].
  - now rewrite Hacc.
Qed.

Lemma choose_hit_accepted (hit : ArHitResult) (h : hit_result)
  (post : list hit_result) :
  ar_hit h = Some hit -> hit_accepted h = true ->
  choose_hit (h :: post) = Hit_chosen hit h.
Proof.
  intros Hhit Hacc. cbn [choose_hit]. rewrite Hhit.
  unfold hit_accepted in Hacc.
  destruct (ar_trackable_type h); try discriminate Hacc.
  - destruct (in_polygon h =? 0); cbn in Hacc |- *; [discriminate Hacc |].
    destruct (SFltb _ _); [discriminate Hacc | reflexivity].
  - now rewrite Hacc.
Qed.

(** X14. A short press on an uncalibrated application with a session and a
    frame aborts if no list of hit results is created; otherwise it returns
    and takes its anchor from the first hit, in the order of the hit
    test, that is a plane hit inside the polygon and not from behind (a NaN
    distance counts as not from behind) or a point with an estimated
    surface normal.  If the new anchor is acquired and tracking, it replaces
    [anchor_] and the old anchor, if any, is released; if it is acquired
    but not tracking it is released and [anchor_] stays; if acquiring fails
    nothing changes.  Without an accepted hit, or when a hit result is null
    before one, nothing is acquired, released or changed. *)
Theorem OnTouched_anchor_from_first_accepted_hit (x y : float)
  (hits : list hit_result) (app : HelloArApplication) :
  base_frame_calibrated_ app = false ->
  ar_frame_ app = true -> ar_session_ app = true ->
  OnTouched x y false None app = None /\
  exists app' calls,
    OnTouched x y false (Some hits) app = Some (app', calls) /\
    (forall pre h post hit,
       hits = pre ++ h :: post -> Forall hit_skipped pre ->
       ar_hit h = Some hit -> hit_accepted h = true ->
       match fst (hit_new_anchor h), hit_anchor_tracking_state h with
       | AR_SUCCESS, AR_TRACKING_STATE_TRACKING =>
           app' = with_calibration app false (base_frame_ app)
                    (snd (hit_new_anchor h)) /\
           calls = Call_ArHitResult_acquireNewAnchor hit ::
                   match anchor_ app with
                   | Some a => [Call_ArAnchor_release (Some a)]
                   | None => []
                   end
       | AR_SUCCESS, _ =>
           app' = app /\
           calls = [Call_ArHitResult_acquireNewAnchor hit;
                    Call_ArAnchor_release (snd (hit_new_anchor h))]
       | AR_ERROR _, _ =>
           app' = app /\ calls = [Call_ArHitResult_acquireNewAnchor hit]
       end) /\
    (Forall hit_skipped hits -> app' = app /\ calls = []) /\
    (forall pre h post,
       hits = pre ++ h :: post -> Forall hit_skipped pre ->
       ar_hit h = None ->
       app' = app /\ calls = []) /\
    (forall h,
       ar_trackable_type h = AR_TRACKABLE_PLANE -> in_polygon h <> 0 ->
       normal_distance_to_plane h = S754_nan -> hit_accepted h = true).
Proof.
  intros Hcal Hfr Hses.
  assert (exists r, OnTouched x y false (Some hits) app = Some r /\
            r = match choose_hit hits with
                | Hit_chosen hit h =>
                    match fst (hit_new_anchor h),
                          hit_anchor_tracking_state h with
                    | AR_SUCCESS, AR_TRACKING_STATE_TRACKING =>
                        (with_calibration app false (base_frame_ app)
                           (snd (hit_new_anchor h)),
                         Call_ArHitResult_acquireNewAnchor hit ::
                         match anchor_ app with
                         | Some a => [Call_ArAnchor_release (Some a)]
                         | None => []
                         end)
                    | AR_SUCCESS, _ =>
                        (app, [Call_ArHitResult_acquireNewAnchor hit;
                               Call_ArAnchor_release
                                 (snd (hit_new_anchor h))])
                    | AR_ERROR _, _ =>
                        (app, [Call_ArHitResult_acquireNewAnchor hit])
                    end
                | _ => (app, [])
                end) as ([app' calls] & Hrun & Hres).
  { unfold OnTouched. rewrite Hcal, Hfr, Hses. cbn [andb negb].
    destruct (choose_hit hits) as [| | hit h]; [eauto | eauto |].
    destruct (hit_new_anchor h) as [[| code] anchor]; cbn [fst snd];
      [| eauto].
    destruct (hit_anchor_tracking_state h); cbn [Datatypes.app]; eauto. }
  split.
  { unfold OnTouched. rewrite Hcal, Hfr, Hses. reflexivity. }
  exists app', calls. split; [exact Hrun |]. clear Hrun.
  split; [| split; [| split]].
  - intros pre h post hit -> Hpre Hhit Hacc.
    rewrite (choose_hit_skip _ _ Hpre), (choose_hit_accepted _ _ _ Hhit Hacc)
      in Hres.
    destruct (hit_new_anchor h) as [[| code] anchor]; cbn [fst snd] in *.
    + destruct (hit_anchor_tracking_state h); inversion Hres;
        split; reflexivity.
    + inversion Hres. split; reflexivity.
  - intros Hall.
    rewrite <- (app_nil_r hits), (choose_hit_skip _ _ Hall) in Hres.
    inversion Hres. split; reflexivity.
  - intros pre h post -> Hpre Hnull.
    rewrite (choose_hit_skip _ _ Hpre) in Hres. cbn [choose_hit] in Hres.
    rewrite Hnull in Hres. inversion Hres. split; reflexivity.
  - intros h Htype Hin Hnan. unfold hit_accepted. rewrite Htype, Hnan.
    destruct (Z.eqb_spec (in_polygon h) 0); [contradiction | reflexivity].
Qed.

Lemma OnTouched_anchor_from_first_accepted_hit_witness :
  OnTouched Float32.zero Float32.zero false
    (Some [plane_hit 1 0 1 11 AR_TRACKING_STATE_TRACKING;
           plane_hit 2 1 (-1) 12 AR_TRACKING_STATE_TRACKING;
           plane_hit 3 1 2 13 AR_TRACKING_STATE_TRACKING;
           plane_hit 4 1 1 14 AR_TRACKING_STATE_TRACKING])
    (with_calibration (app_initial 4) false (translation 0 0 0) (Some 10)) =
  Some
    (with_calibration (app_initial 4) false (translation 0 0 0) (Some 13),
     [Call_ArHitResult_acquireNewAnchor 3; Call_ArAnchor_release (Some 10)]).
Proof.
  destruct (OnTouched_anchor_from_first_accepted_hit Float32.zero Float32.zero
              [plane_hit 1 0 1 11 AR_TRACKING_STATE_TRACKING;
               plane_hit 2 1 (-1) 12 AR_TRACKING_STATE_TRACKING;
               plane_hit 3 1 2 13 AR_TRACKING_STATE_TRACKING;
               plane_hit 4 1 1 14 AR_TRACKING_STATE_TRACKING]
              (with_calibration (app_initial 4) false (translation 0 0 0)
                 (Some 10)) eq_refl eq_refl eq_refl)
    as (_ & app' & calls & Hrun & H & _).
  specialize (H [plane_hit 1 0 1 11 AR_TRACKING_STATE_TRACKING;
                 plane_hit 2 1 (-1) 12 AR_TRACKING_STATE_TRACKING]
                (plane_hit 3 1 2 13 AR_TRACKING_STATE_TRACKING)
                [plane_hit 4 1 1 14 AR_TRACKING_STATE_TRACKING] 3 eq_refl).
  destruct H as [H1 H2];
    [repeat constructor; cbn; eauto | reflexivity | reflexivity |].
  rewrite Hrun, H1, H2. reflexivity.
Defined.

(** ** Image anchors *)

Lemma update_image_anchors_app
  (st st1 : gmap Z (option ArAugmentedImage * option ArAnchor)
            * list app_call)
  (us vs : list image_update) :
  update_image_anchors st us = Some st1 ->
  update_image_anchors st (us ++ vs) = update_image_anchors st1 vs.
Proof.
  revert st. induction us as [| u us IH]; intros st H.
  - cbn in H. now inversion H.
  - cbn [Datatypes.app update_image_anchors] in *.
    destruct (update_image_anchor st u) as [st' |]; [| discriminate H].
    now apply IH.
Qed.

Lemma update_image_anchors_spec
  (us : list image_update)
  (m : gmap Z (option ArAugmentedImage * option ArAnchor))
  (calls : list app_call) :
  Forall (fun u => fst (update_new_anchor u) = AR_SUCCESS) us ->
  exists m' new,
    update_image_anchors (m, calls) us = Some (m', calls ++ new) /\
    (forall k v, m' !! k = Some v ->
       m !! k = Some v \/
       exists u, In u us /\ update_image_index u = k /\
                 update_tracking_state u = AR_TRACKING_STATE_TRACKING /\
                 v = (update_image u, snd (update_new_anchor u))) /\
    (forall k, Forall (fun u => update_image_index u <> k) us ->
               m' !! k = m !! k) /\
    (forall c, In c new ->
       match c with
       | Call_ArTrackable_acquireNewAnchor _ | Call_ArTrackable_release _
       | Call_ArAnchor_release _ => True
       | _ => False
       end).
Proof.
  intros Hok. revert m calls.
  induction Hok as [| u us Hu _ IH]; intros m calls.
  - exists m, []. rewrite app_nil_r. split; [reflexivity |].
    split; [now left |]. split; [reflexivity | intros c []].
  - cbn [update_image_anchors]. unfold update_image_anchor.
    destruct (update_tracking_state u) eqn:Hstate.
    + destruct (m !! update_image_index u) as [v0 |] eqn:Hlook.
      * destruct (IH m calls) as (m' & new & Hrun & Hent & Hkeep & Hnew).
        exists m', new. split; [exact Hrun |]. split; [| split].
        -- intros k v Hv. destruct (Hent k v Hv) as [? | (u' & ? & ?)];
             [now left | right; exists u'; split; [now right | assumption]].
        -- intros k Hk. apply Forall_cons in Hk as [_ Hk]. now apply Hkeep.
        -- exact Hnew.
      * destruct (update_new_anchor u) as [status anchor] eqn:Hnew.
        cbn [fst] in Hu. subst status.
        destruct (IH (<[update_image_index u := (update_image u, anchor)]> m)
                     (calls ++ [Call_ArTrackable_acquireNewAnchor
                                  (update_image_index u)]))
          as (m' & new & Hrun & Hent & Hkeep & Hcalls).
        exists m', (Call_ArTrackable_acquireNewAnchor (update_image_index u)
                    :: new).
        rewrite <- app_assoc in Hrun. split; [exact Hrun |].
        split; [| split].
        -- intros k v Hv. destruct (Hent k v Hv) as [Hin | (u' & ? & ?)].
           ++ destruct (decide (k = update_image_index u)) as [-> | Hne].
              ** rewrite lookup_insert_eq in Hin. inversion Hin; subst.
                 right. exists u. rewrite Hnew. now repeat split; try left.
              ** rewrite lookup_insert_ne in Hin by congruence. now left.
           ++ right. exists u'. split; [now right | assumption].
        -- intros k Hk. apply Forall_cons in Hk as [Hne Hk].
           rewrite (Hkeep k Hk). now rewrite lookup_insert_ne.
        -- intros c [<- | Hc]; [exact I | now apply Hcalls].
    + destruct (IH m calls) as (m' & new & Hrun & Hent & Hkeep & Hnew).
      exists m', new. split; [exact Hrun |]. split; [| split].
      * intros k v Hv. destruct (Hent k v Hv) as [? | (u' & ? & ?)];
          [now left | right; exists u'; split; [now right | assumption]].
      * intros k Hk. apply Forall_cons in Hk as [_ Hk]. now apply Hkeep.
      * exact Hnew.
    + set (record := default (None, None) (m !! update_image_index u)).
      destruct (IH (delete (update_image_index u) m)
                   (calls ++ [Call_ArTrackable_release (fst record);
                              Call_ArAnchor_release (snd record)]))
        as (m' & new & Hrun & Hent & Hkeep & Hcalls).
      exists m', (Call_ArTrackable_release (fst record)
                  :: Call_ArAnchor_release (snd record) :: new).
      rewrite <- app_assoc in Hrun. split; [exact Hrun |].
      split; [| split].
      * intros k v Hv. destruct (Hent k v Hv) as [Hin | (u' & ? & ?)].
        -- left. apply lookup_delete_Some in Hin. tauto.
        -- right. exists u'. split; [now right | assumption].
      * intros k Hk. apply Forall_cons in Hk as [Hne Hk].
        rewrite (Hkeep k Hk). now rewrite lookup_delete_ne.
      * intros c [<- | [<- | Hc]]; [exact I | exact I | now apply Hcalls].
Qed.

(** X15. With image anchors in use, [UpdateImageAnchors] aborts when no
    list of updated images is created.  When the list is created,
    acquisitions succeed and [begin] points into a non-empty map, it
    returns, changing only the map, [anchor_] and
    [base_frame_calibrated_].  Every entry of
    the map afterwards was there before or was acquired in this call from a
    TRACKING update of that image.  A STOPPED update releases what is
    recorded for its image, and null pointers if nothing is.  An
    uncalibrated application becomes calibrated exactly when the map ends
    up non-empty, with the anchor of one of its entries; a calibrated one
    keeps [anchor_] whatever the updates release. *)
Theorem UpdateImageAnchors_entries
  (begin : gmap Z (option ArAugmentedImage * option ArAnchor) ->
           option (Z * (option ArAugmentedImage * option ArAnchor)))
  (updates : list image_update) (app : HelloArApplication) :
  using_image_anchors_ app = true ->
  Forall (fun u => fst (update_new_anchor u) = AR_SUCCESS) updates ->
  (forall m, m <> empty ->
             exists k v, begin m = Some (k, v) /\ m !! k = Some v) ->
  UpdateImageAnchors begin None app = None /\
  exists app' calls,
    UpdateImageAnchors begin (Some updates) app = Some (app', calls) /\
    app' = with_calibration (with_image_map app (augmented_image_map app'))
             (base_frame_calibrated_ app') (base_frame_ app) (anchor_ app') /\
    (forall k v, augmented_image_map app' !! k = Some v ->
       augmented_image_map app !! k = Some v \/
       exists u, In u updates /\ update_image_index u = k /\
                 update_tracking_state u = AR_TRACKING_STATE_TRACKING /\
                 v = (update_image u, snd (update_new_anchor u))) /\
    (forall pre u post,
       updates = pre ++ u :: post ->
       update_tracking_state u = AR_TRACKING_STATE_STOPPED ->
       Forall (fun u' => update_image_index u' <> update_image_index u) pre ->
       In (Call_ArTrackable_release
             (fst (default (None, None)
                     (augmented_image_map app !! update_image_index u))))
          calls /\
       In (Call_ArAnchor_release
             (snd (default (None, None)
                     (augmented_image_map app !! update_image_index u))))
          calls) /\
    (base_frame_calibrated_ app = true ->
     base_frame_calibrated_ app' = true /\ anchor_ app' = anchor_ app) /\
    (base_frame_calibrated_ app = false ->
     augmented_image_map app' = empty ->
     base_frame_calibrated_ app' = false /\ anchor_ app' = anchor_ app) /\
    (base_frame_calibrated_ app = false ->
     augmented_image_map app' <> empty ->
     base_frame_calibrated_ app' = true /\
     exists k image,
       augmented_image_map app' !! k = Some (image, anchor_ app')).
Proof.
  intros Husing Hok Hbegin.
  destruct (update_image_anchors_spec updates (augmented_image_map app) []
              Hok) as (m' & calls & Hrun & Hent & Hkeep & _).
  cbn [Datatypes.app] in Hrun.
  assert (forall pre u post,
            updates = pre ++ u :: post ->
            update_tracking_state u = AR_TRACKING_STATE_STOPPED ->
            Forall (fun u' => update_image_index u' <> update_image_index u)
                   pre ->
            In (Call_ArTrackable_release
                  (fst (default (None, None)
                          (augmented_image_map app !! update_image_index u))))
               calls /\
            In (Call_ArAnchor_release
                  (snd (default (None, None)
                          (augmented_image_map app !! update_image_index u))))
               calls) as Hrel.
  { intros pre u post -> Hstate Hpre.
    apply Forall_app in Hok as [Hok1 Hok2].
    apply Forall_cons in Hok2 as [_ Hok2].
    destruct (update_image_anchors_spec pre (augmented_image_map app) []
                Hok1) as (m1 & c1 & Hrun1 & _ & Hkeep1 & _).
    cbn [Datatypes.app] in Hrun1.
    rewrite (update_image_anchors_app _ _ _ _ Hrun1) in Hrun.
    cbn [update_image_anchors] in Hrun. unfold update_image_anchor in Hrun.
    rewrite Hstate, (Hkeep1 _ Hpre) in Hrun.
    match type of Hrun with
    | update_image_anchors (?m2, ?c2) post = _ =>
        destruct (update_image_anchors_spec post m2 c2 Hok2)
          as (m3 & c3 & Hrun3 & _)
    end.
    rewrite Hrun3 in Hrun. inversion Hrun as [[Hm Hc]].
    split; apply in_or_app; left; apply in_or_app; right; cbn; tauto. }
  unfold UpdateImageAnchors. rewrite Husing. cbn [negb].
  split; [reflexivity |]. rewrite Hrun.
  cbn [with_image_map base_frame_calibrated_].
  destruct (base_frame_calibrated_ app) eqn:Hcal; cbn [negb andb].
  - eexists _, _. split; [reflexivity |].
    cbn [augmented_image_map with_image_map base_frame_calibrated_ anchor_].
    rewrite Hcal.
    split; [destruct app; cbn in Hcal |- *; now subst |].
    split; [exact Hent |]. split; [exact Hrel |].
    repeat split; intros; discriminate.
  - destruct (bool_decide (m' = empty)) eqn:Hempty; cbn [negb].
    + apply bool_decide_eq_true in Hempty.
      eexists _, _. split; [reflexivity |].
      cbn [augmented_image_map with_image_map base_frame_calibrated_ anchor_].
      rewrite Hcal.
    split; [destruct app; cbn in Hcal |- *; now subst |].
      split; [exact Hent |]. split; [exact Hrel |].
      split; [intros; discriminate |]. split; [now split |].
      intros _ Hne. contradiction.
    + apply bool_decide_eq_false in Hempty.
      destruct (Hbegin m' Hempty) as (k & [image anchor] & Hb & Hk).
      rewrite Hb. eexists _, _. split; [reflexivity |].
      cbn [augmented_image_map with_image_map with_calibration
           base_frame_calibrated_ anchor_ base_frame_ snd].
      split; [reflexivity |].
      split; [exact Hent |]. split; [exact Hrel |].
      split; [intros; discriminate |].
      split; [intros _ He; contradiction |].
      intros _ _. split; [reflexivity |]. now exists k, image.
Qed.

Lemma first_entry_ok
  (m : gmap Z (option ArAugmentedImage * option ArAnchor)) :
  m <> empty -> exists k v, first_entry m = Some (k, v) /\ m !! k = Some v.
Proof.
  intros Hne. unfold first_entry.
  destruct (map_to_list m) as [| [k v] l] eqn:Hl.
  - now apply map_to_list_empty_iff in Hl.
  - exists k, v. split; [reflexivity |].
    apply elem_of_map_to_list. rewrite Hl. now left.
Qed.

Lemma UpdateImageAnchors_entries_witness :
  let stopped :=
    ImageUpdate (Some 5) AR_TRACKING_STATE_STOPPED 2 (AR_SUCCESS, None) in
  let app :=
    MkApp false true true true false true (translation 0 0 0) (Some 31)
      (<[2 := (Some 5, Some 31)]> empty) 0 0 1080 1920
      (initial_state 4 true true) [] in
  UpdateImageAnchors first_entry None app = None /\
  exists app' calls,
    UpdateImageAnchors first_entry (Some [stopped]) app =
      Some (app', calls) /\
    In (Call_ArAnchor_release (Some 31)) calls /\
    anchor_ app' = Some 31.
Proof.
  intros stopped app.
  destruct (UpdateImageAnchors_entries first_entry [stopped] app eq_refl
              ltac:(repeat constructor) first_entry_ok)
    as (Habort & app' & calls & Hrun & _ & _ & Hrel & Hcal & _).
  split; [exact Habort |].
  exists app', calls. split; [exact Hrun |].
  split; [| now apply Hcal].
  exact (proj2 (Hrel [] stopped [] eq_refl eq_refl ltac:(constructor))).
Defined.

(** ** One frame *)

Lemma with_latch_same (c : CloudXRClient) :
  with_latch c (framesLatched_ c) (latched_ c) = c.
Proof. now destruct c. Qed.

Lemma Latch_cases
  (cxrLatchFrame :
     list sdk_call -> cxrReceiverHandle -> cxrFramesLatched ->
     cxrError * cxrFramesLatched) (s : Session) :
  latched_ (client s) = false ->
  (cloudxr_receiver_ (client s) = None /\
   Latch cxrLatchFrame s = (cxrError_Receiver_Not_Running, s)) \/
  (exists receiver status frames,
     cloudxr_receiver_ (client s) = Some receiver /\
     Latch cxrLatchFrame s =
       (status,
        MkSession (with_latch (client s) frames (is_Success status))
                  (sdk_calls s ++ [Call_cxrLatchFrame receiver 150]))).
Proof.
  intros Hl. unfold Latch. rewrite Hl.
  destruct (cloudxr_receiver_ (client s)) as [receiver |]; [right | now left].
  destruct (cxrLatchFrame _ _ _) as [status frames].
  exists receiver, status, frames. split; [reflexivity |].
  destruct status; cbn [is_Success]; rewrite ?Hl; reflexivity.
Qed.

Lemma Release_latched
  (cxrReleaseFrame :
     list sdk_call -> option cxrReceiverHandle -> cxrFramesLatched ->
     cxrFramesLatched) (c : CloudXRClient) (frames : cxrFramesLatched)
  (log : list sdk_call) :
  exists frames',
    Release cxrReleaseFrame (MkSession (with_latch c frames true) log) =
    MkSession (with_latch c frames' false)
              (log ++ [Call_cxrReleaseFrame (cloudxr_receiver_ c)]).
Proof. eexists. reflexivity. Qed.

Lemma setup_playback_members (o : ConnectOutcomes) (d d' : cxrDeviceDesc)
  (s s' : ClientState) (calls : list client_call) :
  setup_playback o d s = Some (d', s', calls) -> members s' = members s.
Proof.
  unfold setup_playback, start_playback. intros H.
  destruct (receiveAudio d); [| now inversion H].
  destruct (playback_opened o) as [[| code] stream]; cbn in H.
  2: { inversion H; reflexivity. }
  destruct stream as [a |]; [| discriminate H].
  destruct (int_result _); [| discriminate H].
  destruct (playback_buffer_set o); cbn in H.
  2: { inversion H; reflexivity. }
  destruct (playback_started o); cbn in H; inversion H; reflexivity.
Qed.

Lemma setup_recording_members (o : ConnectOutcomes) (d d' : cxrDeviceDesc)
  (s s' : ClientState) (calls : list client_call) :
  setup_recording o d s = Some (d', s', calls) -> members s' = members s.
Proof.
  unfold setup_recording, start_recording. intros H.
  destruct (sendAudio d); [| now inversion H].
  destruct (recording_opened o) as [[| code] stream]; cbn in H.
  2: { inversion H; reflexivity. }
  destruct stream as [a |]; [| discriminate H].
  destruct (recording_started o); cbn in H; inversion H; reflexivity.
Qed.

Lemma Connect_members (cxrDeliveryType_Mono_RGBA : Z) (o : ConnectOutcomes)
  (s s' : ClientState) (status : cxrError) (calls : list client_call) :
  Connect cxrDeliveryType_Mono_RGBA o s = Some (status, s', calls) ->
  exists receiver, members s' = with_receiver (members s) receiver.
Proof.
  unfold Connect. intros H.
  destruct (cloudxr_receiver_ (members s)) eqn:Hr.
  { inversion H; subst. exists (Some c). rewrite <- Hr.
    now destruct (members s'). }
  destruct (GetDeviceDesc _ s) as [s0 d0] eqn:Hd.
  assert (members s0 = members s) as H0
    by (unfold GetDeviceDesc in Hd; now inversion Hd).
  destruct (setup_playback o d0 s0) as [[[d1 s1] c1] |] eqn:H1;
    [| discriminate H].
  destruct (setup_recording o d1 s1) as [[[d2 s2] c2] |] eqn:H2;
    [| discriminate H].
  apply setup_playback_members in H1. apply setup_recording_members in H2.
  destruct (receiver_created o) as [err receiver].
  assert (members s2 = members s) as Hm by congruence.
  destruct err.
  2-4: (inversion H; subst; exists receiver; cbn; now rewrite Hm).
  destruct (connected o).
  1: { inversion H; subst. exists receiver. cbn. now rewrite Hm. }
  all: rewrite Teardown_result in H; inversion H; subst; exists None; cbn;
    now rewrite Hm.
Qed.

Lemma Stats_members
  (Bad Poor Fair Good Excellent EstimatingQuality HighLatency LowBandwidth
   HighPacketLoss : Z) (answer : cxrError * cxrConnectionStats)
  (s s' : ClientState) (calls : list client_call) :
  Stats Bad Poor Fair Good Excellent EstimatingQuality HighLatency
    LowBandwidth HighPacketLoss answer s = Some (s', calls) ->
  members s' = members s.
Proof.
  unfold Stats. intros H.
  destruct (int_result _); [| discriminate H].
  destruct (_ <=? _); [| now inversion H].
  destruct answer as [status st].
  destruct status; try (now inversion H).
  destruct (float_to_int _); [| discriminate H].
  destruct (int_result _); [| discriminate H].
  now inversion H.
Qed.

Lemma UpdateImageAnchors_client
  (begin : gmap Z (option ArAugmentedImage * option ArAnchor) ->
           option (Z * (option ArAugmentedImage * option ArAnchor)))
  (updates : option (list image_update)) (app app' : HelloArApplication)
  (calls : list app_call) :
  UpdateImageAnchors begin updates app = Some (app', calls) ->
  cloudxr_client_ app' = cloudxr_client_ app /\
  latch_calls app' = latch_calls app /\
  exiting_ app' = exiting_ app /\
  using_image_anchors_ app' = using_image_anchors_ app.
Proof.
  unfold UpdateImageAnchors. intros H.
  destruct (negb (using_image_anchors_ app)); [now inversion H |].
  destruct updates as [updates |]; [cbv beta iota in H | discriminate H].
  destruct (update_image_anchors _ _) as [[m c] |]; [| discriminate H].
  destruct (_ && _).
  - destruct (begin m) as [[k record] |]; [| discriminate H].
    now inversion H.
  - now inversion H.
Qed.

Section FrameFacts.

Variable kQueueLen : Z.
Variable cxrLatchFrame :
  list sdk_call -> cxrReceiverHandle -> cxrFramesLatched ->
  cxrError * cxrFramesLatched.
Variable cxrReleaseFrame :
  list sdk_call -> option cxrReceiverHandle -> cxrFramesLatched ->
  cxrFramesLatched.
Variable cxrDeliveryType_Mono_RGBA : Z.
Variable CXR_MAX_AMBIENT_LIGHT_SH : nat.
Variables Bad Poor Fair Good Excellent : Z.
Variables EstimatingQuality HighLatency LowBandwidth HighPacketLoss : Z.
Variable glm_inverse : mat4 -> mat4.
Variable glm_mul : mat4 -> mat4 -> mat4.
Variable i : frame_inputs.

#[local] Abbreviation pull_frame' := (pull_frame cxrLatchFrame cxrReleaseFrame).
#[local] Abbreviation fetch_base_frame' := (fetch_base_frame glm_inverse i).
#[local] Abbreviation stream_frame' :=
  (stream_frame kQueueLen cxrLatchFrame cxrReleaseFrame
     CXR_MAX_AMBIENT_LIGHT_SH Bad Poor Fair Good Excellent EstimatingQuality
     HighLatency LowBandwidth HighPacketLoss glm_inverse glm_mul i).
#[local] Abbreviation calibrated_frame' :=
  (calibrated_frame kQueueLen cxrLatchFrame cxrReleaseFrame
     cxrDeliveryType_Mono_RGBA CXR_MAX_AMBIENT_LIGHT_SH Bad Poor Fair Good
     Excellent EstimatingQuality HighLatency LowBandwidth HighPacketLoss
     glm_inverse glm_mul i).
#[local] Abbreviation OnDrawFrame' :=
  (OnDrawFrame kQueueLen cxrLatchFrame cxrReleaseFrame
     cxrDeliveryType_Mono_RGBA CXR_MAX_AMBIENT_LIGHT_SH Bad Poor Fair Good
     Excellent EstimatingQuality HighLatency LowBandwidth HighPacketLoss
     glm_inverse glm_mul i).

Lemma latch_paired_refl (app app' : HelloArApplication) :
  latched_ (members (cloudxr_client_ app)) = false ->
  latched_ (members (cloudxr_client_ app')) =
    latched_ (members (cloudxr_client_ app)) ->
  latch_calls app' = latch_calls app ->
  latch_paired 0 app app'.
Proof.
  intros Hl Hsame Hlog. split; [congruence |].
  exists []. cbn. rewrite app_nil_r. repeat split; auto.
Qed.

Lemma latch_paired_trans (n k : nat) (a b c : HelloArApplication) :
  latch_paired n a b -> latch_paired k b c -> latch_paired (n + k) a c.
Proof.
  intros [_ (bs1 & H1 & F1 & L1)] [Hl (bs2 & H2 & F2 & L2)].
  split; [exact Hl |]. exists (bs1 ++ bs2).
  rewrite H2, H1, concat_app, app_assoc.
  split; [reflexivity |]. split; [now apply Forall_app |].
  rewrite length_app. lia.
Qed.

Lemma latch_paired_weaken (n k : nat) (a b : HelloArApplication) :
  (n <= k)%nat -> latch_paired n a b -> latch_paired k a b.
Proof.
  intros Hnk [Hl (bs & H & F & L)]. split; [exact Hl |].
  exists bs. repeat split; auto. lia.
Qed.

Ltac block_tac receiver :=
  first
    [ exists receiver, 150; left; reflexivity
    | exists receiver, 150; right; reflexivity ].

Lemma pull_frame_paired (app : HelloArApplication) :
  latched_ (members (cloudxr_client_ app)) = false ->
  latch_paired 1 app (pull_frame' app).
Proof.
  destruct app as [ex ses fr uia udb cal bf an im pc dr dw dh cl lc].
  destruct cl as [c ra sa el d f rec play st n].
  destruct c as [receiver rf sw sh fl latched ring cur].
  cbn. intros ->. unfold pull_frame, Latch, IsRunning. cbn.
  destruct cal, receiver as [receiver |]; cbn;
    try (split; [reflexivity |]; exists []; cbn; rewrite app_nil_r;
         repeat split; auto; lia).
  destruct (cxrLatchFrame lc receiver fl) as [status frames].
  destruct status; cbn; (split; [reflexivity |]).
  - exists [[Call_cxrLatchFrame receiver 150;
             Call_cxrReleaseFrame (Some receiver)]].
    cbn. rewrite <- app_assoc. split; [reflexivity |]. split; [| lia].
    repeat constructor. block_tac receiver.
  - exists [[Call_cxrLatchFrame receiver 150]].
    cbn. split; [reflexivity |]. split; [| lia].
    repeat constructor. block_tac receiver.
  - exists [[Call_cxrLatchFrame receiver 150]].
    cbn. split; [reflexivity |]. split; [| lia].
    repeat constructor. block_tac receiver.
  - exists [[Call_cxrLatchFrame receiver 150]].
    cbn. split; [reflexivity |]. split; [| lia].
    repeat constructor. block_tac receiver.
Qed.

Lemma stream_frame_paired (app app' : HelloArApplication)
  (result : option cxrError) (calls : list app_call) :
  latched_ (members (cloudxr_client_ app)) = false ->
  stream_frame' app = Some (result, app', calls) ->
  latch_paired 1 app app'.
Proof.
  destruct app as [ex ses fr uia udb cal bf an im pc dr dw dh cl lc].
  destruct cl as [c ra sa el d f rec play st n].
  destruct c as [receiver rf sw sh fl latched ring cur].
  cbn. intros ->. unfold stream_frame, Latch. cbn.
  destruct receiver as [receiver |]; cbn.
  2: { intros [= <- <- <-]. split; [reflexivity |]. exists []. cbn.
       rewrite app_nil_r. repeat split; auto. }
  destruct (cxrLatchFrame lc receiver fl) as [status frames].
  destruct status; cbn.
  - destruct (send_light _ _ _) as [light |]; [| discriminate].
    destruct (Stats _ _ _ _ _ _ _ _ _ _ _) as [[s stats] |] eqn:Hstats;
      [| discriminate].
    apply Stats_members in Hstats. cbn in Hstats.
    intros [= <- <- <-]. unfold latch_paired. cbn. rewrite Hstats.
    split; [reflexivity |].
    exists [[Call_cxrLatchFrame receiver 150;
             Call_cxrReleaseFrame (Some receiver)]].
    cbn. rewrite <- app_assoc. split; [reflexivity |]. split; [| lia].
    repeat constructor. block_tac receiver.
  - intros [= <- <- <-]. split; [reflexivity |].
    exists [[Call_cxrLatchFrame receiver 150]].
    cbn. split; [reflexivity |]. split; [| lia].
    repeat constructor. block_tac receiver.
  - destruct (send_light _ _ _) as [light |]; [| discriminate].
    intros [= <- <- <-]. split; [reflexivity |].
    exists [[Call_cxrLatchFrame receiver 150]].
    cbn. split; [reflexivity |]. split; [| lia].
    repeat constructor. block_tac receiver.
  - destruct (send_light _ _ _) as [light |]; [| discriminate].
    intros [= <- <- <-]. split; [reflexivity |].
    exists [[Call_cxrLatchFrame receiver 150]].
    cbn. split; [reflexivity |]. split; [| lia].
    repeat constructor. block_tac receiver.
Qed.

Lemma fetch_base_frame_client (app : HelloArApplication) :
  cloudxr_client_ (fetch_base_frame' app) = cloudxr_client_ app /\
  latch_calls (fetch_base_frame' app) = latch_calls app /\
  exiting_ (fetch_base_frame' app) = exiting_ app /\
  base_frame_calibrated_ (fetch_base_frame' app) = base_frame_calibrated_ app
  /\ using_image_anchors_ (fetch_base_frame' app) = using_image_anchors_ app.
Proof.
  unfold fetch_base_frame.
  destruct (anchor_ app); [| now repeat split].
  destruct (_ && _); now repeat split.
Qed.

Lemma calibrate_client (app app' : HelloArApplication) :
  calibrate glm_inverse i app = Some app' ->
  cloudxr_client_ app' = cloudxr_client_ app /\
  latch_calls app' = latch_calls app /\
  exiting_ app' = exiting_ app.
Proof.
  unfold calibrate.
  destruct (plane_list_size i) as [n |]; [| discriminate].
  intros [= <-].
  destruct (anchor_ app); [| now repeat split].
  destruct (is_TRACKING _); now repeat split.
Qed.

Lemma calibrated_frame_paired (app app' : HelloArApplication)
  (result : option cxrError) (calls : list app_call) :
  latched_ (members (cloudxr_client_ app)) = false ->
  calibrated_frame' app = Some (result, app', calls) ->
  latch_paired 1 app app'.
Proof.
  intros Hl. unfold calibrated_frame.
  destruct (fetch_base_frame_client app) as (Hc & Hlog & _).
  set (app1 := fetch_base_frame' app) in *.
  assert (latch_paired 0 app app1) as H01
    by (apply latch_paired_refl; congruence).
  clearbody app1.
  destruct (negb (IsRunning _)).
  2: { intros H. apply (latch_paired_trans 0 1 app app1); [exact H01 |].
       eapply stream_frame_paired; [| exact H]. congruence. }
  destruct (Connect _ _ _) as [[[status s] calls0] |] eqn:Hconn;
    [| discriminate].
  apply Connect_members in Hconn as [receiver Hm]. cbn in Hm.
  assert (latch_paired 0 app1 (with_client app1 s)) as H12.
  { apply latch_paired_refl; [congruence | | reflexivity].
    cbn. rewrite Hm. reflexivity. }
  destruct (is_Success status); cbn [negb].
  - destruct (stream_frame' (with_client app1 s)) as [[[r a] c] |] eqn:Hs;
      [| discriminate].
    intros [= <- <- <-].
    apply (latch_paired_trans 0 1 app app1); [exact H01 |].
    apply (latch_paired_trans 0 1 app1 (with_client app1 s)); [exact H12 |].
    eapply stream_frame_paired; [| exact Hs].
    cbn. rewrite Hm. cbn. congruence.
  - intros [= <- <- <-].
    apply (latch_paired_weaken 0); [lia |].
    apply (latch_paired_trans 0 0 app app1); [exact H01 |].
    apply (latch_paired_trans 0 0 app1 (with_client app1 s)); [exact H12 |].
    apply latch_paired_refl; [| reflexivity | reflexivity].
    cbn. rewrite Hm. cbn. congruence.
Qed.

(** X16. A frame releases what it latches: if no frame is latched when
    [OnDrawFrame] is entered, none is when it returns, whatever the SDK and
    the AR library answer and also when it returns an error.  It calls
    [cxrLatchFrame] at most twice, and every [cxrReleaseFrame] follows
    directly on the [cxrLatchFrame] of the same receiver. *)
Theorem OnDrawFrame_releases_what_it_latches (app app' : HelloArApplication)
  (result : option cxrError) (calls : list app_call) :
  latched_ (members (cloudxr_client_ app)) = false ->
  OnDrawFrame' app = Some (result, app', calls) ->
  latched_ (members (cloudxr_client_ app')) = false /\
  exists blocks,
    latch_calls app' = latch_calls app ++ concat blocks /\
    Forall latch_block blocks /\ (length blocks <= 2)%nat.
Proof.
  intros Hl. change (_ /\ _) with (latch_paired 2 app app').
  unfold OnDrawFrame.
  destruct (exiting_ app).
  { intros [= <- <- <-]. apply (latch_paired_weaken 0); [lia |].
    now apply latch_paired_refl. }
  destruct (negb (ar_session_ app)).
  { intros [= <- <- <-]. apply (latch_paired_weaken 0); [lia |].
    now apply latch_paired_refl. }
  destruct (negb (is_TRACKING _)).
  { intros [= <- <- <-]. apply (latch_paired_weaken 0); [lia |].
    now apply latch_paired_refl. }
  pose proof (pull_frame_paired app Hl) as H1.
  set (app1 := pull_frame' app) in *. clearbody app1.
  destruct (UpdateImageAnchors _ _ app1) as [[app2 calls1] |] eqn:Himg;
    [| discriminate].
  apply UpdateImageAnchors_client in Himg as (Hc & Hlog & _).
  assert (latch_paired 0 app1 app2) as H2.
  { apply latch_paired_refl; [apply H1 | congruence | exact Hlog]. }
  destruct (base_frame_calibrated_ app2) eqn:Hcal.
  - destruct (calibrated_frame' app2) as [[[r app3] calls2] |] eqn:Hframe;
      [| discriminate].
    apply calibrated_frame_paired in Hframe; [| apply H2].
    assert (latch_paired 2 app app3) as H3.
    { apply (latch_paired_trans 1 1 app app1); [exact H1 |].
      apply (latch_paired_trans 0 1 app1 app2); assumption. }
    destruct r; [intros [= <- <- <-]; exact H3 |].
    destruct (_ || _); [intros [= <- <- <-]; exact H3 |].
    destruct (calibrate _ _ app3) as [app4 |] eqn:Hplanes; [| discriminate].
    apply calibrate_client in Hplanes as (Hcc & Hcl & _).
    intros [= <- <- <-].
    apply (latch_paired_trans 2 0 app app3); [exact H3 |].
    apply latch_paired_refl; [apply H3 | now rewrite Hcc | exact Hcl].
  - assert (latch_paired 2 app app2) as H3.
    { apply (latch_paired_weaken 1); [lia |].
      apply (latch_paired_trans 1 0 app app1); assumption. }
    cbn [orb]. rewrite Hcal. cbn [orb]. destruct (using_image_anchors_ app2);
      [intros [= <- <- <-]; exact H3 |].
    destruct (calibrate _ _ app2) as [app4 |] eqn:Hplanes; [| discriminate].
    apply calibrate_client in Hplanes as (Hcc & Hcl & _).
    intros [= <- <- <-].
    apply (latch_paired_trans 2 0 app app2); [exact H3 |].
    apply latch_paired_refl; [apply H3 | now rewrite Hcc | exact Hcl].
Qed.

End FrameFacts.

Lemma same_ring_refl (c : CloudXRClient) : same_ring c c.
Proof. now split. Qed.

Lemma same_ring_trans (a b c : CloudXRClient) :
  same_ring a b -> same_ring b c -> same_ring a c.
Proof. intros [H1 H2] [H3 H4]. split; congruence. Qed.

Lemma same_ring_ok (kQueueLen : Z) (c c' : CloudXRClient) :
  same_ring c c' -> ring_ok kQueueLen c -> ring_ok kQueueLen c'.
Proof. intros [H1 H2] [H3 H4]. split; congruence. Qed.

Lemma DetermineOffset_from_ext (kQueueLen : Z) (c c' : CloudXRClient)
  (n : nat) (offset : Z) :
  same_ring c c' -> framesLatched_ c' = framesLatched_ c ->
  DetermineOffset_from kQueueLen c' n offset =
  DetermineOffset_from kQueueLen c n offset.
Proof.
  intros [Hring Hcur] Hframes. revert offset.
  induction n as [| n IH]; intros offset; [reflexivity |].
  cbn [DetermineOffset_from]. rewrite Hring, Hcur, Hframes, IH. reflexivity.
Qed.

Lemma DetermineOffset_latched (kQueueLen : Z) (c c' : CloudXRClient) :
  same_ring c c' ->
  DetermineOffset kQueueLen c' =
  DetermineOffset kQueueLen (with_latch c (framesLatched_ c') true).
Proof.
  intros Hring. unfold DetermineOffset.
  symmetry. apply DetermineOffset_from_ext; [| reflexivity].
  destruct Hring. split; cbn; congruence.
Qed.


Lemma Latch_same_ring
  (cxrLatchFrame :
     list sdk_call -> cxrReceiverHandle -> cxrFramesLatched ->
     cxrError * cxrFramesLatched) (s : Session) :
  same_ring (client s) (client (snd (Latch cxrLatchFrame s))).
Proof.
  unfold Latch. destruct (latched_ (client s)); [apply same_ring_refl |].
  destruct (cloudxr_receiver_ (client s)); [| apply same_ring_refl].
  destruct (cxrLatchFrame _ _ _) as [status frames].
  destruct status; now split.
Qed.

Lemma Release_same_ring
  (cxrReleaseFrame :
     list sdk_call -> option cxrReceiverHandle -> cxrFramesLatched ->
     cxrFramesLatched) (s : Session) :
  same_ring (client s) (client (Release cxrReleaseFrame s)).
Proof.
  unfold Release. destruct (negb _); now split.
Qed.

Lemma not_Draw_in_client_calls (off : Z) (l : list client_call) :
  ~ In (Call_Draw off) (map Call_client l).
Proof.
  intros Hin. apply in_map_iff in Hin as (c & Hc & _). discriminate Hc.
Qed.

Section FrameRing.

Variable kQueueLen : Z.
Hypothesis HK : 0 < kQueueLen.
Variable cxrLatchFrame :
  list sdk_call -> cxrReceiverHandle -> cxrFramesLatched ->
  cxrError * cxrFramesLatched.
Variable cxrReleaseFrame :
  list sdk_call -> option cxrReceiverHandle -> cxrFramesLatched ->
  cxrFramesLatched.
Variable cxrDeliveryType_Mono_RGBA : Z.
Variable CXR_MAX_AMBIENT_LIGHT_SH : nat.
Variables Bad Poor Fair Good Excellent : Z.
Variables EstimatingQuality HighLatency LowBandwidth HighPacketLoss : Z.
Variable glm_inverse : mat4 -> mat4.
Variable glm_mul : mat4 -> mat4 -> mat4.
Variable i : frame_inputs.

#[local] Abbreviation pull_frame' := (pull_frame cxrLatchFrame cxrReleaseFrame).
#[local] Abbreviation fetch_base_frame' := (fetch_base_frame glm_inverse i).
#[local] Abbreviation stream_frame' :=
  (stream_frame kQueueLen cxrLatchFrame cxrReleaseFrame
     CXR_MAX_AMBIENT_LIGHT_SH Bad Poor Fair Good Excellent EstimatingQuality
     HighLatency LowBandwidth HighPacketLoss glm_inverse glm_mul i).
#[local] Abbreviation calibrated_frame' :=
  (calibrated_frame kQueueLen cxrLatchFrame cxrReleaseFrame
     cxrDeliveryType_Mono_RGBA CXR_MAX_AMBIENT_LIGHT_SH Bad Poor Fair Good
     Excellent EstimatingQuality HighLatency LowBandwidth HighPacketLoss
     glm_inverse glm_mul i).
#[local] Abbreviation OnDrawFrame' :=
  (OnDrawFrame kQueueLen cxrLatchFrame cxrReleaseFrame
     cxrDeliveryType_Mono_RGBA CXR_MAX_AMBIENT_LIGHT_SH Bad Poor Fair Good
     Excellent EstimatingQuality HighLatency LowBandwidth HighPacketLoss
     glm_inverse glm_mul i).

Lemma pull_frame_same_ring (app : HelloArApplication) :
  same_ring (members (cloudxr_client_ app))
            (members (cloudxr_client_ (pull_frame' app))).
Proof.
  unfold pull_frame.
  destruct (_ && _); [| apply same_ring_refl].
  pose proof (Latch_same_ring cxrLatchFrame (session_of app)) as HL.
  destruct (Latch cxrLatchFrame (session_of app)) as [status session].
  cbn [snd] in HL.
  destruct (is_Success status); cbn; [| exact HL].
  eapply same_ring_trans; [exact HL | apply Release_same_ring].
Qed.

Lemma stream_frame_ring (c : CloudXRClient) (app app' : HelloArApplication)
  (result : option cxrError) (calls : list app_call) :
  same_ring c (members (cloudxr_client_ app)) ->
  stream_frame' app = Some (result, app', calls) ->
  ring_step kQueueLen c result (members (cloudxr_client_ app')) calls.
Proof.
  intros Hc. unfold stream_frame.
  pose proof (Latch_same_ring cxrLatchFrame (session_of app)) as HL.
  destruct (Latch cxrLatchFrame (session_of app)) as [status session].
  cbn [snd] in HL.
  assert (same_ring c (client session)) as Hs
    by (eapply same_ring_trans; [exact Hc | exact HL]).
  clear HL.
  set (pose := glm_mul (base_frame_ (with_session app session))
                       (glm_inverse (view_mat i))).
  assert (same_ring (SetPoseMatrix kQueueLen c pose)
            (SetPoseMatrix kQueueLen (client session) pose)) as Hpush.
  { destruct Hs as [H1 H2]. split; cbn; congruence. }
  assert (forall (have_frame : bool) off,
            Call_Draw
              (if have_frame
               then DetermineOffset kQueueLen (client session)
               else 0) = Call_Draw off ->
            off = 0 \/
            exists frames,
              off = DetermineOffset kQueueLen (with_latch c frames true))
    as Hoff.
  { intros have_frame off Hin.
    destruct have_frame; [| left; now inversion Hin].
    right. exists (framesLatched_ (client session)). inversion Hin.
    now apply DetermineOffset_latched. }
  destruct status; cbn [is_Success].
  - destruct (send_light _ _ _) as [light |]; [| discriminate].
    destruct (Stats _ _ _ _ _ _ _ _ _ _ _) as [[s stats] |] eqn:Hstats;
      [| discriminate].
    apply Stats_members in Hstats. cbn in Hstats.
    intros [= <- <- <-]. split.
    + right. split; [reflexivity |]. exists pose.
      cbn. rewrite Hstats.
      eapply same_ring_trans; [exact Hpush | apply Release_same_ring].
    + intros off Hin. cbn [Datatypes.app] in Hin.
      destruct Hin as [Hin | Hin]; [apply (Hoff true off Hin) |].
      apply in_app_or in Hin as [Hin | Hin];
        now apply not_Draw_in_client_calls in Hin.
  - intros [= <- <- <-]. split; [left; exact Hs | intros off []].
  - destruct (send_light _ _ _) as [light |]; [| discriminate].
    intros [= <- <- <-]. split.
    + right. split; [reflexivity |]. exists pose. exact Hpush.
    + intros off [Hin | Hin]; [apply (Hoff false off Hin) |].
      now apply not_Draw_in_client_calls in Hin.
  - destruct (send_light _ _ _) as [light |]; [| discriminate].
    intros [= <- <- <-]. split.
    + right. split; [reflexivity |]. exists pose. exact Hpush.
    + intros off [Hin | Hin]; [apply (Hoff false off Hin) |].
      now apply not_Draw_in_client_calls in Hin.
Qed.

Lemma update_image_anchors_no_Draw (updates : list image_update)
  (m m' : gmap Z (option ArAugmentedImage * option ArAnchor))
  (calls calls' : list app_call) (off : Z) :
  update_image_anchors (m, calls) updates = Some (m', calls') ->
  In (Call_Draw off) calls' -> In (Call_Draw off) calls.
Proof.
  revert m calls. induction updates as [| u updates IH]; intros m calls.
  - cbn. now intros [= <- <-].
  - cbn [update_image_anchors]. unfold update_image_anchor.
    destruct (update_tracking_state u).
    + destruct (m !! update_image_index u); [apply IH |].
      destruct (update_new_anchor u) as [[| code] anchor]; [| discriminate].
      intros H Hin. apply (IH _ _ H) in Hin.
      apply in_app_or in Hin as [Hin | [Hin | []]];
        [exact Hin | discriminate Hin].
    + apply IH.
    + intros H Hin. apply (IH _ _ H) in Hin.
      apply in_app_or in Hin as [Hin | [Hin | [Hin | []]]];
        [exact Hin | discriminate Hin | discriminate Hin].
Qed.

Lemma UpdateImageAnchors_no_Draw
  (begin : gmap Z (option ArAugmentedImage * option ArAnchor) ->
           option (Z * (option ArAugmentedImage * option ArAnchor)))
  (updates : option (list image_update)) (app app' : HelloArApplication)
  (calls : list app_call) (off : Z) :
  UpdateImageAnchors begin updates app = Some (app', calls) ->
  ~ In (Call_Draw off) calls.
Proof.
  unfold UpdateImageAnchors.
  destruct (negb _); [intros [= <- <-] [] |].
  destruct updates as [updates |]; [cbv beta iota | discriminate].
  destruct (update_image_anchors _ _) as [[m c] |] eqn:Hrun; [| discriminate].
  assert (~ In (Call_Draw off) c) as Hc
    by (intros Hin; now apply (update_image_anchors_no_Draw _ _ _ _ _ _ Hrun)
                          in Hin).
  destruct (_ && _).
  - destruct (begin m) as [[k record] |]; [| discriminate].
    now intros [= <- <-].
  - now intros [= <- <-].
Qed.

Lemma calibrated_frame_ring (c : CloudXRClient)
  (app app' : HelloArApplication) (result : option cxrError)
  (calls : list app_call) :
  same_ring c (members (cloudxr_client_ app)) ->
  calibrated_frame' app = Some (result, app', calls) ->
  ring_step kQueueLen c result (members (cloudxr_client_ app')) calls.
Proof.
  intros Hc. unfold calibrated_frame.
  destruct (fetch_base_frame_client glm_inverse i app) as (Hcl & _).
  set (app1 := fetch_base_frame' app) in *. clearbody app1.
  rewrite <- Hcl in Hc.
  destruct (negb (IsRunning _)); [| now apply stream_frame_ring].
  destruct (Connect _ _ _) as [[[status s] calls0] |] eqn:Hconn;
    [| discriminate].
  apply Connect_members in Hconn as [receiver Hm]. cbn in Hm.
  assert (same_ring c (members s)) as Hs.
  { rewrite Hm. destruct Hc as [H1 H2]. split; cbn; assumption. }
  destruct (is_Success status); cbn [negb].
  - destruct (stream_frame' (with_client app1 s)) as [[[r a] cs] |] eqn:Hframe;
      [| discriminate].
    intros [= <- <- <-].
    apply (stream_frame_ring c) in Hframe; [| exact Hs].
    destruct Hframe as [Hring Hoff]. split; [exact Hring |].
    intros off Hin. apply in_app_or in Hin as [Hin | Hin];
      [now apply not_Draw_in_client_calls in Hin | now apply Hoff].
  - intros [= <- <- <-]. split; [left; exact Hs |].
    intros off Hin. now apply not_Draw_in_client_calls in Hin.
Qed.

Lemma OnDrawFrame_ring_step (app app' : HelloArApplication)
  (result : option cxrError) (calls : list app_call) :
  OnDrawFrame' app = Some (result, app', calls) ->
  ring_step kQueueLen (members (cloudxr_client_ app)) result
    (members (cloudxr_client_ app')) calls.
Proof.
  unfold OnDrawFrame.
  assert (forall c r, ring_step kQueueLen c r c []) as Hnone
    by (intros c r; split; [left; apply same_ring_refl | intros off []]).
  destruct (exiting_ app); [intros [= <- <- <-]; apply Hnone |].
  destruct (negb (ar_session_ app)); [intros [= <- <- <-]; apply Hnone |].
  set (calls0 := if _ || _ then [Call_Draw 0] else []).
  assert (forall off, In (Call_Draw off) calls0 -> off = 0) as H0.
  { intros off. subst calls0. destruct (_ || _); [| intros []].
    intros [[= <-] | []]. reflexivity. }
  clearbody calls0.
  destruct (negb (is_TRACKING _)).
  { intros [= <- <- <-]. split; [left; apply same_ring_refl |].
    intros off Hin. left. now apply H0. }
  pose proof (pull_frame_same_ring app) as H1.
  set (app1 := pull_frame' app) in *. clearbody app1.
  destruct (UpdateImageAnchors _ _ app1) as [[app2 calls1] |] eqn:Himg;
    [| discriminate].
  pose proof (fun off => UpdateImageAnchors_no_Draw _ _ _ _ _ off Himg)
    as Hno.
  apply UpdateImageAnchors_client in Himg as (Hc & _).
  rewrite <- Hc in H1.
  assert (forall r a cs,
            ring_step kQueueLen (members (cloudxr_client_ app)) r
                      (members (cloudxr_client_ a)) cs ->
            ring_step kQueueLen (members (cloudxr_client_ app)) r
                      (members (cloudxr_client_ a))
                      (calls0 ++ calls1 ++ cs)) as Hcalls.
  { intros r a cs [Hr Ho]. split; [exact Hr |]. intros off Hin.
    apply in_app_or in Hin as [Hin | Hin]; [left; now apply H0 |].
    apply in_app_or in Hin as [Hin | Hin];
      [now apply Hno in Hin | now apply Ho]. }
  destruct (base_frame_calibrated_ app2) eqn:Hcal.
  - destruct (calibrated_frame' app2) as [[[r app3] calls2] |] eqn:Hframe;
      [| discriminate].
    apply (calibrated_frame_ring (members (cloudxr_client_ app)))
      in Hframe; [| exact H1].
    destruct r; [intros [= <- <- <-]; now apply Hcalls |].
    destruct (_ || _); [intros [= <- <- <-]; now apply Hcalls |].
    destruct (calibrate _ _ app3) as [app4 |] eqn:Hplanes; [| discriminate].
    apply calibrate_client in Hplanes as (Hcc & _).
    intros [= <- <- <-]. rewrite Hcc. now apply Hcalls.
  - cbn [orb]. rewrite Hcal. cbn [orb].
    destruct (using_image_anchors_ app2).
    + intros [= <- <- <-]. apply Hcalls.
      split; [left; exact H1 | intros off []].
    + destruct (calibrate _ _ app2) as [app4 |] eqn:Hplanes;
        [| discriminate].
      apply calibrate_client in Hplanes as (Hcc & _).
      intros [= <- <- <-]. rewrite Hcc. apply Hcalls.
      split; [left; exact H1 | intros off []].
Qed.


End FrameRing.

Lemma Connect_calls_create (cxrDeliveryType_Mono_RGBA : Z)
  (o : ConnectOutcomes) (s s' : ClientState) (status : cxrError)
  (calls : list client_call) :
  cloudxr_receiver_ (members s) = None ->
  Connect cxrDeliveryType_Mono_RGBA o s = Some (status, s', calls) ->
  exists d, In (Call_cxrCreateReceiver d) calls.
Proof.
  intros Hr. unfold Connect. rewrite Hr.
  destruct (GetDeviceDesc _ s) as [s0 d0].
  destruct (setup_playback o d0 s0) as [[[d1 s1] c1] |]; [| discriminate].
  destruct (setup_recording o d1 s1) as [[[d2 s2] c2] |]; [| discriminate].
  destruct (receiver_created o) as [err receiver].
  assert (In (Call_cxrCreateReceiver d2)
             (c1 ++ c2 ++ [Call_cxrCreateReceiver d2])) as Hin
    by (apply in_or_app; right; apply in_or_app; right; now left).
  destruct err; try (intros [= <- <- <-]; now exists d2).
  destruct (connected o); try destruct (Teardown _);
    intros [= <- <- <-]; exists d2; apply in_or_app; left;
    first [exact Hin | apply in_or_app; left; exact Hin].
Qed.

Section FrameExit.

Variable kQueueLen : Z.
Variable cxrLatchFrame :
  list sdk_call -> cxrReceiverHandle -> cxrFramesLatched ->
  cxrError * cxrFramesLatched.
Variable cxrReleaseFrame :
  list sdk_call -> option cxrReceiverHandle -> cxrFramesLatched ->
  cxrFramesLatched.
Variable cxrDeliveryType_Mono_RGBA : Z.
Variable CXR_MAX_AMBIENT_LIGHT_SH : nat.
Variables Bad Poor Fair Good Excellent : Z.
Variables EstimatingQuality HighLatency LowBandwidth HighPacketLoss : Z.
Variable glm_inverse : mat4 -> mat4.
Variable glm_mul : mat4 -> mat4 -> mat4.

#[local] Abbreviation pull_frame' := (pull_frame cxrLatchFrame cxrReleaseFrame).
#[local] Abbreviation stream_frame' :=
  (stream_frame kQueueLen cxrLatchFrame cxrReleaseFrame
     CXR_MAX_AMBIENT_LIGHT_SH Bad Poor Fair Good Excellent EstimatingQuality
     HighLatency LowBandwidth HighPacketLoss glm_inverse glm_mul).
#[local] Abbreviation calibrated_frame' :=
  (calibrated_frame kQueueLen cxrLatchFrame cxrReleaseFrame
     cxrDeliveryType_Mono_RGBA CXR_MAX_AMBIENT_LIGHT_SH Bad Poor Fair Good
     Excellent EstimatingQuality HighLatency LowBandwidth HighPacketLoss
     glm_inverse glm_mul).
#[local] Abbreviation OnDrawFrame' :=
  (OnDrawFrame kQueueLen cxrLatchFrame cxrReleaseFrame
     cxrDeliveryType_Mono_RGBA CXR_MAX_AMBIENT_LIGHT_SH Bad Poor Fair Good
     Excellent EstimatingQuality HighLatency LowBandwidth HighPacketLoss
     glm_inverse glm_mul).

Lemma pull_frame_exiting (app : HelloArApplication) :
  exiting_ (pull_frame' app) = exiting_ app.
Proof.
  unfold pull_frame. destruct (_ && _); [| reflexivity].
  destruct (Latch _ _) as [status session].
  destruct (is_Success status); reflexivity.
Qed.

Lemma stream_frame_exit (i : frame_inputs) (app app' : HelloArApplication)
  (result : option cxrError) (calls : list app_call) :
  stream_frame' i app = Some (result, app', calls) ->
  exit_step app result app' calls.
Proof.
  unfold stream_frame.
  destruct (Latch _ _) as [status session].
  destruct status; cbn [is_Success].
  - destruct (send_light _ _ _) as [light |]; [| discriminate].
    destruct (Stats _ _ _ _ _ _ _ _ _ _ _) as [[s stats] |]; [| discriminate].
    intros [= <- <- <-]. reflexivity.
  - intros [= <- <- <-]. split; [discriminate |]. split; [reflexivity |].
    now left.
  - destruct (send_light _ _ _) as [light |]; [| discriminate].
    intros [= <- <- <-]. reflexivity.
  - destruct (send_light _ _ _) as [light |]; [| discriminate].
    intros [= <- <- <-]. reflexivity.
Qed.

Lemma calibrated_frame_exit (i : frame_inputs)
  (app app' : HelloArApplication) (result : option cxrError)
  (calls : list app_call) :
  calibrated_frame' i app = Some (result, app', calls) ->
  exit_step app result app' calls.
Proof.
  unfold calibrated_frame.
  destruct (fetch_base_frame_client glm_inverse i app) as (Hcl & _ & Hex & _).
  set (app1 := fetch_base_frame glm_inverse i app) in *. clearbody app1.
  unfold IsRunning.
  destruct (cloudxr_receiver_ (members (cloudxr_client_ app1))) eqn:Hr;
    cbn [negb].
  { intros H. apply stream_frame_exit in H.
    destruct result; [exact H | unfold exit_step in *; congruence]. }
  destruct (Connect _ _ _) as [[[status s] calls0] |] eqn:Hconn;
    [| discriminate].
  apply Connect_calls_create in Hconn as [d Hd]; [| exact Hr].
  destruct status; cbn [is_Success negb].
  2-4: (intros [= <- <- <-]; split; [discriminate |];
        split; [reflexivity |]; right; exists d; now apply in_map).
  destruct (stream_frame' i (with_client app1 s)) as [[[r a] cs] |] eqn:Hframe;
    [| discriminate].
  intros [= <- <- <-]. apply stream_frame_exit in Hframe.
  destruct r as [status |]; [| cbn in *; congruence].
  destruct Hframe as (H1 & H2 & H3). split; [exact H1 |].
  split; [exact H2 |]. right. exists d. apply in_or_app. left.
  now apply in_map.
Qed.

(** X17. [OnDrawFrame] returns a status other than 0 only from the
    calibrated path, when [Connect] fails or [Latch] reports
    [cxrError_Receiver_Not_Running]; the status is never
    [cxrError_Success], [exiting_] was clear before and is set afterwards,
    and from then on every [OnDrawFrame] returns 0 at once, changing
    nothing and calling nothing, [RenderAudio] refuses and [onAudioReady]
    stops.  A frame that returns 0 leaves [exiting_] as it was. *)
Theorem OnDrawFrame_exit_protocol (i i' : frame_inputs)
  (app app' : HelloArApplication) (result : option cxrError)
  (calls : list app_call) :
  OnDrawFrame' i app = Some (result, app', calls) ->
  match result with
  | None => exiting_ app' = exiting_ app
  | Some status =>
      status <> cxrError_Success /\
      exiting_ app = false /\ exiting_ app' = true /\
      (status = cxrError_Receiver_Not_Running \/
       exists d, In (Call_client (Call_cxrCreateReceiver d)) calls) /\
      OnDrawFrame' i' app' = Some (None, app', []) /\
      (forall numFrames timeout_ns,
         RenderAudio (exiting_ app') numFrames timeout_ns
           (cloudxr_client_ app') = (false, [])) /\
      (forall streamSizeBytes,
         onAudioReady (exiting_ app') streamSizeBytes (cloudxr_client_ app')
         = (Stop, []))
  end.
Proof.
  intros Hrun.
  assert (exit_step app result app' calls /\
          (result <> None -> exiting_ app = false)) as [Hstep Hbefore].
  { revert Hrun. unfold OnDrawFrame.
    destruct (exiting_ app) eqn:Hex.
    { intros [= <- <- <-]. split; [reflexivity | congruence]. }
    split; [| reflexivity]. revert Hrun.
    destruct (negb (ar_session_ app)); [intros [= <- <- <-]; reflexivity |].
    destruct (negb (is_TRACKING _)); [intros [= <- <- <-]; reflexivity |].
    pose proof (pull_frame_exiting app) as H1.
    set (app1 := pull_frame' app) in *. clearbody app1.
    destruct (UpdateImageAnchors _ _ app1) as [[app2 calls1] |] eqn:Himg;
      [| discriminate].
    apply UpdateImageAnchors_client in Himg as (_ & _ & H2 & _).
    assert (forall a a',
              calibrate glm_inverse i a = Some a' ->
              exiting_ a' = exiting_ a) as Hcalib
      by (intros a a' Ha; now apply calibrate_client in Ha).
    destruct (base_frame_calibrated_ app2) eqn:Hcal.
    - destruct (calibrated_frame' i app2) as [[[r app3] calls2] |] eqn:Hframe;
        [| discriminate].
      apply calibrated_frame_exit in Hframe.
      destruct r as [status |].
      + intros [= <- <- <-]. destruct Hframe as (Ha & Hb & [Hc | [d Hd]]).
        * split; [exact Ha |]. split; [exact Hb |]. now left.
        * split; [exact Ha |]. split; [exact Hb |]. right. exists d.
          apply in_or_app. right. apply in_or_app. now right.
      + cbn in Hframe.
        destruct (_ || _);
          [intros [= <- <- <-]; unfold exit_step; congruence |].
        destruct (calibrate _ _ app3) as [app4 |] eqn:Hplanes;
          [| discriminate].
        apply Hcalib in Hplanes.
        intros [= <- <- <-]. unfold exit_step. congruence.
    - cbn [orb]. rewrite Hcal. cbn [orb].
      destruct (using_image_anchors_ app2);
        [intros [= <- <- <-]; unfold exit_step; congruence |].
      destruct (calibrate _ _ app2) as [app4 |] eqn:Hplanes;
        [| discriminate].
      apply Hcalib in Hplanes.
      intros [= <- <- <-]. unfold exit_step. congruence. }
  destruct result as [status |]; [| exact Hstep].
  destruct Hstep as (Ha & Hb & Hc).
  split; [exact Ha |]. split; [apply Hbefore; discriminate |].
  split; [exact Hb |]. split; [exact Hc |].
  split; [unfold OnDrawFrame; now rewrite Hb |].
  rewrite Hb. unfold RenderAudio, onAudioReady.
  split; intros; [destruct (playback_stream_ _) | destruct (recording_stream_ _)];
    reflexivity.
Qed.

End FrameExit.

Lemma OnDrawFrame_releases_what_it_latches_witness :
  exists result app' calls,
    OnDrawFrame 4 frame_always_ready release_keeps_frame 0 9 1 2 3 4 5 1 2 4
      8 (fun a => a) (fun a b => b) quiet_frame (app_streaming 4) =
      Some (result, app', calls) /\
    latched_ (members (cloudxr_client_ app')) = false /\
    exists blocks,
      latch_calls app' = latch_calls (app_streaming 4) ++ concat blocks /\
      Forall latch_block blocks /\ (length blocks <= 2)%nat.
Proof.
  destruct (OnDrawFrame 4 frame_always_ready release_keeps_frame 0 9 1 2 3 4
              5 1 2 4 8 (fun a => a) (fun a b => b) quiet_frame
              (app_streaming 4)) as [[[result app'] calls] |] eqn:Hrun;
    [| vm_compute in Hrun; discriminate Hrun].
  exists result, app', calls. split; [reflexivity |].
  exact (OnDrawFrame_releases_what_it_latches 4 frame_always_ready
           release_keeps_frame 0 9 1 2 3 4 5 1 2 4 8 (fun a => a)
           (fun a b => b) quiet_frame (app_streaming 4) app' result calls
           eq_refl Hrun).
Defined.


Lemma OnDrawFrame_exit_protocol_witness :
  exists app' calls,
    OnDrawFrame 4 frame_always_ready release_keeps_frame 0 9 1 2 3 4 5 1 2 4
      8 (fun a => a) (fun a b => b) quiet_frame (app_calibrated 4) =
      Some (Some (cxrError_Other 5), app', calls) /\
    exiting_ app' = true /\
    OnDrawFrame 4 frame_always_ready release_keeps_frame 0 9 1 2 3 4 5 1 2 4
      8 (fun a => a) (fun a b => b) quiet_frame app' = Some (None, app', []).
Proof.
  destruct (OnDrawFrame 4 frame_always_ready release_keeps_frame 0 9 1 2 3 4
              5 1 2 4 8 (fun a => a) (fun a b => b) quiet_frame
              (app_calibrated 4)) as [[[result app'] calls] |] eqn:Hrun;
    [| vm_compute in Hrun; discriminate Hrun].
  assert (result = Some (cxrError_Other 5)) as ->
    by (vm_compute in Hrun; now inversion Hrun).
  exists app', calls. split; [reflexivity |].
  destruct (OnDrawFrame_exit_protocol 4 frame_always_ready
              release_keeps_frame 0 9 1 2 3 4 5 1 2 4 8 (fun a => a)
              (fun a b => b) quiet_frame quiet_frame (app_calibrated 4) app'
              (Some (cxrError_Other 5)) calls Hrun)
    as (_ & _ & Hex & _ & Hnext & _).
  split; [exact Hex | exact Hnext].
Defined.

Lemma Stats_defined
  (Bad Poor Fair Good Excellent EstimatingQuality HighLatency LowBandwidth
   HighPacketLoss : Z) (answer : cxrError * cxrConnectionStats)
  (s : ClientState) :
  INT_MIN < frames_until_stats_ s ->
  frames_until_stats_ s <= INT_MAX ->
  (fst answer = cxrError_Success ->
   exists n, float_to_int (framesPerSecond (snd answer)) = Some n /\
             INT_MIN <= n * 3 <= INT_MAX) ->
  is_Some (Stats Bad Poor Fair Good Excellent EstimatingQuality HighLatency
             LowBandwidth HighPacketLoss answer s).
Proof.
  intros Hmin Hmax Hfps. unfold Stats.
  rewrite int_result_in_range by (unfold INT_MIN, INT_MAX in *; lia).
  destruct (_ <=? _); [| eauto].
  destruct answer as [status st]. cbn [fst snd] in Hfps.
  destruct status; eauto.
  destruct (Hfps eq_refl) as (n & -> & Hn).
  unfold STATS_INTERVAL_SEC. rewrite int_result_in_range by exact Hn. eauto.
Qed.

Lemma UpdateLightProps_defined (N : nat) (junk : cxrLightProperties)
  (dir int sh : list float) (c : CloudXRClient) :
  (3 <= length dir)%nat -> (3 <= length int)%nat ->
  (N * 3 <= length sh)%nat -> length (ambientLightSh junk) = N ->
  is_Some (UpdateLightProps N junk dir int sh c).
Proof.
  intros Hdir Hint Hsh Hjunk.
  destruct (primary_loop dir int junk Hdir Hint) as (lp1 & Hloop1 & _ & _ & Ha).
  destruct (ambient_loop_written N sh Hsh (N * 3) 0 lp1 ltac:(lia))
    as (lp2 & Hloop2 & _).
  { split; [congruence | intros n Hn; lia]. }
  unfold UpdateLightProps. rewrite Hloop1, Hloop2. eauto.
Qed.

Lemma UpdateImageAnchors_defined
  (begin : gmap Z (option ArAugmentedImage * option ArAnchor) ->
           option (Z * (option ArAugmentedImage * option ArAnchor)))
  (updated_image_list : option (list image_update))
  (app : HelloArApplication) :
  (using_image_anchors_ app = true ->
   (exists updates,
      updated_image_list = Some updates /\
      Forall (fun u => fst (update_new_anchor u) = AR_SUCCESS) updates) /\
   forall m, m <> empty ->
     exists k v, begin m = Some (k, v) /\ m !! k = Some v) ->
  is_Some (UpdateImageAnchors begin updated_image_list app).
Proof.
  intros Hok. unfold UpdateImageAnchors.
  destruct (using_image_anchors_ app); cbn [negb]; [| eauto].
  destruct (Hok eq_refl) as [(updates & -> & Hacq) Hbegin].
  cbv beta iota.
  destruct (update_image_anchors_spec updates (augmented_image_map app) []
              Hacq) as (m' & calls & -> & _).
  destruct (negb (base_frame_calibrated_ _)); cbn [andb]; [| eauto].
  destruct (bool_decide (m' = empty)) eqn:He; cbn [negb]; [eauto |].
  apply bool_decide_eq_false in He.
  destruct (Hbegin m' He) as (k & v & -> & _). eauto.
Qed.

Lemma Connect_defined (cxrDeliveryType_Mono_RGBA : Z) (o : ConnectOutcomes)
  (s : ClientState) :
  audio_answers_ok o ->
  is_Some (Connect cxrDeliveryType_Mono_RGBA o s).
Proof.
  intros Hok.
  destruct (cloudxr_receiver_ (members s)) eqn:Hr.
  - unfold Connect. rewrite Hr. eauto.
  - destruct (Connect_shape cxrDeliveryType_Mono_RGBA o Hok s Hr)
      as (c1 & c2 & -> & _). eauto.
Qed.

Lemma setup_playback_others (o : ConnectOutcomes) (d d' : cxrDeviceDesc)
  (s s' : ClientState) (calls : list client_call) :
  setup_playback o d s = Some (d', s', calls) ->
  frames_until_stats_ s' = frames_until_stats_ s /\
  using_env_lighting_ s' = using_env_lighting_ s.
Proof.
  unfold setup_playback, start_playback. intros H.
  destruct (receiveAudio d); [| now inversion H].
  destruct (playback_opened o) as [[| code] stream]; cbn in H.
  2: { inversion H; split; reflexivity. }
  destruct stream as [a |]; [| discriminate H].
  destruct (int_result _); [| discriminate H].
  destruct (playback_buffer_set o); cbn in H.
  2: { inversion H; split; reflexivity. }
  destruct (playback_started o); cbn in H; inversion H; split; reflexivity.
Qed.

Lemma setup_recording_others (o : ConnectOutcomes) (d d' : cxrDeviceDesc)
  (s s' : ClientState) (calls : list client_call) :
  setup_recording o d s = Some (d', s', calls) ->
  frames_until_stats_ s' = frames_until_stats_ s /\
  using_env_lighting_ s' = using_env_lighting_ s.
Proof.
  unfold setup_recording, start_recording. intros H.
  destruct (sendAudio d); [| now inversion H].
  destruct (recording_opened o) as [[| code] stream]; cbn in H.
  2: { inversion H; split; reflexivity. }
  destruct stream as [a |]; [| discriminate H].
  destruct (recording_started o); cbn in H; inversion H; split; reflexivity.
Qed.

Lemma Connect_others (cxrDeliveryType_Mono_RGBA : Z) (o : ConnectOutcomes)
  (s s' : ClientState) (status : cxrError) (calls : list client_call) :
  Connect cxrDeliveryType_Mono_RGBA o s = Some (status, s', calls) ->
  frames_until_stats_ s' = frames_until_stats_ s /\
  using_env_lighting_ s' = using_env_lighting_ s.
Proof.
  unfold Connect. intros H.
  destruct (cloudxr_receiver_ (members s)) eqn:Hr.
  { inversion H; subst. split; reflexivity. }
  destruct (GetDeviceDesc _ s) as [s0 d0] eqn:Hd.
  assert (frames_until_stats_ s0 = frames_until_stats_ s /\
          using_env_lighting_ s0 = using_env_lighting_ s) as [Ha0 Hb0]
    by (unfold GetDeviceDesc in Hd; inversion Hd; split; reflexivity).
  destruct (setup_playback o d0 s0) as [[[d1 s1] c1] |] eqn:H1;
    [| discriminate H].
  destruct (setup_recording o d1 s1) as [[[d2 s2] c2] |] eqn:H2;
    [| discriminate H].
  apply setup_playback_others in H1 as [Ha1 Hb1].
  apply setup_recording_others in H2 as [Ha2 Hb2].
  destruct (receiver_created o) as [err receiver].
  destruct err.
  2-4: (inversion H; subst; cbn; split; congruence).
  destruct (connected o).
  1: { inversion H; subst. cbn. split; congruence. }
  all: rewrite Teardown_result in H; inversion H; subst; cbn;
    split; congruence.
Qed.

Lemma setup_playback_stats (o : ConnectOutcomes) (d d' : cxrDeviceDesc)
  (s s' : ClientState) (calls : list client_call) :
  setup_playback o d s = Some (d', s', calls) -> stats_ s' = stats_ s.
Proof.
  unfold setup_playback, start_playback. intros H.
  destruct (receiveAudio d); [| now inversion H].
  destruct (playback_opened o) as [[| code] stream]; cbn in H.
  2: { inversion H; reflexivity. }
  destruct stream as [a |]; [| discriminate H].
  destruct (int_result _); [| discriminate H].
  destruct (playback_buffer_set o); cbn in H.
  2: { inversion H; reflexivity. }
  destruct (playback_started o); cbn in H; inversion H; reflexivity.
Qed.

Lemma setup_recording_stats (o : ConnectOutcomes) (d d' : cxrDeviceDesc)
  (s s' : ClientState) (calls : list client_call) :
  setup_recording o d s = Some (d', s', calls) -> stats_ s' = stats_ s.
Proof.
  unfold setup_recording, start_recording. intros H.
  destruct (sendAudio d); [| now inversion H].
  destruct (recording_opened o) as [[| code] stream]; cbn in H.
  2: { inversion H; reflexivity. }
  destruct stream as [a |]; [| discriminate H].
  destruct (recording_started o); cbn in H; inversion H; reflexivity.
Qed.

Lemma Connect_stats (cxrDeliveryType_Mono_RGBA : Z) (o : ConnectOutcomes)
  (s s' : ClientState) (status : cxrError) (calls : list client_call) :
  Connect cxrDeliveryType_Mono_RGBA o s = Some (status, s', calls) ->
  frames_until_stats_ s' = frames_until_stats_ s /\ stats_ s' = stats_ s.
Proof.
  intros H. split; [exact (proj1 (Connect_others _ _ _ _ _ _ H)) |].
  revert H. unfold Connect.
  destruct (cloudxr_receiver_ (members s)) eqn:Hr.
  { now intros [= <- <- <-]. }
  destruct (GetDeviceDesc _ s) as [s0 d0] eqn:Hd.
  assert (stats_ s0 = stats_ s) as H0
    by (unfold GetDeviceDesc in Hd; now inversion Hd).
  destruct (setup_playback o d0 s0) as [[[d1 s1] c1] |] eqn:H1;
    [| discriminate].
  destruct (setup_recording o d1 s1) as [[[d2 s2] c2] |] eqn:H2;
    [| discriminate].
  apply setup_playback_stats in H1. apply setup_recording_stats in H2.
  destruct (receiver_created o) as [err receiver].
  destruct err.
  2-4: (intros H; inversion H; subst; cbn; congruence).
  destruct (connected o).
  1: { intros H. inversion H; subst. cbn. congruence. }
  all: rewrite Teardown_result; intros H; inversion H; subst; cbn;
    congruence.
Qed.

Section FrameDefined.

Variable kQueueLen : Z.
Variable cxrLatchFrame :
  list sdk_call -> cxrReceiverHandle -> cxrFramesLatched ->
  cxrError * cxrFramesLatched.
Variable cxrReleaseFrame :
  list sdk_call -> option cxrReceiverHandle -> cxrFramesLatched ->
  cxrFramesLatched.
Variable cxrDeliveryType_Mono_RGBA : Z.
Variable CXR_MAX_AMBIENT_LIGHT_SH : nat.
Variables Bad Poor Fair Good Excellent : Z.
Variables EstimatingQuality HighLatency LowBandwidth HighPacketLoss : Z.
Variable glm_inverse : mat4 -> mat4.
Variable glm_mul : mat4 -> mat4 -> mat4.
Variable i : frame_inputs.

#[local] Abbreviation pull_frame' :=
  (pull_frame cxrLatchFrame cxrReleaseFrame).
#[local] Abbreviation stream_frame' :=
  (stream_frame kQueueLen cxrLatchFrame cxrReleaseFrame
     CXR_MAX_AMBIENT_LIGHT_SH Bad Poor Fair Good Excellent EstimatingQuality
     HighLatency LowBandwidth HighPacketLoss glm_inverse glm_mul i).
#[local] Abbreviation calibrated_frame' :=
  (calibrated_frame kQueueLen cxrLatchFrame cxrReleaseFrame
     cxrDeliveryType_Mono_RGBA CXR_MAX_AMBIENT_LIGHT_SH Bad Poor Fair Good
     Excellent EstimatingQuality HighLatency LowBandwidth HighPacketLoss
     glm_inverse glm_mul i).
#[local] Abbreviation OnDrawFrame' :=
  (OnDrawFrame kQueueLen cxrLatchFrame cxrReleaseFrame
     cxrDeliveryType_Mono_RGBA CXR_MAX_AMBIENT_LIGHT_SH Bad Poor Fair Good
     Excellent EstimatingQuality HighLatency LowBandwidth HighPacketLoss
     glm_inverse glm_mul i).

Lemma pull_frame_options (app : HelloArApplication) :
  same_options (cloudxr_client_ app) (cloudxr_client_ (pull_frame' app)) /\
  using_image_anchors_ (pull_frame' app) = using_image_anchors_ app.
Proof.
  unfold pull_frame. destruct (_ && _); [| now repeat split].
  destruct (Latch _ _) as [status session].
  destruct (is_Success status); now repeat split.
Qed.

Lemma stream_frame_defined (app : HelloArApplication) :
  (light_estimate_valid i = true ->
   using_env_lighting_ (cloudxr_client_ app) = true ->
   (3 <= length (light_direction i))%nat /\
   (3 <= length (light_intensity i))%nat /\
   (CXR_MAX_AMBIENT_LIGHT_SH * 3 <= length (light_harmonics i))%nat /\
   length (ambientLightSh (light_uninitialised i)) =
     CXR_MAX_AMBIENT_LIGHT_SH) ->
  INT_MIN < frames_until_stats_ (cloudxr_client_ app) <= INT_MAX ->
  (fst (stats_answer i) = cxrError_Success ->
   exists n, float_to_int (framesPerSecond (snd (stats_answer i))) = Some n /\
             INT_MIN <= n * 3 <= INT_MAX) ->
  is_Some (stream_frame' app).
Proof.
  intros Hlight Hcount Hfps. unfold stream_frame.
  destruct (Latch _ _) as [status session].
  assert (forall a,
            using_env_lighting_ (cloudxr_client_ a) =
              using_env_lighting_ (cloudxr_client_ app) ->
            is_Some (send_light CXR_MAX_AMBIENT_LIGHT_SH i a)) as Hsend.
  { intros a Ha. unfold send_light.
    destruct (light_estimate_valid i) eqn:Hv; cbn [andb]; [| eauto].
    rewrite Ha.
    destruct (using_env_lighting_ (cloudxr_client_ app)) eqn:He; [| eauto].
    destruct (Hlight eq_refl eq_refl) as (H1 & H2 & H3 & H4).
    now apply UpdateLightProps_defined. }
  destruct status; cbn [is_Success]; [| eauto | |].
  - match goal with
    | |- context [send_light _ _ ?a] =>
        destruct (Hsend a eq_refl) as [light ->]
    end.
    match goal with
    | |- context [Stats _ _ _ _ _ _ _ _ _ ?answer ?s] =>
        destruct (Stats_defined Bad Poor Fair Good Excellent
                    EstimatingQuality HighLatency LowBandwidth
                    HighPacketLoss answer s) as [[s' stats] ->];
          [exact (proj1 Hcount) | exact (proj2 Hcount) | exact Hfps |]
    end.
    eauto.
  - match goal with
    | |- context [send_light _ _ ?a] =>
        destruct (Hsend a eq_refl) as [light ->]
    end.
    eauto.
  - match goal with
    | |- context [send_light _ _ ?a] =>
        destruct (Hsend a eq_refl) as [light ->]
    end.
    eauto.
Qed.

Lemma pull_frame_calibration (app : HelloArApplication) :
  base_frame_calibrated_ (pull_frame' app) = base_frame_calibrated_ app.
Proof.
  unfold pull_frame. destruct (_ && _); [| reflexivity].
  destruct (Latch _ _) as [status session].
  destruct (is_Success status); reflexivity.
Qed.

Lemma stream_frame_calibration (app app' : HelloArApplication)
  (result : option cxrError) (calls : list app_call) :
  stream_frame' app = Some (result, app', calls) ->
  base_frame_calibrated_ app' = base_frame_calibrated_ app.
Proof.
  unfold stream_frame. destruct (Latch _ _) as [status session].
  destruct status; cbn [is_Success].
  - destruct (send_light _ _ _) as [light |]; [| discriminate].
    destruct (Stats _ _ _ _ _ _ _ _ _ _ _) as [[s stats] |];
      [| discriminate].
    now intros [= <- <- <-].
  - now intros [= <- <- <-].
  - destruct (send_light _ _ _) as [light |]; [| discriminate].
    now intros [= <- <- <-].
  - destruct (send_light _ _ _) as [light |]; [| discriminate].
    now intros [= <- <- <-].
Qed.

Lemma calibrated_frame_calibration (app app' : HelloArApplication)
  (result : option cxrError) (calls : list app_call) :
  calibrated_frame' app = Some (result, app', calls) ->
  base_frame_calibrated_ app' = base_frame_calibrated_ app.
Proof.
  unfold calibrated_frame.
  destruct (fetch_base_frame_client glm_inverse i app)
    as (_ & _ & _ & Hcal & _).
  set (app1 := fetch_base_frame glm_inverse i app) in *. clearbody app1.
  rewrite <- Hcal.
  destruct (negb (IsRunning _)); [| apply stream_frame_calibration].
  destruct (Connect _ _ _) as [[[status s] calls0] |]; [| discriminate].
  destruct (negb (is_Success status)); [now intros [= <- <- <-] |].
  destruct (stream_frame' (with_client app1 s)) as [[[r a] cs] |] eqn:Hframe;
    [| discriminate].
  intros [= <- <- <-]. now apply stream_frame_calibration in Hframe.
Qed.

(** X19. Let the ring invariant hold when [OnDrawFrame] is entered, with
    [kQueueLen > 0], and let the answers of the libraries be as
    [frame_inputs_ok] says: in particular the lists of updated images and
    of planes are created where the frame asks for them.  Then
    [OnDrawFrame] returns, whatever status the SDK reports: no [CHECK]
    aborts, nothing is indexed out of bounds and no [int] overflows; and
    the ring invariant holds again when it returns. *)
Theorem OnDrawFrame_defined (app : HelloArApplication) :
  0 < kQueueLen ->
  ring_ok kQueueLen (members (cloudxr_client_ app)) ->
  frame_inputs_ok CXR_MAX_AMBIENT_LIGHT_SH i app ->
  exists result app' calls,
    OnDrawFrame' app = Some (result, app', calls) /\
    ring_ok kQueueLen (members (cloudxr_client_ app')).
Proof.
  intros HK Hring (Himg & Hplanes & Haudio & Hlight & Hcount & Hfps).
  assert (is_Some (OnDrawFrame' app)) as [[[result app'] calls] Hrun].
  { unfold OnDrawFrame.
    destruct (exiting_ app); [eauto |].
    destruct (negb (ar_session_ app)); [eauto |].
    destruct (negb (is_TRACKING _)); [eauto |].
    destruct (pull_frame_options app) as [[Hc1 He1] Hu1].
    pose proof (pull_frame_calibration app) as Hb1.
    set (app1 := pull_frame' app) in *. clearbody app1.
    destruct (UpdateImageAnchors_defined (image_map_begin i)
                (image_updates i) app1) as [[app2 calls1] Hrun].
    { rewrite Hu1. exact Himg. }
    rewrite Hrun.
    assert (using_image_anchors_ app = false ->
            base_frame_calibrated_ app2 = base_frame_calibrated_ app)
      as Hb2.
    { intros Hu. revert Hrun. unfold UpdateImageAnchors.
      rewrite Hu1, Hu. cbn [negb]. intros [= <- <-]. exact Hb1. }
    apply UpdateImageAnchors_client in Hrun as (Hcl & _ & _ & Hu2).
    assert (base_frame_calibrated_ app2 = false ->
            using_image_anchors_ app2 = false ->
            is_Some (plane_list_size i)) as Hp2.
    { intros Hcal Hu. rewrite Hu2, Hu1 in Hu. apply (Hplanes Hu).
      rewrite <- (Hb2 Hu). exact Hcal. }
    clear Hb2 Hu2.
    assert (is_Some (calibrated_frame' app2)) as [[[r app3] calls2] Hframe].
    { unfold calibrated_frame.
      destruct (fetch_base_frame_client glm_inverse i app2) as (Hf & _).
      set (app2' := fetch_base_frame glm_inverse i app2) in *.
      clearbody app2'.
      assert (forall a,
                same_options (cloudxr_client_ app) (cloudxr_client_ a) ->
                is_Some (stream_frame' a)) as Hstream.
      { intros a [Ha Hb]. apply stream_frame_defined.
        - rewrite Hb. exact Hlight.
        - rewrite Ha. exact Hcount.
        - exact Hfps. }
      destruct (negb (IsRunning _)).
      2: { apply Hstream. rewrite Hf, Hcl. now split. }
      match goal with
      | |- context [Connect _ _ ?s] =>
          destruct (Connect_defined cxrDeliveryType_Mono_RGBA
                      (connect_outcomes i) s Haudio)
            as [[[status s'] calls0] Hconn]
      end.
      rewrite Hconn. apply Connect_others in Hconn as [Ha Hb].
      cbn in Ha, Hb.
      destruct (negb (is_Success status)); [eauto |].
      destruct (Hstream (with_client app2' s')) as [[[r a] c] ->];
        [| eauto].
      cbn. rewrite Hf, Hcl in Ha, Hb. split; congruence. }
    destruct (base_frame_calibrated_ app2) eqn:Hcal.
    - rewrite Hframe. destruct r; [eauto |].
      apply calibrated_frame_calibration in Hframe.
      rewrite Hframe, Hcal. cbn [orb]. eauto.
    - cbn [orb]. rewrite Hcal. cbn [orb].
      destruct (using_image_anchors_ app2); [eauto |].
      destruct (Hp2 eq_refl eq_refl) as [n Hn].
      unfold calibrate. rewrite Hn. eauto. }
  exists result, app', calls. split; [exact Hrun |].
  pose proof Hrun as Hstep.
  apply OnDrawFrame_ring_step in Hstep; [| assumption..].
  destruct Hstep as [[Hsame | (_ & pose & Hsame)] _].
  - eapply same_ring_ok; eassumption.
  - eapply same_ring_ok; [exact Hsame |].
    now apply ring_ok_SetPoseMatrix.
Qed.

End FrameDefined.

Lemma frame_inputs_ok_quiet_frame :
  frame_inputs_ok 9 quiet_frame (app_streaming 4).
Proof.
  split; [intros H; discriminate H |].
  split; [intros _ H; discriminate H |].
  split; [exact audio_answers_ok_connect_failing |].
  split; [intros H; discriminate H |].
  split; [cbn; unfold INT_MIN, INT_MAX; lia |].
  intros _. exists 0. split; [reflexivity | unfold INT_MIN, INT_MAX; lia].
Qed.

Lemma ring_ok_app_streaming :
  ring_ok 4 (members (cloudxr_client_ (app_streaming 4))).
Proof. split; [reflexivity | cbn; lia]. Qed.

Lemma OnDrawFrame_defined_witness :
  exists result app' calls,
    OnDrawFrame 4 frame_always_ready release_keeps_frame 0 9 1 2 3 4 5 1 2 4
      8 (fun a => a) (fun a b => b) quiet_frame (app_streaming 4) =
    Some (result, app', calls) /\
    ring_ok 4 (members (cloudxr_client_ app')).
Proof.
  exact (OnDrawFrame_defined 4 frame_always_ready release_keeps_frame 0 9 1
           2 3 4 5 1 2 4 8 (fun a => a) (fun a b => b) quiet_frame
           (app_streaming 4) ltac:(lia) ring_ok_app_streaming
           frame_inputs_ok_quiet_frame).
Defined.

(** ** The stream resolution and the display *)

Lemma stream_dimension_bounds (d : Z) (rf : float) :
  res_factor_ok rf = true -> 0 <= d < 2 ^ 24 ->
  exists n, stream_dimension d rf = Some n /\
            Z.even n = true /\ d - 2 <= 2 * n /\ n <= d.
Proof.
  intros Hok Hd.
  destruct (res_factor_shape rf Hok) as (mr & er & -> & Hlog & Her & Hone).
  assert (2 ^ 23 <= Zpos mr) as Hmr
    by (apply log2_digits in Hlog; [change (24 - 1) with 23 in Hlog |]; lia).
  assert (1 <= 2 ^ (er + 24)) as Hpow
    by (pose proof (Z.pow_pos_nonneg 2 (er + 24) ltac:(lia) ltac:(lia)); lia).
  assert (2 ^ 23 <= Zpos mr * 2 ^ (er + 24)) as Hhalf by nia.
  set (v := scaled_dimension d mr er).
  assert (v <= d) as Hupper.
  { subst v. etransitivity; [apply scaled_dimension_le; lia |].
    destruct (Z.eq_dec d 0) as [-> | Hne]; [now rewrite rnd24_0 |].
    rewrite rnd24_small; lia. }
  assert ((d + 1) / 2 <= v) as Hlower.
  { subst v. unfold scaled_dimension.
    destruct (Z.eq_dec d 0) as [-> | Hne].
    { change (0 * 2 ^ 23) with 0. rewrite rnd24_0.
      change (0 * (Z.pos mr * 2 ^ (er + 24))) with 0. rewrite rnd24_0.
      reflexivity. }
    rewrite (rnd24_shift d 23), (rnd24_small d) by lia.
    assert (d * 2 ^ 46 <= rnd24 (d * 2 ^ 23 * (Zpos mr * 2 ^ (er + 24))))
      as Hr.
    { rewrite <- (rnd24_small d) at 1 by lia.
      rewrite <- rnd24_shift by lia.
      apply rnd24_mono; [lia |].
      change (2 ^ 46) with (2 ^ 23 * 2 ^ 23). nia. }
    replace ((d + 1) / 2) with ((d * 2 ^ 46 + 2 ^ 46) / 2 ^ 47).
    - apply Z.div_le_mono; lia.
    - replace (d * 2 ^ 46 + 2 ^ 46) with ((d + 1) * 2 ^ 46) by ring.
      change (2 ^ 47) with (2 * 2 ^ 46).
      now rewrite Z.div_mul_cancel_r by lia. }
  assert (0 <= v) as Hv0 by (pose proof (Z.div_pos (d + 1) 2); lia).
  rewrite stream_dimension_spec by (assumption || lia).
  fold v. destruct (Z.ltb_spec v (2 ^ 32)) as [Hlt | Hge]; [| lia].
  eexists. split; [reflexivity |].
  rewrite clear_low_bit by lia.
  split; [now rewrite Z.even_mul |].
  pose proof (Z.div_mod v 2 ltac:(lia)).
  pose proof (Z.mod_pos_bound v 2 ltac:(lia)).
  pose proof (Z.div_mod (d + 1) 2 ltac:(lia)).
  pose proof (Z.mod_pos_bound (d + 1) 2 ltac:(lia)).
  lia.
Qed.

(** X20. With a resolution factor as the option handler leaves it and a
    display of [w x h] pixels, [0 <= w, h < 2^24], in any rotation,
    [OnDisplayGeometryChanged] is defined; it stores the three arguments
    and changes, besides them, only the stream resolution.  Each stream
    dimension is even, at most the display dimension it is computed from
    and, doubled, at least that dimension minus 2; in the rotations 0 and 2
    the smaller display dimension becomes the width. *)
Theorem OnDisplayGeometryChanged_stream_res
  (display_rotation width height : Z) (app : HelloArApplication) :
  res_factor_ok (res_factor_ (members (cloudxr_client_ app))) = true ->
  0 <= width < 2 ^ 24 -> 0 <= height < 2 ^ 24 ->
  exists app' sw sh,
    OnDisplayGeometryChanged display_rotation width height app = Some app' /\
    app' =
      with_client (with_display app display_rotation width height)
        (with_members (cloudxr_client_ app)
           (with_stream_res (members (cloudxr_client_ app)) sw sh)) /\
    Z.even sw = true /\ Z.even sh = true /\
    let portrait :=
      (height <? width)
      && ((to_uint32_t display_rotation =? 0)
          || (to_uint32_t display_rotation =? 2)) in
    let dw := if portrait then height else width in
    let dh := if portrait then width else height in
    dw - 2 <= 2 * sw /\ sw <= dw /\ dh - 2 <= 2 * sh /\ sh <= dh.
Proof.
  intros Hok Hw Hh.
  unfold OnDisplayGeometryChanged, SetStreamRes.
  cbn [display_width_ display_height_ with_display cloudxr_client_].
  assert (to_uint32_t width = width) as ->
    by (unfold to_uint32_t; apply Z.mod_small; lia).
  assert (to_uint32_t height = height) as ->
    by (unfold to_uint32_t; apply Z.mod_small; lia).
  set (portrait := (height <? width) && _).
  assert (exists dw dh,
            (if portrait then (height, width) else (width, height))
            = (dw, dh) /\
            dw = (if portrait then height else width) /\
            dh = (if portrait then width else height) /\
            0 <= dw < 2 ^ 24 /\ 0 <= dh < 2 ^ 24)
    as (dw & dh & -> & Hdw & Hdh & Hbw & Hbh)
    by (destruct portrait; eauto 10).
  destruct (stream_dimension_bounds dw _ Hok Hbw) as (sw & -> & Hew & Hlw).
  destruct (stream_dimension_bounds dh _ Hok Hbh) as (sh & -> & Heh & Hlh).
  eexists _, sw, sh. split; [reflexivity |].
  split; [reflexivity |]. split; [exact Hew |]. split; [exact Heh |].
  cbv zeta. fold portrait. rewrite <- Hdw, <- Hdh. lia.
Qed.

Lemma OnDisplayGeometryChanged_stream_res_witness :
  exists app',
    OnDisplayGeometryChanged 0 1920 1080 (app_initial 4) = Some app' /\
    stream_width_ (members (cloudxr_client_ app')) <= 1080 /\
    stream_height_ (members (cloudxr_client_ app')) <= 1920.
Proof.
  destruct (OnDisplayGeometryChanged_stream_res 0 1920 1080 (app_initial 4)
              eq_refl ltac:(lia) ltac:(lia))
    as (app' & sw & sh & Hrun & Happ & _ & _ & Hb).
  exists app'. split; [exact Hrun |].
  rewrite Happ. cbv zeta in Hb.
  change (to_uint32_t 0) with 0 in Hb. cbn in Hb. cbn. lia.
Defined.

(** ** The projection *)

Lemma two_rows_of_four (p : list (list float)) :
  length p = 2%nat -> Forall (fun row => length row = 4%nat) p ->
  exists a0 a1 a2 a3 b0 b1 b2 b3,
    p = [[a0; a1; a2; a3]; [b0; b1; b2; b3]].
Proof.
  intros H2 H4.
  destruct p as [| r0 [| r1 [| ? ?]]]; try discriminate H2.
  apply Forall_cons in H4 as [H40 H4].
  apply Forall_cons in H4 as [H41 _].
  destruct r0 as [| a0 [| a1 [| a2 [| a3 [| ? ?]]]]]; try discriminate H40.
  destruct r1 as [| b0 [| b1 [| b2 [| b3 [| ? ?]]]]]; try discriminate H41.
  eauto 10.
Qed.

Lemma SetProjectionMatrix_shape (projection : mat4) :
  exists l r t b,
    (forall d,
       length (proj d) = 2%nat ->
       Forall (fun row => length row = 4%nat) (proj d) ->
       SetProjectionMatrix projection d =
       with_proj d [[l; r; t; b]; [l; r; Float32.zero; Float32.zero]]) /\
    (float_gtb (Float32.fabsf (mat4_at projection 2 0)) Float32.lit_0_0001
     = false ->
     l = float_div (float_neg Float32.lit_1_0) (mat4_at projection 0 0) /\
     r = float_neg l /\ b = float_neg t).
Proof.
  destruct (float_gtb (Float32.fabsf (mat4_at projection 2 0))
                      Float32.lit_0_0001) eqn:Hg.
  - eexists _, _, _, _. split; [| intros H; discriminate H].
    intros d H2 H4.
    destruct (two_rows_of_four _ H2 H4)
      as (a0 & a1 & a2 & a3 & b0 & b1 & b2 & b3 & Hd).
    destruct d. cbn in Hd. subst. unfold SetProjectionMatrix.
    rewrite Hg.
    cbn -[float_div float_add float_neg Float32.mul Float32.sub
          Float32.lit_1_0 lit_2_0 mat4_at].
    reflexivity.
  - eexists _, _, _, _. split; [| intros _; repeat split].
    intros d H2 H4.
    destruct (two_rows_of_four _ H2 H4)
      as (a0 & a1 & a2 & a3 & b0 & b1 & b2 & b3 & Hd).
    destruct d. cbn in Hd. subst. unfold SetProjectionMatrix.
    rewrite Hg.
    cbn -[float_div float_add float_neg Float32.mul Float32.sub
          Float32.lit_1_0 lit_2_0 mat4_at].
    reflexivity.
Qed.

(** X21. On a description whose [proj] is two rows of four,
    [SetProjectionMatrix] writes all eight entries and nothing else: the
    result depends on the projection matrix alone, the second row repeats
    the horizontal extent of the first with a zero vertical extent, and a
    second call overrides the first.  The symmetric branch, which a NaN in
    [projection[2][0]] also selects, gives a first row [(x, -x, y, -y)].
    [GetDeviceDesc] keeps the projection, so the two commute. *)
Theorem SetProjectionMatrix_overwrites (cxrDeliveryType_Mono_RGBA : Z)
  (projection : mat4) (d : cxrDeviceDesc) :
  length (proj d) = 2%nat ->
  Forall (fun row => length row = 4%nat) (proj d) ->
  exists l r t b,
    SetProjectionMatrix projection d =
      with_proj d [[l; r; t; b]; [l; r; Float32.zero; Float32.zero]] /\
    (forall d',
       length (proj d') = 2%nat ->
       Forall (fun row => length row = 4%nat) (proj d') ->
       proj (SetProjectionMatrix projection d') =
       [[l; r; t; b]; [l; r; Float32.zero; Float32.zero]]) /\
    (forall projection',
       SetProjectionMatrix projection
         (SetProjectionMatrix projection' d) =
       SetProjectionMatrix projection d) /\
    (float_gtb (Float32.fabsf (mat4_at projection 2 0)) Float32.lit_0_0001
     = false ->
     l = float_div (float_neg Float32.lit_1_0) (mat4_at projection 0 0) /\
     r = float_neg l /\ b = float_neg t) /\
    (mat4_at projection 2 0 = S754_nan ->
     float_gtb (Float32.fabsf (mat4_at projection 2 0)) Float32.lit_0_0001
     = false) /\
    forall s,
      snd (GetDeviceDesc cxrDeliveryType_Mono_RGBA
             (with_device_desc s
                (SetProjectionMatrix projection (device_desc_ s)))) =
      SetProjectionMatrix projection
        (snd (GetDeviceDesc cxrDeliveryType_Mono_RGBA s)).
Proof.
  intros Hlen Hrows.
  destruct (SetProjectionMatrix_shape projection)
    as (l & r & t & b & Hset & Hsym).
  exists l, r, t, b. split; [now apply Hset |].
  split; [| split; [| split; [| split]]].
  - intros d' H2 H4. now rewrite Hset.
  - intros projection'.
    destruct (SetProjectionMatrix_shape projection')
      as (l' & r' & t' & b' & Hset' & _).
    rewrite (Hset' d Hlen Hrows), Hset, (Hset d Hlen Hrows);
      [now destruct d | reflexivity | repeat constructor].
  - exact Hsym.
  - intros Hnan. rewrite Hnan. reflexivity.
  - intros s. unfold GetDeviceDesc. cbn [snd with_device_desc].
    unfold SetProjectionMatrix.
    destruct (float_gtb _ _); reflexivity.
Qed.

Lemma SetProjectionMatrix_overwrites_witness :
  exists l r t b,
    SetProjectionMatrix (translation 0 0 0) cxrDeviceDesc_zero =
    with_proj cxrDeviceDesc_zero
      [[l; r; t; b]; [l; r; Float32.zero; Float32.zero]] /\
    r = float_neg l /\ b = float_neg t.
Proof.
  destruct (SetProjectionMatrix_overwrites 0 (translation 0 0 0)
              cxrDeviceDesc_zero eq_refl ltac:(repeat constructor))
    as (l & r & t & b & Hset & _ & _ & Hsym & _).
  exists l, r, t, b. split; [exact Hset |].
  exact (proj2 (Hsym eq_refl)).
Defined.

(** ** The environment lighting option *)

Lemma set_env_lighting_token (s : ClientState) (tok : list ascii) :
  set_env_lighting s tok =
  match env_lighting_token tok with
  | Some b => with_env_lighting s b
  | None => s
  end.
Proof.
  unfold set_env_lighting, env_lighting_token.
  destruct (decide _); [reflexivity |]. destruct (decide _); reflexivity.
Qed.

(** X22. After the [env-lighting] handler has seen any sequence of tokens,
    [using_env_lighting_] is what the last token that is exactly ["1"] or
    ["0"] says, and its former value (true in a new client) if there is
    none; other tokens are ignored, and no other member changes. *)
Theorem env_lighting_last_valid_token (s : ClientState)
  (toks : list (list ascii)) :
  fold_left set_env_lighting toks s =
  with_env_lighting s
    (List.last (omap env_lighting_token toks) (using_env_lighting_ s)).
Proof.
  revert s. induction toks as [| tok toks IH]; intros s.
  - cbn. now destruct s.
  - cbn [fold_left]. rewrite IH, set_env_lighting_token.
    change (omap env_lighting_token (tok :: toks))
      with (match env_lighting_token tok with
            | Some b => b :: omap env_lighting_token toks
            | None => omap env_lighting_token toks
            end).
    destruct (env_lighting_token tok) as [b |]; [| reflexivity].
    change (using_env_lighting_ (with_env_lighting s b)) with b.
    generalize (omap env_lighting_token toks). intros l.
    rewrite last_cons_default. reflexivity.
Qed.

Lemma env_lighting_last_valid_token_witness :
  using_env_lighting_
    (fold_left set_env_lighting
       [["1"]; ["0"]; ["o"; "n"]; []]%char (initial_state 4 true true))
  = false.
Proof.
  rewrite (env_lighting_last_valid_token (initial_state 4 true true)
             [["1"]; ["0"]; ["o"; "n"]; []]%char).
  reflexivity.
Defined.

(** ** A streamed frame, end to end *)

Lemma GetTrackingState_same_ring (kQueueLen : Z)
  (cxrMatrixToVecQuat : cxrMatrix34 -> cxrVector3 * cxrQuaternion)
  (c c' : CloudXRClient) :
  same_ring c c' ->
  GetTrackingState kQueueLen cxrMatrixToVecQuat c' =
  GetTrackingState kQueueLen cxrMatrixToVecQuat c.
Proof.
  intros [H1 H2]. unfold GetTrackingState. now rewrite H1, H2.
Qed.

Lemma UpdateImageAnchors_calibrated
  (begin : gmap Z (option ArAugmentedImage * option ArAnchor) ->
           option (Z * (option ArAugmentedImage * option ArAnchor)))
  (updates : option (list image_update)) (app app' : HelloArApplication)
  (calls : list app_call) :
  base_frame_calibrated_ app = true ->
  UpdateImageAnchors begin updates app = Some (app', calls) ->
  base_frame_calibrated_ app' = true /\ base_frame_ app' = base_frame_ app /\
  anchor_ app' = anchor_ app /\
  using_dynamic_base_frame_ app' = using_dynamic_base_frame_ app.
Proof.
  intros Hcal. unfold UpdateImageAnchors.
  destruct (negb (using_image_anchors_ app)); [now intros [= <- <-] |].
  destruct updates as [updates |]; [cbv beta iota | discriminate].
  destruct (update_image_anchors _ _) as [[m c] |]; [| discriminate].
  cbn [with_image_map base_frame_calibrated_]. rewrite Hcal. cbn [negb andb].
  now intros [= <- <-].
Qed.

Section FramePose.

Variable kQueueLen : Z.
Hypothesis HK : 0 < kQueueLen.
Variable cxrLatchFrame :
  list sdk_call -> cxrReceiverHandle -> cxrFramesLatched ->
  cxrError * cxrFramesLatched.
Variable cxrReleaseFrame :
  list sdk_call -> option cxrReceiverHandle -> cxrFramesLatched ->
  cxrFramesLatched.
Variable cxrDeliveryType_Mono_RGBA : Z.
Variable CXR_MAX_AMBIENT_LIGHT_SH : nat.
Variables Bad Poor Fair Good Excellent : Z.
Variables EstimatingQuality HighLatency LowBandwidth HighPacketLoss : Z.
Variable glm_inverse : mat4 -> mat4.
Variable glm_mul : mat4 -> mat4 -> mat4.
Variable cxrMatrixToVecQuat : cxrMatrix34 -> cxrVector3 * cxrQuaternion.
Variable i : frame_inputs.

#[local] Abbreviation pull_frame' :=
  (pull_frame cxrLatchFrame cxrReleaseFrame).
#[local] Abbreviation stream_frame' :=
  (stream_frame kQueueLen cxrLatchFrame cxrReleaseFrame
     CXR_MAX_AMBIENT_LIGHT_SH Bad Poor Fair Good Excellent EstimatingQuality
     HighLatency LowBandwidth HighPacketLoss glm_inverse glm_mul i).
#[local] Abbreviation calibrated_frame' :=
  (calibrated_frame kQueueLen cxrLatchFrame cxrReleaseFrame
     cxrDeliveryType_Mono_RGBA CXR_MAX_AMBIENT_LIGHT_SH Bad Poor Fair Good
     Excellent EstimatingQuality HighLatency LowBandwidth HighPacketLoss
     glm_inverse glm_mul i).
#[local] Abbreviation OnDrawFrame' :=
  (OnDrawFrame kQueueLen cxrLatchFrame cxrReleaseFrame
     cxrDeliveryType_Mono_RGBA CXR_MAX_AMBIENT_LIGHT_SH Bad Poor Fair Good
     Excellent EstimatingQuality HighLatency LowBandwidth HighPacketLoss
     glm_inverse glm_mul i).

Lemma stream_frame_push (c : CloudXRClient) (app app' : HelloArApplication)
  (calls : list app_call) :
  same_ring c (members (cloudxr_client_ app)) ->
  stream_frame' app = Some (None, app', calls) ->
  same_ring (SetPoseMatrix kQueueLen c (glm_mul (base_frame_ app) (glm_inverse (view_mat i))))
            (members (cloudxr_client_ app')) /\
  base_frame_ app' = base_frame_ app /\
  base_frame_calibrated_ app' = base_frame_calibrated_ app.
Proof.
  intros Hc. unfold stream_frame.
  pose proof (Latch_same_ring cxrLatchFrame (session_of app)) as HL.
  destruct (Latch cxrLatchFrame (session_of app)) as [status session].
  cbn [snd] in HL.
  assert (same_ring c (client session)) as Hs
    by (eapply same_ring_trans; [exact Hc | exact HL]).
  clear HL.
  assert (same_ring (SetPoseMatrix kQueueLen c (glm_mul (base_frame_ app) (glm_inverse (view_mat i))))
            (SetPoseMatrix kQueueLen (client session) (glm_mul (base_frame_ app) (glm_inverse (view_mat i)))))
    as Hpush.
  { destruct Hs as [H1 H2]. split; cbn; congruence. }
  destruct status; cbn [is_Success]; [| discriminate | |].
  - destruct (send_light _ _ _) as [light |]; [| discriminate].
    destruct (Stats _ _ _ _ _ _ _ _ _ _ _) as [[s stats] |] eqn:Hstats;
      [| discriminate].
    apply Stats_members in Hstats. cbn in Hstats.
    intros [= <- <-]. split; [| split; reflexivity].
    cbn. rewrite Hstats.
    eapply same_ring_trans; [exact Hpush | apply Release_same_ring].
  - destruct (send_light _ _ _) as [light |]; [| discriminate].
    intros [= <- <-]. split; [exact Hpush | split; reflexivity].
  - destruct (send_light _ _ _) as [light |]; [| discriminate].
    intros [= <- <-]. split; [exact Hpush | split; reflexivity].
Qed.

Lemma calibrated_frame_push (c : CloudXRClient)
  (app app' : HelloArApplication) (calls : list app_call) :
  same_ring c (members (cloudxr_client_ app)) ->
  calibrated_frame' app = Some (None, app', calls) ->
  same_ring (SetPoseMatrix kQueueLen c (glm_mul (base_frame_ app') (glm_inverse (view_mat i))))
            (members (cloudxr_client_ app')) /\
  base_frame_calibrated_ app' = base_frame_calibrated_ app.
Proof.
  intros Hc. unfold calibrated_frame.
  destruct (fetch_base_frame_client glm_inverse i app)
    as (Hcl & _ & _ & Hcal & _).
  set (app1 := fetch_base_frame glm_inverse i app) in *. clearbody app1.
  rewrite <- Hcl in Hc. rewrite <- Hcal.
  assert (forall a a' cs,
            same_ring c (members (cloudxr_client_ a)) ->
            stream_frame' a = Some (None, a', cs) ->
            same_ring (SetPoseMatrix kQueueLen c (glm_mul (base_frame_ a') (glm_inverse (view_mat i))))
                      (members (cloudxr_client_ a')) /\
            base_frame_calibrated_ a' = base_frame_calibrated_ a) as Hstream.
  { intros a a' cs Ha Hrun.
    destruct (stream_frame_push c a a' cs Ha Hrun) as (H1 & H2 & H3).
    rewrite H2. now split. }
  destruct (negb (IsRunning _)); [| now apply Hstream].
  destruct (Connect _ _ _) as [[[status s] calls0] |] eqn:Hconn;
    [| discriminate].
  apply Connect_members in Hconn as [receiver Hm]. cbn in Hm.
  assert (same_ring c (members s)) as Hs.
  { rewrite Hm. destruct Hc as [H1 H2]. split; cbn; assumption. }
  destruct (is_Success status); cbn [negb]; [| discriminate].
  destruct (stream_frame' (with_client app1 s)) as [[[r a] cs] |] eqn:Hframe;
    [| discriminate].
  intros [= -> <- <-].
  now apply (Hstream (with_client app1 s) a cs).
Qed.

(** X23. In a frame of a calibrated application with a session and a
    tracking camera that returns 0, one pose is pushed into the ring: the
    product of [base_frame_], as it is when the frame ends, and the inverse
    of the view matrix of this frame.  [GetTrackingState], called by the
    SDK after the frame, converts exactly that pose, whether or not a video
    frame was latched. *)
Theorem OnDrawFrame_pose_reaches_server (app app' : HelloArApplication)
  (calls : list app_call) :
  ring_ok kQueueLen (members (cloudxr_client_ app)) ->
  exiting_ app = false -> ar_session_ app = true ->
  camera_tracking_state i = AR_TRACKING_STATE_TRACKING ->
  base_frame_calibrated_ app = true ->
  OnDrawFrame' app = Some (None, app', calls) ->
  let pose := glm_mul (base_frame_ app') (glm_inverse (view_mat i)) in
  let state :=
    GetTrackingState kQueueLen cxrMatrixToVecQuat
      (members (cloudxr_client_ app')) in
  same_ring (SetPoseMatrix kQueueLen (members (cloudxr_client_ app)) pose)
            (members (cloudxr_client_ app')) /\
  (position state, rotation state) = cxrMatrixToVecQuat (pose_of_mat4 pose).
Proof.
  intros Hok Hex Hses Hcam Hcal Hrun. cbv zeta.
  assert (same_ring
            (SetPoseMatrix kQueueLen (members (cloudxr_client_ app))
               (glm_mul (base_frame_ app') (glm_inverse (view_mat i))))
            (members (cloudxr_client_ app'))) as Hpush.
  { revert Hrun. unfold OnDrawFrame.
    rewrite Hex, Hses, Hcam. cbn [negb is_TRACKING].
    pose proof (pull_frame_same_ring cxrLatchFrame cxrReleaseFrame app) as H1.
    assert (base_frame_calibrated_ (pull_frame' app) = true) as Hc1.
    { unfold pull_frame. rewrite Hcal. cbn [negb andb]. exact Hcal. }
    set (app1 := pull_frame' app) in *. clearbody app1.
    destruct (UpdateImageAnchors _ _ app1) as [[app2 calls1] |] eqn:Himg;
      [| discriminate].
    destruct (UpdateImageAnchors_calibrated _ _ _ _ _ Hc1 Himg) as (Hc2 & _).
    apply UpdateImageAnchors_client in Himg as (Hcl & _).
    rewrite <- Hcl in H1. rewrite Hc2.
    destruct (calibrated_frame' app2) as [[[r app3] calls2] |] eqn:Hframe;
      [| discriminate].
    destruct r as [status |]; [discriminate |].
    destruct (calibrated_frame_push _ _ _ _ H1 Hframe) as [Hp Hc3].
    rewrite Hc3, Hc2. cbn [orb]. now intros [= <- <-]. }
  split; [exact Hpush |].
  rewrite (GetTrackingState_same_ring _ _ _ _ Hpush).
  unfold GetTrackingState.
  destruct (latest_after_push kQueueLen HK _ (glm_mul (base_frame_ app') (glm_inverse (view_mat i))) Hok)
    as [_ Hslot].
  cbv zeta in Hslot. rewrite Hslot.
  destruct (cxrMatrixToVecQuat _); reflexivity.
Qed.

(** X24. After [OnPause] the client is torn down, so the next frame of a
    calibrated application with a session and a tracking camera connects
    anew: it calls [cxrCreateReceiver], whatever the state of the client
    was before the pause, and if it returns 0 a receiver is there again or
    [cxrCreateReceiver] left none. *)
Theorem OnPause_then_frame_reconnects (app app' : HelloArApplication)
  (result : option cxrError) (calls : list app_call) :
  exiting_ app = false -> ar_session_ app = true ->
  camera_tracking_state i = AR_TRACKING_STATE_TRACKING ->
  base_frame_calibrated_ app = true ->
  OnDrawFrame' (fst (OnPause app)) = Some (result, app', calls) ->
  IsRunning (members (cloudxr_client_ (fst (OnPause app)))) = false /\
  exists d, In (Call_client (Call_cxrCreateReceiver d)) calls.
Proof.
  intros Hex Hses Hcam Hcal.
  unfold OnPause. rewrite Teardown_result. cbn [fst].
  set (paused := with_client app _).
  assert (cloudxr_receiver_ (members (cloudxr_client_ paused)) = None) as Hr
    by reflexivity.
  assert (exiting_ paused = false /\ ar_session_ paused = true /\
          base_frame_calibrated_ paused = true) as (Hex' & Hses' & Hcal')
    by (subst paused; cbn; auto).
  clearbody paused. intros Hrun.
  split; [unfold IsRunning; now rewrite Hr |].
  revert Hrun. unfold OnDrawFrame.
  rewrite Hex', Hses', Hcam. cbn [negb is_TRACKING].
  assert (pull_frame' paused = paused) as ->
    by (unfold pull_frame; rewrite Hcal'; reflexivity).
  destruct (UpdateImageAnchors _ _ paused) as [[app2 calls1] |] eqn:Himg;
    [| discriminate].
  destruct (UpdateImageAnchors_calibrated _ _ _ _ _ Hcal' Himg) as (Hc2 & _).
  apply UpdateImageAnchors_client in Himg as (Hcl & _).
  rewrite Hc2.
  destruct (calibrated_frame' app2) as [[[r app3] calls2] |] eqn:Hframe;
    [| discriminate].
  assert (exists d, In (Call_client (Call_cxrCreateReceiver d)) calls2)
    as [d Hd].
  { revert Hframe. unfold calibrated_frame.
    destruct (fetch_base_frame_client glm_inverse i app2) as (Hf & _).
    set (app2' := fetch_base_frame glm_inverse i app2) in *.
    clearbody app2'. cbv zeta. unfold IsRunning. rewrite Hf, Hcl, Hr.
    cbn [negb].
    destruct (Connect _ _ _) as [[[status s] calls0] |] eqn:Hconn;
      [| discriminate].
    apply Connect_calls_create in Hconn as [d Hd];
      [| cbn; exact Hr].
    destruct (negb (is_Success status)).
    - intros [= <- <- <-]. exists d. now apply in_map.
    - destruct (stream_frame' _) as [[[r' a] cs] |]; [| discriminate].
      intros [= <- <- <-]. exists d. apply in_or_app. left.
      now apply in_map. }
  assert (In (Call_client (Call_cxrCreateReceiver d))
             ((if negb false || negb (base_frame_calibrated_ paused)
               then [Call_Draw 0] else []) ++ calls1 ++ calls2)) as Hin
    by (apply in_or_app; right; apply in_or_app; now right).
  unfold IsRunning. rewrite Hr.
  destruct r; [intros [= <- <- <-]; now exists d |].
  destruct (base_frame_calibrated_ app3 || using_image_anchors_ app3);
    [intros [= <- <- <-]; now exists d |].
  destruct (calibrate _ _ app3) as [app4 |]; [| discriminate].
  intros [= <- <- <-]. now exists d.
Qed.

End FramePose.

Lemma OnDrawFrame_pose_reaches_server_witness :
  exists app' calls,
    OnDrawFrame 4 frame_always_ready release_keeps_frame 0 9 1 2 3 4 5 1 2 4
      8 (fun a => a) (fun a b => b) quiet_frame (app_streaming 4) =
      Some (None, app', calls) /\
    position
      (GetTrackingState 4 translation_part (members (cloudxr_client_ app')))
    = CxrVector3 Float32.zero Float32.zero Float32.zero.
Proof.
  destruct (OnDrawFrame 4 frame_always_ready release_keeps_frame 0 9 1 2 3 4
              5 1 2 4 8 (fun a => a) (fun a b => b) quiet_frame
              (app_streaming 4)) as [[[result app'] calls] |] eqn:Hrun;
    [| vm_compute in Hrun; discriminate Hrun].
  assert (result = None) as ->
    by (vm_compute in Hrun; now inversion Hrun).
  exists app', calls. split; [reflexivity |].
  destruct (OnDrawFrame_pose_reaches_server 4 ltac:(lia) frame_always_ready
              release_keeps_frame 0 9 1 2 3 4 5 1 2 4 8 (fun a => a)
              (fun a b => b) translation_part quiet_frame (app_streaming 4)
              app' calls (ring_ok_initial 4 ltac:(lia)) eq_refl eq_refl
              eq_refl eq_refl Hrun) as [_ Hstate].
  cbv zeta in Hstate.
  apply (f_equal fst) in Hstate. cbn [fst] in Hstate. rewrite Hstate.
  reflexivity.
Defined.

Lemma OnPause_then_frame_reconnects_witness :
  exists result app' calls d,
    OnDrawFrame 4 frame_always_ready release_keeps_frame 0 9 1 2 3 4 5 1 2 4
      8 (fun a => a) (fun a b => b) quiet_frame
      (fst (OnPause (app_streaming 4))) = Some (result, app', calls) /\
    In (Call_client (Call_cxrCreateReceiver d)) calls.
Proof.
  destruct (OnDrawFrame 4 frame_always_ready release_keeps_frame 0 9 1 2 3 4
              5 1 2 4 8 (fun a => a) (fun a b => b) quiet_frame
              (fst (OnPause (app_streaming 4))))
    as [[[result app'] calls] |] eqn:Hrun;
    [| vm_compute in Hrun; discriminate Hrun].
  destruct (OnPause_then_frame_reconnects 4 frame_always_ready
              release_keeps_frame 0 9 1 2 3 4 5 1 2 4 8 (fun a => a)
              (fun a b => b) quiet_frame (app_streaming 4) app' result calls
              eq_refl eq_refl eq_refl eq_refl Hrun) as [_ [d Hd]].
  exists result, app', calls, d. split; [reflexivity | exact Hd].
Defined.

(** ** The statistics count video frames *)

Section FrameStats.

Variable kQueueLen : Z.
Variable cxrLatchFrame :
  list sdk_call -> cxrReceiverHandle -> cxrFramesLatched ->
  cxrError * cxrFramesLatched.
Variable cxrReleaseFrame :
  list sdk_call -> option cxrReceiverHandle -> cxrFramesLatched ->
  cxrFramesLatched.
Variable cxrDeliveryType_Mono_RGBA : Z.
Variable CXR_MAX_AMBIENT_LIGHT_SH : nat.
Variables Bad Poor Fair Good Excellent : Z.
Variables EstimatingQuality HighLatency LowBandwidth HighPacketLoss : Z.
Variable glm_inverse : mat4 -> mat4.
Variable glm_mul : mat4 -> mat4 -> mat4.
Variable i : frame_inputs.

#[local] Abbreviation pull_frame' :=
  (pull_frame cxrLatchFrame cxrReleaseFrame).
#[local] Abbreviation stream_frame' :=
  (stream_frame kQueueLen cxrLatchFrame cxrReleaseFrame
     CXR_MAX_AMBIENT_LIGHT_SH Bad Poor Fair Good Excellent EstimatingQuality
     HighLatency LowBandwidth HighPacketLoss glm_inverse glm_mul i).
#[local] Abbreviation calibrated_frame' :=
  (calibrated_frame kQueueLen cxrLatchFrame cxrReleaseFrame
     cxrDeliveryType_Mono_RGBA CXR_MAX_AMBIENT_LIGHT_SH Bad Poor Fair Good
     Excellent EstimatingQuality HighLatency LowBandwidth HighPacketLoss
     glm_inverse glm_mul i).
#[local] Abbreviation OnDrawFrame' :=
  (OnDrawFrame kQueueLen cxrLatchFrame cxrReleaseFrame
     cxrDeliveryType_Mono_RGBA CXR_MAX_AMBIENT_LIGHT_SH Bad Poor Fair Good
     Excellent EstimatingQuality HighLatency LowBandwidth HighPacketLoss
     glm_inverse glm_mul i).

Lemma stream_frame_counts (app app' : HelloArApplication)
  (result : option cxrError) (calls : list app_call) :
  latched_ (members (cloudxr_client_ app)) = false ->
  stream_frame' app = Some (result, app', calls) ->
  counted_or_blitted (cloudxr_client_ app) (cloudxr_client_ app') calls.
Proof.
  destruct app as [ex ses fr uia udb cal bf an im pc dr dw dh cl lc].
  destruct cl as [c ra sa el d f rec play st n].
  destruct c as [receiver rf sw sh fl latched ring cur].
  cbn. intros ->. unfold stream_frame, Latch. cbn.
  destruct receiver as [receiver |]; cbn.
  2: { intros [= <- <- <-]. now left. }
  destruct (cxrLatchFrame lc receiver fl) as [status frames].
  destruct status; cbn.
  - destruct (send_light _ _ _) as [light |]; [| discriminate].
    destruct (Stats _ _ _ _ _ _ _ _ _ _ _) as [[s stats] |]; [| discriminate].
    intros [= <- <- <-]. right. exists receiver, frames.
    right. apply in_or_app. right. now left.
  - intros [= <- <- <-]. now left.
  - destruct (send_light _ _ _) as [light |]; [| discriminate].
    intros [= <- <- <-]. now left.
  - destruct (send_light _ _ _) as [light |]; [| discriminate].
    intros [= <- <- <-]. now left.
Qed.

Lemma counted_or_blitted_calls (s s0 s' : ClientState)
  (pre calls : list app_call) :
  frames_until_stats_ s0 = frames_until_stats_ s ->
  stats_ s0 = stats_ s ->
  counted_or_blitted s0 s' calls ->
  counted_or_blitted s s' (pre ++ calls).
Proof.
  intros Hf Hs [[H1 H2] | (receiver & frames & Hin)].
  - left. split; congruence.
  - right. exists receiver, frames. apply in_or_app. now right.
Qed.

(** X25. The countdown of [Stats] counts video frames, not calls of
    [OnDrawFrame]: in a frame entered with no frame latched, either a video
    frame was latched and blitted ([cxrBlitFrame] is among the calls), or
    [frames_until_stats_] and [stats_] are exactly as before. *)
Theorem OnDrawFrame_stats_count_video_frames (app app' : HelloArApplication)
  (result : option cxrError) (calls : list app_call) :
  latched_ (members (cloudxr_client_ app)) = false ->
  OnDrawFrame' app = Some (result, app', calls) ->
  (frames_until_stats_ (cloudxr_client_ app') =
     frames_until_stats_ (cloudxr_client_ app) /\
   stats_ (cloudxr_client_ app') = stats_ (cloudxr_client_ app)) \/
  exists receiver frames,
    In (Call_client (Call_cxrBlitFrame receiver frames)) calls.
Proof.
  intros Hl.
  change (_ \/ _)
    with (counted_or_blitted (cloudxr_client_ app) (cloudxr_client_ app')
            calls).
  unfold OnDrawFrame.
  assert (forall a, counted_or_blitted (cloudxr_client_ a)
                      (cloudxr_client_ a) []) as Hrefl
    by (intros a; left; now split).
  destruct (exiting_ app); [intros [= <- <- <-]; apply Hrefl |].
  destruct (negb (ar_session_ app)); [intros [= <- <- <-]; apply Hrefl |].
  set (calls0 := if _ || _ then [Call_Draw 0] else []). clearbody calls0.
  destruct (negb (is_TRACKING _)).
  { intros [= <- <- <-]. left. now split. }
  pose proof (pull_frame_paired cxrLatchFrame cxrReleaseFrame app Hl)
    as [Hl1 _].
  assert (frames_until_stats_ (cloudxr_client_ (pull_frame' app)) =
            frames_until_stats_ (cloudxr_client_ app) /\
          stats_ (cloudxr_client_ (pull_frame' app)) =
            stats_ (cloudxr_client_ app)) as [Hf1 Hs1].
  { unfold pull_frame. destruct (_ && _); [| now split].
    destruct (Latch _ _) as [status session].
    destruct (is_Success status); now split. }
  set (app1 := pull_frame' app) in *. clearbody app1.
  destruct (UpdateImageAnchors _ _ app1) as [[app2 calls1] |] eqn:Himg;
    [| discriminate].
  apply UpdateImageAnchors_client in Himg as (Hcl & _).
  assert (forall a a',
            calibrate glm_inverse i a = Some a' ->
            cloudxr_client_ a' = cloudxr_client_ a) as Hcalib
    by (intros a a' Ha; now apply calibrate_client in Ha).
  assert (forall r a cs,
            calibrated_frame' app2 = Some (r, a, cs) ->
            counted_or_blitted (cloudxr_client_ app) (cloudxr_client_ a)
              (calls0 ++ calls1 ++ cs)) as Hframe.
  { intros r a cs. unfold calibrated_frame.
    destruct (fetch_base_frame_client glm_inverse i app2) as (Hf & _).
    set (app2' := fetch_base_frame glm_inverse i app2) in *.
    clearbody app2'. rewrite app_assoc.
    destruct (negb (IsRunning _)).
    2: { intros H. apply stream_frame_counts in H; [| congruence].
         eapply counted_or_blitted_calls; [| | exact H]; congruence. }
    destruct (Connect _ _ _) as [[[status s] calls2] |] eqn:Hconn;
      [| discriminate].
    pose proof (Connect_members _ _ _ _ _ _ Hconn) as [receiver Hm].
    pose proof (Connect_stats _ _ _ _ _ _ Hconn) as [Ha Hb].
    cbn in Hm, Ha, Hb.
    destruct (negb (is_Success status)).
    - intros [= <- <- <-]. left. cbn. split; congruence.
    - destruct (stream_frame' (with_client app2' s)) as [[[r' a'] cs'] |]
        eqn:Hstream; [| discriminate].
      intros [= <- <- <-].
      apply stream_frame_counts in Hstream;
        [| cbn; rewrite Hm; cbn; congruence].
      rewrite app_assoc.
      eapply counted_or_blitted_calls; [| | exact Hstream]; cbn; congruence. }
  destruct (base_frame_calibrated_ app2) eqn:Hcal.
  - destruct (calibrated_frame' app2) as [[[r app3] calls2] |] eqn:Hrun;
      [| discriminate].
    clear Hrun. pose proof (Hframe _ _ _ eq_refl) as Hrun.
    destruct r; [intros [= <- <- <-]; exact Hrun |].
    destruct (base_frame_calibrated_ app3 || using_image_anchors_ app3);
      [intros [= <- <- <-]; exact Hrun |].
    destruct (calibrate _ _ app3) as [app4 |] eqn:Hplanes; [| discriminate].
    apply Hcalib in Hplanes.
    intros [= <- <- <-]. rewrite Hplanes. exact Hrun.
  - cbn [orb]. rewrite Hcal. cbn [orb].
    destruct (using_image_anchors_ app2);
      [intros [= <- <- <-]; left; split; congruence |].
    destruct (calibrate _ _ app2) as [app4 |] eqn:Hplanes; [| discriminate].
    apply Hcalib in Hplanes.
    intros [= <- <- <-]. left. split; congruence.
Qed.

End FrameStats.

Lemma OnDrawFrame_stats_count_video_frames_witness :
  exists app' calls,
    OnDrawFrame 4 frame_on_third_call release_keeps_frame 0 9 1 2 3 4 5 1 2 4
      8 (fun a => a) (fun a b => b) quiet_frame (app_streaming 4) =
      Some (None, app', calls) /\
    frames_until_stats_ (cloudxr_client_ app') = 60.
Proof.
  destruct (OnDrawFrame 4 frame_on_third_call release_keeps_frame 0 9 1 2 3 4
              5 1 2 4 8 (fun a => a) (fun a b => b) quiet_frame
              (app_streaming 4)) as [[[result app'] calls] |] eqn:Hrun;
    [| vm_compute in Hrun; discriminate Hrun].
  assert (result = None /\
          forall receiver frames,
            ~ In (Call_client (Call_cxrBlitFrame receiver frames)) calls)
    as [-> Hno].
  { vm_compute in Hrun. inversion Hrun. split; [reflexivity |].
    intros receiver frames [Hin | []]. discriminate Hin. }
  exists app', calls. split; [reflexivity |].
  destruct (OnDrawFrame_stats_count_video_frames 4 frame_on_third_call
              release_keeps_frame 0 9 1 2 3 4 5 1 2 4 8 (fun a => a)
              (fun a b => b) quiet_frame (app_streaming 4) app' None calls
              eq_refl Hrun) as [[Hf _] | (receiver & frames & Hin)].
  - exact Hf.
  - now apply Hno in Hin.
Defined.
